(** * ccls indexer (src/indexer.cc): a shallow embedding and its properties

    The development follows the layout of [indexer.cc]:
    - the location records and symbol kinds the indexer stores,
    - the classifier [getKind] / [getDeclLanguage],
    - the identity resolver [getUsr] with its declaration cache,
    - file staging ([IndexParam::seenFile], [IndexParam::consumeFile]),
    - the per-file index and its entity accessors [toFunc]/[toType]/[toVar],
    - the preprocessor callbacks and the declaration-occurrence handler,
    - the driver [idx::index] with its post-pass ([uniquify], dependencies),
    - the textual and binary [reflect] functions of the location records,
    - the text helpers [simplifyAnonymous], [setName] and [getComment], and
      the field walk of [collectRecordMembers].

    Machine integers are [Z] with their wrap-around written out, strings are
    [string], [std::unordered_map] is [gmap], [std::vector] is [list]. *)

From Stdlib Require Import ZArith Ascii String List Lia.
From Stdlib Require Strings.Byte.
From stdpp Require Import base decidable countable list gmap strings.

Local Open Scope Z_scope.

(** ** Basic data *)

(** [Usr] is [uint64_t]; [FileID] is clang's opaque file handle; a [Decl] is
    the address of an AST node ([const Decl *]). *)
Abbreviation Usr := Z.
Abbreviation FileID := Z.
Abbreviation Decl := N.

(** [enum class Kind : uint8_t { Invalid, File, Type, Func, Var }]. *)
Inductive Kind := KInvalid | KFile | KType | KFunc | KVar.

(** The members of [SymbolKind] that the indexer mentions.  The trailing four
    are the ccls extensions. *)
Inductive SymbolKind :=
  | SkUnknown | SkFile | SkNamespace | SkClass | SkMethod | SkProperty
  | SkField | SkConstructor | SkEnum | SkInterface | SkFunction | SkVariable
  | SkNull | SkEnumMember | SkStruct | SkTypeParameter
  | SkTypeAlias | SkParameter | SkStaticMethod | SkMacro.

Inductive LanguageId := LangUnknown | LangC | LangCpp | LangObjC | LangObjCpp.

(** [clang::TagTypeKind]. *)
Inductive TagTypeKind := TTK_Struct | TTK_Interface | TTK_Union | TTK_Class | TTK_Enum.

(** [clang::Decl::Kind]: every category named by [getKind] or
    [getDeclLanguage], and the remaining categories of the engine, which both
    functions send to their [default] arm. *)
Inductive DeclKind :=
  | DkLinkageSpec | DkNamespace | DkNamespaceAlias
  | DkObjCCategory | DkObjCCategoryImpl | DkObjCImplementation
  | DkObjCInterface | DkObjCProtocol | DkObjCMethod | DkObjCProperty
  | DkClassTemplate | DkFunctionTemplate | DkTypeAliasTemplate | DkVarTemplate
  | DkTemplateTemplateParm | DkEnum | DkCXXRecord | DkRecord
  | DkClassTemplateSpecialization | DkClassTemplatePartialSpecialization
  | DkTemplateTypeParm | DkTypeAlias | DkTypedef | DkUnresolvedUsingTypename
  | DkUsing | DkBinding | DkField | DkObjCIvar | DkFunction | DkCXXMethod
  | DkCXXConstructor | DkCXXConversion | DkCXXDestructor
  | DkNonTypeTemplateParm | DkVar | DkDecomposition | DkImplicitParam
  | DkParmVar | DkVarTemplateSpecialization
  | DkVarTemplatePartialSpecialization | DkEnumConstant
  | DkUnresolvedUsingValue | DkTranslationUnit
  (* named by getDeclLanguage only *)
  | DkObjCAtDefsField | DkObjCCompatibleAlias | DkObjCPropertyImpl
  | DkObjCTypeParam | DkFriend | DkFriendTemplate | DkStaticAssert
  | DkUsingDirective | DkUsingShadow
  (* named by neither *)
  | DkAccessSpec | DkBlock | DkCaptured | DkEmpty | DkExport
  | DkExternCContext | DkFileScopeAsm | DkImport | DkLabel
  | DkPragmaComment | DkPragmaDetectMismatch | DkBuiltinTemplate
  | DkConcept | DkCXXDeductionGuide | DkIndirectField | DkMSProperty
  | DkOMPThreadPrivate | DkOMPDeclareReduction | DkUsingPack
  | DkConstructorUsingShadow.

#[global] Instance Kind_eq_dec : EqDecision Kind.
Proof. solve_decision. Defined.
#[global] Instance SymbolKind_eq_dec : EqDecision SymbolKind.
Proof. solve_decision. Defined.
#[global] Instance DeclKind_eq_dec : EqDecision DeclKind.
Proof. solve_decision. Defined.
#[global] Instance TagTypeKind_eq_dec : EqDecision TagTypeKind.
Proof. solve_decision. Defined.

(** What the indexer asks the semantic engine about a declaration node.  The
    engine is an external collaborator: its answers are the fields of this
    record. *)
Record ASTContext := {
  declKind : Decl -> DeclKind;            (* D->getKind() *)
  tagKind : Decl -> TagTypeKind;          (* RD->getTagKind() *)
  isStatic : Decl -> bool;                (* MD->isStatic() *)
  getCanonicalDecl : Decl -> Decl;        (* D->getCanonicalDecl() *)
  generateUSRForDecl : Decl -> string;    (* index::generateUSRForDecl *)
  (* dyn_cast<NamedDecl>: getNameAsString and printQualifiedName *)
  namedDecl : Decl -> option (string * string);
  hasLinkage : Decl -> bool;              (* NamedDecl with linkage *)
}.

(** ** Classifier *)

(** [Kind getKind(const Decl *D, SymbolKind &kind)].  The second argument is
    the value of the out-parameter on entry; the second component of the
    result is its value on return. *)
Definition getKind (ctx : ASTContext) (D : Decl) (kind : SymbolKind)
  : Kind * SymbolKind :=
  match declKind ctx D with
  | DkLinkageSpec => (KInvalid, kind)
  | DkNamespace | DkNamespaceAlias => (KType, SkNamespace)
  | DkObjCCategory | DkObjCCategoryImpl | DkObjCImplementation
  | DkObjCInterface | DkObjCProtocol => (KType, SkInterface)
  | DkObjCMethod => (KFunc, SkMethod)
  | DkObjCProperty => (KType, SkProperty)
  | DkClassTemplate => (KType, SkClass)
  | DkFunctionTemplate => (KFunc, SkFunction)
  | DkTypeAliasTemplate => (KType, SkTypeAlias)
  | DkVarTemplate => (KVar, SkVariable)
  | DkTemplateTemplateParm => (KType, SkTypeParameter)
  | DkEnum => (KType, SkEnum)
  | DkCXXRecord | DkRecord =>
      (KType,
       match tagKind ctx D with TTK_Struct => SkStruct | _ => SkClass end)
  | DkClassTemplateSpecialization
  | DkClassTemplatePartialSpecialization => (KType, SkClass)
  | DkTemplateTypeParm => (KType, SkTypeParameter)
  | DkTypeAlias | DkTypedef | DkUnresolvedUsingTypename => (KType, SkTypeAlias)
  | DkUsing => (KInvalid, SkNull)
  | DkBinding => (KVar, SkVariable)
  | DkField | DkObjCIvar => (KVar, SkField)
  | DkFunction => (KFunc, SkFunction)
  | DkCXXMethod =>
      (KFunc, if isStatic ctx D then SkStaticMethod else SkMethod)
  | DkCXXConstructor => (KFunc, SkConstructor)
  | DkCXXConversion | DkCXXDestructor => (KFunc, SkMethod)
  | DkNonTypeTemplateParm => (KVar, SkParameter)
  | DkVar | DkDecomposition => (KVar, SkVariable)
  | DkImplicitParam | DkParmVar => (KVar, SkParameter)
  | DkVarTemplateSpecialization
  | DkVarTemplatePartialSpecialization => (KVar, SkVariable)
  | DkEnumConstant => (KVar, SkEnumMember)
  | DkUnresolvedUsingValue => (KVar, SkVariable)
  | DkTranslationUnit => (KInvalid, kind)
  | _ => (KInvalid, kind)
  end.

(** [LanguageId getDeclLanguage(const Decl *D)]. *)
Definition getDeclLanguage (ctx : ASTContext) (D : Decl) : LanguageId :=
  match declKind ctx D with
  | DkImplicitParam | DkObjCAtDefsField | DkObjCCategory | DkObjCCategoryImpl
  | DkObjCCompatibleAlias | DkObjCImplementation | DkObjCInterface
  | DkObjCIvar | DkObjCMethod | DkObjCProperty | DkObjCPropertyImpl
  | DkObjCProtocol | DkObjCTypeParam => LangObjC
  | DkCXXConstructor | DkCXXConversion | DkCXXDestructor | DkCXXMethod
  | DkCXXRecord | DkClassTemplate | DkClassTemplatePartialSpecialization
  | DkClassTemplateSpecialization | DkFriend | DkFriendTemplate
  | DkFunctionTemplate | DkLinkageSpec | DkNamespace | DkNamespaceAlias
  | DkNonTypeTemplateParm | DkStaticAssert | DkTemplateTemplateParm
  | DkTemplateTypeParm | DkUnresolvedUsingTypename | DkUnresolvedUsingValue
  | DkUsing | DkUsingDirective | DkUsingShadow => LangCpp
  | _ => LangC
  end.

(** ** Location records *)

(** [Pos] and [Range] (position.hh); the indexer reads [loc.start.line] and
    [loc.start.column]. *)
Record Pos := mkPos { line : Z; column : Z }.
Record Range := mkRange { r_start : Pos; r_end : Pos }.

(** Modelled from the spec: the role flags of [Role] (declared in indexer.hh,
    which is not under src/): "Roles are flags, not an enum".  Each flag is
    one bit of a [uint16_t]; the first positions coincide with those of the
    engine's [index::SymbolRole], which [static_cast<Role>(Roles)] relies
    on. *)
Module Role.
Definition Declaration : Z := 1.
Definition Definition_ : Z := 2.
Definition Reference : Z := 4.
Definition Dynamic : Z := 64.
Definition Implicit : Z := 256.
End Role.

(** [SymbolRef] = range + symbol key + kind + role bitset. *)
Record SymbolRef := mkSymbolRef {
  sr_range : Range; sr_usr : Usr; sr_kind : Kind; sr_role : Z }.

(** [Use] = range + role bitset + local-file index. *)
Record Use := mkUse { use_range : Range; use_role : Z; use_file_id : Z }.

(** [DeclRef] = [Use] + the extent range. *)
Record DeclRef := mkDeclRef { dr_use : Use; dr_extent : Range }.

(** [Use{{range, role}}]: the file index defaults to -1. *)
Definition Use_default (r : Range) (role : Z) : Use := mkUse r role (-1).

(** ** Entities *)

(** [int16_t] conversion.  The offsets and the size of the short name in a
    definition record ([short_name_offset], [short_name_size],
    [qual_name_offset]) are [int16_t] members: what is assigned to them is
    narrowed. *)
Definition to_int16 (z : Z) : Z := (z + 2 ^ 15) mod 2 ^ 16 - 2 ^ 15.

(** What [setName] / [setVarName] write into a definition record. *)
Record NameInfo := mkNameInfo {
  ni_detailed_name : string;
  ni_short_name_offset : Z;
  ni_short_name_size : Z;
  ni_qual_name_offset : Z }.

(** The part of an entity that the generic code ([do_def_decl], [setName])
    touches: the name part of [def], [def.spell], the kinds, and the
    declaration and use lists. *)
Record EntityCore := mkCore {
  detailed_name : string;
  hover : string;
  comments : string;
  short_name_offset : Z;
  short_name_size : Z;
  qual_name_offset : Z;
  spell : option DeclRef;           (* Maybe<DeclRef> def.spell *)
  kind : SymbolKind;                (* def.kind *)
  parent_kind : SymbolKind;         (* def.parent_kind *)
  declarations : list DeclRef;
  uses : list Use }.

Definition core0 : EntityCore :=
  mkCore "" "" "" 0 0 0 None SkUnknown SkUnknown [] [].

Definition set_spell (v : option DeclRef) (c : EntityCore) : EntityCore :=
  mkCore (detailed_name c) (hover c) (comments c) (short_name_offset c)
    (short_name_size c) (qual_name_offset c) v (kind c) (parent_kind c)
    (declarations c) (uses c).
Definition set_kind (v : SymbolKind) (c : EntityCore) : EntityCore :=
  mkCore (detailed_name c) (hover c) (comments c) (short_name_offset c)
    (short_name_size c) (qual_name_offset c) (spell c) v (parent_kind c)
    (declarations c) (uses c).
Definition set_parent_kind (v : SymbolKind) (c : EntityCore) : EntityCore :=
  mkCore (detailed_name c) (hover c) (comments c) (short_name_offset c)
    (short_name_size c) (qual_name_offset c) (spell c) (kind c) v
    (declarations c) (uses c).
Definition set_comments (v : string) (c : EntityCore) : EntityCore :=
  mkCore (detailed_name c) (hover c) v (short_name_offset c)
    (short_name_size c) (qual_name_offset c) (spell c) (kind c) (parent_kind c)
    (declarations c) (uses c).
Definition set_hover (v : string) (c : EntityCore) : EntityCore :=
  mkCore (detailed_name c) v (comments c) (short_name_offset c)
    (short_name_size c) (qual_name_offset c) (spell c) (kind c) (parent_kind c)
    (declarations c) (uses c).
Definition set_detailed_name (v : string) (c : EntityCore) : EntityCore :=
  mkCore v (hover c) (comments c) (short_name_offset c)
    (short_name_size c) (qual_name_offset c) (spell c) (kind c) (parent_kind c)
    (declarations c) (uses c).
Definition set_short_name_size (v : Z) (c : EntityCore) : EntityCore :=
  mkCore (detailed_name c) (hover c) (comments c) (short_name_offset c)
    v (qual_name_offset c) (spell c) (kind c) (parent_kind c)
    (declarations c) (uses c).
Definition set_name (n : NameInfo) (c : EntityCore) : EntityCore :=
  mkCore (ni_detailed_name n) (hover c) (comments c) (ni_short_name_offset n)
    (ni_short_name_size n) (ni_qual_name_offset n) (spell c) (kind c)
    (parent_kind c) (declarations c) (uses c).
Definition push_declaration (d : DeclRef) (c : EntityCore) : EntityCore :=
  mkCore (detailed_name c) (hover c) (comments c) (short_name_offset c)
    (short_name_size c) (qual_name_offset c) (spell c) (kind c) (parent_kind c)
    (declarations c ++ [d]) (uses c).
Definition push_use (u : Use) (c : EntityCore) : EntityCore :=
  mkCore (detailed_name c) (hover c) (comments c) (short_name_offset c)
    (short_name_size c) (qual_name_offset c) (spell c) (kind c) (parent_kind c)
    (declarations c) (uses c ++ [u]).
Definition set_uses (v : list Use) (c : EntityCore) : EntityCore :=
  mkCore (detailed_name c) (hover c) (comments c) (short_name_offset c)
    (short_name_size c) (qual_name_offset c) (spell c) (kind c) (parent_kind c)
    (declarations c) v.

(** [IndexFunc]: [def.bases], [def.vars], [def.callees], [derived]. *)
Record IndexFunc := mkFunc {
  f_usr : Usr; f_core : EntityCore;
  f_bases : list Usr; f_vars : list Usr; f_callees : list SymbolRef;
  f_derived : list Usr }.

(** [IndexType]: [def.bases], [def.funcs], [def.types], [def.vars]
    (key and byte offset), [def.alias_of], [derived], [instances]. *)
Record IndexType := mkType {
  t_usr : Usr; t_core : EntityCore;
  t_bases : list Usr; t_funcs : list Usr; t_types : list Usr;
  t_vars : list (Usr * Z); t_alias_of : Usr;
  t_derived : list Usr; t_instances : list Usr }.

(** [IndexVar]: [def.type], [def.storage]. *)
Record IndexVar := mkVar {
  v_usr : Usr; v_core : EntityCore; v_type : Usr; v_storage : Z }.

(** Default-constructed entities, as [try_emplace] makes them. *)
Definition IndexFunc0 : IndexFunc := mkFunc 0 core0 [] [] [] [].
Definition IndexType0 : IndexType := mkType 0 core0 [] [] [] [] 0 [] [].
Definition IndexVar0 : IndexVar := mkVar 0 core0 0 0.

Definition f_set_usr (u : Usr) (e : IndexFunc) : IndexFunc :=
  mkFunc u (f_core e) (f_bases e) (f_vars e) (f_callees e) (f_derived e).
Definition f_upd_core (g : EntityCore -> EntityCore) (e : IndexFunc) : IndexFunc :=
  mkFunc (f_usr e) (g (f_core e)) (f_bases e) (f_vars e) (f_callees e) (f_derived e).
Definition f_upd_bases (g : list Usr -> list Usr) (e : IndexFunc) : IndexFunc :=
  mkFunc (f_usr e) (f_core e) (g (f_bases e)) (f_vars e) (f_callees e) (f_derived e).
Definition f_upd_vars (g : list Usr -> list Usr) (e : IndexFunc) : IndexFunc :=
  mkFunc (f_usr e) (f_core e) (f_bases e) (g (f_vars e)) (f_callees e) (f_derived e).
Definition f_upd_callees (g : list SymbolRef -> list SymbolRef) (e : IndexFunc) : IndexFunc :=
  mkFunc (f_usr e) (f_core e) (f_bases e) (f_vars e) (g (f_callees e)) (f_derived e).
Definition f_upd_derived (g : list Usr -> list Usr) (e : IndexFunc) : IndexFunc :=
  mkFunc (f_usr e) (f_core e) (f_bases e) (f_vars e) (f_callees e) (g (f_derived e)).

Definition t_set_usr (u : Usr) (e : IndexType) : IndexType :=
  mkType u (t_core e) (t_bases e) (t_funcs e) (t_types e) (t_vars e)
    (t_alias_of e) (t_derived e) (t_instances e).
Definition t_upd_core (g : EntityCore -> EntityCore) (e : IndexType) : IndexType :=
  mkType (t_usr e) (g (t_core e)) (t_bases e) (t_funcs e) (t_types e) (t_vars e)
    (t_alias_of e) (t_derived e) (t_instances e).
Definition t_upd_bases (g : list Usr -> list Usr) (e : IndexType) : IndexType :=
  mkType (t_usr e) (t_core e) (g (t_bases e)) (t_funcs e) (t_types e) (t_vars e)
    (t_alias_of e) (t_derived e) (t_instances e).
Definition t_upd_funcs (g : list Usr -> list Usr) (e : IndexType) : IndexType :=
  mkType (t_usr e) (t_core e) (t_bases e) (g (t_funcs e)) (t_types e) (t_vars e)
    (t_alias_of e) (t_derived e) (t_instances e).
Definition t_upd_types (g : list Usr -> list Usr) (e : IndexType) : IndexType :=
  mkType (t_usr e) (t_core e) (t_bases e) (t_funcs e) (g (t_types e)) (t_vars e)
    (t_alias_of e) (t_derived e) (t_instances e).
Definition t_upd_vars (g : list (Usr * Z) -> list (Usr * Z)) (e : IndexType) : IndexType :=
  mkType (t_usr e) (t_core e) (t_bases e) (t_funcs e) (t_types e) (g (t_vars e))
    (t_alias_of e) (t_derived e) (t_instances e).
Definition t_set_alias_of (u : Usr) (e : IndexType) : IndexType :=
  mkType (t_usr e) (t_core e) (t_bases e) (t_funcs e) (t_types e) (t_vars e)
    u (t_derived e) (t_instances e).
Definition t_upd_derived (g : list Usr -> list Usr) (e : IndexType) : IndexType :=
  mkType (t_usr e) (t_core e) (t_bases e) (t_funcs e) (t_types e) (t_vars e)
    (t_alias_of e) (g (t_derived e)) (t_instances e).
Definition t_upd_instances (g : list Usr -> list Usr) (e : IndexType) : IndexType :=
  mkType (t_usr e) (t_core e) (t_bases e) (t_funcs e) (t_types e) (t_vars e)
    (t_alias_of e) (t_derived e) (g (t_instances e)).

Definition v_set_usr (u : Usr) (e : IndexVar) : IndexVar :=
  mkVar u (v_core e) (v_type e) (v_storage e).
Definition v_upd_core (g : EntityCore -> EntityCore) (e : IndexVar) : IndexVar :=
  mkVar (v_usr e) (g (v_core e)) (v_type e) (v_storage e).
Definition v_set_type (u : Usr) (e : IndexVar) : IndexVar :=
  mkVar (v_usr e) (v_core e) u (v_storage e).
Definition v_set_storage (s : Z) (e : IndexVar) : IndexVar :=
  mkVar (v_usr e) (v_core e) (v_type e) s.

(** ** The per-file index *)

Record IndexFile := mkIndexFile {
  path : string;
  no_linkage : bool;
  file_contents : string;
  mtime : Z;
  language : Z;                              (* LanguageId, used as a bitmask *)
  import_file : string;
  args : list string;
  usr2func : gmap Z IndexFunc;
  usr2type : gmap Z IndexType;
  usr2var : gmap Z IndexVar;
  includes : list (Z * string);
  skipped_ranges : list Range;
  uid2lid_and_path : gmap Z (Z * string);
  lid2path : list (Z * string);
  dependencies : gmap string Z }.

(** [IndexFile::IndexFile(path, contents, no_linkage)]: the three named
    members are initialised, every other member is default-constructed. *)
Definition IndexFile_new (p contents : string) (nl : bool) : IndexFile :=
  mkIndexFile p nl contents 0 0 "" [] ∅ ∅ ∅ [] [] ∅ [] ∅.

Definition db_set_mtime (v : Z) (d : IndexFile) : IndexFile :=
  mkIndexFile (path d) (no_linkage d) (file_contents d) v (language d)
    (import_file d) (args d) (usr2func d) (usr2type d) (usr2var d)
    (includes d) (skipped_ranges d) (uid2lid_and_path d) (lid2path d)
    (dependencies d).
Definition db_set_language (v : Z) (d : IndexFile) : IndexFile :=
  mkIndexFile (path d) (no_linkage d) (file_contents d) (mtime d) v
    (import_file d) (args d) (usr2func d) (usr2type d) (usr2var d)
    (includes d) (skipped_ranges d) (uid2lid_and_path d) (lid2path d)
    (dependencies d).
Definition db_set_import (main : string) (a : list string) (d : IndexFile) : IndexFile :=
  mkIndexFile (path d) (no_linkage d) (file_contents d) (mtime d) (language d)
    main a (usr2func d) (usr2type d) (usr2var d)
    (includes d) (skipped_ranges d) (uid2lid_and_path d) (lid2path d)
    (dependencies d).
Definition db_set_funcs (m : gmap Z IndexFunc) (d : IndexFile) : IndexFile :=
  mkIndexFile (path d) (no_linkage d) (file_contents d) (mtime d) (language d)
    (import_file d) (args d) m (usr2type d) (usr2var d)
    (includes d) (skipped_ranges d) (uid2lid_and_path d) (lid2path d)
    (dependencies d).
Definition db_set_types (m : gmap Z IndexType) (d : IndexFile) : IndexFile :=
  mkIndexFile (path d) (no_linkage d) (file_contents d) (mtime d) (language d)
    (import_file d) (args d) (usr2func d) m (usr2var d)
    (includes d) (skipped_ranges d) (uid2lid_and_path d) (lid2path d)
    (dependencies d).
Definition db_set_vars (m : gmap Z IndexVar) (d : IndexFile) : IndexFile :=
  mkIndexFile (path d) (no_linkage d) (file_contents d) (mtime d) (language d)
    (import_file d) (args d) (usr2func d) (usr2type d) m
    (includes d) (skipped_ranges d) (uid2lid_and_path d) (lid2path d)
    (dependencies d).
Definition db_push_include (i : Z * string) (d : IndexFile) : IndexFile :=
  mkIndexFile (path d) (no_linkage d) (file_contents d) (mtime d) (language d)
    (import_file d) (args d) (usr2func d) (usr2type d) (usr2var d)
    (includes d ++ [i]) (skipped_ranges d) (uid2lid_and_path d) (lid2path d)
    (dependencies d).
Definition db_push_skipped (r : Range) (d : IndexFile) : IndexFile :=
  mkIndexFile (path d) (no_linkage d) (file_contents d) (mtime d) (language d)
    (import_file d) (args d) (usr2func d) (usr2type d) (usr2var d)
    (includes d) (skipped_ranges d ++ [r]) (uid2lid_and_path d) (lid2path d)
    (dependencies d).
Definition db_set_lids (m : gmap Z (Z * string)) (l : list (Z * string))
    (d : IndexFile) : IndexFile :=
  mkIndexFile (path d) (no_linkage d) (file_contents d) (mtime d) (language d)
    (import_file d) (args d) (usr2func d) (usr2type d) (usr2var d)
    (includes d) (skipped_ranges d) m l (dependencies d).
Definition db_set_dependencies (m : gmap string Z) (d : IndexFile) : IndexFile :=
  mkIndexFile (path d) (no_linkage d) (file_contents d) (mtime d) (language d)
    (import_file d) (args d) (usr2func d) (usr2type d) (usr2var d)
    (includes d) (skipped_ranges d) (uid2lid_and_path d) (lid2path d) m.

(** [IndexFunc &IndexFile::toFunc(Usr usr)]: [try_emplace] followed by
    [it->second.usr = usr] when the key was inserted.  The reference that the
    source returns is the map slot of [usr]; its later mutation is an update
    of that slot, so the accessor is modelled together with the update [g]
    applied through the reference. *)
Definition try_emplace_func (usr : Usr) (m : gmap Z IndexFunc) : gmap Z IndexFunc :=
  match m !! usr with
  | Some _ => m
  | None => <[usr := f_set_usr usr IndexFunc0]> m
  end.
Definition try_emplace_type (usr : Usr) (m : gmap Z IndexType) : gmap Z IndexType :=
  match m !! usr with
  | Some _ => m
  | None => <[usr := t_set_usr usr IndexType0]> m
  end.
Definition try_emplace_var (usr : Usr) (m : gmap Z IndexVar) : gmap Z IndexVar :=
  match m !! usr with
  | Some _ => m
  | None => <[usr := v_set_usr usr IndexVar0]> m
  end.

Definition toFunc (usr : Usr) (g : IndexFunc -> IndexFunc) (d : IndexFile) : IndexFile :=
  db_set_funcs (alter g usr (try_emplace_func usr (usr2func d))) d.
Definition toType (usr : Usr) (g : IndexType -> IndexType) (d : IndexFile) : IndexFile :=
  db_set_types (alter g usr (try_emplace_type usr (usr2type d))) d.
Definition toVar (usr : Usr) (g : IndexVar -> IndexVar) (d : IndexFile) : IndexFile :=
  db_set_vars (alter g usr (try_emplace_var usr (usr2var d))) d.

(** Reading through the reference returned by the accessor. *)
Definition func_at (usr : Usr) (d : IndexFile) : IndexFunc :=
  default (f_set_usr usr IndexFunc0) (usr2func d !! usr).
Definition type_at (usr : Usr) (d : IndexFile) : IndexType :=
  default (t_set_usr usr IndexType0) (usr2type d !! usr).
Definition var_at (usr : Usr) (d : IndexFile) : IndexVar :=
  default (v_set_usr usr IndexVar0) (usr2var d !! usr).

(** ** The collaborators of a pass *)

(** [g_config->index]: the settings the indexer reads ([int] and [bool]
    members of config.hh). *)
Record Config := mkConfig {
  cfg_multiVersion : Z;
  cfg_comments : Z;
  cfg_maxInitializerLines : Z }.

(** What [SourceManager::getFileEntryForID] gives for a file handle:
    [pathFromFileEntry] of the entry and [fe->getModificationTime()]. *)
Record FileEntry := mkFileEntry { fe_path : string; fe_mtime : Z }.

(** A call of [VFS::stamp(path, mtime, mode)]. *)
Definition StampCall : Type := string * Z * Z.

(** The external collaborators of one pass.  The staleness cache is shared
    with other passes, so its answer is an arbitrary function of the call and
    of the calls this pass has made before. *)
Record Env := mkEnv {
  ast : ASTContext;
  config : Config;
  hashUsr : string -> Usr;
  getFileEntryForID : FileID -> option FileEntry;
  lastWriteTime : string -> option Z;
  readContent : string -> option string;
  vfs_stamp : list StampCall -> StampCall -> bool;
  multiVersionMatches : string -> bool;     (* multiVersionMatcher->matches *)
  getMainFileID : FileID;
  (* getFileLID: tryGetRealPathName / getName made absolute, if that works *)
  absolutePath : FileID -> option string;
  (* the macro of the engine's headers the file is compiled against *)
  LLVM_VERSION_MAJOR : Z }.

(** ** Staging state of a pass: [IndexParam] *)

(** [struct File]; [file_db] is the [unique_ptr<IndexFile>], [None] when
    null. *)
Record File := mkFile {
  file_path : string; file_mtime : Z; file_content : string;
  file_db : option IndexFile }.

Record DeclInfo := mkDeclInfo {
  di_usr : Usr; di_short_name : string; di_qualified : string }.

(** [struct IndexParam].  [stamp_log] and [render_log] are not members of the
    source: they record, in order, the calls of [vfs.stamp] and the canonical
    nodes whose reference and names [getUsr] asked the engine to render. *)
Record IndexParam := mkParam {
  uid2file : gmap Z File;
  uid2multi : gmap Z bool;
  Decl2Info : gmap N DeclInfo;
  p_no_linkage : bool;
  stamp_log : list StampCall;
  render_log : list N }.

(** [IndexParam(vfs, no_linkage)]. *)
Definition IndexParam_new (nl : bool) : IndexParam := mkParam ∅ ∅ ∅ nl [] [].

Definition p_set_uid2file (m : gmap Z File) (p : IndexParam) : IndexParam :=
  mkParam m (uid2multi p) (Decl2Info p) (p_no_linkage p) (stamp_log p) (render_log p).
Definition p_set_uid2multi (m : gmap Z bool) (p : IndexParam) : IndexParam :=
  mkParam (uid2file p) m (Decl2Info p) (p_no_linkage p) (stamp_log p) (render_log p).
Definition p_stage (fid : FileID) (f : File) (calls : list StampCall)
    (p : IndexParam) : IndexParam :=
  mkParam (<[fid := f]> (uid2file p)) (uid2multi p) (Decl2Info p)
    (p_no_linkage p) (stamp_log p ++ calls) (render_log p).
Definition p_cache_decl (D : Decl) (i : DeclInfo) (p : IndexParam) : IndexParam :=
  mkParam (uid2file p) (uid2multi p) (<[D := i]> (Decl2Info p))
    (p_no_linkage p) (stamp_log p) (render_log p).
Definition p_log_render (D : Decl) (p : IndexParam) : IndexParam :=
  mkParam (uid2file p) (uid2multi p) (Decl2Info p)
    (p_no_linkage p) (stamp_log p) (render_log p ++ [D]).

(** The mode tag passed to the staleness cache. *)
Definition mode_tag (nl : bool) : Z := if nl then 3 else 1.

(** The modification time [seenFile] records: the engine's, or the file
    system's when the engine reports zero. *)
Definition staged_mtime (env : Env) (fe : FileEntry) : Z :=
  if fe_mtime fe =? 0
  then match lastWriteTime env (fe_path fe) with
       | Some tim => tim
       | None => fe_mtime fe
       end
  else fe_mtime fe.

(** [void IndexParam::seenFile(FileID fid)]. *)
Definition seenFile (env : Env) (fid : FileID) (p : IndexParam) : IndexParam :=
  match uid2file p !! fid with
  | Some _ => p
  | None =>
      match getFileEntryForID env fid with
      | None => p_stage fid (mkFile "" 0 "" None) [] p
      | Some fe =>
          let path := fe_path fe in
          let mtime := staged_mtime env fe in
          let content := default "" (readContent env path) in
          let call : StampCall := (path, mtime, mode_tag (p_no_linkage p)) in
          if vfs_stamp env (stamp_log p) call
          then p_stage fid
                 (mkFile path mtime content
                    (Some (IndexFile_new path content (p_no_linkage p))))
                 [call] p
          else p_stage fid (mkFile path mtime content None) [call] p
      end
  end.

(** The [IndexFile *] held by the staging entry of [fid]; [None] is the null
    pointer ([uid2file[fid].db.get()]). *)
Definition db_of (fid : FileID) (p : IndexParam) : option IndexFile :=
  uid2file p !! fid ≫= file_db.

(** [IndexFile *IndexParam::consumeFile(FileID fid)]. *)
Definition consumeFile (env : Env) (fid : FileID) (p : IndexParam)
  : option IndexFile * IndexParam :=
  let p' := seenFile env fid p in (db_of fid p', p').

(** [bool IndexParam::useMultiVersion(FileID fid)]. *)
Definition useMultiVersion (env : Env) (fid : FileID) (p : IndexParam)
  : bool * IndexParam :=
  match uid2multi p !! fid with
  | Some b => (b, p)
  | None =>
      let b := match getFileEntryForID env fid with
               | Some fe => multiVersionMatches env (fe_path fe)
               | None => false
               end in
      (b, p_set_uid2multi (<[fid := b]> (uid2multi p)) p)
  end.

(** Writing back through the [IndexFile *] of [fid]. *)
Definition put_db (fid : FileID) (d : IndexFile) (p : IndexParam) : IndexParam :=
  p_set_uid2file
    (alter (fun f => mkFile (file_path f) (file_mtime f) (file_content f) (Some d))
       fid (uid2file p)) p.

(** ** Identity resolver *)

(** [std::string::replace(pos, len, str)]. *)
Definition string_replace (pos len : nat) (str s : string) : string :=
  (substring 0 pos s ++ str
   ++ substring (pos + len) (String.length s - (pos + len)) s)%string.

(** [static void simplifyAnonymous(std::string &name)]; the loop index only
    grows and stays within the string, so [String.length name] iterations
    suffice. *)
Fixpoint simplifyAnonymous_loop (fuel i : nat) (name : string) : string :=
  match fuel with
  | O => name
  | S fuel' =>
      match String.index i "(anonymous " name with
      | None => name
      | Some j =>
          let i := S j in
          if (19 <? String.length name - i)%nat
             && String.eqb (substring (i + 10) 9 name) "namespace"
          then simplifyAnonymous_loop fuel' i (string_replace i 19 "anon ns" name)
          else simplifyAnonymous_loop fuel' i (string_replace i 9 "anon" name)
      end
  end.

Definition simplifyAnonymous (name : string) : string :=
  simplifyAnonymous_loop (S (String.length name)) 0 name.

(** What [getUsr] stores for a canonical node it has not seen before. *)
Definition render_DeclInfo (env : Env) (D : Decl) : DeclInfo :=
  let usr := hashUsr env (generateUSRForDecl (ast env) D) in
  match namedDecl (ast env) D with
  | Some (short, qualified) => mkDeclInfo usr short (simplifyAnonymous qualified)
  | None => mkDeclInfo usr "" ""
  end.

(** The body of [if (inserted)]: the engine renders the reference and the
    names of the canonical node [D]; every rendering is logged. *)
Definition render_names (env : Env) (D : Decl) (p : IndexParam)
  : DeclInfo * IndexParam :=
  (render_DeclInfo env D, p_log_render D p).

(** [Usr getUsr(const Decl *D, IndexParam::DeclInfo **info)]: the result
    carries the cache entry that [*info] points to.  Only a node that
    [try_emplace] inserted is rendered; a node found in the cache is
    answered from its entry. *)
Definition getUsr (env : Env) (D : Decl) (p : IndexParam)
  : DeclInfo * IndexParam :=
  let D := getCanonicalDecl (ast env) D in
  match Decl2Info p !! D with
  | Some info => (info, p)
  | None =>
      let '(info, p) := render_names env D p in
      (info, p_cache_decl D info p)
  end.

(** ** Preprocessor callbacks *)

(** [getFileLID(db, SM, fid)]: the local file index of [fid] in [db]. *)
Definition getFileLID (env : Env) (fid : FileID) (d : IndexFile) : Z * IndexFile :=
  match uid2lid_and_path d !! fid with
  | Some (lid, _) => (lid, d)
  | None =>
      let m := <[fid := (0, "")]> (uid2lid_and_path d) in
      match getFileEntryForID env fid with
      | None => (-1, db_set_lids m (lid2path d) d)
      | Some _ =>
          let lid := Z.of_nat (size m) - 1 in
          match absolutePath env fid with
          | None => (-1, db_set_lids (<[fid := (lid, "")]> m) (lid2path d) d)
          | Some path =>
              (lid, db_set_lids (<[fid := (lid, path)]> m) (lid2path d) d)
          end
      end
  end.

(** [getMacro(Tok).second]: the key of a macro is the hash of the fixed
    prefix followed by the spelling. *)
Definition getMacro (env : Env) (Name : string) : Usr :=
  hashUsr env ("@macro@" ++ Name)%string.

(** [StringRef::count('\n')]. *)
Fixpoint count_newlines (s : string) : nat :=
  match s with
  | EmptyString => O
  | String c s' =>
      if Ascii.eqb c "010"%char then S (count_newlines s') else count_newlines s'
  end.

(** [Buf.count('\n') <= g_config->index.maxInitializerLines - 1]: the left
    operand is a [size_t], so the [int] on the right is converted to
    [size_t] before the comparison. *)
Definition within_maxInitializerLines (cfg : Config) (Buf : string) : bool :=
  Z.of_nat (count_newlines Buf) <=? (cfg_maxInitializerLines cfg - 1) mod 2 ^ 64.

(** A macro-definition event: the macro's spelling, the file of the
    directive, the range of its location, the extent of the definition and
    the source text of that extent ([getSourceInRange]). *)
Record MacroDef := mkMacroDef {
  md_Name : string; md_fid : FileID; md_range : Range; md_extent : Range;
  md_source : string }.

(** The mutation [MacroDefined] performs through [IndexVar &var]. *)
Definition MacroDefined_var (cfg : Config) (m : MacroDef) (c : EntityCore) : EntityCore :=
  let c := set_kind SkMacro c in
  let c := set_parent_kind SkFile c in
  let c := match spell c with
           | Some s => push_declaration s c
           | None => c
           end in
  let c := set_spell
             (Some (mkDeclRef (Use_default (md_range m) Role.Definition_)
                      (md_extent m))) c in
  if String.eqb (detailed_name c) "" then
    let c := set_detailed_name (md_Name m) c in
    let c := set_short_name_size
               (to_int16 (Z.of_nat (String.length (md_Name m)))) c in
    set_hover
      (if within_maxInitializerLines cfg (md_source m)
       then "#define " ++ md_source m
       else "#define " ++ md_Name m)%string c
  else c.

(** [void MacroDefined(const Token &Tok, const MacroDirective *MD)]. *)
Definition MacroDefined (env : Env) (m : MacroDef) (p : IndexParam) : IndexParam :=
  let '(db, p) := consumeFile env (md_fid m) p in
  match db with
  | None => p
  | Some db =>
      let usr := getMacro env (md_Name m) in
      put_db (md_fid m)
        (toVar usr (v_upd_core (MacroDefined_var (config env) m)) db) p
  end.

(** [void MacroExpands(tok, _, sr, _)]: [fid] and [range] are those of the
    spelling location of [sr.getBegin()]. *)
Definition MacroExpands (env : Env) (Name : string) (fid : FileID)
    (range : Range) (p : IndexParam) : IndexParam :=
  let '(db, p) := consumeFile env fid p in
  match db with
  | None => p
  | Some db =>
      put_db fid
        (toVar (getMacro env Name)
           (v_upd_core (push_use (Use_default range Role.Dynamic))) db) p
  end.

(** [void MacroUndefined(tok, md, ud)]; [ud] is [None] for a null
    directive. *)
Definition MacroUndefined (env : Env) (Name : string)
    (ud : option (FileID * Range)) (p : IndexParam) : IndexParam :=
  match ud with
  | Some (fid, range) => MacroExpands env Name fid range p
  | None => p
  end.

(** [void FileChanged(sl, reason, _, _)]. *)
Definition FileChanged (env : Env) (enterFile : bool) (fid : FileID)
    (p : IndexParam) : IndexParam :=
  if enterFile then (consumeFile env fid p).2 else p.

(** [void InclusionDirective(...)]: [File] is the included file's path
    ([None] for a null file entry), [line] is [spell.start.line]. *)
Definition InclusionDirective (env : Env) (File : option string) (line : Z)
    (fid : FileID) (p : IndexParam) : IndexParam :=
  match File with
  | None => p
  | Some path =>
      let '(db, p) := consumeFile env fid p in
      match db with
      | None => p
      | Some db =>
          if String.eqb path "" then p
          else put_db fid (db_push_include (line, path) db) p
      end
  end.

(** [void SourceRangeSkipped(r, EndifLoc)]; [fid] is [None] when invalid. *)
Definition SourceRangeSkipped (env : Env) (range : Range)
    (fid : option FileID) (p : IndexParam) : IndexParam :=
  match fid with
  | None => p
  | Some fid =>
      let '(db, p) := consumeFile env fid p in
      match db with
      | None => p
      | Some db => put_db fid (db_push_skipped range db) p
      end
  end.

(** [bool SkipProcessed::shouldSkipFunctionBody(Decl *d)]. *)
Definition shouldSkipFunctionBody (env : Env) (fid : FileID) (p : IndexParam)
  : bool * IndexParam :=
  let '(mv, p) :=
    if cfg_multiVersion (config env) =? 0 then (false, p)
    else useMultiVersion env fid p in
  if mv then (false, p)
  else let '(db, p) := consumeFile env fid p in
       (negb (bool_decide (is_Some db)), p).

(** ** Declaration occurrences *)

(** The static type of a variable as the handler sees it: null, a builtin
    type (with its [BuiltinType::Kind]), a type whose declaration resolves
    ([getAdjustedDecl(getTypeDecl(T))]), or anything else. *)
Inductive VarType :=
  | VtNull | VtBuiltin (k : Z) | VtDecl (D1 : Decl) | VtOther.

(** One call of [handleDeclOccurence]: its arguments, and the answers of the
    engine and of the rendering helpers ([getAdjustedDecl], [getTypeDecl],
    [setName], [setVarName], [getComment], the field walk of
    [collectRecordMembers]) for them. *)
Record DeclEvent := mkDeclEvent {
  ev_D : Decl;
  ev_Roles : Z;                      (* index::SymbolRoleSet *)
  ev_OrigD : Decl;                   (* ASTNode.OrigD *)
  ev_SemDC : Decl;                   (* nearest named semantic container *)
  ev_LexDC : Decl;                   (* nearest named lexical container *)
  ev_fid : option FileID;            (* None: fid.isInvalid() *)
  ev_loc : Range;                    (* fromCharSourceRange(SM, Lang, R) *)
  ev_written_in_main : bool;         (* SM.isWrittenInMainFile(R.getBegin()) *)
  ev_name_range : option Range;      (* name-info range, when in a file *)
  ev_extent : Range;                 (* fromTokenRangeDefaulted(..., fid, loc) *)
  ev_comment : string;               (* getComment(OrigD) *)
  ev_macro_spell : option (FileID * Range);   (* Some when Spell != Loc *)
  ev_adjusted : option Decl;         (* getAdjustedDecl(D) *)
  ev_name : NameInfo;                (* setName(D, ...) *)
  ev_orig_name : NameInfo;           (* setName(OrigD, ...) *)
  ev_var_name : NameInfo;            (* setVarName(D, ...): the name part *)
  ev_var_storage : option Z;         (* ... def.storage, for a VarDecl *)
  ev_var_hover : option string;      (* ... def.hover, with an initializer *)
  ev_var_type : VarType;
  ev_type_parm_loc : option (Range * Range);
                                     (* for the declaration D1 of the type of
                                        a variable: D1->getLocation() and
                                        D1->getSourceRange(), when the latter
                                        begins in fid *)
  ev_decl_loc : option (Range * Range);  (* D->getLocation() lies in fid *)
  ev_is_first_decl : bool;           (* D->isFirstDecl() *)
  ev_parent : Decl;                  (* ND->getParent() *)
  ev_alias_namespace : option Decl;  (* NAD->getNamespace() *)
  ev_bases : list Decl;              (* resolved direct bases *)
  ev_anon_typedef : option string;   (* RD->getTypedefNameForAnonDecl() *)
  ev_members : list (Decl * Z);      (* named fields and their offsets *)
  ev_specialized_from : option Decl;
  ev_underlying : option (Decl * option Range);
  ev_overridden : list Decl;         (* Ctx->getOverriddenMethods *)
  ev_enum_value : string             (* std::to_string of the init value *)
}.

(** The values of [LanguageId], which the handler ORs together. *)
Definition LanguageId_to_Z (l : LanguageId) : Z :=
  match l with
  | LangUnknown => -1 | LangC => 0 | LangCpp => 1 | LangObjC => 2 | LangObjCpp => 3
  end.

Definition isa_RecordDecl (k : DeclKind) : bool :=
  match k with
  | DkRecord | DkCXXRecord | DkClassTemplateSpecialization
  | DkClassTemplatePartialSpecialization => true
  | _ => false
  end.
Definition isa_CXXRecordDecl (k : DeclKind) : bool :=
  match k with
  | DkCXXRecord | DkClassTemplateSpecialization
  | DkClassTemplatePartialSpecialization => true
  | _ => false
  end.
Definition isa_TypedefNameDecl (k : DeclKind) : bool :=
  match k with
  | DkTypedef | DkTypeAlias | DkObjCTypeParam => true
  | _ => false
  end.

Definition tag_name (t : TagTypeKind) : string :=
  match t with
  | TTK_Struct => "struct" | TTK_Interface => "__interface"
  | TTK_Union => "union" | TTK_Class => "class" | TTK_Enum => "enum"
  end.

(** [strchr(s, c) != nullptr]. *)
Fixpoint string_mem (c : ascii) (s : string) : bool :=
  match s with
  | EmptyString => false
  | String c' s' => Ascii.eqb c c' || string_mem c s'
  end.

(** The generic lambda [do_def_decl], as the mutation of the entity it is
    applied to.  [use] is [Use{{loc, role}, lid}]. *)
Definition do_def_decl (env : Env) (e : DeclEvent) (is_def is_decl : bool)
    (use : Use) (c : EntityCore) : EntityCore :=
  let with_comment (c : EntityCore) :=
    if String.eqb (comments c) "" && negb (cfg_comments (config env) =? 0)
    then set_comments (ev_comment e) c else c in
  if is_def then
    let c := set_spell (Some (mkDeclRef use (ev_extent e))) c in
    let c := set_parent_kind
               (getKind (ast env) (ev_SemDC e) (parent_kind c)).2 c in
    with_comment c
  else if is_decl then
    with_comment (push_declaration (mkDeclRef use (ev_extent e)) c)
  else push_use use c.

(** [addMacroUse(db, sm, usr, kind, sl)]; it is only called with the three
    entity kinds. *)
Definition addMacroUse (env : Env) (usr : Usr) (kind : Kind)
    (sl : FileID * Range) (d : IndexFile) : IndexFile :=
  let '(lid, d) := getFileLID env sl.1 d in
  if lid <? 0 then d
  else
    let use := mkUse sl.2 Role.Dynamic lid in
    match kind with
    | KFunc => toFunc usr (f_upd_core (push_use use)) d
    | KType => toType usr (t_upd_core (push_use use)) d
    | KVar => toVar usr (v_upd_core (push_use use)) d
    | _ => d
    end.

Definition addMacroUse_if (env : Env) (e : DeclEvent) (usr : Usr) (kind : Kind)
    (d : IndexFile) : IndexFile :=
  match ev_macro_spell e with
  | Some sl => addMacroUse env usr kind sl d
  | None => d
  end.

(** Resolve each node of [ds] in turn and apply [link] with its key. *)
Fixpoint link_each {A} (env : Env) (key : A -> Decl)
    (link : A -> Usr -> IndexFile -> IndexFile) (ds : list A)
    (st : IndexFile * IndexParam) : IndexFile * IndexParam :=
  match ds with
  | [] => st
  | a :: ds =>
      let '(info, p) := getUsr env (key a) st.2 in
      link_each env key link ds (link a (di_usr info) st.1, p)
  end.

(** [collectRecordMembers(type, RD)]: every named field, in the order of the
    walk, is resolved and appended with its offset. *)
Definition collectRecordMembers (env : Env) (usr : Usr)
    (members : list (Decl * Z)) (st : IndexFile * IndexParam)
  : IndexFile * IndexParam :=
  link_each env fst
    (fun m usr1 => toType usr (t_upd_vars (fun l => l ++ [(usr1, m.2)])))
    members st.

(** A base/derived edge between the type entities [usr] and [usr1]. *)
Definition link_type_base (usr usr1 : Usr) (d : IndexFile) : IndexFile :=
  toType usr1 (t_upd_derived (fun l => l ++ [usr]))
    (toType usr (t_upd_bases (fun l => l ++ [usr1])) d).

Definition link_func_base (usr usr1 : Usr) (d : IndexFile) : IndexFile :=
  toFunc usr1 (f_upd_derived (fun l => l ++ [usr]))
    (toFunc usr (f_upd_bases (fun l => l ++ [usr1])) d).

(** The part of [handleDeclOccurence] that selects the target index: the
    key of the staging entry that owns [db], and [lid]. *)
Definition stage_event (env : Env) (e : DeclEvent) (fid : FileID)
    (p : IndexParam) : option (FileID * Z) * IndexParam :=
  let '(multi, p) :=
    if cfg_multiVersion (config env) =? 0 then (false, p)
    else useMultiVersion env fid p in
  if multi then
    let main := getMainFileID env in
    let '(db, p) := consumeFile env main p in
    match db with
    | None => (None, p)
    | Some _ =>
        let p := seenFile env fid p in
        if ev_written_in_main e then (Some (main, -1), p)
        else
          match db_of main p with
          | None => (None, p)
          | Some db =>
              let '(lid, db) := getFileLID env fid db in
              (Some (main, lid), put_db main db p)
          end
    end
  else
    let '(db, p) := consumeFile env fid p in
    match db with
    | None => (None, p)
    | Some _ => (Some (fid, -1), p)
    end.

(** A dereference of [func], [type] or [var]; each is non-null only in the
    arm of [switch (kind)] that set it. *)
Definition deref (nonnull : bool) : option unit :=
  if nonnull then Some () else None.

(** The locals of [handleDeclOccurence] once the identity of the node is
    resolved: [lid], [role], [is_decl], [is_def], [kind], [ls_kind], [loc],
    the adjusted [D], and [*info] (whose key is [usr]). *)
Record Occ := mkOcc {
  oc_lid : Z;
  oc_role : Z;
  oc_is_decl : bool;
  oc_is_def : bool;
  oc_kind : Kind;
  oc_ls_kind : SymbolKind;
  oc_loc : Range;
  oc_D : Decl;
  oc_info : DeclInfo }.

Definition oc_usr (o : Occ) : Usr := di_usr (oc_info o).

(** From [Role role = static_cast<Role>(Roles)] to [Usr usr = getUsr(D,
    &info)]. *)
Definition occ_locals (env : Env) (e : DeclEvent) (lid : Z) (p : IndexParam)
  : Occ * IndexParam :=
  let ctx := ast env in
  let D0 := ev_D e in
  let role := ev_Roles e mod 2 ^ 16 in
  let is_decl := negb (Z.land (ev_Roles e) Role.Declaration =? 0) in
  let is_def :=
    negb (Z.land (ev_Roles e) Role.Definition_ =? 0)
    || (is_decl && bool_decide (declKind ctx D0 = DkBinding)) in
  let '(kind, ls_kind) := getKind ctx D0 SkUnknown in
  let loc :=
    if is_def then
      match declKind ctx D0 with
      | DkCXXConversion | DkCXXDestructor | DkCXXMethod | DkFunction =>
          default (ev_loc e) (ev_name_range e)
      | _ => ev_loc e
      end
    else ev_loc e in
  let D :=
    if is_def then D0
    else match ev_adjusted e with
         | Some D1 => if bool_decide (D1 = D0) then D0 else D1
         | None => D0
         end in
  let '(info, p) := getUsr env D p in
  (mkOcc lid role is_decl is_def kind ls_kind loc D info, p).

(** [getKind(cast<Decl>(SemDC), ls_kind)]. *)
Definition sem_kind (env : Env) (e : DeclEvent) (o : Occ) : Kind :=
  (getKind (ast env) (ev_SemDC e) (oc_ls_kind o)).1.

(** [case Kind::Func] of [switch (kind)]. *)
Definition occ_Func (env : Env) (e : DeclEvent) (o : Occ)
    (st : IndexFile * IndexParam) : IndexFile * IndexParam :=
  let ctx := ast env in
  let '(db, p) := st in
  let usr := oc_usr o in
  let is_def := oc_is_def o in
  let is_decl := oc_is_decl o in
  let db := toFunc usr (f_upd_core (set_kind (oc_ls_kind o))) db in
  let role :=
    if negb is_def && negb is_decl
       && (bool_decide (declKind ctx (oc_D o) = DkCXXConstructor)
           || bool_decide (declKind ctx (oc_D o) = DkCXXConversion))
    then Z.lor (oc_role o) Role.Implicit else oc_role o in
  let db := toFunc usr
              (f_upd_core
                 (do_def_decl env e is_def is_decl (mkUse (oc_loc o) role (oc_lid o))))
              db in
  let db := addMacroUse_if env e usr KFunc db in
  let db := toFunc usr
              (f_upd_core (fun c =>
                 if String.eqb (detailed_name c) ""
                 then set_name (ev_name e) c else c)) db in
  if is_def || is_decl then
    if bool_decide (sem_kind env e o = KType) then
      let '(i, p) := getUsr env (ev_SemDC e) p in
      (toType (di_usr i) (t_upd_funcs (fun l => l ++ [usr])) db, p)
    else (db, p)
  else
    if bool_decide ((getKind ctx (ev_LexDC e) (oc_ls_kind o)).1 = KFunc) then
      let '(i, p) := getUsr env (ev_LexDC e) p in
      (toFunc (di_usr i)
         (f_upd_callees (fun l => l ++ [mkSymbolRef (oc_loc o) usr KFunc role]))
         db, p)
    else (db, p).

(** [case Kind::Type] of [switch (kind)]. *)
Definition occ_Type (env : Env) (e : DeclEvent) (o : Occ)
    (st : IndexFile * IndexParam) : IndexFile * IndexParam :=
  let ctx := ast env in
  let '(db, p) := st in
  let usr := oc_usr o in
  let is_def := oc_is_def o in
  let is_decl := oc_is_decl o in
  let db := toType usr (t_upd_core (set_kind (oc_ls_kind o))) db in
  let db := toType usr
              (t_upd_core
                 (do_def_decl env e is_def is_decl
                    (mkUse (oc_loc o) (oc_role o) (oc_lid o)))) db in
  let db := addMacroUse_if env e usr KType db in
  let db :=
    if (is_def || String.eqb (detailed_name (t_core (type_at usr db))) "")
       && negb (String.eqb (di_short_name (oc_info o)) "")
    then
      if bool_decide (declKind ctx (oc_D o) = DkTemplateTypeParm)
      then toType usr
             (t_upd_core (set_detailed_name (di_short_name (oc_info o)))) db
      else toType usr (t_upd_core (set_name (ev_orig_name e))) db
    else db in
  if (is_def || is_decl) && bool_decide (sem_kind env e o = KType) then
    let '(i, p) := getUsr env (ev_SemDC e) p in
    (toType (di_usr i) (t_upd_types (fun l => l ++ [usr])) db, p)
  else (db, p).

(** What [setVarName] writes through [var->def]. *)
Definition setVarName (e : DeclEvent) (v : IndexVar) : IndexVar :=
  let v := match ev_var_storage e with
           | Some sc => v_set_storage sc v
           | None => v
           end in
  let v := v_upd_core (set_name (ev_var_name e)) v in
  match ev_var_hover e with
  | Some h => v_upd_core (set_hover h) v
  | None => v
  end.

(** [var->def.type = usr1] and the "instance of" back-edge. *)
Definition instance_of (env : Env) (o : Occ) (usr1 : Usr) (d : IndexFile) : IndexFile :=
  let d := toVar (oc_usr o) (v_set_type usr1) d in
  if bool_decide (declKind (ast env) (oc_D o) = DkEnumConstant) then d
  else toType usr1 (t_upd_instances (fun l => l ++ [oc_usr o])) d.

(** The test of the branch under [#if LLVM_VERSION_MAJOR < 9]: the
    declaration [D1] of the variable's type is a template type parameter
    whose source range begins in the file of the occurrence. *)
Definition type_parm_in_file (env : Env) (e : DeclEvent) (D1 : Decl)
  : option (Range * Range) :=
  if (LLVM_VERSION_MAJOR env <? 9)
     && bool_decide (declKind (ast env) D1 = DkTemplateTypeParm)
  then ev_type_parm_loc e else None.

(** The body of that branch: the type entity of the template type
    parameter is given a definition record, its name and its kinds, and
    the variable is linked to it. *)
Definition type_parm_record (o : Occ) (i : DeclInfo) (l1 r1 : Range)
    (d : IndexFile) : IndexFile :=
  let usr1 := di_usr i in
  let d :=
    toType usr1
      (t_upd_core (fun c =>
         set_parent_kind SkClass
           (set_kind SkTypeParameter
              (set_short_name_size
                 (to_int16 (Z.of_nat (String.length (di_short_name i))))
                 (set_detailed_name (di_short_name i)
                    (set_spell
                       (Some (mkDeclRef (mkUse l1 Role.Definition_ (oc_lid o))
                                r1)) c)))))) d in
  let d := toVar (oc_usr o) (v_set_type usr1) d in
  toType usr1 (t_upd_instances (fun l => l ++ [oc_usr o])) d.

(** [if (!T.isNull())] of [case Kind::Var]: the variable is linked to the
    entity of its type. *)
Definition link_var_type (env : Env) (e : DeclEvent) (o : Occ)
    (st : IndexFile * IndexParam) : IndexFile * IndexParam :=
  let '(db, p) := st in
  match ev_var_type e with
  | VtBuiltin k => (instance_of env o k db, p)
  | VtDecl D1 =>
      let '(i, p) := getUsr env D1 p in
      match type_parm_in_file env e D1 with
      | Some (l1, r1) => (type_parm_record o i l1 r1 db, p)
      | None => (instance_of env o (di_usr i) db, p)
      end
  | VtNull | VtOther => (db, p)
  end.

(** [case Kind::Var] of [switch (kind)]. *)
Definition occ_Var (env : Env) (e : DeclEvent) (o : Occ)
    (st : IndexFile * IndexParam) : IndexFile * IndexParam :=
  let ctx := ast env in
  let '(db, p) := st in
  let usr := oc_usr o in
  let is_def := oc_is_def o in
  let is_decl := oc_is_decl o in
  let db := toVar usr (v_upd_core (set_kind (oc_ls_kind o))) db in
  let db := toVar usr
              (v_upd_core
                 (do_def_decl env e is_def is_decl
                    (mkUse (oc_loc o) (oc_role o) (oc_lid o)))) db in
  let db := addMacroUse_if env e usr KVar db in
  let db :=
    if String.eqb (detailed_name (v_core (var_at usr db))) ""
    then toVar usr (setVarName e) db else db in
  if is_def || is_decl then
    let db := toVar usr
                (v_upd_core (fun c =>
                   set_parent_kind
                     (getKind ctx (ev_SemDC e) (parent_kind c)).2 c)) db in
    let '(db, p) :=
      match sem_kind env e o with
      | KFunc =>
          let '(i, p) := getUsr env (ev_SemDC e) p in
          (toFunc (di_usr i) (f_upd_vars (fun l => l ++ [usr])) db, p)
      | KType =>
          if isa_RecordDecl (declKind ctx (ev_SemDC e)) then (db, p)
          else
            let '(i, p) := getUsr env (ev_SemDC e) p in
            (toType (di_usr i) (t_upd_vars (fun l => l ++ [(usr, -1)])) db, p)
      | _ => (db, p)
      end in
    link_var_type env e o (db, p)
  else
    let v := var_at usr db in
    if bool_decide (spell (v_core v) = None)
       && bool_decide (declarations (v_core v) = [])
    then
      match ev_decl_loc e with
      | Some (l, r) =>
          (toVar usr
             (v_upd_core (fun c =>
                set_parent_kind SkMethod
                  (set_spell
                     (Some (mkDeclRef (mkUse l Role.Definition_ (oc_lid o)) r)) c)))
             db, p)
      | None => (db, p)
      end
    else (db, p).

(** The name given to a record without one: ["anon " + Tag], followed by
    the typedef name when there is one. *)
Definition anon_record_name (env : Env) (e : DeclEvent) (o : Occ) : string :=
  match ev_anon_typedef e with
  | Some Name =>
      "anon " +:+ tag_name (tagKind (ast env) (oc_D o)) +:+ " " +:+ Name
  | None => "anon " +:+ tag_name (tagKind (ast env) (oc_D o))
  end.

(** The name an unnamed record gets when it has none yet. *)
Definition name_anon_record (env : Env) (e : DeclEvent) (o : Occ)
    (d : IndexFile) : IndexFile :=
  if String.eqb (detailed_name (t_core (type_at (oc_usr o) d))) ""
     && String.eqb (di_short_name (oc_info o)) ""
  then
    let name := anon_record_name env e o in
    toType (oc_usr o)
      (t_upd_core (fun c =>
         set_short_name_size (to_int16 (Z.of_nat (String.length name)))
           (set_detailed_name name c))) d
  else d.

(** The base-class edges of [case Decl::CXXRecord]. *)
Definition link_Record_bases (env : Env) (e : DeclEvent) (o : Occ)
    (st : IndexFile * IndexParam) : option (IndexFile * IndexParam) :=
  if bool_decide (declKind (ast env) (oc_D o) = DkCXXRecord) && oc_is_def o then
    match ev_bases e with
    | [] => Some st
    | _ =>
        _ ← deref (bool_decide (oc_kind o = KType));
        Some (link_each env id (fun _ => link_type_base (oc_usr o)) (ev_bases e) st)
    end
  else Some st.

(** [case Decl::CXXRecord] falling through to [case Decl::Record] of
    [switch (D->getKind())]. *)
Definition link_Record (env : Env) (e : DeclEvent) (o : Occ)
    (st : IndexFile * IndexParam) : option (IndexFile * IndexParam) :=
  st ← link_Record_bases env e o st;
  _ ← deref (bool_decide (oc_kind o = KType));
  let st := (name_anon_record env e o st.1, st.2) in
  if oc_is_def o && isa_RecordDecl (declKind (ast env) (ev_OrigD e))
  then Some (collectRecordMembers env (oc_usr o) (ev_members e) st)
  else Some st.

(** [case Decl::ClassTemplateSpecialization] and
    [case Decl::ClassTemplatePartialSpecialization]. *)
Definition link_Specialization (env : Env) (e : DeclEvent) (o : Occ)
    (st : IndexFile * IndexParam) : option (IndexFile * IndexParam) :=
  let usr := oc_usr o in
  let '(db, p) := st in
  _ ← deref (bool_decide (oc_kind o = KType));
  let db := toType usr (t_upd_core (set_kind SkClass)) db in
  if oc_is_def o then
    let '(db, p) :=
      if isa_RecordDecl (declKind (ast env) (ev_OrigD e))
      then collectRecordMembers env usr (ev_members e) (db, p)
      else (db, p) in
    match ev_specialized_from e with
    | Some D1 =>
        let '(i, p) := getUsr env D1 p in
        Some (link_type_base usr (di_usr i) db, p)
    | None => Some (db, p)
    end
  else Some (db, p).

(** [case Decl::TypeAlias], [case Decl::Typedef] and
    [case Decl::UnresolvedUsingTypename]. *)
Definition link_TypeAlias (env : Env) (e : DeclEvent) (o : Occ)
    (st : IndexFile * IndexParam) : option (IndexFile * IndexParam) :=
  let usr := oc_usr o in
  let '(db, p) := st in
  if isa_TypedefNameDecl (declKind (ast env) (oc_D o)) then
    match ev_underlying e with
    | Some (D1, use1) =>
        let '(i, p) := getUsr env D1 p in
        let usr1 := di_usr i in
        let db := toType usr1 id db in
        _ ← deref (bool_decide (oc_kind o = KType));
        let db := toType usr (t_set_alias_of usr1) db in
        match use1 with
        | Some r =>
            Some (toType usr1
                    (t_upd_core (push_use (mkUse r Role.Reference (oc_lid o))))
                    db, p)
        | None => Some (db, p)
        end
    | None => Some (db, p)
    end
  else Some (db, p).

(** [switch (D->getKind())], the second switch of the handler. *)
Definition link_by_category (env : Env) (e : DeclEvent) (o : Occ)
    (st : IndexFile * IndexParam) : option (IndexFile * IndexParam) :=
  let ctx := ast env in
  let usr := oc_usr o in
  let is_type := bool_decide (oc_kind o = KType) in
  match declKind ctx (oc_D o) with
  | DkNamespace =>
      if ev_is_first_decl e
         && bool_decide (declKind ctx (ev_parent e) = DkNamespace)
      then
        let '(i, p) := getUsr env (ev_parent e) st.2 in
        _ ← deref is_type;
        Some (link_type_base usr (di_usr i) st.1, p)
      else Some st
  | DkNamespaceAlias =>
      match ev_alias_namespace e with
      | Some ND =>
          let '(i, p) := getUsr env ND st.2 in
          _ ← deref is_type;
          Some (toType (di_usr i) id
                  (toType usr (t_set_alias_of (di_usr i)) st.1), p)
      | None => Some st
      end
  | DkCXXRecord | DkRecord => link_Record env e o st
  | DkClassTemplateSpecialization | DkClassTemplatePartialSpecialization =>
      link_Specialization env e o st
  | DkTypeAlias | DkTypedef | DkUnresolvedUsingTypename =>
      link_TypeAlias env e o st
  | DkCXXMethod =>
      if oc_is_def o || oc_is_decl o then
        match ev_overridden e with
        | [] => Some st
        | _ =>
            _ ← deref (bool_decide (oc_kind o = KFunc));
            Some (link_each env id (fun _ => link_func_base usr)
                    (ev_overridden e) st)
        end
      else Some st
  | DkEnumConstant =>
      if oc_is_def o then
        _ ← deref (bool_decide (oc_kind o = KVar));
        if string_mem "=" (detailed_name (v_core (var_at usr st.1)))
        then Some st
        else
          Some (toVar usr
                  (v_upd_core (fun c =>
                     set_hover (detailed_name c +:+ " = " +:+ ev_enum_value e) c))
                  st.1, st.2)
      else Some st
  | _ => Some st
  end.

(** The part of [handleDeclOccurence] from [Role role = ...] to the end,
    acting on the target index [db].  [None] is a dereference of a null
    entity pointer. *)
Definition record_occurrence (env : Env) (e : DeclEvent) (lid : Z)
    (st : IndexFile * IndexParam) : option (IndexFile * IndexParam) :=
  let '(db, p) := st in
  let db := db_set_language
              (Z.lor (language db)
                 (LanguageId_to_Z (getDeclLanguage (ast env) (ev_D e)))) db in
  let '(o, p) := occ_locals env e lid p in
  match oc_kind o with
  | KInvalid | KFile => Some (db, p)
  | KFunc => link_by_category env e o (occ_Func env e o (db, p))
  | KType => link_by_category env e o (occ_Type env e o (db, p))
  | KVar => link_by_category env e o (occ_Var env e o (db, p))
  end.

(** [bool handleDeclOccurence(D, Roles, Relations, Loc, ASTNode)]. *)
Definition handleDeclOccurence (env : Env) (e : DeclEvent) (p : IndexParam)
  : option IndexParam :=
  if negb (p_no_linkage p) && negb (hasLinkage (ast env) (ev_D e)) then Some p
  else
    match ev_fid e with
    | None => Some p
    | Some fid =>
        let '(target, p) := stage_event env e fid p in
        match target with
        | None => Some p
        | Some (key, lid) =>
            match db_of key p with
            | None => Some p
            | Some db =>
                st ← record_occurrence env e lid (db, p);
                Some (put_db key st.1 st.2)
            end
        end
    end.

(** ** The event stream of a pass *)

(** The callbacks the engine makes during a pass, with their arguments. *)
Inductive Event :=
  | EvFileChanged (enterFile : bool) (fid : FileID)
  | EvInclusionDirective (File : option string) (line : Z) (fid : FileID)
  | EvMacroDefined (m : MacroDef)
  | EvMacroExpands (Name : string) (fid : FileID) (range : Range)
  | EvMacroUndefined (Name : string) (ud : option (FileID * Range))
  | EvSourceRangeSkipped (range : Range) (fid : option FileID)
  | EvShouldSkipFunctionBody (fid : FileID)
  | EvDeclOccurence (e : DeclEvent).

Definition step (env : Env) (ev : Event) (p : IndexParam) : option IndexParam :=
  match ev with
  | EvFileChanged b fid => Some (FileChanged env b fid p)
  | EvInclusionDirective f l fid => Some (InclusionDirective env f l fid p)
  | EvMacroDefined m => Some (MacroDefined env m p)
  | EvMacroExpands n fid r => Some (MacroExpands env n fid r p)
  | EvMacroUndefined n ud => Some (MacroUndefined env n ud p)
  | EvSourceRangeSkipped r fid => Some (SourceRangeSkipped env r fid p)
  | EvShouldSkipFunctionBody fid => Some (shouldSkipFunctionBody env fid p).2
  | EvDeclOccurence e => handleDeclOccurence env e p
  end.

(** The callbacks are made synchronously, one after the other. *)
Fixpoint run (env : Env) (evs : list Event) (p : IndexParam) : option IndexParam :=
  match evs with
  | [] => Some p
  | ev :: evs => p' ← step env ev p; run env evs p'
  end.

(** ** The post-pass *)

(** [template <typename T> void uniquify(std::vector<T> &a)].  [eqb] is
    [operator==] of [T] (the hash of [std::unordered_set<T>] agrees with it);
    [seen] lists the elements inserted so far.  The loop state is
    [(seen, a, n)] and [i] runs over the indices of [a], which is overwritten
    in place and truncated at the end. *)
Definition uniquify_step {T} (eqb : T -> T -> bool)
    (st : list T * list T * nat) (i : nat) : list T * list T * nat :=
  let '(seen, a, n) := st in
  match a !! i with
  | Some x =>
      if existsb (eqb x) seen then (seen, a, n)
      else (x :: seen, <[n := x]> a, S n)
  | None => st
  end.

Definition uniquify {T} (eqb : T -> T -> bool) (a : list T) : list T :=
  let '(_, a', n) :=
    foldl (uniquify_step eqb) ([], a, O) (seq 0 (length a)) in
  take n a'.

(** The loop over [param.uid2file] that updates the dependencies of
    [entry]. *)
Definition stamp_dependency (entry : IndexFile) (file : File) : IndexFile :=
  let fpath := file_path file in
  if String.eqb fpath "" then entry
  else if String.eqb fpath (path entry) then
    db_set_mtime (file_mtime file) entry
  else if negb (String.eqb fpath (import_file entry)) then
    db_set_dependencies (<[fpath := file_mtime file]> (dependencies entry)) entry
  else entry.

Definition stamp_dependencies (files : list (FileID * File))
    (entry : IndexFile) : IndexFile :=
  foldl (fun entry kf => stamp_dependency entry kf.2) entry files.

(** What the body of the result loop of [idx::index] does to one [entry]
    before the dependencies: the main file and arguments, the flattened
    local-file table, the deduplicated relationship lists.  [use_eqb] is
    [Use::operator==]. *)
Definition prepare_entry (use_eqb : Use -> Use -> bool) (main : string)
    (args : list string) (entry : IndexFile) : IndexFile :=
  let entry := db_set_import main args entry in
  let entry :=
    db_set_lids ∅
      (lid2path entry ++ (map_to_list (uid2lid_and_path entry)).*2) entry in
  let uniq_uses := fun c => set_uses (uniquify use_eqb (uses c)) c in
  let entry :=
    db_set_funcs
      ((fun f => f_upd_core uniq_uses (f_upd_derived (uniquify Z.eqb) f))
         <$> usr2func entry) entry in
  let entry :=
    db_set_types
      ((fun t =>
          t_upd_funcs (uniquify Z.eqb)
            (t_upd_bases (uniquify Z.eqb)
               (t_upd_core uniq_uses (t_upd_derived (uniquify Z.eqb) t))))
         <$> usr2type entry) entry in
  db_set_vars ((v_upd_core uniq_uses) <$> usr2var entry) entry.

(** The body of the result loop of [idx::index] for one [entry]. *)
Definition finalize_entry (use_eqb : Use -> Use -> bool) (main : string)
    (args : list string) (files : list (FileID * File)) (entry : IndexFile)
  : IndexFile :=
  stamp_dependencies files (prepare_entry use_eqb main args entry).

(** The result loop: one finalized entry per staged file whose index is not
    null, in the iteration order of [param.uid2file]. *)
Definition finalize (use_eqb : Use -> Use -> bool) (main : string)
    (args : list string) (p : IndexParam) : list IndexFile :=
  let files := map_to_list (uid2file p) in
  omap (fun kf => finalize_entry use_eqb main args files <$> file_db kf.2) files.

(** ** The driver *)

(** How the engine behaves inside [CRC.RunSafely(parse)], with the callbacks
    it has delivered by then: a fault before [parse] returns,
    [BeginSourceFile] returning false, [Execute] returning an error, or a
    run through [EndSourceFile]. *)
Inductive EngineRun :=
  | RunCrashed (delivered : list Event)
  | RunBeginFailed (delivered : list Event)
  | RunExecuteFailed (delivered : list Event) (reason : string)
  | RunCompleted (delivered : list Event).

Definition delivered_events (r : EngineRun) : list Event :=
  match r with
  | RunCrashed evs | RunBeginFailed evs | RunExecuteFailed evs _
  | RunCompleted evs => evs
  end.

(** The engine as the driver sees it. *)
Record Engine := mkEngine {
  buildCompilerInvocation : bool;     (* false: the invocation is null *)
  hasTarget : bool;                   (* Clang->hasTarget() *)
  engine_run : EngineRun }.

(** [CRC.RunSafely(parse)]: the second component is the value of [ok] when
    control comes back, the first is [RunSafely]'s result.  [ok = true] is
    the last statement of [parse]; a null entity dereference in a callback is
    a fault like any other. *)
Definition RunSafely_parse (env : Env) (eng : Engine) (ok : bool)
    (param : IndexParam) : bool * bool * option IndexParam :=
  match run env (delivered_events (engine_run eng)) param with
  | None => (false, ok, None)
  | Some param' =>
      match engine_run eng with
      | RunCrashed _ => (false, ok, Some param')
      | RunBeginFailed _ => (true, ok, Some param')
      | RunExecuteFailed _ _ => (true, ok, Some param')
      | RunCompleted _ => (true, true, Some param')
      end
  end.

(** [idx::index(manager, wfiles, vfs, opt_wdir, main, args, remapped,
    no_linkage, ok)]: the result collection and the final value of [ok]. *)
Definition index (env : Env) (use_eqb : Use -> Use -> bool) (eng : Engine)
    (main : string) (args : list string) (no_linkage : bool)
  : list IndexFile * bool :=
  let ok := true in
  if negb (buildCompilerInvocation eng) then ([], ok)
  else
    let ok := false in
    if negb (hasTarget eng) then ([], ok)
    else
      let param := IndexParam_new no_linkage in
      let '(safely, ok, param) := RunSafely_parse env eng ok param in
      if negb safely then ([], ok)
      else if negb ok then ([], ok)
      else
        match param with
        | Some param => (finalize use_eqb main args param, ok)
        | None => ([], ok)
        end.

(** ** The serializer *)

(** *** The C library functions the text form goes through *)

Definition is_digit (c : ascii) : bool :=
  let n := Z.of_N (N_of_ascii c) in (48 <=? n) && (n <=? 57).

Definition digit_val (c : ascii) : Z := Z.of_N (N_of_ascii c) - 48.

Definition digit_char (d : Z) : ascii := ascii_of_N (Z.to_N (48 + d)).

(** [isspace] in the C locale. *)
Definition isspace (c : ascii) : bool :=
  let n := Z.of_N (N_of_ascii c) in (n =? 32) || ((9 <=? n) && (n <=? 13)).

Fixpoint skip_spaces (s : string) : string :=
  match s with
  | String c s' => if isspace c then skip_spaces s' else s
  | EmptyString => s
  end.

(** The digit loop of [strtol] / [strtoull] in base 10: the value and the
    unread rest. *)
Fixpoint strto_digits (acc : Z) (s : string) : Z * string :=
  match s with
  | String c s' =>
      if is_digit c then strto_digits (10 * acc + digit_val c) s' else (acc, s)
  | EmptyString => (acc, s)
  end.

(** Sign and digits, after the leading white space: [None] when there is no
    digit (no conversion is performed). *)
Definition strto_signed (s : string) : option (bool * Z * string) :=
  let s1 := skip_spaces s in
  let '(neg, s2) :=
    match s1 with
    | String c r =>
        if Ascii.eqb c "-" then (true, r)
        else if Ascii.eqb c "+" then (false, r)
        else (false, s1)
    | EmptyString => (false, s1)
    end in
  match s2 with
  | String c _ =>
      if is_digit c then
        let '(v, rest) := strto_digits 0 s2 in Some (neg, v, rest)
      else None
  | EmptyString => None
  end.

(** [strtol(s, &end, 10)] with a 64-bit [long]: the value, clamped on
    overflow, and [end]. *)
Definition strtol (s : string) : Z * string :=
  match strto_signed s with
  | None => (0, s)
  | Some (neg, v, rest) =>
      let z := if neg then - v else v in
      (Z.max (- 2 ^ 63) (Z.min (2 ^ 63 - 1) z), rest)
  end.

(** [strtoull(s, &end, 10)]: clamped to [ULLONG_MAX] on overflow; a leading
    minus sign negates in the unsigned type. *)
Definition strtoull (s : string) : Z * string :=
  match strto_signed s with
  | None => (0, s)
  | Some (neg, v, rest) =>
      if 2 ^ 64 <=? v then (2 ^ 64 - 1, rest)
      else ((if neg then - v else v) mod 2 ^ 64, rest)
  end.

(** The decimal digits of a non-negative number, most significant first. *)
Fixpoint dec_digits (fuel : nat) (n : Z) (acc : string) : string :=
  match fuel with
  | O => acc
  | S fuel' =>
      let acc' := String (digit_char (n mod 10)) acc in
      if n / 10 =? 0 then acc' else dec_digits fuel' (n / 10) acc'
  end.

Definition Z_to_dec (n : Z) : string :=
  dec_digits (S (Z.to_nat (Z.log2 n))) n "".

(** [printf]'s [%d] (and [%lld], [std::to_string]) and [%llu]. *)
Definition printf_d (z : Z) : string :=
  if z <? 0 then String "-"%char (Z_to_dec (- z)) else Z_to_dec z.
Definition printf_u (z : Z) : string := Z_to_dec z.

(** [snprintf(buf, size, ...)] keeps at most [size - 1] characters. *)
Definition snprintf (size : nat) (formatted : string) : string :=
  substring 0 (size - 1) formatted.

(** [strchr(s, c)]: the suffix that starts at the first [c], or null. *)
Fixpoint strchr (s : string) (c : ascii) : option string :=
  match s with
  | String c' s' => if Ascii.eqb c' c then Some s else strchr s' c
  | EmptyString => None
  end.

(** [s + 1] for a pointer into a C string; stepping over the terminator
    leaves the string. *)
Definition ptr_succ (s : string) : option string :=
  match s with
  | String _ s' => Some s'
  | EmptyString => None
  end.

(** The enumerators of [Kind] as [uint8_t], and [static_cast<Kind>] for the
    values that are enumerators. *)
Definition Kind_to_Z (k : Kind) : Z :=
  match k with
  | KInvalid => 0 | KFile => 1 | KType => 2 | KFunc => 3 | KVar => 4
  end.
Definition Kind_of_Z (z : Z) : option Kind :=
  match z with
  | 0 => Some KInvalid | 1 => Some KFile | 2 => Some KType
  | 3 => Some KFunc | 4 => Some KVar
  | _ => None
  end.

(** [static_cast<int>] of a [long]. *)
Definition to_int32 (z : Z) : Z := (z + 2 ^ 31) mod 2 ^ 32 - 2 ^ 31.

(** *** The text form

    [Range::toString] and [Range::fromString] (position.cc) and the binary
    primitives (serializer.hh) are not part of indexer.cc: the [reflect]
    functions are parameterised by them. *)
Section Reflect.
Variable Range_toString : Range -> string.
Variable Range_fromString : string -> Range.

(** [void reflect(JsonWriter &vis, SymbolRef &v)]: the string handed to the
    JSON writer. *)
Definition reflect_JsonWriter_SymbolRef (v : SymbolRef) : string :=
  snprintf 99
    (Range_toString (sr_range v) ++ "|" ++ printf_u (sr_usr v) ++ "|"
     ++ printf_d (Kind_to_Z (sr_kind v)) ++ "|" ++ printf_d (sr_role v))%string.

(** [void reflect(JsonWriter &vis, Use &v)]. *)
Definition reflect_JsonWriter_Use (v : Use) : string :=
  snprintf 99
    (Range_toString (use_range v) ++ "|" ++ printf_d (use_role v) ++ "|"
     ++ printf_d (use_file_id v))%string.

(** [void reflect(JsonWriter &vis, DeclRef &v)]. *)
Definition reflect_JsonWriter_DeclRef (v : DeclRef) : string :=
  snprintf 99
    (Range_toString (use_range (dr_use v)) ++ "|"
     ++ Range_toString (dr_extent v) ++ "|"
     ++ printf_d (use_role (dr_use v)) ++ "|"
     ++ printf_d (use_file_id (dr_use v)))%string.

(** [void reflect(JsonReader &vis, SymbolRef &v)] on the string [t] the JSON
    reader returns; [None] when a pointer leaves the string. *)
Definition reflect_JsonReader_SymbolRef (t : string) : option SymbolRef :=
  let range := Range_fromString t in
  s ← strchr t "|"%char;
  s1 ← ptr_succ s;
  let '(usr, s) := strtoull s1 in
  s1 ← ptr_succ s;
  let '(k, s) := strtol s1 in
  kind ← Kind_of_Z (k mod 2 ^ 8);
  s1 ← ptr_succ s;
  let '(r, s) := strtol s1 in
  Some (mkSymbolRef range usr kind (r mod 2 ^ 16)).

(** [void reflect(JsonReader &vis, Use &v)]. *)
Definition reflect_JsonReader_Use (t : string) : option Use :=
  let range := Range_fromString t in
  s ← strchr t "|"%char;
  s1 ← ptr_succ s;
  let '(r, s) := strtol s1 in
  s1 ← ptr_succ s;
  let '(f, s) := strtol s1 in
  Some (mkUse range (r mod 2 ^ 16) (to_int32 f)).

(** [void reflect(JsonReader &vis, DeclRef &v)]. *)
Definition reflect_JsonReader_DeclRef (t : string) : option DeclRef :=
  let range := Range_fromString t in
  s ← strchr t "|"%char;
  s ← ptr_succ s;
  let extent := Range_fromString s in
  s ← strchr s "|"%char;
  s1 ← ptr_succ s;
  let '(r, s) := strtol s1 in
  s1 ← ptr_succ s;
  let '(f, s) := strtol s1 in
  Some (mkDeclRef (mkUse range (r mod 2 ^ 16) (to_int32 f)) extent).
End Reflect.

(** *** The binary form *)

(** A primitive of the binary writer and reader for values of type [A]:
    what [reflect(BinaryWriter &, A &)] appends to the buffer, and what
    [reflect(BinaryReader &, A &)] reads from the front of the input. *)
Record BinaryPrim (A : Type) := mkBinaryPrim {
  bin_put : A -> list Byte.byte;
  bin_get : list Byte.byte -> option (A * list Byte.byte) }.
Arguments bin_put {A} _ _.
Arguments bin_get {A} _ _.

Section ReflectBinary.
Variable bRange : BinaryPrim Range.
Variable bUsr : BinaryPrim Z.       (* uint64_t *)
Variable bKind : BinaryPrim Kind.
Variable bRole : BinaryPrim Z.      (* Role *)
Variable bInt : BinaryPrim Z.       (* int *)

(** [void reflect(BinaryWriter &vis, SymbolRef &v)]. *)
Definition reflect_BinaryWriter_SymbolRef (v : SymbolRef) : list Byte.byte :=
  bin_put bRange (sr_range v) ++ bin_put bUsr (sr_usr v)
  ++ bin_put bKind (sr_kind v) ++ bin_put bRole (sr_role v).

(** [void reflect(BinaryWriter &vis, Use &v)]. *)
Definition reflect_BinaryWriter_Use (v : Use) : list Byte.byte :=
  bin_put bRange (use_range v) ++ bin_put bRole (use_role v)
  ++ bin_put bInt (use_file_id v).

(** [void reflect(BinaryWriter &vis, DeclRef &v)]. *)
Definition reflect_BinaryWriter_DeclRef (v : DeclRef) : list Byte.byte :=
  reflect_BinaryWriter_Use (dr_use v) ++ bin_put bRange (dr_extent v).

(** [void reflect(BinaryReader &vis, SymbolRef &v)]: the value and the
    unread input. *)
Definition reflect_BinaryReader_SymbolRef (buf : list Byte.byte)
  : option (SymbolRef * list Byte.byte) :=
  '(range, buf) ← bin_get bRange buf;
  '(usr, buf) ← bin_get bUsr buf;
  '(kind, buf) ← bin_get bKind buf;
  '(role, buf) ← bin_get bRole buf;
  Some (mkSymbolRef range usr kind role, buf).

(** [void reflect(BinaryReader &vis, Use &v)]. *)
Definition reflect_BinaryReader_Use (buf : list Byte.byte)
  : option (Use * list Byte.byte) :=
  '(range, buf) ← bin_get bRange buf;
  '(role, buf) ← bin_get bRole buf;
  '(file_id, buf) ← bin_get bInt buf;
  Some (mkUse range role file_id, buf).

(** [void reflect(BinaryReader &vis, DeclRef &v)]. *)
Definition reflect_BinaryReader_DeclRef (buf : list Byte.byte)
  : option (DeclRef * list Byte.byte) :=
  '(use, buf) ← reflect_BinaryReader_Use buf;
  '(extent, buf) ← bin_get bRange buf;
  Some (mkDeclRef use extent, buf).
End ReflectBinary.

(** *** Reference primitives

    A decimal rendering [line:column-line:column] of a range (one-based, as
    editors count) with its parser, and fixed-width little-endian binary
    primitives.  They satisfy the contracts that the round-trip theorem asks
    of the primitives outside indexer.cc, and instantiate it. *)

(** [uint16_t] conversion. *)
Definition to_uint16 (z : Z) : Z := z mod 2 ^ 16.

Definition dec_Range_toString (r : Range) : string :=
  snprintf 99
    (printf_d (line (r_start r) + 1) ++ ":" ++ printf_d (column (r_start r) + 1)
     ++ "-" ++ printf_d (line (r_end r) + 1) ++ ":"
     ++ printf_d (column (r_end r) + 1))%string.

Definition dec_Range_fromString (s : string) : Range :=
  let '(l1, s) := strtoull s in
  let '(c1, s) := strtol (default ""%string (ptr_succ s)) in
  let '(l2, s) := strtoull (default ""%string (ptr_succ s)) in
  let '(c2, s) := strtol (default ""%string (ptr_succ s)) in
  mkRange (mkPos (to_uint16 (l1 - 1)) (to_int16 (to_int16 c1 - 1)))
          (mkPos (to_uint16 (l2 - 1)) (to_int16 (to_int16 c2 - 1))).

(** Ranges whose lines fit [uint16_t] and whose columns fit [int16_t]. *)
Definition Range_fits (r : Range) : Prop :=
  (0 <= line (r_start r) < 2 ^ 16 /\ - 2 ^ 15 <= column (r_start r) < 2 ^ 15) /\
  (0 <= line (r_end r) < 2 ^ 16 /\ - 2 ^ 15 <= column (r_end r) < 2 ^ 15).

(** [n] bytes of [z], least significant first. *)
Fixpoint le_put (n : nat) (z : Z) : list Byte.byte :=
  match n with
  | O => []
  | S n' =>
      default Byte.x00 (Byte.of_N (Z.to_N (z mod 256))) :: le_put n' (z / 256)
  end.

Fixpoint le_get (n : nat) (buf : list Byte.byte) : option (Z * list Byte.byte) :=
  match n with
  | O => Some (0, buf)
  | S n' =>
      match buf with
      | [] => None
      | b :: buf' =>
          '(z, rest) ← le_get n' buf';
          Some (Z.of_N (Byte.to_N b) + 256 * z, rest)
      end
  end.

(** An unsigned and a two's-complement field of [n] bytes. *)
Definition le_unsigned (n : nat) : BinaryPrim Z :=
  mkBinaryPrim Z (le_put n) (le_get n).
Definition le_signed (n : nat) : BinaryPrim Z :=
  let half := 2 ^ (8 * Z.of_nat n - 1) in
  mkBinaryPrim Z
    (fun z => le_put n (z mod (2 * half)))
    (fun buf =>
       '(z, rest) ← le_get n buf;
       Some ((z + half) mod (2 * half) - half, rest)).

Definition le_Kind : BinaryPrim Kind :=
  mkBinaryPrim Kind
    (fun k => le_put 1 (Kind_to_Z k))
    (fun buf => '(z, rest) ← le_get 1 buf; k ← Kind_of_Z z; Some (k, rest)).

Definition le_Pos_put (q : Pos) : list Byte.byte :=
  bin_put (le_unsigned 2) (line q) ++ bin_put (le_signed 2) (column q).
Definition le_Pos_get (buf : list Byte.byte) : option (Pos * list Byte.byte) :=
  '(l, buf) ← bin_get (le_unsigned 2) buf;
  '(c, buf) ← bin_get (le_signed 2) buf;
  Some (mkPos l c, buf).

Definition le_Range : BinaryPrim Range :=
  mkBinaryPrim Range
    (fun r => le_Pos_put (r_start r) ++ le_Pos_put (r_end r))
    (fun buf =>
       '(a, buf) ← le_Pos_get buf;
       '(b, buf) ← le_Pos_get buf;
       Some (mkRange a b, buf)).

(** ** Specification-level notions used by the properties *)

(** The elements of [l] that are not equal (by [eqb]) to an element of [seen]
    or to an earlier element of [l]. *)
Fixpoint first_occurrences {T} (eqb : T -> T -> bool) (seen l : list T) : list T :=
  match l with
  | [] => []
  | x :: l' =>
      if existsb (eqb x) seen then first_occurrences eqb seen l'
      else x :: first_occurrences eqb (x :: seen) l'
  end.

(** [x] stands at index [p] of [a] and no earlier element of [a] equals it. *)
Definition first_at {T} (eqb : T -> T -> bool) (a : list T) (p : nat) (x : T) : Prop :=
  a !! p = Some x /\
  forall q y, (q < p)%nat -> a !! q = Some y -> eqb x y = false.

(** Whether a string starts with a decimal digit. *)
Definition digit_head (s : string) : bool :=
  match s with
  | String c _ => is_digit c
  | EmptyString => false
  end.

(** The values of the location records that the machine types can hold:
    the key is a [uint64_t], the role bitset a [uint16_t], the file index an
    [int]; [Range_ok] says which ranges are representable. *)
Definition SymbolRef_valid (Range_ok : Range -> Prop) (v : SymbolRef) : Prop :=
  Range_ok (sr_range v) /\ 0 <= sr_usr v < 2 ^ 64 /\ 0 <= sr_role v < 2 ^ 16.
Definition Use_valid (Range_ok : Range -> Prop) (v : Use) : Prop :=
  Range_ok (use_range v) /\ 0 <= use_role v < 2 ^ 16 /\
  - 2 ^ 31 <= use_file_id v < 2 ^ 31.
Definition DeclRef_valid (Range_ok : Range -> Prop) (v : DeclRef) : Prop :=
  Use_valid Range_ok (dr_use v) /\ Range_ok (dr_extent v).

(** What the text form needs of [Range::toString] and [Range::fromString]:
    the parser reads back a printed range and ignores what follows the next
    [|], the printed range contains no [|], and it is short enough for the
    99-byte buffers of the writers. *)
Definition Range_text_contract (Range_ok : Range -> Prop)
    (toString : Range -> string) (fromString : string -> Range) : Prop :=
  (forall r rest, Range_ok r -> fromString (toString r +:+ String "|" rest) = r) /\
  (forall r, Range_ok r -> string_mem "|" (toString r) = false) /\
  (forall r, Range_ok r -> (String.length (toString r) <= 39)%nat).

(** What the binary form needs of a primitive: the reader returns what the
    writer appended and leaves the rest of the input. *)
Definition BinaryPrim_ok {A} (valid : A -> Prop) (b : BinaryPrim A) : Prop :=
  forall x rest, valid x -> bin_get b (bin_put b x ++ rest) = Some (x, rest).

(** Each entity map stores under key [k] an entity whose [usr] is [k]. *)
Definition keys_ok (d : IndexFile) : Prop :=
  (forall k e, usr2func d !! k = Some e -> f_usr e = k) /\
  (forall k e, usr2type d !! k = Some e -> t_usr e = k) /\
  (forall k e, usr2var d !! k = Some e -> v_usr e = k).

(** What holds of the index of a staged file during a pass: its path is the
    staged path, it has no dependency yet, and its maps are keyed by [usr]. *)
Definition db_inv (pth : string) (d : IndexFile) : Prop :=
  path d = pth /\ dependencies d = ∅ /\ keys_ok d.

(** The key with which staging consults the staleness cache for a handle
    that has a file entry. *)
Definition stamp_key (env : Env) (nl : bool) (fid : FileID) : option StampCall :=
  fe ← getFileEntryForID env fid;
  Some (fe_path fe, staged_mtime env fe, mode_tag nl).

(** What holds of the identity cache during a pass: it holds what was
    rendered for each canonical node, and each node was rendered once. *)
Definition cache_inv (env : Env) (p : IndexParam) : Prop :=
  (forall D info, Decl2Info p !! D = Some info -> info = render_DeclInfo env D) /\
  NoDup (render_log p) /\
  (forall D, D ∈ render_log p <-> is_Some (Decl2Info p !! D)).

(** What holds of the staging state during a pass. *)
Definition param_inv (env : Env) (p : IndexParam) : Prop :=
  (* every staged index satisfies [db_inv] for its staged path *)
  (forall fid f d, uid2file p !! fid = Some f -> file_db f = Some d ->
                   db_inv (file_path f) d) /\
  (* the cache was consulted once for each staged handle with a file entry,
     in the order of staging, and for no other handle *)
  (exists fids, NoDup fids /\
     (forall fid, fid ∈ fids <-> is_Some (uid2file p !! fid)) /\
     stamp_log p = omap (stamp_key env (p_no_linkage p)) fids) /\
  cache_inv env p.

(** How the staging state may change during a pass: staged handles stay
    staged with the same path, time and decision, cache consultations and
    identity-cache entries are only added. *)
Definition param_ext (p p' : IndexParam) : Prop :=
  p_no_linkage p' = p_no_linkage p /\
  (forall fid f, uid2file p !! fid = Some f ->
     exists f', uid2file p' !! fid = Some f' /\
       file_path f' = file_path f /\ file_mtime f' = file_mtime f /\
       (is_Some (file_db f') <-> is_Some (file_db f))) /\
  (exists calls, stamp_log p' = stamp_log p ++ calls) /\
  Decl2Info p ⊆ Decl2Info p' /\
  (exists nodes, render_log p' = render_log p ++ nodes).

(** A change of the staging state that touches the identity cache only. *)
Definition cache_ext (env : Env) (p p' : IndexParam) : Prop :=
  uid2file p' = uid2file p /\
  p_no_linkage p' = p_no_linkage p /\ stamp_log p' = stamp_log p /\
  Decl2Info p ⊆ Decl2Info p' /\
  (exists nodes, render_log p' = render_log p ++ nodes) /\
  (cache_inv env p -> cache_inv env p').

(** A change of the target index and of the staging state as the handler of
    declaration occurrences makes it once the target is selected. *)
Definition st_ok (env : Env) (st st' : IndexFile * IndexParam) : Prop :=
  (forall pth, db_inv pth st.1 -> db_inv pth st'.1) /\ cache_ext env st.2 st'.2.

(** One callback of the pass, as a change of the staging state. *)
Definition step_rel (env : Env) (p p' : IndexParam) : Prop :=
  param_ext p p' /\ (param_inv env p -> param_inv env p').

(** ** A small pass

    A main file that includes two headers, with a buffer that has no file
    entry (as the engine's built-in buffer), a macro and a structured
    binding.  The cache reports the second header as already indexed. *)

Definition ex_ast : ASTContext := {|
  declKind := fun D => if (D =? 10)%N then DkBinding
                       else if (D =? 11)%N then DkFunction
                       else DkTranslationUnit;
  tagKind := fun _ => TTK_Struct;
  isStatic := fun _ => false;
  getCanonicalDecl := fun D => if (D =? 12)%N then 10%N else D;
  generateUSRForDecl := fun D => if (D =? 10)%N then "c:@x" else "c:@F@f#";
  namedDecl := fun D => if (D =? 10)%N then Some ("x", "x")
                        else if (D =? 11)%N then Some ("f", "f")
                        else None;
  hasLinkage := fun _ => false |}.

Definition ex_env : Env := {|
  ast := ex_ast;
  config := mkConfig 0 0 5;
  hashUsr := fun s => Z.of_nat (String.length s);
  getFileEntryForID := fun fid =>
    if fid =? 1 then Some (mkFileEntry "/src/main.cc" 100)
    else if fid =? 2 then Some (mkFileEntry "/src/a.h" 0)
    else if fid =? 3 then Some (mkFileEntry "/src/b.h" 70)
    else None;
  lastWriteTime := fun _ => Some 50;
  readContent := fun _ => None;
  vfs_stamp := fun _ call => negb (String.eqb call.1.1 "/src/b.h");
  multiVersionMatches := fun _ => false;
  getMainFileID := 1;
  absolutePath := fun _ => None;
  LLVM_VERSION_MAJOR := 9 |}.

Definition ex_range (l : Z) : Range := mkRange (mkPos l 0) (mkPos l 3).

(** [auto [x, y] = ...;] inside [f]: the occurrence of the binding [x], with
    the Declaration role only. *)
Definition ex_binding : DeclEvent := {|
  ev_D := 10%N; ev_Roles := Role.Declaration; ev_OrigD := 10%N;
  ev_SemDC := 11%N; ev_LexDC := 11%N; ev_fid := Some 1;
  ev_loc := ex_range 7; ev_written_in_main := true; ev_name_range := None;
  ev_extent := ex_range 7; ev_comment := ""; ev_macro_spell := None;
  ev_adjusted := Some 10%N;
  ev_name := mkNameInfo "int x" 4 1 4; ev_orig_name := mkNameInfo "int x" 4 1 4;
  ev_var_name := mkNameInfo "int x" 4 1 4; ev_var_storage := None;
  ev_var_hover := None; ev_var_type := VtBuiltin 8;
  ev_type_parm_loc := None; ev_decl_loc := None;
  ev_is_first_decl := true; ev_parent := 0%N; ev_alias_namespace := None;
  ev_bases := []; ev_anon_typedef := None; ev_members := [];
  ev_specialized_from := None; ev_underlying := None; ev_overridden := [];
  ev_enum_value := "" |}.

Definition ex_events : list Event :=
  [ EvFileChanged true 1; EvFileChanged true 9; EvFileChanged true 2;
    EvMacroDefined (mkMacroDef "MAX" 2 (ex_range 1) (ex_range 1) "MAX 10");
    EvFileChanged true 3;
    EvMacroExpands "MAX" 1 (ex_range 5);
    EvDeclOccurence ex_binding ].

Definition ex_engine : Engine := mkEngine true true (RunCompleted ex_events).

(** Structural equality of uses. *)
Definition ex_use_eqb (a b : Use) : bool :=
  bool_decide
    ((line (r_start (use_range a)), column (r_start (use_range a)),
      line (r_end (use_range a)), column (r_end (use_range a)),
      use_role a, use_file_id a)
     = (line (r_start (use_range b)), column (r_start (use_range b)),
        line (r_end (use_range b)), column (r_end (use_range b)),
        use_role b, use_file_id b)).

Definition ex_result : list IndexFile * bool :=
  index ex_env ex_use_eqb ex_engine "/src/main.cc" [] true.

(** A macro whose definition spans six lines, and a macro defined twice. *)
Definition ex_newline : string := String "010"%char "".
Definition ex_long_macro : MacroDef :=
  mkMacroDef "BIG" 1 (ex_range 2) (ex_range 2)
    ("BIG(a)" +:+ ex_newline +:+ "a" +:+ ex_newline +:+ "+" +:+ ex_newline
     +:+ "a" +:+ ex_newline +:+ "+" +:+ ex_newline +:+ "a").
Definition ex_macro_A (body : string) (l : Z) : MacroDef :=
  mkMacroDef "A" 1 (ex_range l) (ex_range l) ("A " +:+ body).

(** The hover text of the macro [Name] in the index of the file [fid]. *)
Definition macro_hover (env : Env) (Name : string) (fid : FileID)
    (p : IndexParam) : option string :=
  d ← db_of fid p; Some (hover (v_core (var_at (getMacro env Name) d))).

(** The declaration lists of the function, type and variable entities of
    key [u] in an index (empty for a key the index does not have), and in
    the index staged for [fid] (empty when there is none). *)
Definition entity_records (d : IndexFile) (u : Usr)
  : list DeclRef * list DeclRef * list DeclRef :=
  (declarations (f_core (func_at u d)), declarations (t_core (type_at u d)),
   declarations (v_core (var_at u d))).

Definition declarations_at (p : IndexParam) (fid : FileID) (u : Usr)
  : list DeclRef * list DeclRef * list DeclRef :=
  match db_of fid p with
  | Some d => entity_records d u
  | None => ([], [], [])
  end.

(** A mutation of an index that leaves every declaration list and the
    definition record of every variable as they are. *)
Definition decl_frame (d d' : IndexFile) : Prop :=
  forall u, entity_records d' u = entity_records d u /\
            spell (v_core (var_at u d')) = spell (v_core (var_at u d)).

(** The categories for which [getKind] writes a fine-grained kind. *)
Definition kind_assigned (k : DeclKind) : bool :=
  match k with
  | DkLinkageSpec | DkTranslationUnit
  | DkObjCAtDefsField | DkObjCCompatibleAlias | DkObjCPropertyImpl
  | DkObjCTypeParam | DkFriend | DkFriendTemplate | DkStaticAssert
  | DkUsingDirective | DkUsingShadow
  | DkAccessSpec | DkBlock | DkCaptured | DkEmpty | DkExport
  | DkExternCContext | DkFileScopeAsm | DkImport | DkLabel
  | DkPragmaComment | DkPragmaDetectMismatch | DkBuiltinTemplate
  | DkConcept | DkCXXDeductionGuide | DkIndirectField | DkMSProperty
  | DkOMPThreadPrivate | DkOMPDeclareReduction | DkUsingPack
  | DkConstructorUsingShadow => false
  | _ => true
  end.

(** No two positions of [l] hold elements that [eqb] identifies. *)
Definition distinct_by {T} (eqb : T -> T -> bool) (l : list T) : Prop :=
  forall i j x y, l !! i = Some x -> l !! j = Some y -> eqb x y = true -> i = j.

(** A change of the staging state that leaves the staged files, the
    multi-version decisions, the pass mode and the record of cache
    consultations as they are (the identity cache may grow). *)
Definition cache_only (p p' : IndexParam) : Prop :=
  uid2file p' = uid2file p /\ uid2multi p' = uid2multi p /\
  p_no_linkage p' = p_no_linkage p /\ stamp_log p' = stamp_log p.

(** A change of the target index related by [R], with a change of the
    staging state that touches the identity cache only. *)
Definition st_frame (R : IndexFile -> IndexFile -> Prop)
    (st st' : IndexFile * IndexParam) : Prop :=
  R st.1 st'.1 /\ cache_only st.2 st'.2.

(** The members of an index that the handler of declaration occurrences
    does not write. *)
Definition side_tables (d : IndexFile) :=
  (path d, no_linkage d, file_contents d, mtime d, import_file d, args d,
   includes d, skipped_ranges d, lid2path d, dependencies d).

(** A change of the staging state under which staged handles stay staged
    and every index is related by [R] to the index the handle had before,
    or to a freshly created one when the handle was not staged. *)
Definition stage_frame (R : IndexFile -> IndexFile -> Prop)
    (p p' : IndexParam) : Prop :=
  (forall fid, is_Some (uid2file p !! fid) -> is_Some (uid2file p' !! fid)) /\
  (forall fid d', db_of fid p' = Some d' ->
     match db_of fid p with
     | Some d => R d d'
     | None =>
         uid2file p !! fid = None /\
         exists pth c nl, R (IndexFile_new pth c nl) d'
     end).

Definition same_side_tables (d d' : IndexFile) : Prop :=
  side_tables d' = side_tables d.

(** The include list and the skipped ranges of the index staged for [fid]
    (empty when there is none). *)
Definition includes_at (p : IndexParam) (fid : FileID) : list (Z * string) :=
  match db_of fid p with Some d => includes d | None => [] end.
Definition skipped_at (p : IndexParam) (fid : FileID) : list Range :=
  match db_of fid p with Some d => skipped_ranges d | None => [] end.

(** What a callback contributes to the include list and to the skipped
    ranges of the file [fid]: an inclusion directive written in [fid] whose
    file entry is not null and whose path is not empty, and a skipped range
    that begins in [fid]. *)
Definition event_includes (fid : FileID) (ev : Event) : list (Z * string) :=
  match ev with
  | EvInclusionDirective (Some pth) l fid' =>
      if bool_decide (fid' = fid) && negb (String.eqb pth "") then [(l, pth)]
      else []
  | _ => []
  end.
Definition event_skipped (fid : FileID) (ev : Event) : list Range :=
  match ev with
  | EvSourceRangeSkipped r (Some fid') =>
      if bool_decide (fid' = fid) then [r] else []
  | _ => []
  end.

(** A pass with an inclusion directive and a skipped range in the main
    file. *)
Definition ex_include_events : list Event :=
  [ EvFileChanged true 1;
    EvInclusionDirective (Some "/src/a.h") 3 1;
    EvInclusionDirective None 4 1;
    EvSourceRangeSkipped (ex_range 9) (Some 1) ].

Definition ex_include_engine : Engine :=
  mkEngine true true (RunCompleted ex_include_events).

(** A reference to the macro [Name] in the file [fid]: an expansion, or an
    [#undef] with its directive. *)
Definition macro_reference (env : Env) (Name : string) (fid : FileID)
    (p : IndexParam) (u : bool * Range) : IndexParam :=
  if u.1 then MacroUndefined env Name (Some (fid, u.2)) p
  else MacroExpands env Name fid u.2 p.

(** The generic part of the entity of kind [k] under key [u] (the empty
    record for the kinds that have no entity). *)
Definition core_at (k : Kind) (u : Usr) (d : IndexFile) : EntityCore :=
  match k with
  | KFunc => f_core (func_at u d)
  | KType => t_core (type_at u d)
  | KVar => v_core (var_at u d)
  | KInvalid | KFile => core0
  end.

(** A mutation of an index that leaves the definition record and the
    declaration list of every entity as they are. *)
Definition records_frame (d d' : IndexFile) : Prop :=
  forall k u,
    spell (core_at k u d') = spell (core_at k u d) /\
    declarations (core_at k u d') = declarations (core_at k u d).

(** The definition record and the declaration list that one occurrence
    leaves in the entity of kind [k] under key [u], given the generic part
    [c] the entity had: the entity the occurrence is about gets the
    occurrence as its definition record when the occurrence is a definition
    and as one more declaration when it is a declaration only; a variable
    with neither record gets a definition record from the location of its
    declaration when that lies in the same file; every other entity keeps
    what it has. *)
Definition recorded_by_role (e : DeclEvent) (o : Occ) (k : Kind) (u : Usr)
    (c : EntityCore) : option DeclRef * list DeclRef :=
  let dr := mkDeclRef (mkUse (oc_loc o) (oc_role o) (oc_lid o)) (ev_extent e) in
  if bool_decide (k = oc_kind o /\ u = oc_usr o /\ k ∈ [KFunc; KType; KVar])
  then
    (if oc_is_def o then Some dr
     else if bool_decide (k = KVar) && negb (oc_is_decl o)
             && bool_decide (spell c = None)
             && bool_decide (declarations c = [])
          then match ev_decl_loc e with
               | Some (l, r) =>
                   Some (mkDeclRef (mkUse l Role.Definition_ (oc_lid o)) r)
               | None => None
               end
          else spell c,
     declarations c
     ++ (if negb (oc_is_def o) && oc_is_decl o then [dr] else []))
  else (spell c, declarations c).

(** The type entity that the branch under [#if LLVM_VERSION_MAJOR < 9]
    writes for one occurrence, as the declaration of the template type
    parameter, with the definition record it gets: there is one when the
    occurrence is a declaration or definition of a variable whose type is
    declared by a template type parameter in the same file. *)
Definition type_parm_written (env : Env) (e : DeclEvent) (o : Occ)
  : option (Decl * DeclRef) :=
  if bool_decide (oc_kind o = KVar) && (oc_is_def o || oc_is_decl o) then
    match ev_var_type e with
    | VtDecl D1 =>
        match type_parm_in_file env e D1 with
        | Some (l1, r1) =>
            Some (D1, mkDeclRef (mkUse l1 Role.Definition_ (oc_lid o)) r1)
        | None => None
        end
    | _ => None
    end
  else None.

(** The key of that declaration, as the state [p] resolves it. *)
Definition type_parm_target (env : Env) (p : IndexParam)
    (w : option (Decl * DeclRef)) : option (Usr * DeclRef) :=
  (fun x => (di_usr (getUsr env x.1 p).1, x.2)) <$> w.

(** The records [r] of the entity of kind [k] under key [u], after the
    branch has written the type entity [tp]: that entity has the new
    definition record, and every entity keeps its declarations. *)
Definition recorded_with_type_parm (tp : option (Usr * DeclRef))
    (k : Kind) (u : Usr) (r : option DeclRef * list DeclRef)
  : option DeclRef * list DeclRef :=
  match tp with
  | Some (usr1, dr1) =>
      if bool_decide (k = KType /\ u = usr1) then (Some dr1, r.2) else r
  | None => r
  end.

(** A declaration of the function [f] that is not a definition. *)
Definition ex_function_decl : DeclEvent := {|
  ev_D := 11%N; ev_Roles := Role.Declaration; ev_OrigD := 11%N;
  ev_SemDC := 0%N; ev_LexDC := 0%N; ev_fid := Some 1;
  ev_loc := ex_range 4; ev_written_in_main := true; ev_name_range := None;
  ev_extent := ex_range 4; ev_comment := ""; ev_macro_spell := None;
  ev_adjusted := None;
  ev_name := mkNameInfo "void f()" 5 1 5;
  ev_orig_name := mkNameInfo "void f()" 5 1 5;
  ev_var_name := mkNameInfo "" 0 0 0; ev_var_storage := None;
  ev_var_hover := None; ev_var_type := VtNull;
  ev_type_parm_loc := None; ev_decl_loc := None;
  ev_is_first_decl := true; ev_parent := 0%N; ev_alias_namespace := None;
  ev_bases := []; ev_anon_typedef := None; ev_members := [];
  ev_specialized_from := None; ev_underlying := None; ev_overridden := [];
  ev_enum_value := "" |}.

(** A build against LLVM 8, with a template type parameter [T] (node 14)
    and a using-declaration (node 15); a variable whose type is [T]; and an
    occurrence of the using-declaration. *)
Definition ex_ast8 : ASTContext := {|
  declKind := fun D => if (D =? 14)%N then DkTemplateTypeParm
                       else if (D =? 15)%N then DkUsing
                       else declKind ex_ast D;
  tagKind := tagKind ex_ast;
  isStatic := isStatic ex_ast;
  getCanonicalDecl := getCanonicalDecl ex_ast;
  generateUSRForDecl := fun D => if (D =? 14)%N then "c:@TT"
                                 else generateUSRForDecl ex_ast D;
  namedDecl := fun D => if (D =? 14)%N then Some ("T", "T")
                        else namedDecl ex_ast D;
  hasLinkage := hasLinkage ex_ast |}.

Definition ex_env8 : Env := {|
  ast := ex_ast8;
  config := config ex_env;
  hashUsr := hashUsr ex_env;
  getFileEntryForID := getFileEntryForID ex_env;
  lastWriteTime := lastWriteTime ex_env;
  readContent := readContent ex_env;
  vfs_stamp := vfs_stamp ex_env;
  multiVersionMatches := multiVersionMatches ex_env;
  getMainFileID := getMainFileID ex_env;
  absolutePath := absolutePath ex_env;
  LLVM_VERSION_MAJOR := 8 |}.

Definition ex_event_with (D : Decl) (ty : VarType)
    (tl : option (Range * Range)) : DeclEvent := {|
  ev_D := D; ev_Roles := Role.Declaration; ev_OrigD := D;
  ev_SemDC := 11%N; ev_LexDC := 11%N; ev_fid := Some 1;
  ev_loc := ex_range 7; ev_written_in_main := true; ev_name_range := None;
  ev_extent := ex_range 7; ev_comment := ""; ev_macro_spell := None;
  ev_adjusted := Some D;
  ev_name := mkNameInfo "T x" 2 1 2; ev_orig_name := mkNameInfo "T x" 2 1 2;
  ev_var_name := mkNameInfo "T x" 2 1 2; ev_var_storage := None;
  ev_var_hover := None; ev_var_type := ty;
  ev_type_parm_loc := tl; ev_decl_loc := None;
  ev_is_first_decl := true; ev_parent := 0%N; ev_alias_namespace := None;
  ev_bases := []; ev_anon_typedef := None; ev_members := [];
  ev_specialized_from := None; ev_underlying := None; ev_overridden := [];
  ev_enum_value := "" |}.
Definition ex_var_of_type_parm : DeclEvent :=
  ex_event_with 10%N (VtDecl 14%N) (Some (ex_range 2, ex_range 3)).
Definition ex_using : DeclEvent := ex_event_with 15%N VtNull None.

(** The local file indices of an index lie below the size of its table. *)
Definition lids_ok (d : IndexFile) : Prop :=
  forall fid l pth,
    uid2lid_and_path d !! fid = Some (l, pth) ->
    0 <= l < Z.of_nat (size (uid2lid_and_path d)).

(** The environment of the small pass, with absolute paths for the files
    that have an entry. *)
Definition ex_env_paths : Env := {|
  ast := ast ex_env;
  config := config ex_env;
  hashUsr := hashUsr ex_env;
  getFileEntryForID := getFileEntryForID ex_env;
  lastWriteTime := lastWriteTime ex_env;
  readContent := readContent ex_env;
  vfs_stamp := vfs_stamp ex_env;
  multiVersionMatches := multiVersionMatches ex_env;
  getMainFileID := getMainFileID ex_env;
  absolutePath := fun fid => fe_path <$> getFileEntryForID ex_env fid;
  LLVM_VERSION_MAJOR := LLVM_VERSION_MAJOR ex_env |}.

(** ** Name synthesis: the text computed by [setName] *)

(** [name[k]] of a [std::string]: the terminator for [k = size()]. *)
Definition char_at (k : nat) (s : string) : ascii :=
  default "000"%char (String.get k s).

(** The three bytes ["{\n}"] of the text that [setName] removes. *)
Definition brace_newline_brace : string :=
  String "{" (String "010" (String "}" "")).

(** The loop of [setName] that replaces every ["{\n}"] by ["{}"]; the
    search resumes at the place of the replacement.  Each round shortens
    the text, so [String.length name] rounds suffice. *)
Fixpoint remove_brace_newline (fuel i : nat) (name : string) : string :=
  match fuel with
  | O => name
  | S fuel' =>
      match String.index i brace_newline_brace name with
      | None => name
      | Some j => remove_brace_newline fuel' j (string_replace j 3 "{}" name)
      end
  end.

Section SetName.
(** [clang::isIdentifierBody] (clang/Basic/CharInfo.h). *)
Variable isIdentifierBody : ascii -> bool.

(** The loop of [setName] that looks for an occurrence of [short_name]
    that is not part of a longer identifier; [i] is the current result of
    [find] ([None] for [npos]).  The position grows by at least the length
    of [short_name] in every round. *)
Fixpoint find_short_name (fuel : nat) (short name : string) (i : option nat)
  : option nat :=
  match fuel with
  | O => None
  | S fuel' =>
      match i with
      | None => None
      | Some k =>
          if (negb (k =? 0)%nat && isIdentifierBody (char_at (k - 1) name))
             || isIdentifierBody (char_at (k + String.length short) name)
          then find_short_name fuel' short name
                 (String.index (k + String.length short) short name)
          else Some k
      end
  end.

(** [for (int paren = 0; i; i--)]: the start of the qualified name, found
    by walking left from [i] over identifier characters, colons and
    balanced parentheses. *)
Fixpoint qual_name_start (name : string) (paren : Z) (i : nat) : nat :=
  match i with
  | O => O
  | S i' =>
      let c := char_at i' name in
      if Ascii.eqb c ")" then qual_name_start name (paren + 1) i'
      else if Ascii.eqb c "(" then qual_name_start name (paren - 1) i'
      else if negb ((0 <? paren) || isIdentifierBody c || Ascii.eqb c ":")
           then i
           else qual_name_start name paren i'
  end.

(** The text after [simplifyAnonymous] and the removal of ["{\n}"]. *)
Definition setName_normalized (printed : string) : string :=
  let name := simplifyAnonymous printed in
  remove_brace_newline (S (String.length name)) 0 name.

(** The position [i] after the search for [short_name]. *)
Definition setName_find (short name : string) : option nat :=
  let i := String.index 0 short name in
  if (String.length short =? 0)%nat then i
  else find_short_name (S (String.length name)) short name i.

(** [setName(D, short_name, qualified, def)] as a function of the text that
    [D->print] produces: the detailed name and the three offsets.  The
    [size_t] values are narrowed to the [int16_t] members of [def] they are
    assigned to. *)
Definition setName_text (printed short qualified : string) : NameInfo :=
  let name := setName_normalized printed in
  let '(name, i, short_off) :=
    match setName_find short name with
    | None => (name, O, 0)
    | Some k =>
        if (String.length short =? 0)%nat
           || ((2 <=? k)%nat && Ascii.eqb (char_at (k - 2) name) ":")
        then (name, k, to_int16 (Z.of_nat k))
        else (string_replace k (String.length short) qualified name, k,
              to_int16
                ((Z.of_nat k + Z.of_nat (String.length qualified)
                  - Z.of_nat (String.length short)) mod 2 ^ 64))
    end in
  mkNameInfo name short_off (to_int16 (Z.of_nat (String.length short)))
    (to_int16 (Z.of_nat (qual_name_start name 0 i))).
End SetName.

(** [clang::isIdentifierBody] for the default [AllowDollar = false]:
    letters, digits and the underscore. *)
Definition ascii_isIdentifierBody (c : ascii) : bool :=
  let n := N_of_ascii c in
  ((48 <=? n) && (n <=? 57) || (65 <=? n) && (n <=? 90)
   || (97 <=? n) && (n <=? 122) || (n =? 95))%N.

(** ** Documentation comments: the text computed by [getComment]

    The pointers [p] and [q] into the raw text are the texts that remain
    from them to the end [E]. *)

Definition is_space_or_tab (c : ascii) : bool :=
  Ascii.eqb c " " || Ascii.eqb c "009".
Definition is_comment_marker (c : ascii) : bool :=
  Ascii.eqb c "/" || Ascii.eqb c "*" || Ascii.eqb c "-" || Ascii.eqb c "=".
Definition is_doc_marker (c : ascii) : bool :=
  Ascii.eqb c "<" || Ascii.eqb c "!".
Definition is_line_prefix (c : ascii) : bool :=
  Ascii.eqb c " " || Ascii.eqb c "/" || Ascii.eqb c "*" || Ascii.eqb c "<"
  || Ascii.eqb c "!".

(** The loop that skips at most [skip] blanks and tabs: [p++, skip--]
    while [skip > 0], [p < E] and the character at [p] is one of them. *)
Fixpoint skip_indent (skip : Z) (p : list ascii) : list ascii :=
  match p with
  | c :: p' =>
      if (0 <? skip) && is_space_or_tab c then skip_indent (skip - 1) p' else p
  | [] => []
  end.

(** [q]: past the first newline from [p], or the end. *)
Fixpoint after_line (p : list ascii) : list ascii :=
  match p with
  | c :: p' => if Ascii.eqb c "010" then p' else after_line p'
  | [] => []
  end.

(** [while (p < E && f p) p++;] and [if (p < E && f p) p++;], with [f]
    a test of the character at [p]. *)
Fixpoint skip_while (f : ascii -> bool) (p : list ascii) : list ascii :=
  match p with
  | c :: p' => if f c then skip_while f p' else p
  | [] => []
  end.
Definition skip_one (f : ascii -> bool) (p : list ascii) : list ascii :=
  match p with
  | c :: p' => if f c then p' else p
  | [] => []
  end.

(** [while (prefix > 0 && p < E && is_line_prefix p) prefix--, p++;] *)
Fixpoint skip_prefix (prefix : Z) (p : list ascii) : list ascii :=
  match p with
  | c :: p' =>
      if (0 <? prefix) && is_line_prefix c then skip_prefix (prefix - 1) p' else p
  | [] => []
  end.

(** One round of the loop over the lines of the raw text; the state is
    [(pad, p, ret)] and the result has [p = q]. *)
Definition comment_line (start_column : Z)
    (st : Z * list ascii * list ascii) : Z * list ascii * list ascii :=
  let '(pad, p, ret) := st in
  let skip := (start_column - 1) mod 2 ^ 32 in
  let p := skip_indent skip p in
  let q := after_line p in
  let '(pad, p) :=
    if pad <? 0 then
      let begin := p in
      let p := skip_while is_comment_marker p in
      let p := skip_one is_doc_marker p in
      let p := skip_one (Ascii.eqb " ") p in
      if (length p =? S (length q))%nat then (pad, tail p)
      else (to_int32 (Z.of_nat (length begin - length p)), p)
    else (pad, skip_prefix pad p) in
  (pad, q, ret ++ take (length p - length q) p).

(** The loop [for (p = Raw.data(); p < E;)]; every round with [p < E]
    shortens the remaining text, so its length bounds the rounds. *)
Fixpoint comment_lines (fuel : nat) (start_column : Z)
    (st : Z * list ascii * list ascii) : list ascii :=
  match fuel with
  | O => st.2
  | S fuel' =>
      match st.1.2 with
      | [] => st.2
      | _ :: _ => comment_lines fuel' start_column (comment_line start_column st)
      end
  end.

(** [while (ret.size() && isspace(ret.back())) ret.pop_back();] *)
Definition pop_spaces (ret : list ascii) : list ascii :=
  rev (skip_while isspace (rev ret)).

(** [StringRef(ret).endswith(suffix)]. *)
Definition endswith (suffix ret : list ascii) : bool :=
  (length suffix <=? length ret)%nat
  && bool_decide (drop (length ret - length suffix) ret = suffix).

(** [getComment(D)] as a function of the raw text of the comment and of
    the value the code calls [start_column]; a declaration without a raw
    comment has the empty text. *)
Definition getComment_text (Raw : string) (start_column : Z) : string :=
  let raw := list_ascii_of_string Raw in
  let ret := comment_lines (S (length raw)) start_column (-1, raw, []) in
  let ret := pop_spaces ret in
  let ret :=
    if endswith ["*"; "/"]%char ret then take (length ret - 2) ret
    else if endswith ["010"; "/"]%char ret then take (length ret - 2) ret
    else ret in
  string_of_list_ascii (pop_spaces ret).

(** The language flags of [d'] are those of [d], possibly with further
    bits; and the two indexes have the same flags. *)
Definition language_grows (d d' : IndexFile) : Prop :=
  exists z, language d' = Z.lor (language d) z.
Definition same_language (d d' : IndexFile) : Prop :=
  language d' = language d.

(** The lists of an entity have only been appended to, and a definition
    record that was there is still there. *)
Definition core_grows (c c' : EntityCore) : Prop :=
  declarations c `prefix_of` declarations c' /\
  uses c `prefix_of` uses c' /\
  (is_Some (spell c) -> is_Some (spell c')).
Definition func_grows (e e' : IndexFunc) : Prop :=
  core_grows (f_core e) (f_core e') /\
  f_bases e `prefix_of` f_bases e' /\ f_vars e `prefix_of` f_vars e' /\
  f_callees e `prefix_of` f_callees e' /\ f_derived e `prefix_of` f_derived e'.
Definition type_grows (e e' : IndexType) : Prop :=
  core_grows (t_core e) (t_core e') /\
  t_bases e `prefix_of` t_bases e' /\ t_funcs e `prefix_of` t_funcs e' /\
  t_types e `prefix_of` t_types e' /\ t_vars e `prefix_of` t_vars e' /\
  t_derived e `prefix_of` t_derived e' /\
  t_instances e `prefix_of` t_instances e'.
Definition var_grows (e e' : IndexVar) : Prop :=
  core_grows (v_core e) (v_core e').

(** Every entity of [d], under every key, has only grown in [d']. *)
Definition entities_grow (d d' : IndexFile) : Prop :=
  forall u,
    func_grows (func_at u d) (func_at u d') /\
    type_grows (type_at u d) (type_at u d') /\
    var_grows (var_at u d) (var_at u d').

(** ** The field walk of [collectRecordMembers]

    What the engine answers about a field of a record and about a record. *)
Record FieldInfo := mkFieldInfo {
  fd_decl : Decl;                 (* the FieldDecl *)
  fd_named : bool;                (* FD->getIdentifier() is not null *)
  fd_offset : Z;                  (* Ctx->getFieldOffset(FD), uint64_t *)
  fd_incomplete : bool;           (* the type is incomplete or dependent *)
  fd_record : option Decl         (* the record declaration of the field's
                                     type, when it has a record type *)
}.
Record RecordInfo := mkRecordInfo {
  record_fields : Decl -> list FieldInfo;       (* RD->fields() *)
  isCompleteDefinition : Decl -> bool;
  isDependentType : Decl -> bool;
  isInvalidDecl : Decl -> bool }.

(** The loop of [validateRecord] over the fields, given the recursive
    call; [None] stands for a call that does not return. *)
Definition validate_fields (rec : Decl -> option bool)
  : list FieldInfo -> option bool :=
  fix go (fields : list FieldInfo) : option bool :=
    match fields with
    | [] => Some true
    | f :: fields =>
        if fd_incomplete f then Some false
        else
          match fd_record f with
          | Some Child =>
              match rec Child with
              | Some true => go fields
              | Some false => Some false
              | None => None
              end
          | None => go fields
          end
    end.

(** [bool validateRecord(const RecordDecl *RD)].  The function calls itself
    on the record of every record-typed field and keeps no set of visited
    records; [fuel] bounds the depth of the calls. *)
Fixpoint validateRecord (rs : RecordInfo) (fuel : nat) (RD : Decl)
  : option bool :=
  match fuel with
  | O => None
  | S fuel' => validate_fields (validateRecord rs fuel') (record_fields rs RD)
  end.

(** The offset the walk uses for the fields of [RD]: -1 unless the record
    is complete, not dependent, not invalid and accepted by
    [validateRecord], which is only called when the first three tests
    pass. *)
Definition record_offset (rs : RecordInfo) (vfuel : nat) (RD : Decl)
    (offset : Z) : option Z :=
  if negb (isCompleteDefinition rs RD) || isDependentType rs RD
     || isInvalidDecl rs RD
  then Some (-1)
  else
    match validateRecord rs vfuel RD with
    | Some true => Some offset
    | Some false => Some (-1)
    | None => None
    end.

(** The body of [for (FieldDecl *FD : RD->fields())]; the state is
    [(Stack, Seen, type.def.vars)], with the back of [Stack] first. *)
Definition member_step (offset : Z)
    (st : list (Decl * Z) * gset Decl * list (Decl * Z)) (f : FieldInfo)
  : list (Decl * Z) * gset Decl * list (Decl * Z) :=
  let '(Stack, Seen, vars) := st in
  let offset1 :=
    if offset <? 0 then -1 else to_int32 ((offset + fd_offset f) mod 2 ^ 64) in
  if fd_named f then (Stack, Seen, vars ++ [(fd_decl f, offset1)])
  else
    match fd_record f with
    | Some RD1 =>
        if bool_decide (RD1 ∈ Seen) then st
        else ((RD1, offset1) :: Stack, {[RD1]} ∪ Seen, vars)
    | None => st
    end.

(** [while (Stack.size())]; one unit of [fuel] per record taken from the
    stack, and [vfuel] for each call of [validateRecord]. *)
Fixpoint member_walk (rs : RecordInfo) (fuel vfuel : nat)
    (Stack : list (Decl * Z)) (Seen : gset Decl) (vars : list (Decl * Z))
  : option (list (Decl * Z)) :=
  match Stack with
  | [] => Some vars
  | (RD, offset) :: Stack =>
      match fuel with
      | O => None
      | S fuel' =>
          match record_offset rs vfuel RD offset with
          | None => None
          | Some offset =>
              let '(Stack, Seen, vars) :=
                fold_left (member_step offset) (record_fields rs RD)
                  (Stack, Seen, vars) in
              member_walk rs fuel' vfuel Stack Seen vars
          end
      end
  end.

(** The fields [collectRecordMembers(type, RD)] appends to [type.def.vars],
    before [getUsr] is applied to them. *)
Definition record_members (rs : RecordInfo) (fuel vfuel : nat) (RD : Decl)
  : option (list (Decl * Z)) :=
  member_walk rs fuel vfuel [(RD, 0)] {[RD]} [].

(** The named fields of a record, in declaration order. *)
Definition named_fields (rs : RecordInfo) (RD : Decl) : list Decl :=
  fd_decl <$> filter (fun f => fd_named f = true) (record_fields rs RD).

(** A record with two unnamed members of the same record type, and two
    records that contain each other. *)
Definition ex_records : RecordInfo := {|
  record_fields := fun RD =>
    if (RD =? 20)%N
    then [mkFieldInfo 21 true 0 false None;
          mkFieldInfo 22 false 32 false (Some 30%N);
          mkFieldInfo 23 true 96 false None;
          mkFieldInfo 24 false 128 false (Some 30%N)]
    else if (RD =? 30)%N
    then [mkFieldInfo 31 true 0 false None]
    else if (RD =? 40)%N
    then [mkFieldInfo 41 false 0 false (Some 50%N)]
    else if (RD =? 50)%N
    then [mkFieldInfo 51 false 0 false (Some 40%N)]
    else [];
  isCompleteDefinition := fun _ => true;
  isDependentType := fun _ => false;
  isInvalidDecl := fun _ => false |}.

(** * Properties *)

(** ** The classifier *)

Lemma getKind_storage_by_category ctx ctx' D D' k k' :
  declKind ctx D = declKind ctx' D' ->
  (getKind ctx D k).1 = (getKind ctx' D' k').1.
Proof.
  unfold getKind; intros <-; by destruct (declKind ctx D).
Qed.

Lemma getKind_unassigned ctx D k :
  kind_assigned (declKind ctx D) = false -> getKind ctx D k = (KInvalid, k).
Proof.
  unfold getKind; by destruct (declKind ctx D).
Qed.

Lemma getKind_fine_by_category ctx ctx' D D' k k' :
  declKind ctx D = declKind ctx' D' ->
  (declKind ctx D = DkCXXRecord \/ declKind ctx D = DkRecord ->
   tagKind ctx D = tagKind ctx' D') ->
  (declKind ctx D = DkCXXMethod -> isStatic ctx D = isStatic ctx' D') ->
  kind_assigned (declKind ctx D) = true ->
  (getKind ctx D k).2 = (getKind ctx' D' k').2.
Proof.
  unfold getKind; intros <- Ht Hs Ha.
  destruct (declKind ctx D); try done;
    first [ by rewrite Ht by (by left)
          | by rewrite Ht by (by right)
          | by rewrite Hs ].
Qed.

(** C6: [getKind] is total; its storage kind is one of Invalid, Func, Type,
    Var and depends on the node's category alone; the fine-grained kind it
    writes depends on the category alone, except that for records (and only
    for them) it also depends on the tag and for C++ methods (and only for
    them) on staticness; records are Class or Struct by tag, methods are
    StaticMethod exactly when static, enumerators are EnumMember, template
    type parameters TypeParameter, non-type template parameters Parameter,
    and linkage specs, using-declarations and the translation unit are
    Invalid. *)
Theorem getKind_classifier (ctx : ASTContext) :
  (forall D k, (getKind ctx D k).1 ∈ [KInvalid; KFunc; KType; KVar]) /\
  (forall ctx' D D' k k',
      declKind ctx D = declKind ctx' D' ->
      (getKind ctx D k).1 = (getKind ctx' D' k').1) /\
  (forall ctx' D D' k k',
      declKind ctx D = declKind ctx' D' ->
      (declKind ctx D = DkCXXRecord \/ declKind ctx D = DkRecord ->
       tagKind ctx D = tagKind ctx' D') ->
      (declKind ctx D = DkCXXMethod -> isStatic ctx D = isStatic ctx' D') ->
      kind_assigned (declKind ctx D) = true ->
      getKind ctx D k = getKind ctx' D' k') /\
  (forall D k, kind_assigned (declKind ctx D) = false ->
      getKind ctx D k = (KInvalid, k)) /\
  (forall D k, declKind ctx D = DkCXXRecord \/ declKind ctx D = DkRecord ->
      getKind ctx D k =
        (KType, if decide (tagKind ctx D = TTK_Struct) then SkStruct else SkClass)) /\
  (forall D k, declKind ctx D = DkCXXMethod ->
      getKind ctx D k = (KFunc, if isStatic ctx D then SkStaticMethod else SkMethod) /\
      ((getKind ctx D k).2 = SkStaticMethod <-> isStatic ctx D = true)) /\
  (forall D k, declKind ctx D = DkEnumConstant ->
      getKind ctx D k = (KVar, SkEnumMember)) /\
  (forall D k, declKind ctx D = DkTemplateTypeParm ->
      getKind ctx D k = (KType, SkTypeParameter)) /\
  (forall D k, declKind ctx D = DkNonTypeTemplateParm ->
      getKind ctx D k = (KVar, SkParameter)) /\
  (forall D k, declKind ctx D = DkLinkageSpec \/ declKind ctx D = DkUsing \/
               declKind ctx D = DkTranslationUnit ->
      (getKind ctx D k).1 = KInvalid).
Proof.
  repeat split.
  - intros D k. unfold getKind.
    destruct (declKind ctx D); cbn; set_solver.
  - intros; by apply getKind_storage_by_category.
  - intros ctx' D D' k k' Hk Ht Hs Ha.
    apply injective_projections.
    + by apply getKind_storage_by_category.
    + by apply getKind_fine_by_category.
  - apply getKind_unassigned.
  - intros D k [H | H]; unfold getKind; rewrite H;
      by destruct (tagKind ctx D).
  - unfold getKind; by rewrite H.
  - unfold getKind; rewrite H; cbn. by destruct (isStatic ctx D).
  - unfold getKind; rewrite H; cbn. by destruct (isStatic ctx D).
  - intros D k H; unfold getKind; by rewrite H.
  - intros D k H; unfold getKind; by rewrite H.
  - intros D k H; unfold getKind; by rewrite H.
  - intros D k [H | [H | H]]; unfold getKind; by rewrite H.
Qed.

(** ** The deduplication step *)

Section uniquify_facts.
Context {T : Type} (eqb : T -> T -> bool).

Lemma uniquify_loop (suf : list T) :
  forall (seen out rest : list T) (i : nat),
    (length out <= i)%nat ->
    (forall j, (j < length suf)%nat -> (out ++ rest) !! (i + j)%nat = suf !! j) ->
    forall seen' a' n,
      foldl (uniquify_step eqb) (seen, out ++ rest, length out)
        (seq i (length suf)) = (seen', a', n) ->
      take n a' = out ++ first_occurrences eqb seen suf.
Proof.
  induction suf as [|x suf IH]; intros seen out rest i Hle Hlk seen' a' n;
    cbn [length seq foldl first_occurrences].
  - intros [= <- <- <-]. rewrite take_app_length. by rewrite app_nil_r.
  - assert (Hx : (out ++ rest) !! i = Some x).
    { specialize (Hlk O ltac:(cbn; lia)). by rewrite Nat.add_0_r in Hlk. }
    unfold uniquify_step at 2. rewrite Hx.
    destruct (existsb (eqb x) seen).
    + apply (IH seen out rest (S i)); [lia|]. intros j Hj.
      replace (S i + j)%nat with (i + S j)%nat by lia.
      apply (Hlk (S j)). cbn; lia.
    + assert (Hrest : exists y rest', rest = y :: rest').
      { destruct rest as [|y rest']; [|eauto].
        rewrite app_nil_r in Hx. apply lookup_lt_Some in Hx. lia. }
      destruct Hrest as (y & rest' & ->).
      replace (<[length out:=x]> (out ++ y :: rest')) with ((out ++ [x]) ++ rest').
      2:{ rewrite insert_app_r_alt by lia. rewrite Nat.sub_diag. cbn.
          by rewrite <- app_assoc. }
      replace (S (length out)) with (length (out ++ [x]))
        by (rewrite length_app; cbn; lia).
      replace (out ++ x :: first_occurrences eqb (x :: seen) suf)
        with ((out ++ [x]) ++ first_occurrences eqb (x :: seen) suf)
        by (by rewrite <- app_assoc).
      apply (IH (x :: seen) (out ++ [x]) rest' (S i)).
      * rewrite length_app; cbn; lia.
      * intros j Hj. specialize (Hlk (S j) ltac:(cbn; lia)).
        change ((x :: suf) !! S j) with (suf !! j) in Hlk.
        rewrite <- Hlk.
        replace (S i + j)%nat with (i + S j)%nat by lia.
        rewrite !lookup_app_r by (rewrite ?length_app; cbn; lia).
        rewrite length_app. cbn.
        replace (i + S j - length out)%nat
          with (S (i + S j - (length out + 1)))%nat by lia.
        done.
Qed.

(** The in-place loop computes the first occurrences. *)
Lemma uniquify_first_occurrences (a : list T) :
  uniquify eqb a = first_occurrences eqb [] a.
Proof.
  unfold uniquify.
  destruct (foldl (uniquify_step eqb) ([], a, O) (seq 0 (length a)))
    as [[seen' a'] n] eqn:E.
  apply (uniquify_loop a [] [] a O ltac:(cbn; lia) ltac:(done) seen' a' n E).
Qed.

Lemma first_occurrences_sublist seen (l : list T) :
  sublist (first_occurrences eqb seen l) l.
Proof.
  revert seen; induction l as [|y l IH]; intros seen; cbn.
  - constructor.
  - destruct (existsb (eqb y) seen); by constructor.
Qed.

Lemma existsb_false_elem (x : T) seen :
  existsb (eqb x) seen = false -> forall s, s ∈ seen -> eqb x s = false.
Proof.
  intros H s Hs. apply list_elem_of_In in Hs.
  destruct (eqb x s) eqn:E; [|done].
  assert (existsb (eqb x) seen = true) by (apply existsb_exists; eauto).
  congruence.
Qed.

Hypothesis eqb_refl : forall x, eqb x x = true.
Hypothesis eqb_trans : forall x y z, eqb x y = true -> eqb y z = true -> eqb x z = true.

Lemma first_occurrences_single seen (l : list T) i x :
  first_occurrences eqb seen l !! i = Some x ->
  exists p, first_at eqb l p x /\ existsb (eqb x) seen = false.
Proof.
  revert seen i; induction l as [|h l IH]; intros seen i; cbn; [done|].
  destruct (existsb (eqb h) seen) eqn:Hh.
  - intros Hi. destruct (IH _ _ Hi) as (p & [Hp Hfirst] & Hseen).
    exists (S p). split; [|done]. split; [done|].
    intros [|q] y Hq; cbn.
    + intros [= <-]. destruct (eqb x h) eqn:E; [|done].
      apply existsb_exists in Hh as (s & Hs & Hhs).
      assert (eqb x s = true) by eauto.
      assert (eqb x s = false)
        by (eapply existsb_false_elem; [done | by apply list_elem_of_In]).
      congruence.
    + apply Hfirst. lia.
  - destruct i as [|i]; cbn.
    + intros [= <-]. exists O. split; [|done]. split; [done|]. intros; lia.
    + intros Hi. destruct (IH _ _ Hi) as (p & [Hp Hfirst] & Hseen).
      cbn in Hseen. apply orb_false_iff in Hseen as [Hxh Hseen].
      exists (S p). split; [|done]. split; [done|].
      intros [|q] y Hq; cbn.
      * by intros [= <-].
      * apply Hfirst. lia.
Qed.

Lemma first_at_cons h (l : list T) p x :
  first_at eqb l p x -> eqb x h = false -> first_at eqb (h :: l) (S p) x.
Proof.
  intros [Hp Hfirst] Hxh. split; [done|].
  intros [|q] y Hq; cbn; [by intros [= <-] | apply Hfirst; lia].
Qed.

Lemma existsb_trans_false x h seen :
  existsb (eqb h) seen = true -> existsb (eqb x) seen = false -> eqb x h = false.
Proof.
  intros Hh Hx. destruct (eqb x h) eqn:E; [|done].
  apply existsb_exists in Hh as (s & Hs & Hhs).
  assert (eqb x s = true) by eauto.
  assert (eqb x s = false)
    by (eapply existsb_false_elem; [done | by apply list_elem_of_In]).
  congruence.
Qed.

Lemma first_occurrences_pair seen (l : list T) i j x y :
  (i < j)%nat ->
  first_occurrences eqb seen l !! i = Some x ->
  first_occurrences eqb seen l !! j = Some y ->
  eqb y x = false /\
  exists p q, (p < q)%nat /\ first_at eqb l p x /\ first_at eqb l q y.
Proof.
  revert seen i j; induction l as [|h l IH]; intros seen i j Hij; cbn; [done|].
  destruct (existsb (eqb h) seen) eqn:Hh.
  - intros Hi Hj. destruct (IH _ _ _ Hij Hi Hj) as (Hyx & p & q & Hpq & Hp & Hq).
    split; [done|]. exists (S p), (S q). split; [lia|].
    destruct (first_occurrences_single _ _ _ _ Hi) as (_ & _ & Hsx).
    destruct (first_occurrences_single _ _ _ _ Hj) as (_ & _ & Hsy).
    split; apply first_at_cons; eauto using existsb_trans_false.
  - destruct j as [|j]; [lia|]. destruct i as [|i]; cbn.
    + intros [= <-] Hj.
      destruct (first_occurrences_single _ _ _ _ Hj) as (q & Hq & Hsy).
      cbn in Hsy. apply orb_false_iff in Hsy as [Hyh Hsy].
      split; [done|]. exists O, (S q). split; [lia|]. split.
      * split; [done|]. intros; lia.
      * by apply first_at_cons.
    + intros Hi Hj. assert (Hij' : (i < j)%nat) by lia.
      destruct (IH _ _ _ Hij' Hi Hj) as (Hyx & p & q & Hpq & Hp & Hq).
      split; [done|]. exists (S p), (S q). split; [lia|].
      destruct (first_occurrences_single _ _ _ _ Hi) as (_ & _ & Hsx).
      destruct (first_occurrences_single _ _ _ _ Hj) as (_ & _ & Hsy).
      cbn in Hsx, Hsy.
      apply orb_false_iff in Hsx as [? ?]. apply orb_false_iff in Hsy as [? ?].
      split; by apply first_at_cons.
Qed.

Lemma first_occurrences_cover seen (l : list T) x :
  x ∈ l ->
  existsb (eqb x) seen = true \/
  exists y, y ∈ first_occurrences eqb seen l /\ eqb x y = true.
Proof.
  revert seen; induction l as [|h l IH]; intros seen Hx; [by inversion Hx|].
  cbn. apply elem_of_cons in Hx as [-> | Hx].
  - destruct (existsb (eqb h) seen) eqn:Hh; [by left|].
    right. exists h. split; [left | apply eqb_refl].
  - destruct (existsb (eqb h) seen) eqn:Hh.
    + destruct (IH seen Hx) as [? | (y & Hy & Hxy)]; [by left|].
      right; eauto.
    + destruct (IH (h :: seen) Hx) as [Hs | (y & Hy & Hxy)].
      * cbn in Hs. apply orb_true_iff in Hs as [Hxh | Hs]; [|by left].
        right. exists h. split; [left | done].
      * right. exists y. split; [by right | done].
Qed.

Lemma first_occurrences_fixed seen (l : list T) :
  (forall i j x y, (i < j)%nat -> l !! i = Some x -> l !! j = Some y ->
                   eqb y x = false) ->
  (forall x, x ∈ l -> existsb (eqb x) seen = false) ->
  first_occurrences eqb seen l = l.
Proof.
  revert seen; induction l as [|h l IH]; intros seen Hpair Hseen; cbn; [done|].
  rewrite (Hseen h) by left. f_equal. apply IH.
  - intros i j x y Hij Hi Hj. apply (Hpair (S i) (S j)); [lia | done | done].
  - intros x Hx. cbn. apply orb_false_iff. split.
    + apply list_elem_of_lookup in Hx as [j Hj].
      by apply (Hpair O (S j)); [lia | |].
    + apply Hseen. by right.
Qed.
End uniquify_facts.

(** C2: the deduplication step of the post-pass is idempotent, keeps one
    element of every class of equal elements (each input element is equal to
    exactly one output element), and keeps the survivors in the order of
    their first occurrences in the input. *)
Theorem uniquify_idempotent_order_preserving
    {T : Type} (eqb : T -> T -> bool)
    (eqb_refl : forall x, eqb x x = true)
    (eqb_sym : forall x y, eqb x y = eqb y x)
    (eqb_trans : forall x y z, eqb x y = true -> eqb y z = true -> eqb x z = true)
    (a : list T) :
  uniquify eqb (uniquify eqb a) = uniquify eqb a /\
  (forall x, x ∈ a ->
     exists i y, uniquify eqb a !! i = Some y /\ eqb x y = true /\
       forall j z, uniquify eqb a !! j = Some z -> eqb x z = true -> j = i) /\
  sublist (uniquify eqb a) a /\
  (forall i j x y, (i < j)%nat ->
     uniquify eqb a !! i = Some x -> uniquify eqb a !! j = Some y ->
     exists p q, (p < q)%nat /\ first_at eqb a p x /\ first_at eqb a q y).
Proof.
  rewrite !uniquify_first_occurrences.
  assert (Hdist : forall i j x y, (i < j)%nat ->
            first_occurrences eqb [] a !! i = Some x ->
            first_occurrences eqb [] a !! j = Some y -> eqb y x = false).
  { intros i j x y Hij Hi Hj.
    by destruct (first_occurrences_pair eqb eqb_trans _ _ _ _ _ _ Hij Hi Hj). }
  repeat split.
  - apply first_occurrences_fixed; [done | done].
  - intros x Hx.
    destruct (first_occurrences_cover eqb eqb_refl [] a x Hx)
      as [? | (y & Hy & Hxy)]; [done|].
    apply list_elem_of_lookup in Hy as [i Hi].
    exists i, y. repeat split; [done | done |].
    intros j z Hj Hxz.
    assert (Hyz : eqb y z = true).
    { apply (eqb_trans y x z); [by rewrite eqb_sym | done]. }
    destruct (Nat.lt_trichotomy i j) as [Hlt | [-> | Hlt]]; [| done |].
    + pose proof (Hdist _ _ _ _ Hlt Hi Hj) as Hf.
      rewrite eqb_sym in Hf. congruence.
    + pose proof (Hdist _ _ _ _ Hlt Hj Hi) as Hf. congruence.
  - apply first_occurrences_sublist.
  - intros i j x y Hij Hi Hj.
    by destruct (first_occurrences_pair eqb eqb_trans _ _ _ _ _ _ Hij Hi Hj).
Qed.

Lemma uniquify_idempotent_order_preserving_witness :
  uniquify Z.eqb (uniquify Z.eqb [3; 1; 3; 2; 1; 5])
  = uniquify Z.eqb [3; 1; 3; 2; 1; 5] /\
  uniquify Z.eqb [3; 1; 3; 2; 1; 5] = [3; 1; 2; 5].
Proof.
  split; [|reflexivity].
  apply (uniquify_idempotent_order_preserving Z.eqb Z.eqb_refl Z.eqb_sym).
  intros x y z Hxy Hyz. apply Z.eqb_eq in Hxy, Hyz. apply Z.eqb_eq. lia.
Defined.

(** ** The C library functions *)

Lemma digit_char_spec d :
  0 <= d < 10 -> is_digit (digit_char d) = true /\ digit_val (digit_char d) = d.
Proof.
  intros H.
  assert (d = 0 \/ d = 1 \/ d = 2 \/ d = 3 \/ d = 4 \/ d = 5 \/ d = 6 \/ d = 7
          \/ d = 8 \/ d = 9) as Hd by lia.
  repeat (destruct Hd as [-> | Hd]; [by split|]). by subst.
Qed.

Lemma is_digit_not_sign c :
  is_digit c = true ->
  isspace c = false /\ Ascii.eqb c "-" = false /\ Ascii.eqb c "+" = false.
Proof.
  destruct c as [[] [] [] [] [] [] [] []]; vm_compute; intros; by repeat split.
Qed.

Lemma dec_digits_app fuel n acc rest :
  (dec_digits fuel n acc ++ rest)%string = dec_digits fuel n (acc ++ rest)%string.
Proof.
  revert n acc; induction fuel as [|f IH]; intros n acc; cbn; [done|].
  destruct (n / 10 =? 0); [done|]. by rewrite IH.
Qed.

Lemma dec_digits_S f n acc :
  dec_digits (S f) n acc =
  if n / 10 =? 0 then String (digit_char (n mod 10)) acc
  else dec_digits f (n / 10) (String (digit_char (n mod 10)) acc).
Proof. reflexivity. Qed.

Lemma strto_digits_digit a d s :
  0 <= d < 10 ->
  strto_digits a (String (digit_char d) s) = strto_digits (10 * a + d) s.
Proof.
  intros Hd. cbn [strto_digits]. by destruct (digit_char_spec d Hd) as [-> ->].
Qed.

Lemma dec_digits_parse f n acc :
  0 <= n < 2 ^ Z.of_nat (S f) ->
  exists k, 0 <= k /\ forall a,
    strto_digits a (dec_digits (S f) n acc) = strto_digits (a * 10 ^ k + n) acc.
Proof.
  revert n acc; induction f as [|f IH]; intros n acc Hn;
    rewrite dec_digits_S;
    pose proof (Z.mod_pos_bound n 10 ltac:(lia)) as Hmod;
    pose proof (Z.div_mod n 10 ltac:(lia)) as Hdm.
  - change (2 ^ Z.of_nat 1) with 2 in Hn.
    assert (n / 10 = 0) as E by (apply Z.div_small; lia).
    rewrite E. cbn [Z.eqb].
    exists 1. split; [lia|]. intros a.
    rewrite strto_digits_digit by done. f_equal. lia.
  - destruct (n / 10 =? 0) eqn:E.
    + apply Z.eqb_eq in E. exists 1. split; [lia|]. intros a.
      rewrite strto_digits_digit by done. f_equal. lia.
    + apply Z.eqb_neq in E.
      destruct (IH (n / 10) (String (digit_char (n mod 10)) acc)) as (k & Hk0 & Hk).
      { split; [apply Z.div_pos; lia|].
        apply Z.div_lt_upper_bound; [lia|].
        rewrite (Nat2Z.inj_succ (S f)), Z.pow_succ_r in Hn by lia. lia. }
      exists (k + 1). split; [lia|]. intros a.
      rewrite Hk, strto_digits_digit by done.
      f_equal. rewrite Z.pow_add_r by lia. lia.
Qed.

Lemma strto_digits_stop a s : digit_head s = false -> strto_digits a s = (a, s).
Proof. destruct s as [|c s]; cbn; [done|]. by intros ->. Qed.

Lemma log2_fuel n : 0 <= n -> 0 <= n < 2 ^ Z.of_nat (S (Z.to_nat (Z.log2 n))).
Proof.
  intros Hn. split; [done|].
  rewrite Nat2Z.inj_succ, Z2Nat.id by apply Z.log2_nonneg.
  destruct (Z.eq_dec n 0) as [-> | Hne]; [done|].
  apply Z.log2_spec. lia.
Qed.

Lemma Z_to_dec_parse n rest :
  0 <= n -> digit_head rest = false ->
  strto_digits 0 (Z_to_dec n ++ rest) = (n, rest).
Proof.
  intros Hn Hrest. unfold Z_to_dec. rewrite dec_digits_app.
  destruct (dec_digits_parse (Z.to_nat (Z.log2 n)) n (""%string ++ rest)%string
              (log2_fuel n Hn)) as (k & _ & Hk).
  rewrite Hk. cbn [String.append]. by rewrite strto_digits_stop.
Qed.

Lemma dec_digits_head fuel n acc :
  0 <= n -> (fuel = O -> digit_head acc = true) ->
  digit_head (dec_digits fuel n acc) = true.
Proof.
  revert n acc; induction fuel as [|f IH]; intros n acc Hn Hacc; cbn; [auto|].
  assert (Hd : is_digit (digit_char (n mod 10)) = true).
  { apply digit_char_spec. apply Z.mod_pos_bound. lia. }
  destruct (n / 10 =? 0); [done|].
  apply IH; [apply Z.div_pos; lia | done].
Qed.

Lemma Z_to_dec_head n rest :
  0 <= n -> digit_head (Z_to_dec n ++ rest) = true.
Proof.
  intros Hn. unfold Z_to_dec. rewrite dec_digits_app.
  by apply dec_digits_head.
Qed.

Lemma strto_signed_printf_d z rest :
  digit_head rest = false ->
  strto_signed (printf_d z ++ rest) = Some (z <? 0, Z.abs z, rest).
Proof.
  intros Hrest. unfold strto_signed, printf_d.
  destruct (z <? 0) eqn:Hz.
  - apply Z.ltb_lt in Hz.
    change (String "-" (Z_to_dec (- z)) ++ rest)%string
      with (String "-" (Z_to_dec (- z) ++ rest))%string.
    cbn [skip_spaces]. change (isspace "-") with false. cbv iota.
    change (Ascii.eqb "-" "-") with true. cbv iota.
    pose proof (Z_to_dec_head (- z) rest ltac:(lia)) as Hh.
    pose proof (Z_to_dec_parse (- z) rest ltac:(lia) Hrest) as Hp.
    destruct (Z_to_dec (- z) ++ rest)%string as [|c s]; [done|].
    cbn [digit_head] in Hh. rewrite Hh, Hp. do 3 f_equal. lia.
  - apply Z.ltb_ge in Hz.
    pose proof (Z_to_dec_head z rest Hz) as Hh.
    pose proof (Z_to_dec_parse z rest Hz Hrest) as Hp.
    destruct (Z_to_dec z ++ rest)%string as [|c s]; [done|].
    cbn [digit_head] in Hh. destruct (is_digit_not_sign c Hh) as (Hsp & Hm & Hpl).
    cbn [skip_spaces]. rewrite Hsp, Hm, Hpl, Hh, Hp. do 3 f_equal. lia.
Qed.

Lemma strtol_printf_d z rest :
  - 2 ^ 63 <= z < 2 ^ 63 -> digit_head rest = false ->
  strtol (printf_d z ++ rest) = (z, rest).
Proof.
  intros Hz Hrest. unfold strtol. rewrite strto_signed_printf_d by done.
  f_equal. destruct (z <? 0) eqn:E; [apply Z.ltb_lt in E | apply Z.ltb_ge in E]; lia.
Qed.

Lemma strtoull_printf_u n rest :
  0 <= n < 2 ^ 64 -> digit_head rest = false ->
  strtoull (printf_u n ++ rest) = (n, rest).
Proof.
  intros Hn Hrest. unfold strtoull.
  change (printf_u n) with (Z_to_dec n).
  assert (Z_to_dec n = printf_d n) as ->.
  { unfold printf_d. destruct (n <? 0) eqn:E; [apply Z.ltb_lt in E; lia | done]. }
  rewrite strto_signed_printf_d by done.
  assert ((n <? 0) = false) as -> by (apply Z.ltb_ge; lia).
  rewrite Z.abs_eq by lia.
  assert ((2 ^ 64 <=? n) = false) as -> by (apply Z.leb_gt; lia).
  by rewrite Z.mod_small.
Qed.

(** Lengths of the printed numbers. *)
Lemma dec_digits_length fuel n acc k :
  0 <= n < 10 ^ Z.of_nat (S k) ->
  (String.length (dec_digits fuel n acc) <= S k + String.length acc)%nat.
Proof.
  revert n acc k; induction fuel as [|f IH]; intros n acc k Hn; cbn [dec_digits];
    [lia|].
  destruct (n / 10 =? 0) eqn:E; [cbn; lia|].
  apply Z.eqb_neq in E.
  destruct k as [|k].
  { exfalso. apply E. apply Z.div_small. cbn in Hn. lia. }
  specialize (IH (n / 10) (String (digit_char (n mod 10)) acc) k).
  cbn [String.length] in IH. etransitivity; [apply IH|lia].
  split; [apply Z.div_pos; lia|].
  apply Z.div_lt_upper_bound; [lia|].
  rewrite (Nat2Z.inj_succ (S k)), Z.pow_succ_r in Hn by lia. lia.
Qed.

Lemma Z_to_dec_length n k :
  0 <= n < 10 ^ Z.of_nat (S k) -> (String.length (Z_to_dec n) <= S k)%nat.
Proof.
  intros Hn. unfold Z_to_dec.
  etransitivity; [by apply dec_digits_length|]. cbn. lia.
Qed.

Lemma printf_d_length z k :
  - 10 ^ Z.of_nat (S k) < z < 10 ^ Z.of_nat (S k) ->
  (String.length (printf_d z) <= S (S k))%nat.
Proof.
  intros Hz. unfold printf_d. destruct (z <? 0) eqn:E.
  - apply Z.ltb_lt in E. cbn [String.length].
    assert (Hb : 0 <= - z < 10 ^ Z.of_nat (S k)) by lia.
    pose proof (Z_to_dec_length (- z) k Hb). lia.
  - apply Z.ltb_ge in E.
    assert (Hb : 0 <= z < 10 ^ Z.of_nat (S k)) by lia.
    pose proof (Z_to_dec_length z k Hb). lia.
Qed.

Lemma string_length_app (a b : string) :
  String.length (a ++ b) = (String.length a + String.length b)%nat.
Proof.
  induction a as [|c a IH]; [done|].
  change (S (String.length (a ++ b)) = S (String.length a + String.length b))%nat.
  by rewrite IH.
Qed.

Lemma substring_all (s : string) n :
  (String.length s <= n)%nat -> substring 0 n s = s.
Proof.
  revert n; induction s as [|c s IH]; intros n Hn.
  - by destruct n.
  - destruct n as [|n]; cbn in *; [lia|]. rewrite IH; [done|lia].
Qed.

Lemma snprintf_fits size (s : string) :
  (String.length s < size)%nat -> snprintf size s = s.
Proof. intros H. unfold snprintf. apply substring_all. lia. Qed.

Lemma strchr_app (s rest : string) c :
  string_mem c s = false -> strchr (s +:+ String c rest) c = Some (String c rest).
Proof.
  induction s as [|c' s IH].
  - intros _. change (strchr (String c rest) c = Some (String c rest)).
    cbn [strchr]. by rewrite Ascii.eqb_refl.
  - change (String c' s +:+ String c rest) with (String c' (s +:+ String c rest)).
    cbn [strchr string_mem].
    intros H. apply orb_false_iff in H as [Hc Hs].
    rewrite Ascii.eqb_sym, Hc. auto.
Qed.

(** ** Round trip of the location records *)

Lemma string_app_nil_r (s : string) : s +:+ "" = s.
Proof.
  induction s as [|c s IH]; [done|].
  change (String c (s +:+ "") = String c s). by rewrite IH.
Qed.

Lemma Kind_of_to_Z k : Kind_of_Z (Kind_to_Z k mod 2 ^ 8) = Some k.
Proof. by destruct k. Qed.

Lemma Kind_to_Z_bounds k : 0 <= Kind_to_Z k < 10.
Proof. destruct k; cbn; lia. Qed.

Lemma to_int32_id z : - 2 ^ 31 <= z < 2 ^ 31 -> to_int32 z = z.
Proof. intros H. unfold to_int32. rewrite Z.mod_small; lia. Qed.

Lemma printf_u_length_u64 n :
  0 <= n < 2 ^ 64 -> (String.length (printf_u n) <= 20)%nat.
Proof.
  intros H. apply (Z_to_dec_length n 19).
  change (10 ^ Z.of_nat 20) with 100000000000000000000. lia.
Qed.

Lemma printf_d_length_Kind k : (String.length (printf_d (Kind_to_Z k)) <= 2)%nat.
Proof. destruct k; vm_compute; lia. Qed.

Lemma printf_d_length_u16 z :
  0 <= z < 2 ^ 16 -> (String.length (printf_d z) <= 6)%nat.
Proof.
  intros H. apply (printf_d_length z 4).
  change (10 ^ Z.of_nat 5) with 100000. lia.
Qed.

Lemma printf_d_length_int z :
  - 2 ^ 31 <= z < 2 ^ 31 -> (String.length (printf_d z) <= 11)%nat.
Proof.
  intros H. apply (printf_d_length z 9).
  change (10 ^ Z.of_nat 10) with 10000000000. lia.
Qed.

Section Reflect_facts.
Variable Range_ok : Range -> Prop.
Variable Range_toString : Range -> string.
Variable Range_fromString : string -> Range.
Hypothesis text_ok : Range_text_contract Range_ok Range_toString Range_fromString.

Lemma JsonReader_SymbolRef_shape r usr k role :
  Range_ok r -> 0 <= usr < 2 ^ 64 -> 0 <= role < 2 ^ 16 ->
  reflect_JsonReader_SymbolRef Range_fromString
    (Range_toString r +:+ String "|"
       (printf_u usr +:+ String "|"
          (printf_d (Kind_to_Z k) +:+ String "|" (printf_d role +:+ ""))))
  = Some (mkSymbolRef r usr k role).
Proof.
  intros Hr Hu Hro. destruct text_ok as (Hrt & Hbar & _).
  unfold reflect_JsonReader_SymbolRef.
  rewrite Hrt, strchr_app by auto. cbn [mbind option_bind ptr_succ].
  rewrite strtoull_printf_u by done. cbn [mbind option_bind ptr_succ].
  pose proof (Kind_to_Z_bounds k).
  rewrite strtol_printf_d by (done || lia).
  rewrite Kind_of_to_Z. cbn [mbind option_bind ptr_succ].
  rewrite strtol_printf_d by (done || lia).
  by rewrite Z.mod_small.
Qed.

Lemma JsonReader_Use_shape r role f :
  Range_ok r -> 0 <= role < 2 ^ 16 -> - 2 ^ 31 <= f < 2 ^ 31 ->
  reflect_JsonReader_Use Range_fromString
    (Range_toString r +:+ String "|"
       (printf_d role +:+ String "|" (printf_d f +:+ "")))
  = Some (mkUse r role f).
Proof.
  intros Hr Hro Hf. destruct text_ok as (Hrt & Hbar & _).
  unfold reflect_JsonReader_Use.
  rewrite Hrt, strchr_app by auto. cbn [mbind option_bind ptr_succ].
  rewrite strtol_printf_d by (done || lia). cbn [mbind option_bind ptr_succ].
  rewrite strtol_printf_d by (done || lia).
  by rewrite Z.mod_small, to_int32_id.
Qed.

Lemma JsonReader_DeclRef_shape r ext role f :
  Range_ok r -> Range_ok ext -> 0 <= role < 2 ^ 16 -> - 2 ^ 31 <= f < 2 ^ 31 ->
  reflect_JsonReader_DeclRef Range_fromString
    (Range_toString r +:+ String "|"
       (Range_toString ext +:+ String "|"
          (printf_d role +:+ String "|" (printf_d f +:+ ""))))
  = Some (mkDeclRef (mkUse r role f) ext).
Proof.
  intros Hr He Hro Hf. destruct text_ok as (Hrt & Hbar & _).
  unfold reflect_JsonReader_DeclRef.
  rewrite Hrt, strchr_app by auto. cbn [mbind option_bind ptr_succ].
  rewrite Hrt, strchr_app by auto. cbn [mbind option_bind ptr_succ].
  rewrite strtol_printf_d by (done || lia). cbn [mbind option_bind ptr_succ].
  rewrite strtol_printf_d by (done || lia).
  by rewrite Z.mod_small, to_int32_id.
Qed.

Lemma JsonWriter_SymbolRef_shape v :
  SymbolRef_valid Range_ok v ->
  reflect_JsonWriter_SymbolRef Range_toString v =
  Range_toString (sr_range v) +:+ String "|"
    (printf_u (sr_usr v) +:+ String "|"
       (printf_d (Kind_to_Z (sr_kind v)) +:+ String "|" (printf_d (sr_role v) +:+ ""))).
Proof.
  intros (Hr & Hu & Hro). destruct text_ok as (_ & _ & Hlen).
  unfold reflect_JsonWriter_SymbolRef. rewrite string_app_nil_r.
  apply snprintf_fits.
  repeat first [rewrite string_length_app | progress cbn [String.length]].
  pose proof (Hlen _ Hr).
  pose proof (printf_u_length_u64 (sr_usr v) Hu).
  pose proof (printf_d_length_Kind (sr_kind v)).
  pose proof (printf_d_length_u16 (sr_role v) Hro).
  lia.
Qed.

Lemma JsonWriter_Use_shape v :
  Use_valid Range_ok v ->
  reflect_JsonWriter_Use Range_toString v =
  Range_toString (use_range v) +:+ String "|"
    (printf_d (use_role v) +:+ String "|" (printf_d (use_file_id v) +:+ "")).
Proof.
  intros (Hr & Hro & Hf). destruct text_ok as (_ & _ & Hlen).
  unfold reflect_JsonWriter_Use. rewrite string_app_nil_r.
  apply snprintf_fits.
  repeat first [rewrite string_length_app | progress cbn [String.length]].
  pose proof (Hlen _ Hr).
  pose proof (printf_d_length_u16 (use_role v) Hro).
  pose proof (printf_d_length_int (use_file_id v) Hf).
  lia.
Qed.

Lemma JsonWriter_DeclRef_shape v :
  DeclRef_valid Range_ok v ->
  reflect_JsonWriter_DeclRef Range_toString v =
  Range_toString (use_range (dr_use v)) +:+ String "|"
    (Range_toString (dr_extent v) +:+ String "|"
      (printf_d (use_role (dr_use v)) +:+ String "|"
         (printf_d (use_file_id (dr_use v)) +:+ ""))).
Proof.
  intros ((Hr & Hro & Hf) & He). destruct text_ok as (_ & _ & Hlen).
  unfold reflect_JsonWriter_DeclRef. rewrite string_app_nil_r.
  apply snprintf_fits.
  repeat first [rewrite string_length_app | progress cbn [String.length]].
  pose proof (Hlen _ Hr). pose proof (Hlen _ He).
  pose proof (printf_d_length_u16 (use_role (dr_use v)) ltac:(assumption)).
  pose proof (printf_d_length_int (use_file_id (dr_use v)) ltac:(assumption)).
  lia.
Qed.
End Reflect_facts.

Section ReflectBinary_facts.
Variable Range_ok : Range -> Prop.
Variable bRange : BinaryPrim Range.
Variables bUsr bRole bInt : BinaryPrim Z.
Variable bKind : BinaryPrim Kind.
Hypothesis bRange_ok : BinaryPrim_ok Range_ok bRange.
Hypothesis bUsr_ok : BinaryPrim_ok (fun z => 0 <= z < 2 ^ 64) bUsr.
Hypothesis bKind_ok : BinaryPrim_ok (fun _ => True) bKind.
Hypothesis bRole_ok : BinaryPrim_ok (fun z => 0 <= z < 2 ^ 16) bRole.
Hypothesis bInt_ok : BinaryPrim_ok (fun z => - 2 ^ 31 <= z < 2 ^ 31) bInt.

Lemma Binary_SymbolRef_roundtrip v rest :
  SymbolRef_valid Range_ok v ->
  reflect_BinaryReader_SymbolRef bRange bUsr bKind bRole
    (reflect_BinaryWriter_SymbolRef bRange bUsr bKind bRole v ++ rest)
  = Some (v, rest).
Proof.
  intros (Hr & Hu & Hro).
  unfold reflect_BinaryReader_SymbolRef, reflect_BinaryWriter_SymbolRef.
  rewrite <- !app_assoc.
  rewrite bRange_ok by done. cbn [mbind option_bind].
  rewrite bUsr_ok by done. cbn [mbind option_bind].
  rewrite bKind_ok by done. cbn [mbind option_bind].
  rewrite bRole_ok by done. cbn [mbind option_bind].
  by destruct v.
Qed.

Lemma Binary_Use_roundtrip v rest :
  Use_valid Range_ok v ->
  reflect_BinaryReader_Use bRange bRole bInt
    (reflect_BinaryWriter_Use bRange bRole bInt v ++ rest)
  = Some (v, rest).
Proof.
  intros (Hr & Hro & Hf).
  unfold reflect_BinaryReader_Use, reflect_BinaryWriter_Use.
  rewrite <- !app_assoc.
  rewrite bRange_ok by done. cbn [mbind option_bind].
  rewrite bRole_ok by done. cbn [mbind option_bind].
  rewrite bInt_ok by done. cbn [mbind option_bind].
  by destruct v.
Qed.

Lemma Binary_DeclRef_roundtrip v rest :
  DeclRef_valid Range_ok v ->
  reflect_BinaryReader_DeclRef bRange bRole bInt
    (reflect_BinaryWriter_DeclRef bRange bRole bInt v ++ rest)
  = Some (v, rest).
Proof.
  intros (Hu & He).
  unfold reflect_BinaryReader_DeclRef, reflect_BinaryWriter_DeclRef.
  rewrite <- !app_assoc.
  rewrite Binary_Use_roundtrip by done. cbn [mbind option_bind].
  rewrite bRange_ok by done. cbn [mbind option_bind].
  by destruct v.
Qed.
End ReflectBinary_facts.

(** C1: for every valid [SymbolRef], [Use] and [DeclRef], decoding the
    just-encoded value gives the value back, in the pipe-delimited text form
    and in the binary form, whenever the primitives outside indexer.cc
    (the text and binary forms of a range, the binary forms of the integer
    fields) are themselves inverse to each other. *)
Theorem reflect_roundtrip
    (Range_ok : Range -> Prop)
    (Range_toString : Range -> string) (Range_fromString : string -> Range)
    (bRange : BinaryPrim Range) (bUsr bRole bInt : BinaryPrim Z)
    (bKind : BinaryPrim Kind) :
  Range_text_contract Range_ok Range_toString Range_fromString ->
  BinaryPrim_ok Range_ok bRange ->
  BinaryPrim_ok (fun z => 0 <= z < 2 ^ 64) bUsr ->
  BinaryPrim_ok (fun _ => True) bKind ->
  BinaryPrim_ok (fun z => 0 <= z < 2 ^ 16) bRole ->
  BinaryPrim_ok (fun z => - 2 ^ 31 <= z < 2 ^ 31) bInt ->
  (forall v, SymbolRef_valid Range_ok v ->
     reflect_JsonReader_SymbolRef Range_fromString
       (reflect_JsonWriter_SymbolRef Range_toString v) = Some v /\
     forall rest,
       reflect_BinaryReader_SymbolRef bRange bUsr bKind bRole
         (reflect_BinaryWriter_SymbolRef bRange bUsr bKind bRole v ++ rest)
       = Some (v, rest)) /\
  (forall v, Use_valid Range_ok v ->
     reflect_JsonReader_Use Range_fromString
       (reflect_JsonWriter_Use Range_toString v) = Some v /\
     forall rest,
       reflect_BinaryReader_Use bRange bRole bInt
         (reflect_BinaryWriter_Use bRange bRole bInt v ++ rest)
       = Some (v, rest)) /\
  (forall v, DeclRef_valid Range_ok v ->
     reflect_JsonReader_DeclRef Range_fromString
       (reflect_JsonWriter_DeclRef Range_toString v) = Some v /\
     forall rest,
       reflect_BinaryReader_DeclRef bRange bRole bInt
         (reflect_BinaryWriter_DeclRef bRange bRole bInt v ++ rest)
       = Some (v, rest)).
Proof.
  intros Htext HbR HbU HbK HbRo HbI. repeat split.
  - rewrite (JsonWriter_SymbolRef_shape _ _ _ Htext) by done.
    destruct H as (? & ? & ?).
    rewrite (JsonReader_SymbolRef_shape _ _ _ Htext) by done. by destruct v.
  - intros rest. by apply (Binary_SymbolRef_roundtrip Range_ok).
  - rewrite (JsonWriter_Use_shape _ _ _ Htext) by done.
    destruct H as (? & ? & ?).
    rewrite (JsonReader_Use_shape _ _ _ Htext) by done. by destruct v.
  - intros rest. by apply (Binary_Use_roundtrip Range_ok).
  - rewrite (JsonWriter_DeclRef_shape _ _ _ Htext) by done.
    destruct H as ((? & ? & ?) & ?).
    rewrite (JsonReader_DeclRef_shape _ _ _ Htext) by done.
    by destruct v as [[]].
  - intros rest. by apply (Binary_DeclRef_roundtrip Range_ok).
Qed.

(** *** The reference primitives satisfy the contracts *)

Lemma to_int16_column c :
  - 2 ^ 15 <= c < 2 ^ 15 -> to_int16 (to_int16 (c + 1) - 1) = c.
Proof.
  intros H. unfold to_int16.
  destruct (Z.eq_dec c (2 ^ 15 - 1)) as [-> | Hne]; [done|].
  rewrite (Z.mod_small (c + 1 + 2 ^ 15)) by lia.
  rewrite Z.mod_small; lia.
Qed.

Lemma printf_d_nonneg z : 0 <= z -> printf_d z = printf_u z.
Proof.
  intros H. unfold printf_d.
  by destruct (z <? 0) eqn:E; [apply Z.ltb_lt in E; lia|].
Qed.

Lemma string_mem_app c (a b : string) :
  string_mem c (a +:+ b) = string_mem c a || string_mem c b.
Proof.
  induction a as [|c' a IH]; [done|].
  change (String c' a +:+ b) with (String c' (a +:+ b)).
  cbn [string_mem]. by rewrite IH, orb_assoc.
Qed.

Lemma digit_char_not_bar d : 0 <= d < 10 -> Ascii.eqb "|" (digit_char d) = false.
Proof.
  intros H.
  assert (d = 0 \/ d = 1 \/ d = 2 \/ d = 3 \/ d = 4 \/ d = 5 \/ d = 6 \/ d = 7
          \/ d = 8 \/ d = 9) as Hd by lia.
  repeat (destruct Hd as [-> | Hd]; [done|]). by subst.
Qed.

Lemma dec_digits_no_bar fuel n acc :
  string_mem "|" acc = false -> string_mem "|" (dec_digits fuel n acc) = false.
Proof.
  revert n acc; induction fuel as [|f IH]; intros n acc Hacc; cbn [dec_digits];
    [done|].
  assert (string_mem "|" (String (digit_char (n mod 10)) acc) = false).
  { cbn [string_mem]. rewrite digit_char_not_bar, Hacc; [done|].
    apply Z.mod_pos_bound. lia. }
  destruct (n / 10 =? 0); auto.
Qed.

Lemma printf_d_no_bar z : string_mem "|" (printf_d z) = false.
Proof.
  unfold printf_d, Z_to_dec.
  destruct (z <? 0); cbn [string_mem]; rewrite ?dec_digits_no_bar; done.
Qed.

Lemma string_app_assoc (a b c : string) : (a +:+ b) +:+ c = a +:+ (b +:+ c).
Proof.
  induction a as [|x a IH]; [done|].
  change (String x ((a +:+ b) +:+ c) = String x (a +:+ (b +:+ c))).
  by rewrite IH.
Qed.

Lemma dec_Range_toString_shape r :
  Range_fits r ->
  dec_Range_toString r =
  printf_d (line (r_start r) + 1) +:+ String ":"
    (printf_d (column (r_start r) + 1) +:+ String "-"
       (printf_d (line (r_end r) + 1) +:+ String ":"
          (printf_d (column (r_end r) + 1)))) /\
  (String.length (dec_Range_toString r) <= 39)%nat.
Proof.
  intros ((Hl1 & Hc1) & (Hl2 & Hc2)). unfold dec_Range_toString.
  set (s := (_ +:+ _)).
  assert (Hlen : (String.length s <= 27)%nat).
  { subst s.
    repeat first [rewrite string_length_app | progress cbn [String.length]].
    pose proof (printf_d_length (line (r_start r) + 1) 4) as H1.
    pose proof (printf_d_length (column (r_start r) + 1) 4) as H2.
    pose proof (printf_d_length (line (r_end r) + 1) 4) as H3.
    pose proof (printf_d_length (column (r_end r) + 1) 4) as H4.
    change (10 ^ Z.of_nat 5) with 100000 in *.
    specialize (H1 ltac:(lia)). specialize (H2 ltac:(lia)).
    specialize (H3 ltac:(lia)). specialize (H4 ltac:(lia)). lia. }
  rewrite snprintf_fits by lia. split; [done | lia].
Qed.

Lemma dec_Range_text_contract :
  Range_text_contract Range_fits dec_Range_toString dec_Range_fromString.
Proof.
  repeat split.
  - intros r rest Hr. destruct (dec_Range_toString_shape r Hr) as [-> _].
    destruct Hr as ((Hl1 & Hc1) & (Hl2 & Hc2)).
    unfold dec_Range_fromString.
    rewrite !string_app_assoc.
    change (String ":" ?a +:+ ?b) with (String ":" (a +:+ b)).
    rewrite !string_app_assoc.
    change (String "-" ?a +:+ ?b) with (String "-" (a +:+ b)).
    rewrite !string_app_assoc.
    change (String ":" ?a +:+ ?b) with (String ":" (a +:+ b)).
    rewrite (printf_d_nonneg (line (r_start r) + 1)) by lia.
    rewrite strtoull_printf_u by (done || lia). cbn [ptr_succ default from_option id].
    rewrite strtol_printf_d by (done || lia). cbn [ptr_succ default from_option id].
    rewrite (printf_d_nonneg (line (r_end r) + 1)) by lia.
    rewrite strtoull_printf_u by (done || lia). cbn [ptr_succ default from_option id].
    rewrite strtol_printf_d by (done || lia).
    rewrite !to_int16_column by done.
    unfold to_uint16. rewrite !Z.mod_small by lia.
    replace (line (r_start r) + 1 - 1) with (line (r_start r)) by lia.
    replace (line (r_end r) + 1 - 1) with (line (r_end r)) by lia.
    by destruct r as [[] []].
  - intros r Hr. destruct (dec_Range_toString_shape r Hr) as [-> _].
    repeat first [rewrite string_mem_app | progress cbn [string_mem]].
    by rewrite !printf_d_no_bar.
  - intros r Hr. by destruct (dec_Range_toString_shape r Hr) as [_ ?].
Qed.

Lemma le_roundtrip n z rest :
  0 <= z < 256 ^ Z.of_nat n -> le_get n (le_put n z ++ rest) = Some (z, rest).
Proof.
  revert z; induction n as [|n IH]; intros z Hz.
  - cbn. f_equal. f_equal. change (256 ^ Z.of_nat 0) with 1 in Hz. lia.
  - rewrite Nat2Z.inj_succ, Z.pow_succ_r in Hz by lia.
    cbn [le_put le_get app].
    rewrite IH by (split; [apply Z.div_pos; lia | apply Z.div_lt_upper_bound; lia]).
    cbn [mbind option_bind].
    pose proof (Z.mod_pos_bound z 256 ltac:(lia)) as Hm.
    destruct (Byte.of_N (Z.to_N (z mod 256))) as [b|] eqn:E.
    + apply Byte.to_of_N in E. cbn [default from_option id]. rewrite E.
      rewrite Z2N.id by lia. f_equal. f_equal.
      pose proof (Z.div_mod z 256). lia.
    + apply Byte.of_N_None_iff in E. lia.
Qed.

Lemma le_unsigned_ok n :
  BinaryPrim_ok (fun z => 0 <= z < 256 ^ Z.of_nat n) (le_unsigned n).
Proof. intros z rest Hz. by apply le_roundtrip. Qed.

Lemma le_signed_ok n :
  (0 < n)%nat ->
  BinaryPrim_ok
    (fun z => - 2 ^ (8 * Z.of_nat n - 1) <= z < 2 ^ (8 * Z.of_nat n - 1))
    (le_signed n).
Proof.
  intros Hn z rest Hz. unfold le_signed. cbn [bin_get bin_put].
  set (half := 2 ^ (8 * Z.of_nat n - 1)) in *.
  assert (Hpow : 256 ^ Z.of_nat n = 2 * half).
  { subst half. change 256 with (2 ^ 8). rewrite <- Z.pow_mul_r by lia.
    rewrite <- Z.pow_succ_r by lia. f_equal. lia. }
  assert (0 < half) by (subst half; apply Z.pow_pos_nonneg; lia).
  rewrite le_roundtrip by (rewrite Hpow; apply Z.mod_pos_bound; lia).
  cbn [mbind option_bind]. f_equal. f_equal.
  destruct (Z.lt_ge_cases z 0).
  - rewrite <- (Z.mod_add z 1 (2 * half)) by lia.
    rewrite (Z.mod_small (z + 1 * (2 * half))) by lia.
    rewrite <- (Z.mod_add _ (-1) (2 * half)) by lia.
    rewrite Z.mod_small; lia.
  - rewrite (Z.mod_small z) by lia. rewrite Z.mod_small; lia.
Qed.

Lemma le_Kind_ok : BinaryPrim_ok (fun _ => True) le_Kind.
Proof. intros k rest _. by destruct k. Qed.

Lemma le_Pos_roundtrip q rest :
  0 <= line q < 2 ^ 16 -> - 2 ^ 15 <= column q < 2 ^ 15 ->
  le_Pos_get (le_Pos_put q ++ rest) = Some (q, rest).
Proof.
  intros Hl Hc. unfold le_Pos_get, le_Pos_put. rewrite <- app_assoc.
  rewrite (le_unsigned_ok 2) by done. cbn [mbind option_bind].
  rewrite (le_signed_ok 2) by (done || lia). cbn [mbind option_bind].
  by destruct q.
Qed.

Lemma le_Range_ok : BinaryPrim_ok Range_fits le_Range.
Proof.
  intros r rest ((Hl1 & Hc1) & (Hl2 & Hc2)). cbn [le_Range bin_get bin_put].
  rewrite <- app_assoc.
  rewrite le_Pos_roundtrip by done. cbn [mbind option_bind].
  rewrite le_Pos_roundtrip by done. cbn [mbind option_bind].
  by destruct r.
Qed.

Lemma reflect_roundtrip_witness :
  let v := mkDeclRef (mkUse (mkRange (mkPos 65535 32767) (mkPos 0 (-1)))
                        65535 (- 2147483648))
             (mkRange (mkPos 3 4) (mkPos 5 6)) in
  reflect_JsonWriter_DeclRef dec_Range_toString v
  = "65536:32768-1:0|4:5-6:7|65535|-2147483648" /\
  reflect_JsonReader_DeclRef dec_Range_fromString
    (reflect_JsonWriter_DeclRef dec_Range_toString v) = Some v.
Proof.
  split; [reflexivity|].
  apply (reflect_roundtrip Range_fits dec_Range_toString dec_Range_fromString
           le_Range (le_unsigned 8) (le_unsigned 2) (le_signed 4) le_Kind
           dec_Range_text_contract le_Range_ok (le_unsigned_ok 8) le_Kind_ok
           (le_unsigned_ok 2) (le_signed_ok 4 ltac:(lia))).
  unfold DeclRef_valid, Use_valid, Range_fits; cbn; lia.
Defined.

(** ** Invariants of the per-file index *)

Lemma keys_alter_func u g (m : gmap Z IndexFunc) :
  (forall e, f_usr (g e) = f_usr e) ->
  (forall k e, m !! k = Some e -> f_usr e = k) ->
  forall k e, alter g u (try_emplace_func u m) !! k = Some e -> f_usr e = k.
Proof.
  intros Hg Hm k e. rewrite lookup_alter. unfold try_emplace_func.
  destruct (decide (u = k)) as [<- | Hne].
  - destruct (m !! u) as [e0|] eqn:E.
    + rewrite E; cbn. intros [= <-]. rewrite Hg. eauto.
    + rewrite lookup_insert_eq; cbn. intros [= <-]. by rewrite Hg.
  - destruct (m !! u) eqn:E; [eauto|].
    rewrite lookup_insert_ne by done. eauto.
Qed.

Lemma keys_alter_type u g (m : gmap Z IndexType) :
  (forall e, t_usr (g e) = t_usr e) ->
  (forall k e, m !! k = Some e -> t_usr e = k) ->
  forall k e, alter g u (try_emplace_type u m) !! k = Some e -> t_usr e = k.
Proof.
  intros Hg Hm k e. rewrite lookup_alter. unfold try_emplace_type.
  destruct (decide (u = k)) as [<- | Hne].
  - destruct (m !! u) as [e0|] eqn:E.
    + rewrite E; cbn. intros [= <-]. rewrite Hg. eauto.
    + rewrite lookup_insert_eq; cbn. intros [= <-]. by rewrite Hg.
  - destruct (m !! u) eqn:E; [eauto|].
    rewrite lookup_insert_ne by done. eauto.
Qed.

Lemma keys_alter_var u g (m : gmap Z IndexVar) :
  (forall e, v_usr (g e) = v_usr e) ->
  (forall k e, m !! k = Some e -> v_usr e = k) ->
  forall k e, alter g u (try_emplace_var u m) !! k = Some e -> v_usr e = k.
Proof.
  intros Hg Hm k e. rewrite lookup_alter. unfold try_emplace_var.
  destruct (decide (u = k)) as [<- | Hne].
  - destruct (m !! u) as [e0|] eqn:E.
    + rewrite E; cbn. intros [= <-]. rewrite Hg. eauto.
    + rewrite lookup_insert_eq; cbn. intros [= <-]. by rewrite Hg.
  - destruct (m !! u) eqn:E; [eauto|].
    rewrite lookup_insert_ne by done. eauto.
Qed.

Lemma db_inv_toFunc pth u g d :
  (forall e, f_usr (g e) = f_usr e) -> db_inv pth d -> db_inv pth (toFunc u g d).
Proof.
  intros Hg (Hp & Hd & Hf & Ht & Hv). repeat split; try done.
  by apply keys_alter_func.
Qed.

Lemma db_inv_toType pth u g d :
  (forall e, t_usr (g e) = t_usr e) -> db_inv pth d -> db_inv pth (toType u g d).
Proof.
  intros Hg (Hp & Hd & Hf & Ht & Hv). repeat split; try done.
  by apply keys_alter_type.
Qed.

Lemma db_inv_toVar pth u g d :
  (forall e, v_usr (g e) = v_usr e) -> db_inv pth d -> db_inv pth (toVar u g d).
Proof.
  intros Hg (Hp & Hd & Hf & Ht & Hv). repeat split; try done.
  by apply keys_alter_var.
Qed.

Lemma db_inv_new pth contents nl : db_inv pth (IndexFile_new pth contents nl).
Proof. repeat split; try done; intros k e; by rewrite lookup_empty. Qed.

Lemma db_inv_set_language pth z d : db_inv pth d -> db_inv pth (db_set_language z d).
Proof. by intros (? & ? & ? & ? & ?). Qed.

Lemma db_inv_push_include pth i d : db_inv pth d -> db_inv pth (db_push_include i d).
Proof. by intros (? & ? & ? & ? & ?). Qed.

Lemma db_inv_push_skipped pth r d : db_inv pth d -> db_inv pth (db_push_skipped r d).
Proof. by intros (? & ? & ? & ? & ?). Qed.

Lemma db_inv_set_lids pth m l d : db_inv pth d -> db_inv pth (db_set_lids m l d).
Proof. by intros (? & ? & ? & ? & ?). Qed.

Lemma db_inv_getFileLID env pth fid d :
  db_inv pth d -> db_inv pth (getFileLID env fid d).2.
Proof.
  intros H. unfold getFileLID.
  repeat case_match; cbn; auto using db_inv_set_lids.
Qed.

(** Functions on entities that leave the key alone. *)
Ltac keeps_usr :=
  let e := fresh "e" in
  intros e; try reflexivity; destruct e; cbn; repeat case_match; reflexivity.

Lemma db_inv_addMacroUse env pth usr k sl d :
  db_inv pth d -> db_inv pth (addMacroUse env usr k sl d).
Proof.
  intros H. unfold addMacroUse.
  pose proof (db_inv_getFileLID env pth sl.1 d H) as H'.
  destruct (getFileLID env sl.1 d) as [lid d']. cbn in H'.
  destruct (lid <? 0); [done|].
  destruct k; auto;
    [apply db_inv_toType | apply db_inv_toFunc | apply db_inv_toVar];
    auto; keeps_usr.
Qed.

Lemma db_inv_addMacroUse_if env e pth usr k d :
  db_inv pth d -> db_inv pth (addMacroUse_if env e usr k d).
Proof.
  intros H. unfold addMacroUse_if.
  destruct (ev_macro_spell e); auto using db_inv_addMacroUse.
Qed.

Lemma db_inv_link_type_base pth usr usr1 d :
  db_inv pth d -> db_inv pth (link_type_base usr usr1 d).
Proof.
  intros H. unfold link_type_base.
  apply db_inv_toType; [keeps_usr|]. apply db_inv_toType; [keeps_usr | done].
Qed.

Lemma db_inv_link_func_base pth usr usr1 d :
  db_inv pth d -> db_inv pth (link_func_base usr usr1 d).
Proof.
  intros H. unfold link_func_base.
  apply db_inv_toFunc; [keeps_usr|]. apply db_inv_toFunc; [keeps_usr | done].
Qed.

Lemma db_inv_instance_of env o pth usr1 d :
  db_inv pth d -> db_inv pth (instance_of env o usr1 d).
Proof.
  intros H. unfold instance_of. case_match.
  - apply db_inv_toVar; [keeps_usr | done].
  - apply db_inv_toType; [keeps_usr|]. apply db_inv_toVar; [keeps_usr | done].
Qed.

(** Solves [db_inv pth (f1 (f2 (... d)))] for the mutations of the indexer. *)
Ltac db_inv_step :=
  lazymatch goal with
  | |- db_inv _ (db_set_language _ _) => apply db_inv_set_language
  | |- db_inv _ (db_push_include _ _) => apply db_inv_push_include
  | |- db_inv _ (db_push_skipped _ _) => apply db_inv_push_skipped
  | |- db_inv _ (db_set_lids _ _ _) => apply db_inv_set_lids
  | |- db_inv _ (getFileLID _ _ _).2 => apply db_inv_getFileLID
  | |- db_inv _ (addMacroUse_if _ _ _ _ _) => apply db_inv_addMacroUse_if
  | |- db_inv _ (addMacroUse _ _ _ _ _) => apply db_inv_addMacroUse
  | |- db_inv _ (link_type_base _ _ _) => apply db_inv_link_type_base
  | |- db_inv _ (link_func_base _ _ _) => apply db_inv_link_func_base
  | |- db_inv _ (instance_of _ _ _ _) => apply db_inv_instance_of
  | |- db_inv _ (toFunc _ _ _) => apply db_inv_toFunc; [keeps_usr|]
  | |- db_inv _ (toType _ _ _) => apply db_inv_toType; [keeps_usr|]
  | |- db_inv _ (toVar _ _ _) => apply db_inv_toVar; [keeps_usr|]
  | |- db_inv _ _ => assumption
  end.
Ltac db_inv_solve := repeat db_inv_step.

(** ** The identity cache *)

Lemma cache_ext_refl env p : cache_ext env p p.
Proof.
  unfold cache_ext. split_and!; try done. exists []. by rewrite app_nil_r.
Qed.

Lemma cache_ext_trans env p1 p2 p3 :
  cache_ext env p1 p2 -> cache_ext env p2 p3 -> cache_ext env p1 p3.
Proof.
  intros (Ha1 & Ha3 & Ha4 & Ha5 & [n1 Ha6] & Ha7)
         (Hb1 & Hb3 & Hb4 & Hb5 & [n2 Hb6] & Hb7).
  unfold cache_ext. split_and!; try congruence; auto.
  - by etrans.
  - exists (n1 ++ n2). by rewrite Hb6, Ha6, app_assoc.
Qed.

Lemma getUsr_cached env D p info :
  Decl2Info p !! getCanonicalDecl (ast env) D = Some info ->
  getUsr env D p = (info, p).
Proof. intros H. unfold getUsr. by rewrite H. Qed.

Lemma getUsr_fresh env D p :
  Decl2Info p !! getCanonicalDecl (ast env) D = None ->
  getUsr env D p =
    (render_DeclInfo env (getCanonicalDecl (ast env) D),
     p_cache_decl (getCanonicalDecl (ast env) D)
       (render_DeclInfo env (getCanonicalDecl (ast env) D))
       (p_log_render (getCanonicalDecl (ast env) D) p)).
Proof. intros H. unfold getUsr. by rewrite H. Qed.

Lemma getUsr_lookup env D p :
  Decl2Info (getUsr env D p).2 !! getCanonicalDecl (ast env) D
  = Some (getUsr env D p).1.
Proof.
  unfold getUsr. destruct (Decl2Info p !! _) eqn:E; cbn; [done|].
  by rewrite lookup_insert_eq.
Qed.

Lemma getUsr_cache_ext env D p : cache_ext env p (getUsr env D p).2.
Proof.
  unfold getUsr. destruct (Decl2Info p !! _) eqn:E; cbn.
  - apply cache_ext_refl.
  - unfold cache_ext. split_and!; try done; cbn.
    + by apply insert_subseteq.
    + by eexists.
    + intros (Hc & Hnd & Hdom). unfold cache_inv; cbn. split_and!.
      * intros D' info. rewrite lookup_insert.
        case_decide; [by intros [= <-]; subst | eauto].
      * apply NoDup_app. split_and!; [done | | apply NoDup_singleton].
        intros x Hx ->%list_elem_of_singleton.
        apply Hdom in Hx. rewrite E in Hx. by destruct Hx.
      * intros D'. rewrite elem_of_app, list_elem_of_singleton, lookup_insert.
        split.
        -- intros [Hx | ->]; [|by rewrite decide_True].
           case_decide; [done|]. by apply Hdom.
        -- case_decide; [by right; subst|]. intros Hx. left. by apply Hdom.
Qed.

Lemma getUsr_cache_ext_eq env D p i p' :
  getUsr env D p = (i, p') -> cache_ext env p p'.
Proof. intros H. pose proof (getUsr_cache_ext env D p). by rewrite H in *. Qed.

(** ** The handler of declaration occurrences keeps the invariants *)

Lemma st_ok_refl env st : st_ok env st st.
Proof. split; [done | apply cache_ext_refl]. Qed.

Lemma st_ok_trans env st1 st2 st3 :
  st_ok env st1 st2 -> st_ok env st2 st3 -> st_ok env st1 st3.
Proof.
  intros [Ha Hb] [Hc Hd]. split; [auto | by eapply cache_ext_trans].
Qed.

(** Turns the calls of [getUsr] in the context into cache extensions and
    chains them. *)
Ltac cache_chain :=
  repeat match goal with
         | H : getUsr _ _ _ = (_, _) |- _ => apply getUsr_cache_ext_eq in H
         end;
  repeat first
    [ apply cache_ext_refl
    | eapply cache_ext_trans; [eassumption|] ].

Ltac st_ok_solve :=
  split; cbn [fst snd]; [intros ? ?; db_inv_solve | cache_chain].

Lemma link_each_st_ok {A} env (key : A -> Decl) link ds st :
  (forall a u pth d, db_inv pth d -> db_inv pth (link a u d)) ->
  st_ok env st (link_each env key link ds st).
Proof.
  intros Hlink. revert st; induction ds as [|a ds IH]; intros st; cbn [link_each].
  - apply st_ok_refl.
  - destruct (getUsr env (key a) st.2) as [info p] eqn:E.
    eapply st_ok_trans; [|apply IH]. destruct st as [d p0].
    split; cbn [fst snd] in *; [auto | cache_chain].
Qed.

Lemma collectRecordMembers_st_ok env usr members st :
  st_ok env st (collectRecordMembers env usr members st).
Proof.
  apply link_each_st_ok. intros a u pth d H. db_inv_solve.
Qed.

Lemma occ_Func_st_ok env e o st : st_ok env st (occ_Func env e o st).
Proof.
  unfold occ_Func. destruct st as [d p]. repeat case_match; st_ok_solve.
Qed.

Lemma occ_Type_st_ok env e o st : st_ok env st (occ_Type env e o st).
Proof.
  unfold occ_Type. destruct st as [d p]. repeat case_match; st_ok_solve.
Qed.

Lemma db_inv_setVarName pth usr e d :
  db_inv pth d -> db_inv pth (toVar usr (setVarName e) d).
Proof.
  intros H. apply db_inv_toVar; [|done].
  intros v. unfold setVarName. by repeat case_match.
Qed.

Lemma occ_Var_st_ok env e o st : st_ok env st (occ_Var env e o st).
Proof.
  unfold occ_Var, link_var_type. destruct st as [d p].
  repeat case_match; simplify_eq;
    (split; cbn [fst snd];
     [intros ? ?;
      repeat lazymatch goal with
             | |- db_inv _ (toVar _ (setVarName _) _) => apply db_inv_setVarName
             | |- db_inv _ (type_parm_record _ _ _ _ _) =>
                 unfold type_parm_record
             | _ => db_inv_step
             end
     | cache_chain]).
Qed.

(** Case analysis on the null checks, branches and calls of [getUsr] in a
    hypothesis that says a handler arm returned. *)
Ltac destruct_deref :=
  match goal with
  | H : context [deref ?b] |- _ =>
      destruct (deref b) as [[]|]; cbn [mbind option_bind] in H
  end.
Ltac crunch := repeat first [destruct_deref | case_match | progress simplify_eq].

Lemma link_Record_bases_st_ok env e o st st' :
  link_Record_bases env e o st = Some st' -> st_ok env st st'.
Proof.
  unfold link_Record_bases. intros H.
  assert (Hall : st_ok env st
            (link_each env id (fun _ => link_type_base (oc_usr o)) (ev_bases e) st)).
  { apply link_each_st_ok. intros; db_inv_solve. }
  destruct (_ && _); [|simplify_eq; apply st_ok_refl].
  destruct (ev_bases e); [simplify_eq; apply st_ok_refl|].
  destruct (deref _); [|done]. cbn [mbind option_bind] in H. by simplify_eq.
Qed.

Lemma name_anon_record_db_inv env e o pth d :
  db_inv pth d -> db_inv pth (name_anon_record env e o d).
Proof. intros H. unfold name_anon_record. case_match; db_inv_solve. Qed.

Lemma link_Record_st_ok env e o st st' :
  link_Record env e o st = Some st' -> st_ok env st st'.
Proof.
  unfold link_Record. intros H.
  destruct (link_Record_bases env e o st) as [[d1 p1]|] eqn:E1; [|done].
  apply link_Record_bases_st_ok in E1. cbn in H.
  destruct (deref _); [|done]. cbn in H.
  eapply st_ok_trans; [exact E1|].
  assert (st_ok env (d1, p1) (name_anon_record env e o d1, p1)) as H1.
  { split; cbn [fst snd];
      [intros ? ?; by apply name_anon_record_db_inv | apply cache_ext_refl]. }
  destruct (_ && _); simplify_eq; [|done].
  eapply st_ok_trans; [exact H1 | apply collectRecordMembers_st_ok].
Qed.

Lemma link_Specialization_st_ok env e o st st' :
  link_Specialization env e o st = Some st' -> st_ok env st st'.
Proof.
  unfold link_Specialization. destruct st as [d p]. intros H.
  destruct (deref _); cbn in H; [|done].
  destruct (oc_is_def o); simplify_eq; [|st_ok_solve].
  destruct (isa_RecordDecl _).
  - pose proof (collectRecordMembers_st_ok env (oc_usr o) (ev_members e)
                  (toType (oc_usr o) (t_upd_core (set_kind SkClass)) d, p)) as Hc.
    destruct (collectRecordMembers _ _ _ _) as [d1 p1].
    eapply st_ok_trans; [|eapply st_ok_trans; [exact Hc|]]; [st_ok_solve|].
    repeat case_match; simplify_eq; st_ok_solve.
  - repeat case_match; simplify_eq; st_ok_solve.
Qed.

Lemma link_TypeAlias_st_ok env e o st st' :
  link_TypeAlias env e o st = Some st' -> st_ok env st st'.
Proof.
  unfold link_TypeAlias. destruct st as [d p]. intros H.
  crunch; st_ok_solve.
Qed.

Lemma link_by_category_st_ok env e o st st' :
  link_by_category env e o st = Some st' -> st_ok env st st'.
Proof.
  unfold link_by_category. destruct st as [d p]. intros H.
  destruct (declKind (ast env) (oc_D o));
    try (simplify_eq; apply st_ok_refl);
    try (by eapply link_Record_st_ok);
    try (by eapply link_Specialization_st_ok);
    try (by eapply link_TypeAlias_st_ok);
    cbn [fst snd] in H.
  - (* Namespace *) crunch; st_ok_solve.
  - (* NamespaceAlias *) crunch; st_ok_solve.
  - (* CXXMethod *)
    assert (Hall : st_ok env (d, p)
              (link_each env id (fun _ => link_func_base (oc_usr o))
                 (ev_overridden e) (d, p))).
    { apply link_each_st_ok. intros; db_inv_solve. }
    destruct (_ || _); [|simplify_eq; apply st_ok_refl].
    destruct (ev_overridden e); [simplify_eq; apply st_ok_refl|].
    destruct (deref _); [|done]. cbn [mbind option_bind] in H. by simplify_eq.
  - (* EnumConstant *) crunch; st_ok_solve.
Qed.

Lemma occ_locals_cache_ext env e lid p :
  cache_ext env p (occ_locals env e lid p).2.
Proof.
  unfold occ_locals. repeat case_match; simplify_eq; cbn [snd]; cache_chain.
Qed.

Lemma record_occurrence_st_ok env e lid st st' :
  record_occurrence env e lid st = Some st' -> st_ok env st st'.
Proof.
  unfold record_occurrence. destruct st as [d p].
  pose proof (occ_locals_cache_ext env e lid p) as Hc.
  destruct (occ_locals env e lid p) as [o p1]. cbn [snd] in Hc.
  intros H.
  assert (H0 : st_ok env (d, p)
            (db_set_language
               (Z.lor (language d)
                  (LanguageId_to_Z (getDeclLanguage (ast env) (ev_D e)))) d, p1)).
  { split; cbn [fst snd]; [intros ? ?; db_inv_solve | done]. }
  destruct (oc_kind o); simplify_eq; try done;
    (eapply st_ok_trans; [exact H0|]);
    (eapply st_ok_trans; [|eapply link_by_category_st_ok; eassumption]);
    auto using occ_Func_st_ok, occ_Type_st_ok, occ_Var_st_ok.
Qed.

(** ** Every callback keeps the invariants of the staging state *)

Lemma param_ext_refl p : param_ext p p.
Proof.
  unfold param_ext. split_and!; try done.
  - intros fid f Hf. exists f. by split_and!.
  - exists []. by rewrite app_nil_r.
  - exists []. by rewrite app_nil_r.
Qed.

Lemma param_ext_trans p1 p2 p3 :
  param_ext p1 p2 -> param_ext p2 p3 -> param_ext p1 p3.
Proof.
  intros (Ha1 & Ha2 & [c1 Ha3] & Ha4 & [n1 Ha5])
         (Hb1 & Hb2 & [c2 Hb3] & Hb4 & [n2 Hb5]).
  unfold param_ext. split_and!.
  - congruence.
  - intros fid f Hf. destruct (Ha2 _ _ Hf) as (f2 & Hf2 & ? & ? & ?).
    destruct (Hb2 _ _ Hf2) as (f3 & Hf3 & ? & ? & ?).
    exists f3. split_and!; try congruence. by etrans.
  - exists (c1 ++ c2). by rewrite Hb3, Ha3, app_assoc.
  - by etrans.
  - exists (n1 ++ n2). by rewrite Hb5, Ha5, app_assoc.
Qed.

Lemma step_rel_refl env p : step_rel env p p.
Proof. split; [apply param_ext_refl | done]. Qed.

Lemma step_rel_trans env p1 p2 p3 :
  step_rel env p1 p2 -> step_rel env p2 p3 -> step_rel env p1 p3.
Proof. intros [? ?] [? ?]. split; [by eapply param_ext_trans | auto]. Qed.

Lemma cache_ext_step_rel env p p' : cache_ext env p p' -> step_rel env p p'.
Proof.
  intros (H1 & H3 & H4 & H5 & H6 & H7). split.
  - unfold param_ext. split_and!; try done.
    + intros fid f Hf. exists f. rewrite H1. by split_and!.
    + exists []. by rewrite app_nil_r.
  - intros (Hdb & Hlog & Hc). unfold param_inv. rewrite H1, H3, H4.
    split_and!; auto.
Qed.

Lemma seenFile_staged env fid p f :
  uid2file p !! fid = Some f -> seenFile env fid p = p.
Proof. intros H. unfold seenFile. by rewrite H. Qed.

Lemma p_stage_step_rel env fid f calls p :
  uid2file p !! fid = None ->
  (forall d, file_db f = Some d -> db_inv (file_path f) d) ->
  calls = option_list (stamp_key env (p_no_linkage p) fid) ->
  step_rel env p (p_stage fid f calls p).
Proof.
  intros Hnew Hdb Hcalls. split.
  - unfold param_ext; cbn. split_and!; try done.
    + intros fid' f' Hf'. exists f'. split_and!; try done.
      rewrite lookup_insert_ne; [done|]. intros ->. congruence.
    + by eexists.
    + exists []. by rewrite app_nil_r.
  - intros (Hinv & (fids & Hnd & Hdom & Hlog) & Hc). unfold param_inv; cbn.
    split_and!; [| |done].
    + intros fid' f' d. rewrite lookup_insert.
      case_decide; [intros [= <-]; auto | eauto].
    + exists (fids ++ [fid]). split_and!.
      * apply NoDup_app. split_and!; [done | | apply NoDup_singleton].
        intros x Hx ->%list_elem_of_singleton.
        apply Hdom in Hx. rewrite Hnew in Hx. by destruct Hx.
      * intros fid'. rewrite elem_of_app, list_elem_of_singleton, lookup_insert.
        split.
        -- intros [Hx | ->]; [|by rewrite decide_True].
           case_decide; [done|]. by apply Hdom.
        -- case_decide; [by right; subst|]. intros Hx. left. by apply Hdom.
      * rewrite omap_app, Hlog, Hcalls. cbn.
        by destruct (stamp_key env (p_no_linkage p) fid).
Qed.

Lemma seenFile_step_rel env fid p : step_rel env p (seenFile env fid p).
Proof.
  unfold seenFile. destruct (uid2file p !! fid) eqn:E; [apply step_rel_refl|].
  destruct (getFileEntryForID env fid) as [fe|] eqn:Efe.
  - destruct (vfs_stamp env _ _);
      (apply p_stage_step_rel; [done | | by unfold stamp_key; rewrite Efe]);
      cbn; [|done].
    intros d [= <-]. apply db_inv_new.
  - apply p_stage_step_rel; [done | done | by unfold stamp_key; rewrite Efe].
Qed.

Lemma consumeFile_step_rel env fid p :
  step_rel env p (consumeFile env fid p).2.
Proof. apply seenFile_step_rel. Qed.

Lemma consumeFile_db env fid p d p' :
  consumeFile env fid p = (d, p') -> db_of fid p' = d.
Proof. unfold consumeFile. by intros [= <- <-]. Qed.

Lemma useMultiVersion_step_rel env fid p :
  step_rel env p (useMultiVersion env fid p).2.
Proof.
  unfold useMultiVersion. destruct (uid2multi p !! fid); cbn;
    [apply step_rel_refl|].
  apply cache_ext_step_rel. unfold cache_ext, cache_inv; cbn. split_and!; try done.
  exists []. by rewrite app_nil_r.
Qed.

Lemma put_db_step_rel env k d d' p :
  db_of k p = Some d ->
  (forall pth, db_inv pth d -> db_inv pth d') ->
  step_rel env p (put_db k d' p).
Proof.
  unfold db_of. intros Hk Hd.
  destruct (uid2file p !! k) as [f0|] eqn:E; [|done]. cbn in Hk.
  split.
  - unfold param_ext; cbn. split_and!; try done.
    + intros fid f Hf. rewrite lookup_alter.
      case_decide; subst.
      * rewrite Hf. cbn. eexists. split; [done|]. cbn. split_and!; try done.
        assert (f = f0) as -> by congruence. rewrite Hk. by split; eauto.
      * exists f. by split_and!.
    + exists []. by rewrite app_nil_r.
    + exists []. by rewrite app_nil_r.
  - intros (Hinv & (fids & Hnd & Hdom & Hlog) & Hc). unfold param_inv; cbn.
    split_and!; [| |done].
    + intros fid f d0. rewrite lookup_alter. case_decide; subst; [|eauto].
      rewrite E. cbn. intros [= <-]. cbn. intros [= <-]. eauto.
    + exists fids. split_and!; try done.
      intros fid. rewrite Hdom, lookup_alter.
      case_decide; subst; [|done]. by rewrite fmap_is_Some.
Qed.

(** A callback that stages [fid] and, when its index is not null, applies
    [F] to it. *)
Lemma consume_put_step_rel env fid p (F : IndexFile -> IndexFile) :
  (forall pth d, db_inv pth d -> db_inv pth (F d)) ->
  step_rel env p
    (let '(db, p) := consumeFile env fid p in
     match db with
     | None => p
     | Some db => put_db fid (F db) p
     end).
Proof.
  intros HF. pose proof (consumeFile_step_rel env fid p) as Hs.
  destruct (consumeFile env fid p) as [db p1] eqn:E. cbn in Hs.
  apply consumeFile_db in E.
  destruct db as [db|]; [|done].
  eapply step_rel_trans; [exact Hs|].
  eapply put_db_step_rel; eauto.
Qed.

Lemma db_inv_MacroDefined_var pth usr cfg m d :
  db_inv pth d -> db_inv pth (toVar usr (v_upd_core (MacroDefined_var cfg m)) d).
Proof. intros H. db_inv_solve. Qed.

Lemma MacroDefined_step_rel env m p : step_rel env p (MacroDefined env m p).
Proof.
  unfold MacroDefined.
  apply (consume_put_step_rel env (md_fid m) p
           (toVar (getMacro env (md_Name m))
              (v_upd_core (MacroDefined_var (config env) m)))).
  intros; db_inv_solve.
Qed.

Lemma MacroExpands_step_rel env n fid r p :
  step_rel env p (MacroExpands env n fid r p).
Proof.
  unfold MacroExpands.
  apply (consume_put_step_rel env fid p
           (toVar (getMacro env n) (v_upd_core (push_use (Use_default r Role.Dynamic))))).
  intros; db_inv_solve.
Qed.

Lemma InclusionDirective_step_rel env f l fid p :
  step_rel env p (InclusionDirective env f l fid p).
Proof.
  unfold InclusionDirective. destruct f as [pth|]; [|apply step_rel_refl].
  pose proof (consume_put_step_rel env fid p
                (fun d => if String.eqb pth "" then d
                          else db_push_include (l, pth) d)) as H.
  destruct (consumeFile env fid p) as [[db|] p1] eqn:E.
  - assert (Hdb : db_of fid p1 = Some db) by by apply consumeFile_db in E.
    destruct (String.eqb pth "").
    + pose proof (consumeFile_step_rel env fid p) as Hs. by rewrite E in Hs.
    + apply H. intros; db_inv_solve.
  - apply H. intros. case_match; db_inv_solve.
Qed.

Lemma SourceRangeSkipped_step_rel env r fid p :
  step_rel env p (SourceRangeSkipped env r fid p).
Proof.
  unfold SourceRangeSkipped. destruct fid as [fid|]; [|apply step_rel_refl].
  apply (consume_put_step_rel env fid p (db_push_skipped r)).
  intros; db_inv_solve.
Qed.

Lemma shouldSkipFunctionBody_step_rel env fid p :
  step_rel env p (shouldSkipFunctionBody env fid p).2.
Proof.
  unfold shouldSkipFunctionBody.
  assert (Hmv : step_rel env p
            (if cfg_multiVersion (config env) =? 0 then (false, p)
             else useMultiVersion env fid p).2).
  { case_match; [apply step_rel_refl | apply useMultiVersion_step_rel]. }
  destruct (if cfg_multiVersion (config env) =? 0 then _ else _) as [mv p1].
  cbn in Hmv. destruct mv; [done|].
  pose proof (consumeFile_step_rel env fid p1) as Hs.
  destruct (consumeFile env fid p1) as [db p2]. cbn in *.
  by eapply step_rel_trans.
Qed.

Lemma stage_event_step_rel env e fid p :
  step_rel env p (stage_event env e fid p).2.
Proof.
  unfold stage_event.
  assert (Hmv : step_rel env p
            (if cfg_multiVersion (config env) =? 0 then (false, p)
             else useMultiVersion env fid p).2).
  { case_match; [apply step_rel_refl | apply useMultiVersion_step_rel]. }
  destruct (if cfg_multiVersion (config env) =? 0 then _ else _) as [mv p1].
  cbn in Hmv. eapply step_rel_trans; [exact Hmv|]. clear Hmv.
  destruct mv.
  - pose proof (consumeFile_step_rel env (getMainFileID env) p1) as Hs.
    destruct (consumeFile env (getMainFileID env) p1) as [[db|] p2]; [|done].
    cbn [snd] in Hs. eapply step_rel_trans; [exact Hs|].
    pose proof (seenFile_step_rel env fid p2) as Hs2.
    destruct (ev_written_in_main e); [done|].
    destruct (db_of (getMainFileID env) (seenFile env fid p2)) as [db2|] eqn:E;
      [|done].
    pose proof (db_inv_getFileLID env) as Hl.
    destruct (getFileLID env fid db2) as [lid db3] eqn:El. cbn [snd].
    eapply step_rel_trans; [exact Hs2|].
    eapply put_db_step_rel; [exact E|].
    intros pth Hd. specialize (Hl pth fid db2 Hd). by rewrite El in Hl.
  - pose proof (consumeFile_step_rel env fid p1) as Hs.
    by destruct (consumeFile env fid p1) as [[db|] p2].
Qed.

Lemma handleDeclOccurence_step_rel env e p p' :
  handleDeclOccurence env e p = Some p' -> step_rel env p p'.
Proof.
  unfold handleDeclOccurence. intros H.
  destruct (_ && _); [simplify_eq; apply step_rel_refl|].
  destruct (ev_fid e) as [fid|]; [|simplify_eq; apply step_rel_refl].
  pose proof (stage_event_step_rel env e fid p) as Hs.
  destruct (stage_event env e fid p) as [[[key lid]|] p1]; cbn [snd] in Hs;
    [|by simplify_eq].
  destruct (db_of key p1) as [db|] eqn:Edb; [|by simplify_eq].
  destruct (record_occurrence env e lid (db, p1)) as [[db' p2]|] eqn:Er;
    [|done].
  cbn in H. simplify_eq.
  apply record_occurrence_st_ok in Er as [Hdb Hc]. cbn [fst snd] in *.
  eapply step_rel_trans; [exact Hs|].
  eapply step_rel_trans; [by apply cache_ext_step_rel|].
  eapply put_db_step_rel; [|exact Hdb].
  destruct Hc as (Hu & _). unfold db_of in *. by rewrite Hu.
Qed.

Lemma step_step_rel env ev p p' : step env ev p = Some p' -> step_rel env p p'.
Proof.
  destruct ev; cbn [step]; intros H; simplify_eq.
  - unfold FileChanged. case_match;
      [apply consumeFile_step_rel | apply step_rel_refl].
  - apply InclusionDirective_step_rel.
  - apply MacroDefined_step_rel.
  - apply MacroExpands_step_rel.
  - unfold MacroUndefined. repeat case_match;
      [apply MacroExpands_step_rel | apply step_rel_refl].
  - apply SourceRangeSkipped_step_rel.
  - apply shouldSkipFunctionBody_step_rel.
  - by eapply handleDeclOccurence_step_rel.
Qed.

Lemma run_step_rel env evs p p' : run env evs p = Some p' -> step_rel env p p'.
Proof.
  revert p; induction evs as [|ev evs IH]; intros p; cbn [run].
  - intros [= <-]. apply step_rel_refl.
  - destruct (step env ev p) as [p1|] eqn:E; [|done]. cbn.
    intros H. eapply step_rel_trans; [by eapply step_step_rel | by apply IH].
Qed.

Lemma param_inv_new env nl : param_inv env (IndexParam_new nl).
Proof.
  unfold param_inv, cache_inv; cbn. split_and!.
  - intros fid f d. by rewrite lookup_empty.
  - exists []. split_and!; [constructor | | done].
    intros fid. rewrite lookup_empty. split; [by intros ?%elem_of_nil|].
    by intros [? ?].
  - intros D info. by rewrite lookup_empty.
  - constructor.
  - intros D. rewrite lookup_empty. split; [by intros ?%elem_of_nil|].
    by intros [? ?].
Qed.

(** Every state a pass reaches satisfies the invariants. *)
Lemma run_param_inv env nl evs p :
  run env evs (IndexParam_new nl) = Some p -> param_inv env p.
Proof.
  intros H. apply run_step_rel in H as [_ H]. apply H, param_inv_new.
Qed.

(** ** The post-pass *)

Lemma stamp_dependency_frame entry file :
  path (stamp_dependency entry file) = path entry /\
  import_file (stamp_dependency entry file) = import_file entry /\
  usr2func (stamp_dependency entry file) = usr2func entry /\
  usr2type (stamp_dependency entry file) = usr2type entry /\
  usr2var (stamp_dependency entry file) = usr2var entry.
Proof. unfold stamp_dependency. by repeat case_match. Qed.

Lemma stamp_dependencies_frame files entry :
  path (stamp_dependencies files entry) = path entry /\
  import_file (stamp_dependencies files entry) = import_file entry /\
  usr2func (stamp_dependencies files entry) = usr2func entry /\
  usr2type (stamp_dependencies files entry) = usr2type entry /\
  usr2var (stamp_dependencies files entry) = usr2var entry.
Proof.
  unfold stamp_dependencies. revert entry.
  induction files as [|kf files IH]; intros entry; cbn [foldl]; [done|].
  destruct (IH (stamp_dependency entry kf.2)) as (-> & -> & -> & -> & ->).
  apply stamp_dependency_frame.
Qed.

(** No step of the loop adds the entry's own path or the main path. *)
Lemma stamp_dependencies_exclude files entry s :
  s = path entry \/ s = import_file entry ->
  dependencies entry !! s = None ->
  dependencies (stamp_dependencies files entry) !! s = None.
Proof.
  unfold stamp_dependencies. revert entry.
  induction files as [|kf files IH]; intros entry Hs Hd; cbn [foldl]; [done|].
  destruct (stamp_dependency_frame entry kf.2) as (Hp & Hi & _).
  apply IH; [by rewrite Hp, Hi|].
  unfold stamp_dependency.
  destruct (String.eqb (file_path kf.2) "") eqn:E0; [done|].
  destruct (String.eqb (file_path kf.2) (path entry)) eqn:E1; [done|].
  destruct (String.eqb (file_path kf.2) (import_file entry)) eqn:E2; [done|].
  cbn. apply String.eqb_neq in E1, E2.
  rewrite lookup_insert_ne; [done|]. by destruct Hs as [-> | ->].
Qed.

(** The modification time is that of the last staged file with the entry's
    path. *)
Lemma stamp_dependencies_mtime files entry :
  path entry <> "" ->
  (exists kf, kf ∈ files /\ file_path kf.2 = path entry) ->
  exists kf, kf ∈ files /\ file_path kf.2 = path entry /\
             mtime (stamp_dependencies files entry) = file_mtime kf.2.
Proof.
  unfold stamp_dependencies. intros Hne.
  assert (Hgen : forall files entry0 (seen : option (FileID * File)),
            path entry0 = path entry ->
            (forall kf, seen = Some kf ->
               file_path kf.2 = path entry /\ mtime entry0 = file_mtime kf.2) ->
            (is_Some seen \/ exists kf, kf ∈ files /\ file_path kf.2 = path entry) ->
            exists kf, (seen = Some kf \/ kf ∈ files) /\
              file_path kf.2 = path entry /\
              mtime (foldl (fun entry kf => stamp_dependency entry kf.2) entry0 files)
              = file_mtime kf.2).
  { clear files. intros files.
    induction files as [|kf files IH]; intros entry0 seen Hp Hseen Hex; cbn [foldl].
    - destruct Hex as [[kf ->] | (kf & Hin & _)]; [|by apply elem_of_nil in Hin].
      exists kf. destruct (Hseen kf eq_refl). auto.
    - destruct (stamp_dependency_frame entry0 kf.2) as (Hp' & _).
      destruct (String.eqb (file_path kf.2) (path entry)) eqn:E1.
      + apply String.eqb_eq in E1.
        destruct (IH (stamp_dependency entry0 kf.2) (Some kf)) as (kf' & Hin & ? & ?).
        * congruence.
        * intros ? [= <-]. split; [done|]. unfold stamp_dependency.
          rewrite Hp, <- E1, String.eqb_refl.
          destruct (String.eqb (file_path kf.2) "") eqn:E0; [|done].
          apply String.eqb_eq in E0. congruence.
        * left. eauto.
        * exists kf'. split; [|done].
          destruct Hin as [[= <-] | Hin]; right; [left | by right].
      + apply String.eqb_neq in E1.
        destruct (IH (stamp_dependency entry0 kf.2) seen) as (kf' & Hin & ? & ?).
        * congruence.
        * intros kf0 Hs. destruct (Hseen kf0 Hs) as [? Hm]. split; [done|].
          rewrite <- Hm. unfold stamp_dependency. rewrite Hp.
          apply String.eqb_neq in E1. rewrite E1. by repeat case_match.
        * destruct Hex as [? | (kf0 & Hin & Hkf0)]; [by left|].
          right. exists kf0. split; [|done].
          apply elem_of_cons in Hin as [-> | ?]; [congruence | done].
        * exists kf'. split; [|done]. destruct Hin; [by left | right; by right]. }
  intros Hex.
  destruct (Hgen files entry None eq_refl) as (kf & [? | Hin] & ? & ?);
    [done | by right | done | eauto].
Qed.

Lemma prepare_entry_keys_ok use_eqb main args entry :
  keys_ok entry -> keys_ok (prepare_entry use_eqb main args entry).
Proof.
  intros (Hf & Ht & Hv). unfold prepare_entry, keys_ok; cbn.
  split_and!; intros k e; rewrite lookup_fmap;
    destruct (_ !! k) as [e0|] eqn:E; cbn; try done; intros [= <-]; cbn; eauto.
Qed.

Lemma finalize_entry_spec use_eqb main args files pth entry :
  db_inv pth entry ->
  let r := finalize_entry use_eqb main args files entry in
  path r = pth /\ import_file r = main /\ keys_ok r /\
  dependencies r !! pth = None /\ dependencies r !! main = None /\
  (pth <> "" -> (exists kf, kf ∈ files /\ file_path kf.2 = pth) ->
   exists kf, kf ∈ files /\ file_path kf.2 = pth /\ mtime r = file_mtime kf.2).
Proof.
  intros (Hp & Hd & Hk). cbn zeta. unfold finalize_entry.
  set (e1 := prepare_entry use_eqb main args entry).
  assert (He1 : path e1 = pth /\ import_file e1 = main /\ dependencies e1 = ∅)
    by done.
  destruct He1 as (Hp1 & Hi1 & Hd1).
  pose proof (prepare_entry_keys_ok use_eqb main args entry Hk) as Hk1.
  fold e1 in Hk1.
  destruct (stamp_dependencies_frame files e1) as (Hp2 & Hi2 & Hf2 & Ht2 & Hv2).
  split_and!.
  - congruence.
  - congruence.
  - unfold keys_ok. rewrite Hf2, Ht2, Hv2. exact Hk1.
  - apply stamp_dependencies_exclude; [by left | by rewrite Hd1, lookup_empty].
  - apply stamp_dependencies_exclude; [by right | by rewrite Hd1, lookup_empty].
  - intros Hne Hex. rewrite <- Hp1 in Hne, Hex |- *.
    by apply stamp_dependencies_mtime.
Qed.

(** An entry of the result comes from the index of a staged file. *)
Lemma finalize_elem use_eqb main args p entry :
  entry ∈ finalize use_eqb main args p ->
  exists fid f d,
    uid2file p !! fid = Some f /\ file_db f = Some d /\
    entry = finalize_entry use_eqb main args (map_to_list (uid2file p)) d.
Proof.
  unfold finalize. intros H.
  apply list_elem_of_omap in H as ([fid f] & Hin & Hf).
  apply elem_of_map_to_list in Hin. cbn in Hf.
  destruct (file_db f) as [d|] eqn:E; [|done]. cbn in Hf.
  exists fid, f, d. by simplify_eq.
Qed.

(** The result of the driver is empty unless the pass completed. *)
Lemma index_elem env use_eqb eng main args nl entry :
  entry ∈ (index env use_eqb eng main args nl).1 ->
  exists p,
    run env (delivered_events (engine_run eng)) (IndexParam_new nl) = Some p /\
    entry ∈ finalize use_eqb main args p.
Proof.
  unfold index, RunSafely_parse.
  destruct (buildCompilerInvocation eng); cbn; [|by intros ?%elem_of_nil].
  destruct (hasTarget eng); cbn; [|by intros ?%elem_of_nil].
  destruct (run env _ _) as [p|]; cbn; [|by intros ?%elem_of_nil].
  destruct (engine_run eng); cbn; try by intros ?%elem_of_nil.
  eauto.
Qed.

Lemma index_entry_spec env use_eqb eng main args nl entry :
  entry ∈ (index env use_eqb eng main args nl).1 ->
  exists p fid f d,
    run env (delivered_events (engine_run eng)) (IndexParam_new nl) = Some p /\
    uid2file p !! fid = Some f /\ file_db f = Some d /\
    db_inv (file_path f) d /\
    entry = finalize_entry use_eqb main args (map_to_list (uid2file p)) d.
Proof.
  intros H. apply index_elem in H as (p & Hrun & H).
  apply finalize_elem in H as (fid & f & d & Hf & Hd & ->).
  exists p, fid, f, d. split_and!; try done.
  apply run_param_inv in Hrun as (Hinv & _). eauto.
Qed.

(** C3: in a finalized [IndexFile] the dependency map has neither the file's
    own path nor the main input path, and the entry's modification time is
    the one staged for its path. *)
Theorem dependencies_exclude_self_and_main
    env use_eqb eng main args nl entry :
  entry ∈ (index env use_eqb eng main args nl).1 ->
  dependencies entry !! path entry = None /\
  dependencies entry !! main = None /\
  exists p fid f,
    run env (delivered_events (engine_run eng)) (IndexParam_new nl) = Some p /\
    uid2file p !! fid = Some f /\ file_path f = path entry /\
    (path entry <> "" ->
     exists fid' f', uid2file p !! fid' = Some f' /\
       file_path f' = path entry /\ mtime entry = file_mtime f').
Proof.
  intros H. apply index_entry_spec in H as (p & fid & f & d & Hrun & Hf & Hd & Hinv & ->).
  destruct (finalize_entry_spec use_eqb main args (map_to_list (uid2file p))
              (file_path f) d Hinv) as (Hp & Hi & Hk & Hself & Hmain & Hm).
  rewrite Hp. split_and!; [done | done |].
  exists p, fid, f. split_and!; try done.
  intros Hne. destruct (Hm Hne) as ([fid' f'] & Hin & Hpath & Hmt).
  { exists (fid, f). split; [by apply elem_of_map_to_list | done]. }
  apply elem_of_map_to_list in Hin. by exists fid', f'.
Qed.

Lemma dependencies_exclude_self_and_main_witness :
  exists entry,
    entry ∈ ex_result.1 /\ path entry = "/src/a.h" /\
    dependencies entry !! "/src/b.h" = Some 70 /\
    dependencies entry !! path entry = None /\
    dependencies entry !! "/src/main.cc" = None.
Proof.
  unfold ex_result.
  destruct ((index ex_env ex_use_eqb ex_engine "/src/main.cc" [] true).1 !! 0%nat)
    as [entry|] eqn:E; [|by vm_compute in E].
  assert (Hin : entry ∈ (index ex_env ex_use_eqb ex_engine "/src/main.cc" [] true).1)
    by by eapply list_elem_of_lookup_2.
  exists entry. split; [done|].
  assert (entry = default entry
            ((index ex_env ex_use_eqb ex_engine "/src/main.cc" [] true).1 !! 0%nat))
    as Hentry by by rewrite E.
  split; [by rewrite Hentry; vm_compute|].
  split; [by rewrite Hentry; vm_compute|].
  pose proof (dependencies_exclude_self_and_main
                ex_env ex_use_eqb ex_engine "/src/main.cc" [] true entry Hin) as H.
  exact (conj (proj1 H) (proj1 (proj2 H))).
Defined.

(** ** The entity maps *)

Lemma toFunc_lookup usr g d :
  usr2func (toFunc usr g d) !! usr = Some (g (func_at usr d)).
Proof.
  unfold toFunc, func_at, try_emplace_func; cbn. rewrite lookup_alter_eq.
  destruct (usr2func d !! usr) eqn:E; [by rewrite E|].
  by rewrite lookup_insert_eq.
Qed.

Lemma toType_lookup usr g d :
  usr2type (toType usr g d) !! usr = Some (g (type_at usr d)).
Proof.
  unfold toType, type_at, try_emplace_type; cbn. rewrite lookup_alter_eq.
  destruct (usr2type d !! usr) eqn:E; [by rewrite E|].
  by rewrite lookup_insert_eq.
Qed.

Lemma toVar_lookup usr g d :
  usr2var (toVar usr g d) !! usr = Some (g (var_at usr d)).
Proof.
  unfold toVar, var_at, try_emplace_var; cbn. rewrite lookup_alter_eq.
  destruct (usr2var d !! usr) eqn:E; [by rewrite E|].
  by rewrite lookup_insert_eq.
Qed.

Lemma toFunc_lookup_ne usr usr' g d :
  usr <> usr' -> usr2func (toFunc usr g d) !! usr' = usr2func d !! usr'.
Proof.
  intros Hne. unfold toFunc, try_emplace_func; cbn.
  rewrite lookup_alter_ne by done.
  destruct (usr2func d !! usr); [done|]. by rewrite lookup_insert_ne.
Qed.

Lemma toType_lookup_ne usr usr' g d :
  usr <> usr' -> usr2type (toType usr g d) !! usr' = usr2type d !! usr'.
Proof.
  intros Hne. unfold toType, try_emplace_type; cbn.
  rewrite lookup_alter_ne by done.
  destruct (usr2type d !! usr); [done|]. by rewrite lookup_insert_ne.
Qed.

Lemma toVar_lookup_ne usr usr' g d :
  usr <> usr' -> usr2var (toVar usr g d) !! usr' = usr2var d !! usr'.
Proof.
  intros Hne. unfold toVar, try_emplace_var; cbn.
  rewrite lookup_alter_ne by done.
  destruct (usr2var d !! usr); [done|]. by rewrite lookup_insert_ne.
Qed.

(** C10: during a pass and in its finalized result every entity map stores
    under key [k] an entity whose [usr] is [k]; an accessor creates the
    entity of a key it has not seen with that [usr] and an empty definition
    record, leaves an existing entity in place, and a map has no duplicate
    key. *)
Theorem entity_maps_keyed_by_usr env use_eqb :
  (forall nl evs p fid d,
      run env evs (IndexParam_new nl) = Some p ->
      db_of fid p = Some d -> keys_ok d) /\
  (forall eng main args nl entry,
      entry ∈ (index env use_eqb eng main args nl).1 -> keys_ok entry) /\
  (forall d usr,
      (usr2func d !! usr = None ->
       usr2func (toFunc usr id d) !! usr = Some (f_set_usr usr IndexFunc0)) /\
      (usr2type d !! usr = None ->
       usr2type (toType usr id d) !! usr = Some (t_set_usr usr IndexType0)) /\
      (usr2var d !! usr = None ->
       usr2var (toVar usr id d) !! usr = Some (v_set_usr usr IndexVar0)) /\
      spell (f_core (f_set_usr usr IndexFunc0)) = None /\
      spell (t_core (t_set_usr usr IndexType0)) = None /\
      spell (v_core (v_set_usr usr IndexVar0)) = None) /\
  (forall d usr,
      (forall e, usr2func d !! usr = Some e -> toFunc usr id d = d) /\
      (forall e, usr2type d !! usr = Some e -> toType usr id d = d) /\
      (forall e, usr2var d !! usr = Some e -> toVar usr id d = d)) /\
  (forall d,
      NoDup (map_to_list (usr2func d)).*1 /\
      NoDup (map_to_list (usr2type d)).*1 /\
      NoDup (map_to_list (usr2var d)).*1).
Proof.
  split_and!.
  - intros nl evs p fid d Hrun Hdb.
    apply run_param_inv in Hrun as (Hinv & _).
    unfold db_of in Hdb. destruct (uid2file p !! fid) as [f|] eqn:E; [|done].
    cbn in Hdb. by destruct (Hinv fid f d E Hdb) as (_ & _ & ?).
  - intros eng main args nl entry H.
    apply index_entry_spec in H as (p & fid & f & d & _ & _ & _ & Hinv & ->).
    by destruct (finalize_entry_spec use_eqb main args (map_to_list (uid2file p))
                   (file_path f) d Hinv) as (_ & _ & ? & _).
  - intros d usr. split_and!; try done.
    + intros H. rewrite toFunc_lookup. unfold func_at. by rewrite H.
    + intros H. rewrite toType_lookup. unfold type_at. by rewrite H.
    + intros H. rewrite toVar_lookup. unfold var_at. by rewrite H.
  - intros d usr. split_and!; intros e H; destruct d; cbn in *.
    + unfold toFunc, try_emplace_func; cbn. rewrite H.
      unfold db_set_funcs; cbn. f_equal.
      apply map_eq; intros k. rewrite lookup_alter.
      case_decide; subst; [by rewrite H | done].
    + unfold toType, try_emplace_type; cbn. rewrite H.
      unfold db_set_types; cbn. f_equal.
      apply map_eq; intros k. rewrite lookup_alter.
      case_decide; subst; [by rewrite H | done].
    + unfold toVar, try_emplace_var; cbn. rewrite H.
      unfold db_set_vars; cbn. f_equal.
      apply map_eq; intros k. rewrite lookup_alter.
      case_decide; subst; [by rewrite H | done].
  - intros d. split_and!; apply NoDup_fst_map_to_list.
Qed.

(** ** File staging *)

Lemma run_no_linkage env nl evs p :
  run env evs (IndexParam_new nl) = Some p -> p_no_linkage p = nl.
Proof. intros H. by apply run_step_rel in H as [(? & _) _]. Qed.

Lemma consumeFile_staged_null env fid p :
  is_Some (uid2file p !! fid) -> db_of fid p = None ->
  consumeFile env fid p = (None, p).
Proof.
  intros [f Hf] Hdb. unfold consumeFile.
  by rewrite (seenFile_staged env fid p f Hf), Hdb.
Qed.

(** C4, as the code has it: staging consults the staleness cache once for
    each distinct handle that has a file entry, with the key (path, mtime,
    mode tag), and not at all for a handle without a file entry; a handle is
    given an index exactly when the cache asks for one; and a handle whose
    decision is null keeps it, without another consultation. *)
Theorem staging_consults_cache_once env :
  (forall nl evs p,
      run env evs (IndexParam_new nl) = Some p ->
      exists fids, NoDup fids /\
        (forall fid, fid ∈ fids <-> is_Some (uid2file p !! fid)) /\
        stamp_log p = omap (stamp_key env nl) fids) /\
  (forall nl fid,
      stamp_key env nl fid =
        match getFileEntryForID env fid with
        | Some fe => Some (fe_path fe, staged_mtime env fe, mode_tag nl)
        | None => None
        end) /\
  (mode_tag true = 3 /\ mode_tag false = 1) /\
  (forall p fid,
      uid2file p !! fid = None ->
      let p' := (consumeFile env fid p).2 in
      is_Some (uid2file p' !! fid) /\
      match stamp_key env (p_no_linkage p) fid with
      | None => stamp_log p' = stamp_log p /\ db_of fid p' = None
      | Some key =>
          stamp_log p' = stamp_log p ++ [key] /\
          (is_Some (db_of fid p') <-> vfs_stamp env (stamp_log p) key = true)
      end) /\
  (forall nl evs p fid,
      run env evs (IndexParam_new nl) = Some p ->
      is_Some (uid2file p !! fid) -> db_of fid p = None ->
      forall evs' p',
        run env evs' p = Some p' -> consumeFile env fid p' = (None, p')).
Proof.
  split_and!.
  - intros nl evs p Hrun. pose proof (run_no_linkage _ _ _ _ Hrun) as Hnl.
    apply run_param_inv in Hrun as (_ & Hlog & _). by rewrite Hnl in Hlog.
  - intros nl fid. unfold stamp_key. by destruct (getFileEntryForID env fid).
  - done.
  - done.
  - intros p fid Hnew. cbn zeta. unfold consumeFile, seenFile, stamp_key, db_of.
    cbn [snd]. rewrite Hnew.
    destruct (getFileEntryForID env fid) as [fe|]; cbn [mbind option_bind].
    + destruct (vfs_stamp env _ _) eqn:Ev; cbn; rewrite lookup_insert_eq; cbn;
        (split; [by eexists|]); (split; [done|]).
      * by split; eauto.
      * split; [by intros [? ?] | done].
    + cbn. rewrite lookup_insert_eq, app_nil_r. by split; [eexists|].
  - intros nl evs p fid _ [f Hf] Hdb evs' p' Hrun.
    apply run_step_rel in Hrun as [(_ & Hst & _) _].
    destruct (Hst fid f Hf) as (f' & Hf' & _ & _ & Hiff).
    apply consumeFile_staged_null; [by eexists|].
    unfold db_of in *. rewrite Hf in Hdb. rewrite Hf'. cbn in *.
    destruct (file_db f'); [|done]. rewrite Hdb in Hiff.
    destruct Hiff as [Hiff _]. by destruct Hiff.
Qed.

(** A handle without a file entry is staged without consulting the cache. *)
Lemma staging_without_file_entry_counterexample :
  uid2file (consumeFile ex_env 9 (IndexParam_new true)).2 !! 9
  = Some (mkFile "" 0 "" None) /\
  length (stamp_log (consumeFile ex_env 9 (IndexParam_new true)).2) = 0%nat.
Proof. by vm_compute. Qed.

(** ** Identity resolution *)

(** C5: two occurrences with the same canonical declaration resolve to the
    same key and the same cached names within a pass; the key is the hash of
    the canonical node's reference; the node is rendered once, on its first
    resolution, and later lookups leave the state as it is.  In every state,
    a node that is in the cache is answered with the stored entry, without a
    rendering and without a change of the state, and a node that is not is
    rendered once and its rendering is what the cache then holds. *)
Theorem getUsr_identity_stable env nl evs p D1 D2 evs' p2 :
  run env evs (IndexParam_new nl) = Some p ->
  getCanonicalDecl (ast env) D1 = getCanonicalDecl (ast env) D2 ->
  run env evs' (getUsr env D1 p).2 = Some p2 ->
  (getUsr env D2 p2).1 = (getUsr env D1 p).1 /\
  (getUsr env D2 p2).2 = p2 /\
  (getUsr env D1 p).1 = render_DeclInfo env (getCanonicalDecl (ast env) D1) /\
  di_usr (getUsr env D1 p).1 =
    hashUsr env (generateUSRForDecl (ast env) (getCanonicalDecl (ast env) D1)) /\
  (Decl2Info p !! getCanonicalDecl (ast env) D1 = None ->
   render_log (getUsr env D1 p).2
   = render_log p ++ [getCanonicalDecl (ast env) D1]) /\
  (is_Some (Decl2Info p !! getCanonicalDecl (ast env) D1) ->
   (getUsr env D1 p).2 = p) /\
  NoDup (render_log p2) /\
  getCanonicalDecl (ast env) D1 ∈ render_log p2 /\
  (forall q info,
     Decl2Info q !! getCanonicalDecl (ast env) D1 = Some info ->
     getUsr env D1 q = (info, q)) /\
  (forall q,
     Decl2Info q !! getCanonicalDecl (ast env) D1 = None ->
     (getUsr env D1 q).1 = render_DeclInfo env (getCanonicalDecl (ast env) D1) /\
     render_log (getUsr env D1 q).2
     = render_log q ++ [getCanonicalDecl (ast env) D1] /\
     Decl2Info (getUsr env D1 q).2
     = <[getCanonicalDecl (ast env) D1 := (getUsr env D1 q).1]> (Decl2Info q)).
Proof.
  intros Hrun Hcanon Hrun2.
  apply run_param_inv in Hrun as Hinv.
  pose proof (getUsr_cache_ext env D1 p) as Hext.
  pose proof (getUsr_lookup env D1 p) as Hlk.
  set (p1 := (getUsr env D1 p).2) in *. set (i1 := (getUsr env D1 p).1) in *.
  destruct (cache_ext_step_rel _ _ _ Hext) as [_ Hinv1]. specialize (Hinv1 Hinv).
  apply run_step_rel in Hrun2 as [(_ & _ & _ & Hsub & _) Hinv2].
  specialize (Hinv2 Hinv1).
  destruct Hinv1 as (_ & _ & Hc1). destruct Hinv2 as (_ & _ & Hc2).
  assert (Hlk2 : Decl2Info p2 !! getCanonicalDecl (ast env) D2 = Some i1).
  { rewrite <- Hcanon. by eapply lookup_weaken. }
  assert (Hi1 : i1 = render_DeclInfo env (getCanonicalDecl (ast env) D1)).
  { destruct Hc1 as (Hcoh & _). by apply Hcoh. }
  split_and!.
  - by rewrite (getUsr_cached env D2 p2 i1 Hlk2).
  - by rewrite (getUsr_cached env D2 p2 i1 Hlk2).
  - done.
  - rewrite Hi1. unfold render_DeclInfo.
    by destruct (namedDecl _ _) as [[? ?]|].
  - intros Hnone. subst p1. by rewrite (getUsr_fresh env D1 p Hnone).
  - intros [i Hi]. subst p1. by rewrite (getUsr_cached env D1 p i Hi).
  - by destruct Hc2 as (_ & ? & _).
  - destruct Hc2 as (_ & _ & Hdom). apply Hdom. rewrite Hcanon. by eexists.
  - intros q info Hq. by apply getUsr_cached.
  - intros q Hq. by rewrite (getUsr_fresh env D1 q Hq).
Qed.

Lemma getUsr_identity_stable_witness :
  let p := default (IndexParam_new true)
             (run ex_env ex_events (IndexParam_new true)) in
  (getUsr ex_env 12 (getUsr ex_env 10 p).2).1 = (getUsr ex_env 10 p).1 /\
  di_usr (getUsr ex_env 10 p).1 = 4.
Proof.
  cbv zeta.
  destruct (run ex_env ex_events (IndexParam_new true)) as [p|] eqn:E;
    [|by vm_compute in E].
  cbn [default from_option id].
  pose proof (getUsr_identity_stable ex_env true ex_events p 10%N 12%N []
                (getUsr ex_env 10 p).2 E eq_refl eq_refl) as H.
  exact (conj (proj1 H) (proj1 (proj2 (proj2 (proj2 H))))).
Defined.

(** ** The driver *)

(** C8: when the invocation cannot be built the pass returns no result and
    [ok] stays true; when the engine crashes, or its execute step fails, the
    pass returns no result with [ok] false; the driver always returns, and
    it returns no result whenever [ok] is false. *)
Theorem index_error_outcomes env use_eqb eng main args nl :
  (buildCompilerInvocation eng = false ->
   index env use_eqb eng main args nl = ([], true)) /\
  (buildCompilerInvocation eng = true ->
   forall evs, engine_run eng = RunCrashed evs ->
   index env use_eqb eng main args nl = ([], false)) /\
  (buildCompilerInvocation eng = true ->
   forall evs reason, engine_run eng = RunExecuteFailed evs reason ->
   index env use_eqb eng main args nl = ([], false)) /\
  (buildCompilerInvocation eng = true ->
   run env (delivered_events (engine_run eng)) (IndexParam_new nl) = None ->
   index env use_eqb eng main args nl = ([], false)) /\
  ((index env use_eqb eng main args nl).2 = false ->
   (index env use_eqb eng main args nl).1 = []) /\
  ((index env use_eqb eng main args nl).1 <> [] ->
   exists evs, engine_run eng = RunCompleted evs).
Proof.
  unfold index, RunSafely_parse.
  destruct (buildCompilerInvocation eng), (hasTarget eng); cbn;
    split_and!; try done;
    try (intros _ evs Hr; rewrite Hr; cbn; by destruct (run env evs _));
    try (intros _ evs reason Hr; rewrite Hr; cbn; by destruct (run env evs _));
    try (by intros _ ->).
  - destruct (run env _ _); [|done]. by destruct (engine_run eng).
  - destruct (run env _ _); [|done]. destruct (engine_run eng); try done. eauto.
Qed.

(** ** Reading an entity after a mutation *)

Lemma var_at_toVar usr usr' g d :
  var_at usr' (toVar usr g d)
  = if decide (usr = usr') then g (var_at usr d) else var_at usr' d.
Proof.
  unfold var_at at 1. case_decide; subst.
  - by rewrite toVar_lookup.
  - by rewrite toVar_lookup_ne.
Qed.

Lemma func_at_toFunc usr usr' g d :
  func_at usr' (toFunc usr g d)
  = if decide (usr = usr') then g (func_at usr d) else func_at usr' d.
Proof.
  unfold func_at at 1. case_decide; subst.
  - by rewrite toFunc_lookup.
  - by rewrite toFunc_lookup_ne.
Qed.

Lemma type_at_toType usr usr' g d :
  type_at usr' (toType usr g d)
  = if decide (usr = usr') then g (type_at usr d) else type_at usr' d.
Proof.
  unfold type_at at 1. case_decide; subst.
  - by rewrite toType_lookup.
  - by rewrite toType_lookup_ne.
Qed.

Lemma put_db_db_of k d d' p :
  db_of k p = Some d -> db_of k (put_db k d' p) = Some d'.
Proof.
  unfold db_of, put_db; cbn. intros H. rewrite lookup_alter_eq.
  by destruct (uid2file p !! k).
Qed.

Lemma put_db_db_of_ne k k' d' p :
  k <> k' -> db_of k' (put_db k d' p) = db_of k' p.
Proof. unfold db_of, put_db; cbn. intros H. by rewrite lookup_alter_ne. Qed.

(** ** Macro definitions *)

Lemma within_maxInitializerLines_spec cfg Buf :
  1 <= cfg_maxInitializerLines cfg < 2 ^ 31 ->
  within_maxInitializerLines cfg Buf
  = (Z.of_nat (count_newlines Buf) + 1 <=? cfg_maxInitializerLines cfg).
Proof.
  intros H. unfold within_maxInitializerLines.
  rewrite Z.mod_small by lia.
  destruct (Z.leb_spec (Z.of_nat (count_newlines Buf)) (cfg_maxInitializerLines cfg - 1)),
           (Z.leb_spec (Z.of_nat (count_newlines Buf) + 1) (cfg_maxInitializerLines cfg));
    (done || lia).
Qed.

(** C7, as the code has it: when the file of the directive is staged with an
    index, a macro definition reaches the variable entity keyed by the hash
    of ["@macro@"] followed by the spelling, sets its kind to Macro and its
    container kind to File, appends the previous definition record (if any)
    to the declarations and installs the new one; the first definition of
    the entity in the file also sets the detailed name to the spelling and
    the hover text to ["#define "] followed by the source when its line count
    is within the maximum and by the spelling otherwise; a later definition
    leaves name and hover as they are. *)
Theorem MacroDefined_spec env m p :
  getMacro env (md_Name m) = hashUsr env ("@macro@" +:+ md_Name m) /\
  forall db p1,
    consumeFile env (md_fid m) p = (db, p1) ->
    match db with
    | None => MacroDefined env m p = p1
    | Some d =>
        exists d',
          MacroDefined env m p = put_db (md_fid m) d' p1 /\
          db_of (md_fid m) (MacroDefined env m p) = Some d' /\
          let usr := getMacro env (md_Name m) in
          let v := v_core (var_at usr d) in
          let v' := v_core (var_at usr d') in
          kind v' = SkMacro /\ parent_kind v' = SkFile /\
          declarations v' = declarations v ++ option_list (spell v) /\
          spell v' =
            Some (mkDeclRef (mkUse (md_range m) Role.Definition_ (-1))
                    (md_extent m)) /\
          uses v' = uses v /\
          (detailed_name v = "" ->
           detailed_name v' = md_Name m /\
           (1 <= cfg_maxInitializerLines (config env) < 2 ^ 31 ->
            hover v' =
              if Z.of_nat (count_newlines (md_source m)) + 1
                 <=? cfg_maxInitializerLines (config env)
              then "#define " +:+ md_source m
              else "#define " +:+ md_Name m)) /\
          (detailed_name v <> "" ->
           detailed_name v' = detailed_name v /\ hover v' = hover v)
    end.
Proof.
  split; [done|]. intros db p1 Hc. unfold MacroDefined. rewrite Hc.
  destruct db as [d|]; [|done].
  eexists. split; [done|]. split.
  { apply consumeFile_db in Hc. by eapply put_db_db_of. }
  cbn zeta. rewrite var_at_toVar, decide_True by done.
  generalize (var_at (getMacro env (md_Name m)) d). intros [u c ty sc].
  cbn [v_upd_core v_core]. unfold MacroDefined_var.
  destruct c as [dn hv cm so ss qo sp k pk dcl us]. cbn.
  destruct sp as [s|]; cbn;
    (destruct (String.eqb dn "") eqn:E;
     [apply String.eqb_eq in E | apply String.eqb_neq in E]; cbn;
     split_and!; try done;
     try (by rewrite app_nil_r); try (by intros ?; subst);
     intros _; (split; [done|]); intros Hmax;
     by rewrite within_maxInitializerLines_spec).
Qed.

(** A definition that is too long gets ["#define "] and the spelling, not
    the spelling alone; a second definition keeps the first hover text. *)
Lemma MacroDefined_hover_counterexample :
  macro_hover ex_env "BIG" 1
    (MacroDefined ex_env ex_long_macro (IndexParam_new true))
  = Some "#define BIG" /\
  macro_hover ex_env "A" 1
    (MacroDefined ex_env (ex_macro_A "2" 4)
       (MacroDefined ex_env (ex_macro_A "1" 3) (IndexParam_new true)))
  = Some "#define A 1".
Proof. by vm_compute. Qed.

(** ** Structured bindings *)

Lemma decl_frame_refl d : decl_frame d d.
Proof. by intros u. Qed.

Lemma decl_frame_toFunc d0 usr g d :
  (forall e, declarations (f_core (g e)) = declarations (f_core e)) ->
  decl_frame d0 d -> decl_frame d0 (toFunc usr g d).
Proof.
  intros Hg H u. destruct (H u) as [<- <-]. split; [|done].
  unfold entity_records. rewrite func_at_toFunc.
  change (type_at u (toFunc usr g d)) with (type_at u d).
  change (var_at u (toFunc usr g d)) with (var_at u d).
  case_decide; subst; by rewrite ?Hg.
Qed.

Lemma decl_frame_toType d0 usr g d :
  (forall e, declarations (t_core (g e)) = declarations (t_core e)) ->
  decl_frame d0 d -> decl_frame d0 (toType usr g d).
Proof.
  intros Hg H u. destruct (H u) as [<- <-]. split; [|done].
  unfold entity_records. rewrite type_at_toType.
  change (func_at u (toType usr g d)) with (func_at u d).
  change (var_at u (toType usr g d)) with (var_at u d).
  case_decide; subst; by rewrite ?Hg.
Qed.

Lemma decl_frame_toVar d0 usr g d :
  (forall e, declarations (v_core (g e)) = declarations (v_core e) /\
             spell (v_core (g e)) = spell (v_core e)) ->
  decl_frame d0 d -> decl_frame d0 (toVar usr g d).
Proof.
  intros Hg H u. destruct (H u) as [<- <-].
  unfold entity_records. rewrite var_at_toVar.
  change (func_at u (toVar usr g d)) with (func_at u d).
  change (type_at u (toVar usr g d)) with (type_at u d).
  case_decide; subst; [|done]. by destruct (Hg (var_at u d)) as [-> ->].
Qed.

Lemma decl_frame_set_language d0 z d :
  decl_frame d0 d -> decl_frame d0 (db_set_language z d).
Proof. done. Qed.

Lemma decl_frame_getFileLID env d0 fid d :
  decl_frame d0 d -> decl_frame d0 (getFileLID env fid d).2.
Proof. intros H. unfold getFileLID. by repeat case_match. Qed.

Lemma decl_frame_addMacroUse_if env e d0 usr k d :
  decl_frame d0 d -> decl_frame d0 (addMacroUse_if env e usr k d).
Proof.
  intros H. unfold addMacroUse_if, addMacroUse.
  destruct (ev_macro_spell e) as [sl|]; [|done].
  pose proof (decl_frame_getFileLID env d0 sl.1 d H) as H'.
  destruct (getFileLID env sl.1 d) as [lid d1]. cbn [snd] in H'.
  destruct (lid <? 0); [done|].
  destruct k; try done.
  - apply decl_frame_toType; [|done]. by intros [? []].
  - apply decl_frame_toFunc; [|done]. by intros [? []].
  - apply decl_frame_toVar; [|done]. by intros [? []].
Qed.

Lemma decl_frame_instance_of env o d0 usr1 d :
  decl_frame d0 d -> decl_frame d0 (instance_of env o usr1 d).
Proof.
  intros H. unfold instance_of. case_match.
  - apply decl_frame_toVar; [|done]. by intros [? []].
  - apply decl_frame_toType; [by intros [? []]|].
    apply decl_frame_toVar; [|done]. by intros [? []].
Qed.

Lemma decl_frame_setVarName e d0 usr d :
  decl_frame d0 d -> decl_frame d0 (toVar usr (setVarName e) d).
Proof.
  intros H. apply decl_frame_toVar; [|done].
  intros [? [] ? ?]. unfold setVarName. by repeat case_match.
Qed.

Ltac decl_frame_step :=
  lazymatch goal with
  | |- decl_frame _ (db_set_language _ _) => apply decl_frame_set_language
  | |- decl_frame _ (getFileLID _ _ _).2 => apply decl_frame_getFileLID
  | |- decl_frame _ (addMacroUse_if _ _ _ _ _) => apply decl_frame_addMacroUse_if
  | |- decl_frame _ (instance_of _ _ _ _) => apply decl_frame_instance_of
  | |- decl_frame _ (type_parm_record _ _ _ _ _) => unfold type_parm_record
  | |- decl_frame _ (toVar _ (setVarName _) _) => apply decl_frame_setVarName
  | |- decl_frame _ (toFunc _ _ _) => apply decl_frame_toFunc; [by intros [? []]|]
  | |- decl_frame _ (toType _ _ _) => apply decl_frame_toType; [by intros [? []]|]
  | |- decl_frame _ (toVar _ _ _) => apply decl_frame_toVar; [by intros [? []]|]
  | |- decl_frame ?d ?d => apply decl_frame_refl
  end.

(** [do_def_decl] for a definition: the definition record is the event's,
    the declaration list is untouched. *)
Lemma do_def_decl_def env e is_decl use c :
  declarations (do_def_decl env e true is_decl use c) = declarations c /\
  spell (do_def_decl env e true is_decl use c)
  = Some (mkDeclRef use (ev_extent e)).
Proof. unfold do_def_decl. destruct c; cbn. by repeat case_match. Qed.

(** The variable arm for a definition: the definition record of the
    variable is the event's, and no declaration list changes. *)
Lemma occ_Var_def env e o d p :
  oc_is_def o = true ->
  (forall u, entity_records (occ_Var env e o (d, p)).1 u = entity_records d u) /\
  spell (v_core (var_at (oc_usr o) (occ_Var env e o (d, p)).1))
  = Some (mkDeclRef (mkUse (oc_loc o) (oc_role o) (oc_lid o)) (ev_extent e)).
Proof.
  intros Hdef.
  set (d1 := toVar (oc_usr o) (v_upd_core (set_kind (oc_ls_kind o))) d).
  set (d2 := toVar (oc_usr o)
               (v_upd_core
                  (do_def_decl env e true (oc_is_decl o)
                     (mkUse (oc_loc o) (oc_role o) (oc_lid o)))) d1).
  assert (H1 : decl_frame d d1) by (subst d1; decl_frame_step; decl_frame_step).
  assert (H2 : (forall u, entity_records d2 u = entity_records d u) /\
               spell (v_core (var_at (oc_usr o) d2))
               = Some (mkDeclRef (mkUse (oc_loc o) (oc_role o) (oc_lid o))
                         (ev_extent e))).
  { split.
    - intros u. destruct (H1 u) as [<- _]. subst d2.
      unfold entity_records. rewrite var_at_toVar.
      change (func_at u (toVar ?a ?g d1)) with (func_at u d1).
      change (type_at u (toVar ?a ?g d1)) with (type_at u d1).
      case_decide; subst; [|done].
      destruct (var_at (oc_usr o) d1) as [? c ? ?]. unfold v_upd_core; cbn [v_core].
      by destruct (do_def_decl_def env e (oc_is_decl o)
                     (mkUse (oc_loc o) (oc_role o) (oc_lid o)) c) as [-> _].
    - subst d2. rewrite var_at_toVar, decide_True by done.
      destruct (var_at (oc_usr o) d1) as [? c ? ?]. unfold v_upd_core; cbn [v_core].
      by destruct (do_def_decl_def env e (oc_is_decl o)
                     (mkUse (oc_loc o) (oc_role o) (oc_lid o)) c) as [_ ->]. }
  assert (H3 : decl_frame d2 (occ_Var env e o (d, p)).1).
  { unfold occ_Var, link_var_type. rewrite Hdef. cbn [orb]. fold d1. fold d2.
    repeat case_match; simplify_eq; cbn [fst]; repeat decl_frame_step. }
  destruct H2 as [H2a H2b]. split.
  - intros u. destruct (H3 u) as [-> _]. apply H2a.
  - destruct (H3 (oc_usr o)) as [_ ->]. apply H2b.
Qed.

Lemma occ_locals_binding env e lid p :
  declKind (ast env) (ev_D e) = DkBinding ->
  Z.land (ev_Roles e) Role.Declaration <> 0 ->
  occ_locals env e lid p
  = (mkOcc lid (ev_Roles e mod 2 ^ 16) true true KVar SkVariable (ev_loc e)
       (ev_D e) (getUsr env (ev_D e) p).1,
     (getUsr env (ev_D e) p).2).
Proof.
  intros Hb Hd. unfold occ_locals. cbv zeta.
  apply Z.eqb_neq in Hd. rewrite Hd, Hb.
  rewrite bool_decide_eq_true_2 by done.
  cbn [negb andb]. rewrite orb_true_r.
  unfold getKind. rewrite Hb. by destruct (getUsr env (ev_D e) p).
Qed.

Lemma db_of_uid2file k p p' : uid2file p' = uid2file p -> db_of k p' = db_of k p.
Proof. unfold db_of. by intros ->. Qed.

Lemma entity_records_new pth c nl u :
  entity_records (IndexFile_new pth c nl) u = ([], [], []).
Proof. done. Qed.

Lemma seenFile_db_of env fid p k :
  db_of k (seenFile env fid p) = db_of k p \/
  (db_of k p = None /\
   exists pth c nl, db_of k (seenFile env fid p) = Some (IndexFile_new pth c nl)).
Proof.
  unfold seenFile. destruct (uid2file p !! fid) eqn:E; [by left|].
  destruct (decide (k = fid)) as [->|Hne].
  - repeat case_match; unfold db_of, p_stage; cbn [uid2file];
      rewrite !lookup_insert_eq, E; cbn; eauto 10.
  - left. repeat case_match; unfold db_of, p_stage; cbn [uid2file];
      by rewrite lookup_insert_ne.
Qed.

Lemma seenFile_db_of_Some env fid p k d :
  db_of k p = Some d -> db_of k (seenFile env fid p) = Some d.
Proof.
  intros H. destruct (seenFile_db_of env fid p k) as [->|[Hn _]]; congruence.
Qed.

Lemma seenFile_decls env fid p k u :
  declarations_at (seenFile env fid p) k u = declarations_at p k u.
Proof.
  unfold declarations_at.
  destruct (seenFile_db_of env fid p k) as [->|[-> (pth & c & nl & ->)]]; done.
Qed.

Lemma useMultiVersion_decls env fid p k u :
  declarations_at (useMultiVersion env fid p).2 k u = declarations_at p k u.
Proof. unfold useMultiVersion. by case_match. Qed.

Lemma put_db_decls key d d' p k u :
  db_of key p = Some d ->
  (forall u, entity_records d' u = entity_records d u) ->
  declarations_at (put_db key d' p) k u = declarations_at p k u.
Proof.
  intros Hd He. unfold declarations_at.
  destruct (decide (key = k)) as [<-|Hne].
  - by rewrite (put_db_db_of _ _ _ _ Hd), Hd.
  - by rewrite put_db_db_of_ne.
Qed.

(** Selecting the target index changes no declaration list, and the index
    it selects is staged. *)
Lemma stage_event_decls env e fid p k u :
  declarations_at (stage_event env e fid p).2 k u = declarations_at p k u.
Proof.
  unfold stage_event.
  assert (H0 : forall k u,
    declarations_at
      (if cfg_multiVersion (config env) =? 0 then (false, p)
       else useMultiVersion env fid p).2 k u = declarations_at p k u).
  { intros. destruct (_ =? 0); [done|apply useMultiVersion_decls]. }
  destruct (if cfg_multiVersion (config env) =? 0 then (false, p)
            else useMultiVersion env fid p) as [multi p0].
  cbn [snd] in H0. unfold consumeFile. destruct multi.
  - destruct (db_of _ (seenFile env (getMainFileID env) p0)) eqn:Hm; cbn [snd];
      [|by rewrite seenFile_decls].
    destruct (ev_written_in_main e); cbn [snd];
      [by rewrite !seenFile_decls|].
    destruct (db_of _ (seenFile env fid _)) as [db|] eqn:Hm2; cbn [snd];
      [|by rewrite !seenFile_decls].
    pose proof (decl_frame_getFileLID env db fid db (decl_frame_refl db)) as Hf.
    destruct (getFileLID env fid db) as [lid db']. cbn [snd] in *.
    rewrite (put_db_decls _ db) by (done || intros; apply Hf).
    by rewrite !seenFile_decls.
  - destruct (db_of fid (seenFile env fid p0)); cbn [snd];
      by rewrite seenFile_decls.
Qed.

Lemma stage_event_target env e fid p key lid p1 :
  stage_event env e fid p = (Some (key, lid), p1) -> is_Some (db_of key p1).
Proof.
  unfold stage_event.
  destruct (if cfg_multiVersion (config env) =? 0 then (false, p)
            else useMultiVersion env fid p) as [multi p0].
  unfold consumeFile. destruct multi.
  - destruct (db_of _ (seenFile env (getMainFileID env) p0)) eqn:Hm; [|done].
    pose proof (seenFile_db_of_Some env fid _ _ _ Hm) as Hm2.
    destruct (ev_written_in_main e); [by intros [= <- <- <-]|].
    rewrite Hm2. destruct (getFileLID env fid i) as [lid' db'].
    intros [= <- <- <-]. by rewrite (put_db_db_of _ _ _ _ Hm2).
  - destruct (db_of fid (seenFile env fid p0)) eqn:Hm; [|done].
    intros [= <- <- <-]. by rewrite Hm.
Qed.

(** C9: a declaration occurrence of a structured binding ([Decl::Binding]
    with the Declaration role bit) is handled as a definition: the handler
    returns, no declaration list of any entity in any staged index changes,
    and, when the occurrence passes the linkage test, has a file and a
    target index is selected, the variable entity of the binding in that
    index has the occurrence (its range, the role bits of the event, the
    file slot and the extent) as its definition record. *)
Theorem binding_declaration_recorded_as_definition env e p :
  declKind (ast env) (ev_D e) = DkBinding ->
  Z.land (ev_Roles e) Role.Declaration <> 0 ->
  exists p',
    handleDeclOccurence env e p = Some p' /\
    (forall fid u, declarations_at p' fid u = declarations_at p fid u) /\
    (forall fid key lid p1,
       p_no_linkage p = true \/ hasLinkage (ast env) (ev_D e) = true ->
       ev_fid e = Some fid ->
       stage_event env e fid p = (Some (key, lid), p1) ->
       exists d',
         db_of key p' = Some d' /\
         spell (v_core (var_at (di_usr (getUsr env (ev_D e) p1).1) d'))
         = Some (mkDeclRef (mkUse (ev_loc e) (ev_Roles e mod 2 ^ 16) lid)
                   (ev_extent e))).
Proof.
  intros Hb Hd. unfold handleDeclOccurence.
  destruct (negb (p_no_linkage p) && negb (hasLinkage (ast env) (ev_D e)))
    eqn:Hg.
  { exists p. split_and!; [done..|]. intros ? ? ? ? [Hl|Hl]; rewrite Hl in Hg;
      [done|by rewrite andb_false_r in Hg]. }
  destruct (ev_fid e) as [fid|]; [|exists p; by split_and!].
  pose proof (stage_event_decls env e fid p) as Hsd.
  pose proof (stage_event_target env e fid p) as Hst.
  destruct (stage_event env e fid p) as [[[key lid]|] p1] eqn:Hse; cbn [snd] in Hsd.
  2:{ exists p1. split_and!; [done..|].
      intros ? ? ? ? _ [= <-]. by rewrite Hse. }
  destruct (Hst key lid p1 eq_refl) as [db Hdb]. rewrite Hdb.
  unfold record_occurrence. rewrite (occ_locals_binding env e lid p1 Hb Hd).
  cbn [oc_kind]. unfold link_by_category. cbn [oc_D]. rewrite Hb.
  set (o := mkOcc lid _ true true KVar SkVariable _ _ _).
  set (db0 := db_set_language _ db).
  set (p2 := (getUsr env (ev_D e) p1).2).
  pose proof (occ_Var_def env e o db0 p2 eq_refl) as [Hrec Hsp].
  assert (Hu : uid2file (occ_Var env e o (db0, p2)).2 = uid2file p1).
  { destruct (occ_Var_st_ok env e o (db0, p2)) as [_ (-> & _)].
    cbn [snd]. unfold p2. by destruct (getUsr_cache_ext env (ev_D e) p1) as (-> & _). }
  assert (Hdb' : db_of key (occ_Var env e o (db0, p2)).2 = Some db)
    by (by rewrite (db_of_uid2file _ _ _ Hu)).
  eexists. split; [done|]. cbn [fst snd option_bind mbind option_ret mret].
  split.
  - intros k u.
    rewrite (put_db_decls _ db) by (done || intros; by rewrite Hrec).
    rewrite <- Hsd. unfold declarations_at.
    by rewrite (db_of_uid2file _ _ _ Hu).
  - intros fid' key' lid' p1' _ [= <-]. rewrite Hse. intros [= <- <- <-].
    eexists. split; [by apply (put_db_db_of _ _ _ _ Hdb')|]. apply Hsp.
Qed.

Lemma binding_declaration_recorded_as_definition_witness :
  exists p',
    handleDeclOccurence ex_env ex_binding (IndexParam_new true) = Some p' /\
    (forall fid u, declarations_at p' fid u = ([], [], [])) /\
    exists d', db_of 1 p' = Some d' /\
      spell (v_core (var_at (hashUsr ex_env (generateUSRForDecl ex_ast 10%N)) d'))
      = Some (mkDeclRef (mkUse (ex_range 7) Role.Declaration (-1)) (ex_range 7)).
Proof.
  destruct (binding_declaration_recorded_as_definition ex_env ex_binding
              (IndexParam_new true) eq_refl ltac:(done)) as (p' & H & Hd & Hs).
  exists p'. split; [exact H|]. split; [exact Hd|].
  destruct (Hs 1 1 (-1) (stage_event ex_env ex_binding 1 (IndexParam_new true)).2
              (or_introl eq_refl) eq_refl ltac:(by vm_compute)) as (d' & H1 & H2).
  exists d'. split; [exact H1|]. exact H2.
Defined.

(** ** The staged files during a pass *)

(** X1: once a handle is staged, the rest of the pass leaves its path, its
    modification time and the decision whether it has an index as they are;
    the pass mode does not change, and an index carries the staged path and
    no dependency before the post-pass. *)
Theorem staged_file_stable env nl evs p evs' p' fid f :
  run env evs (IndexParam_new nl) = Some p ->
  run env evs' p = Some p' ->
  uid2file p !! fid = Some f ->
  exists f',
    uid2file p' !! fid = Some f' /\
    file_path f' = file_path f /\ file_mtime f' = file_mtime f /\
    (is_Some (file_db f') <-> is_Some (file_db f)) /\
    p_no_linkage p' = nl /\
    (forall d', file_db f' = Some d' ->
       path d' = file_path f /\ dependencies d' = ∅).
Proof.
  intros Hrun Hrun' Hf.
  pose proof (run_param_inv _ _ _ _ Hrun) as Hinv.
  pose proof (run_no_linkage _ _ _ _ Hrun) as Hnl.
  apply run_step_rel in Hrun' as [(Hnl' & Hst & _) Hinv'].
  destruct (Hst fid f Hf) as (f' & Hf' & Hp & Hm & Hdb).
  exists f'. split_and!; [done.. | congruence |].
  intros d' Hd'. destruct (Hinv' Hinv) as (Hdbs & _).
  destruct (Hdbs fid f' d' Hf' Hd') as (? & ? & _). split; congruence.
Qed.

Lemma staged_file_stable_witness :
  exists f',
    uid2file (FileChanged ex_env true 2 (FileChanged ex_env true 1
                                           (IndexParam_new true))) !! 1
    = Some f' /\
    file_path f' = "/src/main.cc"%string /\ file_mtime f' = 100.
Proof.
  destruct (staged_file_stable ex_env true [EvFileChanged true 1]
              (FileChanged ex_env true 1 (IndexParam_new true))
              [EvFileChanged true 2]
              (FileChanged ex_env true 2
                 (FileChanged ex_env true 1 (IndexParam_new true)))
              1
              (mkFile "/src/main.cc" 100 ""
                 (Some (IndexFile_new "/src/main.cc" "" true)))
              eq_refl eq_refl ltac:(by vm_compute))
    as (f' & H1 & H2 & H3 & _).
  exists f'. split; [exact H1|]. split; [exact H2 | exact H3].
Defined.

(** ** The result of a completed pass *)

Lemma omap_fmap_length {A B C} (g : A -> option B) (h : B -> C) (l : list A) :
  length (omap (fun a => h <$> g a) l)
  = length (filter (fun a => is_Some (g a)) l).
Proof.
  induction l as [|a l IH]; [done|]. rewrite filter_cons. csimpl.
  destruct (g a) as [b|]; csimpl; [by rewrite IH | done].
Qed.

Lemma finalize_entry_fields use_eqb main a files entry :
  let r := finalize_entry use_eqb main a files entry in
  path r = path entry /\ import_file r = main /\ args r = a /\
  uid2lid_and_path r = ∅.
Proof.
  cbn zeta. unfold finalize_entry.
  set (e1 := prepare_entry use_eqb main a entry).
  assert (H1 : args e1 = a /\ uid2lid_and_path e1 = ∅ /\ path e1 = path entry
               /\ import_file e1 = main) by done.
  destruct H1 as (Ha & Hu & Hp & Hi).
  assert (Hgen : forall e, args (stamp_dependencies files e) = args e /\
            uid2lid_and_path (stamp_dependencies files e) = uid2lid_and_path e).
  { unfold stamp_dependencies. induction files as [|kf files IH]; intros e;
      cbn [foldl]; [done|].
    destruct (IH (stamp_dependency e kf.2)) as [-> ->].
    unfold stamp_dependency. by repeat case_match. }
  destruct (Hgen e1) as [-> ->].
  by destruct (stamp_dependencies_frame files e1) as (-> & -> & _).
Qed.

(** X2: when the pass completes, [ok] is true and the result holds one
    entry for each staged file that has an index, and only those; every
    entry carries the path of its staged file, the main file, the arguments,
    and an emptied handle-to-local-index table. *)
Theorem index_completed_result env use_eqb eng main a nl evs p :
  buildCompilerInvocation eng = true ->
  hasTarget eng = true ->
  engine_run eng = RunCompleted evs ->
  run env evs (IndexParam_new nl) = Some p ->
  (index env use_eqb eng main a nl).2 = true /\
  length (index env use_eqb eng main a nl).1
  = length (filter (fun kf : FileID * File => is_Some (file_db kf.2))
              (map_to_list (uid2file p))) /\
  (forall fid f, uid2file p !! fid = Some f -> is_Some (file_db f) ->
     exists entry, entry ∈ (index env use_eqb eng main a nl).1 /\
                   path entry = file_path f) /\
  (forall entry, entry ∈ (index env use_eqb eng main a nl).1 ->
     import_file entry = main /\ args entry = a /\
     uid2lid_and_path entry = ∅ /\
     exists fid f, uid2file p !! fid = Some f /\ is_Some (file_db f) /\
                   file_path f = path entry).
Proof.
  intros Hb Ht Hr Hrun.
  pose proof (run_param_inv _ _ _ _ Hrun) as (Hdbs & _).
  assert (Hidx : index env use_eqb eng main a nl
                 = (finalize use_eqb main a p, true)).
  { unfold index, RunSafely_parse. rewrite Hb, Ht, Hr. cbn. by rewrite Hrun. }
  rewrite Hidx. cbn [fst snd]. split_and!.
  - done.
  - unfold finalize. apply omap_fmap_length.
  - intros fid f Hf [d Hd].
    exists (finalize_entry use_eqb main a (map_to_list (uid2file p)) d). split.
    + unfold finalize. apply list_elem_of_omap. exists (fid, f).
      split; [by apply elem_of_map_to_list|]. cbn. by rewrite Hd.
    + destruct (finalize_entry_fields use_eqb main a
                  (map_to_list (uid2file p)) d) as (-> & _).
      by destruct (Hdbs fid f d Hf Hd) as (-> & _).
  - intros entry Hin.
    apply finalize_elem in Hin as (fid & f & d & Hf & Hd & ->).
    destruct (finalize_entry_fields use_eqb main a
                (map_to_list (uid2file p)) d) as (Hp & -> & -> & ->).
    split_and!; [done..|]. exists fid, f. split_and!; [done | by eexists |].
    rewrite Hp. by destruct (Hdbs fid f d Hf Hd) as (-> & _).
Qed.

Lemma index_completed_result_witness :
  ex_result.2 = true /\ length ex_result.1 = 2%nat.
Proof.
  unfold ex_result.
  destruct (run ex_env ex_events (IndexParam_new true)) as [p|] eqn:E;
    [|by vm_compute in E].
  pose proof (index_completed_result ex_env ex_use_eqb ex_engine
                "/src/main.cc" [] true ex_events p eq_refl eq_refl eq_refl E)
    as H.
  split; [exact (proj1 H) | by vm_compute].
Defined.

(** ** Dependencies of a finalized entry *)

Lemma stamp_dependency_lookup entry file s :
  dependencies (stamp_dependency entry file) !! s =
    if decide (file_path file <> ""%string /\ file_path file <> path entry /\
               file_path file <> import_file entry /\ s = file_path file)
    then Some (file_mtime file)
    else dependencies entry !! s.
Proof.
  unfold stamp_dependency.
  destruct (String.eqb (file_path file) "") eqn:E0.
  { apply String.eqb_eq in E0. rewrite decide_False; [done|]. by intros (? & _). }
  destruct (String.eqb (file_path file) (path entry)) eqn:E1.
  { apply String.eqb_eq in E1. rewrite decide_False; [done|]. by intros (_ & ? & _). }
  destruct (String.eqb (file_path file) (import_file entry)) eqn:E2.
  { apply String.eqb_eq in E2. rewrite decide_False; [done|]. by intros (_ & _ & ? & _). }
  apply String.eqb_neq in E0, E1, E2. cbn.
  case_decide as Hd.
  - destruct Hd as (_ & _ & _ & ->). by rewrite lookup_insert_eq.
  - rewrite lookup_insert_ne; [done|]. intros <-. by apply Hd.
Qed.

Lemma stamp_dependencies_sound files entry s t :
  dependencies (stamp_dependencies files entry) !! s = Some t ->
  dependencies entry !! s = Some t \/
  exists kf, kf ∈ files /\ file_path kf.2 = s /\ file_mtime kf.2 = t /\
             s <> ""%string.
Proof.
  unfold stamp_dependencies. revert entry.
  induction files as [|kf files IH]; intros entry; cbn [foldl]; [by left|].
  intros H. apply IH in H as [H | (kf' & Hin & ?)].
  - rewrite stamp_dependency_lookup in H. case_decide as Hd; [|by left].
    destruct Hd as (? & _ & _ & ->). right. exists kf.
    split_and!; [left | done | congruence | done].
  - right. exists kf'. split; [by right | done].
Qed.

Lemma stamp_dependencies_keep files entry s :
  is_Some (dependencies entry !! s) ->
  is_Some (dependencies (stamp_dependencies files entry) !! s).
Proof.
  unfold stamp_dependencies. revert entry.
  induction files as [|kf files IH]; intros entry H; cbn [foldl]; [done|].
  apply IH. rewrite stamp_dependency_lookup. by case_decide.
Qed.

Lemma stamp_dependencies_complete files entry kf :
  kf ∈ files ->
  file_path kf.2 <> ""%string -> file_path kf.2 <> path entry ->
  file_path kf.2 <> import_file entry ->
  is_Some (dependencies (stamp_dependencies files entry) !! file_path kf.2).
Proof.
  unfold stamp_dependencies. revert entry.
  induction files as [|kf' files IH]; intros entry Hin H0 H1 H2; cbn [foldl].
  { by apply elem_of_nil in Hin. }
  destruct (stamp_dependency_frame entry kf'.2) as (Hp & Hi & _).
  apply elem_of_cons in Hin as [<- | Hin].
  - apply (stamp_dependencies_keep files). rewrite stamp_dependency_lookup.
    by rewrite decide_True.
  - apply IH; [done | done | by rewrite Hp | by rewrite Hi].
Qed.

(** X3: the dependency map of a finalized entry holds exactly the paths of
    the staged files other than the empty path, the entry's own path and the
    main file, each with the modification time staged for a file of that
    path. *)
Theorem dependencies_are_the_staged_files
    env use_eqb eng main a nl entry :
  entry ∈ (index env use_eqb eng main a nl).1 ->
  exists p,
    run env (delivered_events (engine_run eng)) (IndexParam_new nl) = Some p /\
    (forall s t, dependencies entry !! s = Some t ->
       s <> ""%string /\
       exists fid f, uid2file p !! fid = Some f /\ file_path f = s /\
                     file_mtime f = t) /\
    (forall fid f, uid2file p !! fid = Some f ->
       file_path f <> ""%string -> file_path f <> path entry ->
       file_path f <> main ->
       is_Some (dependencies entry !! file_path f)).
Proof.
  intros H.
  apply index_entry_spec in H as (p & fid & f & d & Hrun & Hf & Hd & Hinv & ->).
  exists p. split; [done|]. unfold finalize_entry.
  set (e1 := prepare_entry use_eqb main a d).
  assert (He1 : path e1 = path d /\ import_file e1 = main /\ dependencies e1 = ∅).
  { destruct Hinv as (_ & Hdep & _). by rewrite <- Hdep. }
  destruct He1 as (Hp1 & Hi1 & Hd1).
  destruct (stamp_dependencies_frame (map_to_list (uid2file p)) e1)
    as (Hp2 & _).
  split.
  - intros s t Hst. apply stamp_dependencies_sound in Hst as [Hst | Hst].
    { by rewrite Hd1, lookup_empty in Hst. }
    destruct Hst as ([fid' f'] & Hin & ? & ? & ?).
    apply elem_of_map_to_list in Hin. split; [done|]. by exists fid', f'.
  - intros fid' f' Hf' H0 H1 H2.
    apply (stamp_dependencies_complete _ e1 (fid', f'));
      [by apply elem_of_map_to_list | done | cbn [snd]; congruence
      | cbn [snd]; congruence].
Qed.

Lemma dependencies_are_the_staged_files_witness :
  exists entry,
    entry ∈ ex_result.1 /\
    forall s t, dependencies entry !! s = Some t -> s <> ""%string.
Proof.
  unfold ex_result.
  destruct ((index ex_env ex_use_eqb ex_engine "/src/main.cc" [] true).1 !! 1%nat)
    as [entry|] eqn:E; [|by vm_compute in E].
  assert (Hin : entry ∈ (index ex_env ex_use_eqb ex_engine "/src/main.cc" [] true).1)
    by by eapply list_elem_of_lookup_2.
  exists entry. split; [done|].
  destruct (dependencies_are_the_staged_files
              ex_env ex_use_eqb ex_engine "/src/main.cc" [] true entry Hin)
    as (p & _ & H & _).
  intros s t Hst. exact (proj1 (H s t Hst)).
Defined.

(** ** Deduplicated relationship lists *)

Lemma uniquify_distinct_by {T} (eqb : T -> T -> bool) (a : list T) :
  (forall x y, eqb x y = eqb y x) ->
  (forall x y z, eqb x y = true -> eqb y z = true -> eqb x z = true) ->
  distinct_by eqb (uniquify eqb a).
Proof.
  intros Hsym Htrans i j x y Hi Hj Hxy.
  rewrite uniquify_first_occurrences in Hi, Hj.
  destruct (Nat.lt_trichotomy i j) as [Hlt | [-> | Hlt]]; [|done|].
  - destruct (first_occurrences_pair eqb Htrans [] a i j x y Hlt Hi Hj) as [Hf _].
    rewrite Hsym in Hf. congruence.
  - destruct (first_occurrences_pair eqb Htrans [] a j i y x Hlt Hj Hi) as [Hf _].
    congruence.
Qed.

Lemma uniquify_NoDup (a : list Z) : NoDup (uniquify Z.eqb a).
Proof.
  apply NoDup_alt. intros i j x Hi Hj.
  apply (uniquify_distinct_by Z.eqb a Z.eqb_sym) with (x := x) (y := x);
    [|done|done|apply Z.eqb_refl].
  intros u v w ->%Z.eqb_eq ->%Z.eqb_eq. apply Z.eqb_refl.
Qed.

(** X4: in a finalized entry the lists that the post-pass deduplicates have
    no repeated element: the derived lists and the use lists of functions
    and types, the base and member-function lists of types, and the use
    lists of variables. *)
Theorem finalized_lists_distinct env use_eqb eng main a nl entry :
  (forall x y, use_eqb x y = use_eqb y x) ->
  (forall x y z, use_eqb x y = true -> use_eqb y z = true -> use_eqb x z = true) ->
  entry ∈ (index env use_eqb eng main a nl).1 ->
  (forall k e, usr2func entry !! k = Some e ->
     NoDup (f_derived e) /\ distinct_by use_eqb (uses (f_core e))) /\
  (forall k e, usr2type entry !! k = Some e ->
     NoDup (t_derived e) /\ NoDup (t_bases e) /\ NoDup (t_funcs e) /\
     distinct_by use_eqb (uses (t_core e))) /\
  (forall k e, usr2var entry !! k = Some e ->
     distinct_by use_eqb (uses (v_core e))).
Proof.
  intros Hsym Htrans H.
  apply index_entry_spec in H as (p & fid & f & d & _ & _ & _ & _ & ->).
  unfold finalize_entry.
  destruct (stamp_dependencies_frame (map_to_list (uid2file p))
              (prepare_entry use_eqb main a d)) as (_ & _ & -> & -> & ->).
  pose proof (fun l => uniquify_distinct_by use_eqb l Hsym Htrans) as Hu.
  unfold prepare_entry; cbn. split_and!; intros k e; rewrite lookup_fmap;
    destruct (_ !! k) as [[]|]; cbn; try done; intros [= <-]; cbn;
    split_and?; auto using uniquify_NoDup.
Qed.

Lemma finalized_lists_distinct_witness :
  exists entry,
    entry ∈ ex_result.1 /\
    forall k e, usr2var entry !! k = Some e ->
                distinct_by ex_use_eqb (uses (v_core e)).
Proof.
  unfold ex_result.
  destruct ((index ex_env ex_use_eqb ex_engine "/src/main.cc" [] true).1 !! 1%nat)
    as [entry|] eqn:E; [|by vm_compute in E].
  assert (Hin : entry ∈ (index ex_env ex_use_eqb ex_engine "/src/main.cc" [] true).1)
    by by eapply list_elem_of_lookup_2.
  exists entry. split; [done|].
  refine (proj2 (proj2 (finalized_lists_distinct
            ex_env ex_use_eqb ex_engine "/src/main.cc" [] true entry _ _ Hin))).
  - intros x y. unfold ex_use_eqb. apply bool_decide_ext. split; congruence.
  - intros x y z. unfold ex_use_eqb.
    rewrite !bool_decide_eq_true. congruence.
Defined.

(** ** What the handler of declaration occurrences can change

    Every write of the handler to the target index goes through one of five
    mutations: the three entity accessors, the language flags and the table
    of local file indices.  A relation on indexes that these five keep is
    kept by the whole handler. *)

Lemma cache_only_refl p : cache_only p p.
Proof. done. Qed.

Lemma cache_only_trans p1 p2 p3 :
  cache_only p1 p2 -> cache_only p2 p3 -> cache_only p1 p3.
Proof.
  intros (? & ? & ? & ?) (? & ? & ? & ?). unfold cache_only.
  split_and!; congruence.
Qed.

Lemma getUsr_cache_only env D p : cache_only p (getUsr env D p).2.
Proof. unfold getUsr. by case_match. Qed.

Lemma getUsr_cache_only_eq env D p i p' :
  getUsr env D p = (i, p') -> cache_only p p'.
Proof. intros H. pose proof (getUsr_cache_only env D p). by rewrite H in *. Qed.

Ltac cache_only_chain :=
  repeat match goal with
         | H : getUsr _ _ _ = (_, _) |- _ => apply getUsr_cache_only_eq in H
         end;
  repeat first
    [ apply cache_only_refl
    | eapply cache_only_trans; [eassumption|] ].

Section handler_frame.
Context (R : IndexFile -> IndexFile -> Prop).
Hypothesis R_refl : forall d, R d d.
Hypothesis R_trans : forall d1 d2 d3, R d1 d2 -> R d2 d3 -> R d1 d3.
Hypothesis R_toFunc : forall u g d, R d (toFunc u g d).
Hypothesis R_toType : forall u g d, R d (toType u g d).
Hypothesis R_toVar : forall u g d, R d (toVar u g d).
Hypothesis R_language :
  forall z d, R d (db_set_language (Z.lor (language d) z) d).
Hypothesis R_getFileLID : forall env fid d, R d (getFileLID env fid d).2.

Lemma frame_addMacroUse_if env e usr k d : R d (addMacroUse_if env e usr k d).
Proof.
  unfold addMacroUse_if, addMacroUse. destruct (ev_macro_spell e) as [sl|]; [|done].
  pose proof (R_getFileLID env sl.1 d) as H.
  destruct (getFileLID env sl.1 d) as [lid d1]. cbn [snd] in H.
  destruct (lid <? 0); [done|]. destruct k; eauto.
Qed.

Lemma frame_instance_of env o usr1 d : R d (instance_of env o usr1 d).
Proof. unfold instance_of. case_match; eauto. Qed.

Lemma frame_link_type_base usr usr1 d : R d (link_type_base usr usr1 d).
Proof. unfold link_type_base. eauto. Qed.

Lemma frame_link_func_base usr usr1 d : R d (link_func_base usr usr1 d).
Proof. unfold link_func_base. eauto. Qed.

Lemma frame_name_anon_record env e o d : R d (name_anon_record env e o d).
Proof. unfold name_anon_record. case_match; eauto. Qed.

(** Solves [R d (f1 (f2 (... d)))] for the mutations of the handler. *)
Ltac frame_step :=
  lazymatch goal with
  | |- R _ (db_set_language _ _) => eapply R_trans; [|apply R_language]
  | |- R _ (getFileLID _ _ _).2 => eapply R_trans; [|apply R_getFileLID]
  | |- R _ (addMacroUse_if _ _ _ _ _) =>
      eapply R_trans; [|apply frame_addMacroUse_if]
  | |- R _ (link_type_base _ _ _) => eapply R_trans; [|apply frame_link_type_base]
  | |- R _ (link_func_base _ _ _) => eapply R_trans; [|apply frame_link_func_base]
  | |- R _ (instance_of _ _ _ _) => eapply R_trans; [|apply frame_instance_of]
  | |- R _ (type_parm_record _ _ _ _ _) => unfold type_parm_record
  | |- R _ (name_anon_record _ _ _ _) =>
      eapply R_trans; [|apply frame_name_anon_record]
  | |- R _ (toFunc _ _ _) => eapply R_trans; [|apply R_toFunc]
  | |- R _ (toType _ _ _) => eapply R_trans; [|apply R_toType]
  | |- R _ (toVar _ _ _) => eapply R_trans; [|apply R_toVar]
  | |- R _ _ => first [assumption | apply R_refl]
  end.
Ltac st_frame_solve :=
  split; cbn [fst snd]; [repeat frame_step | cache_only_chain].

Lemma st_frame_refl st : st_frame R st st.
Proof. by split. Qed.

Lemma st_frame_trans st1 st2 st3 :
  st_frame R st1 st2 -> st_frame R st2 st3 -> st_frame R st1 st3.
Proof.
  intros [Ha Hb] [Hc Hd]. split; [eauto | by eapply cache_only_trans].
Qed.

Lemma link_each_frame {A} env (key : A -> Decl) link ds st :
  (forall a u d, R d (link a u d)) ->
  st_frame R st (link_each env key link ds st).
Proof.
  intros Hlink. revert st; induction ds as [|a ds IH]; intros st; cbn [link_each].
  - apply st_frame_refl.
  - destruct (getUsr env (key a) st.2) as [info p] eqn:E.
    eapply st_frame_trans; [|apply IH]. destruct st as [d p0].
    split; cbn [fst snd] in *; [auto | cache_only_chain].
Qed.

Lemma collectRecordMembers_frame env usr members st :
  st_frame R st (collectRecordMembers env usr members st).
Proof. apply link_each_frame. intros a u d. apply R_toType. Qed.

Lemma occ_Func_frame env e o st : st_frame R st (occ_Func env e o st).
Proof.
  unfold occ_Func. destruct st as [d p]. repeat case_match; st_frame_solve.
Qed.

Lemma occ_Type_frame env e o st : st_frame R st (occ_Type env e o st).
Proof.
  unfold occ_Type. destruct st as [d p]. repeat case_match; st_frame_solve.
Qed.

Lemma occ_Var_frame env e o st : st_frame R st (occ_Var env e o st).
Proof.
  unfold occ_Var, link_var_type. destruct st as [d p].
  repeat case_match; simplify_eq; st_frame_solve.
Qed.

Lemma link_Record_bases_frame env e o st st' :
  link_Record_bases env e o st = Some st' -> st_frame R st st'.
Proof.
  unfold link_Record_bases. intros H.
  assert (Hall : st_frame R st
            (link_each env id (fun _ => link_type_base (oc_usr o)) (ev_bases e) st)).
  { apply link_each_frame. intros. apply frame_link_type_base. }
  destruct (_ && _); [|simplify_eq; apply st_frame_refl].
  destruct (ev_bases e); [simplify_eq; apply st_frame_refl|].
  destruct (deref _); [|done]. cbn [mbind option_bind] in H. by simplify_eq.
Qed.

Lemma link_Record_frame env e o st st' :
  link_Record env e o st = Some st' -> st_frame R st st'.
Proof.
  unfold link_Record. intros H.
  destruct (link_Record_bases env e o st) as [[d1 p1]|] eqn:E1; [|done].
  apply link_Record_bases_frame in E1. cbn in H.
  destruct (deref _); [|done]. cbn in H.
  eapply st_frame_trans; [exact E1|].
  assert (st_frame R (d1, p1) (name_anon_record env e o d1, p1)) as H1.
  { split; cbn [fst snd]; [apply frame_name_anon_record | done]. }
  destruct (_ && _); simplify_eq; [|done].
  eapply st_frame_trans; [exact H1 | apply collectRecordMembers_frame].
Qed.

Lemma link_Specialization_frame env e o st st' :
  link_Specialization env e o st = Some st' -> st_frame R st st'.
Proof.
  unfold link_Specialization. destruct st as [d p]. intros H.
  destruct (deref _); cbn in H; [|done].
  destruct (oc_is_def o); simplify_eq; [|st_frame_solve].
  destruct (isa_RecordDecl _).
  - pose proof (collectRecordMembers_frame env (oc_usr o) (ev_members e)
                  (toType (oc_usr o) (t_upd_core (set_kind SkClass)) d, p)) as Hc.
    destruct (collectRecordMembers _ _ _ _) as [d1 p1].
    eapply st_frame_trans; [|eapply st_frame_trans; [exact Hc|]];
      [st_frame_solve|].
    repeat case_match; simplify_eq; st_frame_solve.
  - repeat case_match; simplify_eq; st_frame_solve.
Qed.

Lemma link_TypeAlias_frame env e o st st' :
  link_TypeAlias env e o st = Some st' -> st_frame R st st'.
Proof.
  unfold link_TypeAlias. destruct st as [d p]. intros H.
  crunch; st_frame_solve.
Qed.

Lemma link_by_category_frame env e o st st' :
  link_by_category env e o st = Some st' -> st_frame R st st'.
Proof.
  unfold link_by_category. destruct st as [d p]. intros H.
  destruct (declKind (ast env) (oc_D o));
    try (simplify_eq; apply st_frame_refl);
    try (by eapply link_Record_frame);
    try (by eapply link_Specialization_frame);
    try (by eapply link_TypeAlias_frame);
    cbn [fst snd] in H.
  - (* Namespace *) crunch; st_frame_solve.
  - (* NamespaceAlias *) crunch; st_frame_solve.
  - (* CXXMethod *)
    assert (Hall : st_frame R (d, p)
              (link_each env id (fun _ => link_func_base (oc_usr o))
                 (ev_overridden e) (d, p))).
    { apply link_each_frame. intros. apply frame_link_func_base. }
    destruct (_ || _); [|simplify_eq; apply st_frame_refl].
    destruct (ev_overridden e); [simplify_eq; apply st_frame_refl|].
    destruct (deref _); [|done]. cbn [mbind option_bind] in H. by simplify_eq.
  - (* EnumConstant *) crunch; st_frame_solve.
Qed.

Lemma occ_locals_cache_only env e lid p :
  cache_only p (occ_locals env e lid p).2.
Proof.
  unfold occ_locals. repeat case_match; simplify_eq; cbn [snd]; cache_only_chain.
Qed.

Lemma record_occurrence_frame env e lid st st' :
  record_occurrence env e lid st = Some st' -> st_frame R st st'.
Proof.
  unfold record_occurrence. destruct st as [d p].
  pose proof (occ_locals_cache_only env e lid p) as Hc.
  destruct (occ_locals env e lid p) as [o p1]. cbn [snd] in Hc.
  intros H.
  assert (H0 : st_frame R (d, p)
            (db_set_language
               (Z.lor (language d)
                  (LanguageId_to_Z (getDeclLanguage (ast env) (ev_D e)))) d, p1)).
  { split; cbn [fst snd]; [apply R_language | done]. }
  destruct (oc_kind o); simplify_eq; try done;
    (eapply st_frame_trans; [exact H0|]);
    (eapply st_frame_trans; [|eapply link_by_category_frame; eassumption]);
    auto using occ_Func_frame, occ_Type_frame, occ_Var_frame.
Qed.

End handler_frame.

(** ** Changes of the staged indexes, callback by callback *)

Section stage_frame_facts.
Context (R : IndexFile -> IndexFile -> Prop).
Hypothesis R_refl : forall d, R d d.
Hypothesis R_trans : forall d1 d2 d3, R d1 d2 -> R d2 d3 -> R d1 d3.

Lemma stage_frame_refl p : stage_frame R p p.
Proof.
  split; [done|]. intros fid d' H. by rewrite H.
Qed.

Lemma stage_frame_trans p1 p2 p3 :
  stage_frame R p1 p2 -> stage_frame R p2 p3 -> stage_frame R p1 p3.
Proof.
  intros [Ha Hb] [Hc Hd]. split; [auto|].
  intros fid d3 H3. specialize (Hd fid d3 H3).
  destruct (db_of fid p2) as [d2|] eqn:E2.
  - specialize (Hb fid d2 E2). destruct (db_of fid p1) as [d1|]; [eauto|].
    destruct Hb as (? & pth & c & nl & ?). eauto 10.
  - destruct Hd as (Hn & pth & c & nl & Hr).
    assert (Hn1 : uid2file p1 !! fid = None).
    { destruct (uid2file p1 !! fid) eqn:E1; [|done].
      destruct (Ha fid ltac:(by eexists)) as [? ?]. congruence. }
    unfold db_of at 1. rewrite Hn1. cbn. eauto 10.
Qed.

Lemma cache_only_stage_frame p p' : cache_only p p' -> stage_frame R p p'.
Proof.
  intros (Hu & _). unfold stage_frame, db_of. rewrite Hu.
  split; [done|]. intros fid d' H. by rewrite H.
Qed.

Lemma seenFile_stage_frame env fid p : stage_frame R p (seenFile env fid p).
Proof.
  unfold seenFile. destruct (uid2file p !! fid) eqn:E; [apply stage_frame_refl|].
  assert (Hgen : forall f calls,
            (forall d, file_db f = Some d -> exists pth c nl, d = IndexFile_new pth c nl) ->
            stage_frame R p (p_stage fid f calls p)).
  { intros f calls Hf. split.
    - intros k Hk. unfold p_stage; cbn.
      destruct (decide (fid = k)) as [<-|Hne];
        [by rewrite lookup_insert_eq | by rewrite lookup_insert_ne].
    - intros k d'. unfold db_of, p_stage; cbn.
      destruct (decide (fid = k)) as [<-|Hne].
      + rewrite lookup_insert_eq, E. cbn. intros Hd.
        destruct (Hf d' Hd) as (pth & c & nl & ->). eauto 10.
      + rewrite lookup_insert_ne by done. intros ->. apply R_refl. }
  repeat case_match; apply Hgen; cbn; intros d [= <-]; eauto.
Qed.

Lemma consumeFile_stage_frame env fid p :
  stage_frame R p (consumeFile env fid p).2.
Proof. apply seenFile_stage_frame. Qed.

Lemma put_db_stage_frame k d d' p :
  db_of k p = Some d -> R d d' -> stage_frame R p (put_db k d' p).
Proof.
  intros Hd Hr. split.
  - intros fid. unfold put_db; cbn. rewrite lookup_alter.
    case_decide; [subst|done]. intros [f ->]. by eexists.
  - intros fid d1. destruct (decide (k = fid)) as [<-|Hne].
    + rewrite (put_db_db_of _ _ _ _ Hd), Hd. by intros [= <-].
    + rewrite put_db_db_of_ne by done. intros ->. apply R_refl.
Qed.

Lemma useMultiVersion_stage_frame env fid p :
  stage_frame R p (useMultiVersion env fid p).2.
Proof.
  unfold useMultiVersion. case_match; [apply stage_frame_refl|].
  split; [done|]. intros k d' Hk.
  change (db_of k p = Some d') in Hk.
  rewrite Hk. apply R_refl.
Qed.

(** A callback that stages a file and then writes its index. *)
Lemma consume_put_stage_frame env fid p (F : IndexFile -> IndexFile) :
  (forall d, R d (F d)) ->
  stage_frame R p
    (let '(db, p) := consumeFile env fid p in
     match db with
     | None => p
     | Some db => put_db fid (F db) p
     end).
Proof.
  intros HF. unfold consumeFile.
  pose proof (seenFile_stage_frame env fid p) as Hs.
  destruct (db_of fid (seenFile env fid p)) as [d|] eqn:E; [|done].
  eapply stage_frame_trans; [exact Hs|]. by eapply put_db_stage_frame.
Qed.

Hypothesis R_toFunc : forall u g d, R d (toFunc u g d).
Hypothesis R_toType : forall u g d, R d (toType u g d).
Hypothesis R_toVar : forall u g d, R d (toVar u g d).
Hypothesis R_language :
  forall z d, R d (db_set_language (Z.lor (language d) z) d).
Hypothesis R_getFileLID : forall env fid d, R d (getFileLID env fid d).2.

Lemma MacroDefined_stage_frame env m p : stage_frame R p (MacroDefined env m p).
Proof.
  unfold MacroDefined.
  apply (consume_put_stage_frame env (md_fid m) p
           (toVar (getMacro env (md_Name m))
              (v_upd_core (MacroDefined_var (config env) m)))).
  intros d. apply R_toVar.
Qed.

Lemma MacroExpands_stage_frame env Name fid range p :
  stage_frame R p (MacroExpands env Name fid range p).
Proof.
  unfold MacroExpands.
  apply (consume_put_stage_frame env fid p
           (toVar (getMacro env Name)
              (v_upd_core (push_use (Use_default range Role.Dynamic))))).
  intros d. apply R_toVar.
Qed.

Lemma shouldSkipFunctionBody_stage_frame env fid p :
  stage_frame R p (shouldSkipFunctionBody env fid p).2.
Proof.
  unfold shouldSkipFunctionBody.
  pose proof (useMultiVersion_stage_frame env fid p) as Hm.
  destruct (cfg_multiVersion (config env) =? 0).
  - apply consumeFile_stage_frame.
  - destruct (useMultiVersion env fid p) as [mv p1]. cbn [snd] in Hm.
    destruct mv; [done|].
    eapply stage_frame_trans; [exact Hm | apply consumeFile_stage_frame].
Qed.

Lemma stage_event_stage_frame env e fid p :
  stage_frame R p (stage_event env e fid p).2.
Proof.
  unfold stage_event.
  assert (H0 : stage_frame R p
    (if cfg_multiVersion (config env) =? 0 then (false, p)
     else useMultiVersion env fid p).2).
  { destruct (_ =? 0); [apply stage_frame_refl|apply useMultiVersion_stage_frame]. }
  destruct (if cfg_multiVersion (config env) =? 0 then (false, p)
            else useMultiVersion env fid p) as [multi p0].
  cbn [snd] in H0. unfold consumeFile.
  eapply stage_frame_trans; [exact H0|]. destruct multi.
  - pose proof (seenFile_stage_frame env (getMainFileID env) p0) as H1.
    destruct (db_of _ (seenFile env (getMainFileID env) p0)) eqn:Hm;
      cbn [snd]; [|done].
    eapply stage_frame_trans; [exact H1|].
    pose proof (seenFile_stage_frame env fid
                  (seenFile env (getMainFileID env) p0)) as H2.
    destruct (ev_written_in_main e); cbn [snd]; [done|].
    destruct (db_of _ (seenFile env fid _)) as [db|] eqn:Hm2; cbn [snd];
      [|done].
    pose proof (R_getFileLID env fid db) as Hf.
    destruct (getFileLID env fid db) as [lid db']. cbn [snd] in *.
    eapply stage_frame_trans; [exact H2|]. by eapply put_db_stage_frame.
  - pose proof (seenFile_stage_frame env fid p0) as H1.
    by destruct (db_of fid (seenFile env fid p0)).
Qed.

Lemma handleDeclOccurence_stage_frame env e p p' :
  handleDeclOccurence env e p = Some p' -> stage_frame R p p'.
Proof.
  unfold handleDeclOccurence. intros H.
  destruct (_ && _); [simplify_eq; apply stage_frame_refl|].
  destruct (ev_fid e) as [fid|]; [|simplify_eq; apply stage_frame_refl].
  pose proof (stage_event_stage_frame env e fid p) as Hs.
  destruct (stage_event env e fid p) as [[[key lid]|] p1]; cbn [snd] in Hs;
    [|by simplify_eq].
  destruct (db_of key p1) as [db|] eqn:Hdb; [|by simplify_eq].
  destruct (record_occurrence env e lid (db, p1)) as [[d2 p2]|] eqn:Hr;
    cbn in H; [|done]. simplify_eq.
  destruct (record_occurrence_frame R R_refl R_trans R_toFunc R_toType R_toVar
              R_language R_getFileLID env e lid _ _ Hr) as [Hd Hc].
  cbn [fst snd] in *.
  eapply stage_frame_trans; [exact Hs|].
  eapply stage_frame_trans; [apply cache_only_stage_frame; exact Hc|].
  eapply put_db_stage_frame; [|exact Hd].
  destruct Hc as (Hu & _). unfold db_of in *. by rewrite Hu.
Qed.

End stage_frame_facts.

(** ** Include lists and skipped ranges *)

Lemma same_side_tables_refl d : same_side_tables d d.
Proof. done. Qed.

Lemma same_side_tables_trans d1 d2 d3 :
  same_side_tables d1 d2 -> same_side_tables d2 d3 -> same_side_tables d1 d3.
Proof. unfold same_side_tables. congruence. Qed.

Lemma same_side_tables_getFileLID env fid d :
  same_side_tables d (getFileLID env fid d).2.
Proof. unfold getFileLID. by repeat case_match. Qed.

Lemma stage_frame_side p p' fid d' :
  stage_frame same_side_tables p p' ->
  db_of fid p' = Some d' ->
  includes d' = includes_at p fid /\ skipped_ranges d' = skipped_at p fid.
Proof.
  intros [_ H] Hd. specialize (H fid d' Hd). unfold includes_at, skipped_at.
  destruct (db_of fid p) as [d|].
  - unfold same_side_tables, side_tables in H. by simplify_eq.
  - destruct H as (_ & pth & c & nl & H).
    unfold same_side_tables, side_tables in H. by simplify_eq.
Qed.

Lemma seenFile_stages env fid p : is_Some (uid2file (seenFile env fid p) !! fid).
Proof.
  unfold seenFile. destruct (uid2file p !! fid) eqn:E; [by rewrite E|].
  repeat case_match; unfold p_stage; cbn; by rewrite lookup_insert_eq.
Qed.

Lemma put_db_staged k d p fid :
  is_Some (uid2file p !! fid) -> is_Some (uid2file (put_db k d p) !! fid).
Proof.
  unfold put_db; cbn. rewrite lookup_alter.
  case_decide; [subst|done]. intros [f ->]. by eexists.
Qed.

(** One callback: what it adds to the two lists of an index. *)
Lemma step_side env ev p p' fid d' :
  step env ev p = Some p' ->
  db_of fid p' = Some d' ->
  includes d' = includes_at p fid ++ event_includes fid ev /\
  skipped_ranges d' = skipped_at p fid ++ event_skipped fid ev.
Proof.
  pose proof same_side_tables_refl as Hrefl.
  pose proof same_side_tables_trans as Htrans.
  assert (Hframe : stage_frame same_side_tables p p' ->
            event_includes fid ev = [] -> event_skipped fid ev = [] ->
            db_of fid p' = Some d' ->
            includes d' = includes_at p fid ++ event_includes fid ev /\
            skipped_ranges d' = skipped_at p fid ++ event_skipped fid ev).
  { intros Hf -> -> Hd. rewrite !app_nil_r. by eapply stage_frame_side. }
  destruct ev as [b k | inc l k | m | n k r | n ud | r ok | k | e]; cbn [step]; intros H Hd; simplify_eq.
  - apply Hframe; try done. unfold FileChanged.
    case_match; [by apply consumeFile_stage_frame | by apply stage_frame_refl].
  - (* InclusionDirective *)
    unfold InclusionDirective in Hd. destruct inc as [pth|].
    2:{ apply Hframe; try done. by apply stage_frame_refl. }
    unfold consumeFile in Hd.
    pose proof (seenFile_stage_frame same_side_tables Hrefl env k p) as Hs.
    destruct (db_of k (seenFile env k p)) as [d1|] eqn:E1.
    + cbn [event_includes event_skipped]. rewrite app_nil_r.
      destruct (String.eqb pth "") eqn:Ep; cbn [negb].
      { rewrite andb_false_r, app_nil_r. by eapply stage_frame_side. }
      rewrite andb_true_r. case_bool_decide as Hk.
      * subst k. rewrite (put_db_db_of _ _ _ _ E1) in Hd. simplify_eq.
        destruct (stage_frame_side _ _ _ _ Hs E1) as [<- <-]. done.
      * rewrite put_db_db_of_ne in Hd by done. rewrite app_nil_r.
        by eapply stage_frame_side.
    + cbn [event_includes event_skipped].
      case_bool_decide as Hk; [subst; congruence|]. cbn [andb].
      rewrite !app_nil_r. by eapply stage_frame_side.
  - apply Hframe; try done.
    by apply MacroDefined_stage_frame; auto using same_side_tables_getFileLID.
  - apply Hframe; try done.
    by apply MacroExpands_stage_frame; auto using same_side_tables_getFileLID.
  - apply Hframe; try done. unfold MacroUndefined.
    destruct ud as [[? ?]|]; [|by apply stage_frame_refl].
    by apply MacroExpands_stage_frame; auto using same_side_tables_getFileLID.
  - (* SourceRangeSkipped *)
    unfold SourceRangeSkipped in Hd. destruct ok as [k|].
    2:{ apply Hframe; try done. by apply stage_frame_refl. }
    unfold consumeFile in Hd.
    pose proof (seenFile_stage_frame same_side_tables Hrefl env k p) as Hs.
    cbn [event_includes event_skipped]. rewrite app_nil_r.
    destruct (db_of k (seenFile env k p)) as [d1|] eqn:E1.
    + case_bool_decide as Hk.
      * subst k. rewrite (put_db_db_of _ _ _ _ E1) in Hd. simplify_eq.
        destruct (stage_frame_side _ _ _ _ Hs E1) as [<- <-]. done.
      * rewrite put_db_db_of_ne in Hd by done. rewrite app_nil_r.
        by eapply stage_frame_side.
    + case_bool_decide as Hk; [subst; congruence|].
      rewrite !app_nil_r. by eapply stage_frame_side.
  - apply Hframe; try done.
    by apply shouldSkipFunctionBody_stage_frame.
  - apply Hframe; try done.
    eapply handleDeclOccurence_stage_frame; try exact H; try done;
      auto using same_side_tables_getFileLID.
Qed.

(** A callback that contributes to a list of [fid] stages [fid]. *)
Lemma step_side_stages env ev p p' fid :
  step env ev p = Some p' ->
  event_includes fid ev <> [] \/ event_skipped fid ev <> [] ->
  is_Some (uid2file p' !! fid).
Proof.
  destruct ev as [b k | inc l k | m | n k r | n ud | r ok | k | e];
    cbn [step event_includes event_skipped]; intros H Hne;
    simplify_eq; try (by destruct Hne).
  - destruct inc as [pth|]; [|by destruct Hne].
    destruct Hne as [Hne|]; [|done].
    case_bool_decide; [subst|done].
    unfold InclusionDirective, consumeFile.
    repeat case_match; try apply put_db_staged; apply seenFile_stages.
  - destruct ok as [k|]; [|by destruct Hne].
    destruct Hne as [|Hne]; [done|].
    case_bool_decide; [subst|done].
    unfold SourceRangeSkipped, consumeFile.
    repeat case_match; try apply put_db_staged; apply seenFile_stages.
Qed.

Lemma run_side env evs p p' fid d' :
  run env evs p = Some p' ->
  db_of fid p' = Some d' ->
  includes d' = includes_at p fid ++ flat_map (event_includes fid) evs /\
  skipped_ranges d' = skipped_at p fid ++ flat_map (event_skipped fid) evs.
Proof.
  revert p; induction evs as [|ev evs IH]; intros p; cbn [run flat_map].
  - intros [= <-] Hd. unfold includes_at, skipped_at. rewrite Hd.
    by rewrite !app_nil_r.
  - destruct (step env ev p) as [p1|] eqn:E; [|done]. cbn. intros Hrun Hd.
    destruct (IH p1 Hrun Hd) as [-> ->]. rewrite !app_assoc.
    enough (includes_at p1 fid = includes_at p fid ++ event_includes fid ev /\
            skipped_at p1 fid = skipped_at p fid ++ event_skipped fid ev)
      as [-> ->] by done.
    destruct (db_of fid p1) as [d1|] eqn:E1.
    { unfold includes_at at 1, skipped_at at 1. rewrite E1.
      by eapply step_side. }
    assert (Hun1 : uid2file p1 !! fid = None).
    { destruct (uid2file p1 !! fid) as [f1|] eqn:Ef; [|done].
      apply run_step_rel in Hrun as [(_ & Hst & _) _].
      destruct (Hst fid f1 Ef) as (f' & Hf' & _ & _ & Hiff).
      unfold db_of in E1, Hd. rewrite Ef in E1. rewrite Hf' in Hd. cbn in *.
      rewrite E1, Hd in Hiff. destruct Hiff as [Hiff _].
      by destruct Hiff; [eexists|]. }
    assert (Hun : uid2file p !! fid = None).
    { destruct (uid2file p !! fid) as [f|] eqn:Ef; [|done].
      apply step_step_rel in E as [(_ & Hst & _) _].
      destruct (Hst fid f Ef) as (f' & Hf' & _). congruence. }
    unfold includes_at, skipped_at, db_of. rewrite Hun1, Hun. cbn.
    destruct (event_includes fid ev) eqn:Ei, (event_skipped fid ev) eqn:Es;
      try done;
      (destruct (step_side_stages env ev p p1 fid E) as [? ?];
       [rewrite ?Ei, ?Es; auto | congruence]).
Qed.

(** X5: the include list of an index is the list of the inclusion
    directives written in its file whose included file resolved to a
    non-empty path, in the order of the events, and its skipped ranges are the
    ranges skipped in its file, in that order; no other callback changes
    either list. *)
Theorem includes_and_skipped_ranges_follow_events
    env use_eqb eng main a nl entry :
  entry ∈ (index env use_eqb eng main a nl).1 ->
  exists p fid f,
    run env (delivered_events (engine_run eng)) (IndexParam_new nl) = Some p /\
    uid2file p !! fid = Some f /\ file_path f = path entry /\
    includes entry
    = flat_map (event_includes fid) (delivered_events (engine_run eng)) /\
    skipped_ranges entry
    = flat_map (event_skipped fid) (delivered_events (engine_run eng)).
Proof.
  intros H.
  apply index_entry_spec in H as (p & fid & f & d & Hrun & Hf & Hd & Hinv & ->).
  exists p, fid, f. split_and!; [done | done | | |].
  - destruct (finalize_entry_fields use_eqb main a
                (map_to_list (uid2file p)) d) as (-> & _).
    by destruct Hinv as (-> & _).
  - assert (Hdb : db_of fid p = Some d) by (unfold db_of; by rewrite Hf).
    destruct (run_side _ _ _ _ _ _ Hrun Hdb) as [Hi _].
    unfold includes_at, db_of in Hi. cbn in Hi. rewrite lookup_empty in Hi.
    cbn in Hi. rewrite <- Hi.
    unfold finalize_entry.
    assert (Hgen : forall files e,
              includes (stamp_dependencies files e) = includes e).
    { unfold stamp_dependencies. induction files as [|kf files IH]; intros e;
        cbn [foldl]; [done|]. rewrite IH. unfold stamp_dependency.
      by repeat case_match. }
    by rewrite Hgen.
  - assert (Hdb : db_of fid p = Some d) by (unfold db_of; by rewrite Hf).
    destruct (run_side _ _ _ _ _ _ Hrun Hdb) as [_ Hi].
    unfold skipped_at, db_of in Hi. cbn in Hi. rewrite lookup_empty in Hi.
    cbn in Hi. rewrite <- Hi.
    unfold finalize_entry.
    assert (Hgen : forall files e,
              skipped_ranges (stamp_dependencies files e) = skipped_ranges e).
    { unfold stamp_dependencies. induction files as [|kf files IH]; intros e;
        cbn [foldl]; [done|]. rewrite IH. unfold stamp_dependency.
      by repeat case_match. }
    by rewrite Hgen.
Qed.

Lemma includes_and_skipped_ranges_follow_events_witness :
  exists entry,
    entry ∈ (index ex_env ex_use_eqb ex_include_engine "/src/main.cc" [] true).1 /\
    includes entry = [(3, "/src/a.h"%string)] /\
    skipped_ranges entry = [ex_range 9] /\
    exists fid,
      includes entry = flat_map (event_includes fid) ex_include_events /\
      skipped_ranges entry = flat_map (event_skipped fid) ex_include_events.
Proof.
  destruct ((index ex_env ex_use_eqb ex_include_engine "/src/main.cc" [] true).1
              !! 0%nat) as [entry|] eqn:E; [|by vm_compute in E].
  assert (Hin : entry ∈ (index ex_env ex_use_eqb ex_include_engine
                           "/src/main.cc" [] true).1)
    by by eapply list_elem_of_lookup_2.
  exists entry. split; [done|].
  assert (entry = default entry
            ((index ex_env ex_use_eqb ex_include_engine "/src/main.cc" [] true).1
               !! 0%nat)) as Hentry by by rewrite E.
  split; [by rewrite Hentry; vm_compute|].
  split; [by rewrite Hentry; vm_compute|].
  destruct (includes_and_skipped_ranges_follow_events
              ex_env ex_use_eqb ex_include_engine "/src/main.cc" [] true entry Hin)
    as (p & fid & f & _ & _ & _ & Hi & Hs).
  exists fid. split; [exact Hi | exact Hs].
Defined.

(** ** The multi-version decision *)

Lemma seenFile_uid2multi env fid p : uid2multi (seenFile env fid p) = uid2multi p.
Proof. unfold seenFile. by repeat case_match. Qed.

Lemma useMultiVersion_uid2multi env fid p :
  uid2multi p ⊆ uid2multi (useMultiVersion env fid p).2.
Proof.
  unfold useMultiVersion. destruct (uid2multi p !! fid) eqn:E; [done|].
  cbn. by apply insert_subseteq.
Qed.

Lemma consume_put_uid2multi env fid p (F : IndexFile -> IndexFile) :
  uid2multi
    (let '(db, p) := consumeFile env fid p in
     match db with
     | None => p
     | Some db => put_db fid (F db) p
     end) = uid2multi p.
Proof.
  unfold consumeFile. rewrite <- (seenFile_uid2multi env fid p).
  by destruct (db_of fid (seenFile env fid p)).
Qed.

Lemma stage_event_uid2multi env e fid p :
  uid2multi p ⊆ uid2multi (stage_event env e fid p).2.
Proof.
  unfold stage_event.
  assert (H0 : uid2multi p ⊆ uid2multi
    (if cfg_multiVersion (config env) =? 0 then (false, p)
     else useMultiVersion env fid p).2).
  { destruct (_ =? 0); [done | apply useMultiVersion_uid2multi]. }
  destruct (if cfg_multiVersion (config env) =? 0 then (false, p)
            else useMultiVersion env fid p) as [multi p0].
  cbn [snd] in H0. unfold consumeFile.
  etrans; [exact H0|].
  repeat case_match; simplify_eq; cbn [snd put_db p_set_uid2file uid2multi];
    by rewrite ?seenFile_uid2multi.
Qed.

Lemma step_uid2multi env ev p p' :
  step env ev p = Some p' -> uid2multi p ⊆ uid2multi p'.
Proof.
  destruct ev as [b k | inc l k | m | n k r | n ud | r ok | k | e]; cbn [step]; intros H; simplify_eq.
  - unfold FileChanged. case_match; [|done]. cbn. by rewrite seenFile_uid2multi.
  - unfold InclusionDirective. destruct inc; [|done]. unfold consumeFile.
    repeat case_match; cbn; by rewrite seenFile_uid2multi.
  - unfold MacroDefined. by rewrite consume_put_uid2multi.
  - unfold MacroExpands. by rewrite consume_put_uid2multi.
  - unfold MacroUndefined. destruct ud as [[? ?]|]; [|done].
    unfold MacroExpands. by rewrite consume_put_uid2multi.
  - unfold SourceRangeSkipped. destruct ok; [|done].
    by rewrite consume_put_uid2multi.
  - unfold shouldSkipFunctionBody.
    pose proof (useMultiVersion_uid2multi env k p) as Hm.
    destruct (cfg_multiVersion (config env) =? 0).
    + cbn. by rewrite seenFile_uid2multi.
    + destruct (useMultiVersion env k p) as [mv p1]. cbn [snd] in Hm.
      destruct mv; [done|]. cbn. by rewrite seenFile_uid2multi.
  - unfold handleDeclOccurence in H.
    destruct (_ && _); [by simplify_eq|].
    destruct (ev_fid e) as [fid|]; [|by simplify_eq].
    pose proof (stage_event_uid2multi env e fid p) as Hs.
    destruct (stage_event env e fid p) as [[[key lid]|] p1]; cbn [snd] in Hs;
      [|by simplify_eq].
    destruct (db_of key p1) as [db|]; [|by simplify_eq].
    destruct (record_occurrence env e lid (db, p1)) as [[d2 p2]|] eqn:Hr;
      cbn in H; [|done]. simplify_eq.
    destruct (record_occurrence_frame (fun _ _ => True) ltac:(done) ltac:(done)
                ltac:(done) ltac:(done) ltac:(done) ltac:(done) ltac:(done)
                env e lid _ _ Hr) as [_ (_ & Hm & _)].
    cbn [fst snd put_db p_set_uid2file uid2multi] in *. by rewrite Hm.
Qed.

Lemma run_uid2multi env evs p p' :
  run env evs p = Some p' -> uid2multi p ⊆ uid2multi p'.
Proof.
  revert p; induction evs as [|ev evs IH]; intros p; cbn [run].
  - by intros [= <-].
  - destruct (step env ev p) as [p1|] eqn:E; [|done]. cbn. intros H.
    etrans; [by eapply step_uid2multi | by apply IH].
Qed.

(** X6: the multi-version decision for a handle is made once: it is the
    matcher's answer for the path of the handle's file entry (no for a handle
    without one), and after it, whatever callbacks follow, asking again gives
    the same answer and changes nothing. *)
Theorem multi_version_decision_stable env fid p evs p' :
  run env evs (useMultiVersion env fid p).2 = Some p' ->
  useMultiVersion env fid p' = ((useMultiVersion env fid p).1, p') /\
  (uid2multi p !! fid = None ->
   (useMultiVersion env fid p).1
   = match getFileEntryForID env fid with
     | Some fe => multiVersionMatches env (fe_path fe)
     | None => false
     end) /\
  uid2file (useMultiVersion env fid p).2 = uid2file p.
Proof.
  intros Hrun. apply run_uid2multi in Hrun.
  assert (Hlk : uid2multi (useMultiVersion env fid p).2 !! fid
                = Some (useMultiVersion env fid p).1).
  { unfold useMultiVersion. destruct (uid2multi p !! fid) eqn:E; [done|].
    cbn. by rewrite lookup_insert_eq. }
  split_and!.
  - eapply lookup_weaken in Hlk; [|exact Hrun].
    unfold useMultiVersion at 1. by rewrite Hlk.
  - intros Hn. unfold useMultiVersion. by rewrite Hn.
  - unfold useMultiVersion. by case_match.
Qed.

Lemma multi_version_decision_stable_witness :
  useMultiVersion ex_env 2
    (FileChanged ex_env true 2 (useMultiVersion ex_env 2 (IndexParam_new true)).2)
  = (false,
     FileChanged ex_env true 2 (useMultiVersion ex_env 2 (IndexParam_new true)).2).
Proof.
  exact (proj1 (multi_version_decision_stable ex_env 2 (IndexParam_new true)
                  [EvFileChanged true 2]
                  (FileChanged ex_env true 2
                     (useMultiVersion ex_env 2 (IndexParam_new true)).2)
                  eq_refl)).
Defined.

(** ** A macro that is defined and then used *)

Lemma consumeFile_indexed env fid p d :
  db_of fid p = Some d -> consumeFile env fid p = (Some d, p).
Proof.
  intros Hd. unfold consumeFile.
  assert (exists f, uid2file p !! fid = Some f) as [f Hf].
  { unfold db_of in Hd. destruct (uid2file p !! fid); [eauto|done]. }
  by rewrite (seenFile_staged env fid p f Hf), Hd.
Qed.

Lemma macro_references_uses env Name fid us p d v :
  db_of fid p = Some d ->
  usr2var d !! getMacro env Name = Some v ->
  exists d',
    db_of fid (foldl (macro_reference env Name fid) p us) = Some d' /\
    usr2var d' !! getMacro env Name
    = Some (v_upd_core
              (fun c => set_uses
                 (uses c ++ ((fun u => mkUse u.2 Role.Dynamic (-1)) <$> us)) c)
              v).
Proof.
  revert p d v; induction us as [|u us IH]; intros p d v Hd Hv; cbn [foldl].
  - exists d. split; [done|]. rewrite Hv. f_equal.
    destruct v as [? []]. unfold v_upd_core, set_uses; cbn.
    by rewrite app_nil_r.
  - assert (Hstep : macro_reference env Name fid p u
                    = put_db fid
                        (toVar (getMacro env Name)
                           (v_upd_core (push_use (Use_default u.2 Role.Dynamic))) d) p).
    { unfold macro_reference, MacroUndefined, MacroExpands.
      rewrite (consumeFile_indexed env fid p d Hd). by destruct u.1. }
    rewrite Hstep.
    set (d1 := toVar (getMacro env Name)
                 (v_upd_core (push_use (Use_default u.2 Role.Dynamic))) d).
    destruct (IH (put_db fid d1 p) d1 _ (put_db_db_of _ _ _ _ Hd)
                (toVar_lookup _ _ _)) as (d' & Hd' & Hv').
    exists d'. split; [exact Hd'|]. rewrite Hv'. f_equal.
    unfold var_at. rewrite Hv. cbn [default from_option id].
    destruct v as [? []]. unfold v_upd_core, set_uses, push_use, Use_default.
    cbn -[fmap app]. by rewrite fmap_cons, <- app_assoc.
Qed.

(** X7: in a file that has an index, the first definition of a macro
    followed by expansions and [#undef]s of it leaves one variable entity
    under the macro's key, with kind Macro in a File, the macro's name, the
    length of the name narrowed to [int16_t] as [short_name_size], the
    [#define] text as hover, the definition as its only definition record,
    no declaration, and one Dynamic use per expansion or [#undef], in the
    order of the events. *)
Theorem macro_defined_then_referenced env m us p d :
  db_of (md_fid m) p = Some d ->
  usr2var d !! getMacro env (md_Name m) = None ->
  1 <= cfg_maxInitializerLines (config env) < 2 ^ 31 ->
  exists d',
    db_of (md_fid m)
      (foldl (macro_reference env (md_Name m) (md_fid m))
         (MacroDefined env m p) us) = Some d' /\
    usr2var d' !! getMacro env (md_Name m)
    = Some (mkVar (getMacro env (md_Name m))
              (mkCore (md_Name m)
                 (if Z.of_nat (count_newlines (md_source m)) + 1
                     <=? cfg_maxInitializerLines (config env)
                  then "#define " +:+ md_source m
                  else "#define " +:+ md_Name m)
                 "" 0 (to_int16 (Z.of_nat (String.length (md_Name m)))) 0
                 (Some (mkDeclRef (mkUse (md_range m) Role.Definition_ (-1))
                          (md_extent m)))
                 SkMacro SkFile []
                 ((fun u => mkUse u.2 Role.Dynamic (-1)) <$> us))
              0 0).
Proof.
  intros Hd Hnone Hmax.
  assert (Hdef : MacroDefined env m p
                 = put_db (md_fid m)
                     (toVar (getMacro env (md_Name m))
                        (v_upd_core (MacroDefined_var (config env) m)) d) p).
  { unfold MacroDefined. by rewrite (consumeFile_indexed env _ p d Hd). }
  rewrite Hdef.
  set (d1 := toVar (getMacro env (md_Name m))
               (v_upd_core (MacroDefined_var (config env) m)) d).
  destruct (macro_references_uses env (md_Name m) (md_fid m) us
              (put_db (md_fid m) d1 p) d1 _ (put_db_db_of _ _ _ _ Hd)
              (toVar_lookup _ _ _)) as (d' & Hd' & Hv).
  exists d'. split; [exact Hd'|]. rewrite Hv. f_equal.
  unfold var_at. rewrite Hnone. cbn [default from_option id].
  unfold MacroDefined_var, v_upd_core, v_set_usr, IndexVar0, core0;
    cbn -[to_int16].
  by rewrite (within_maxInitializerLines_spec _ _ Hmax).
Qed.

Lemma macro_defined_then_referenced_witness :
  macro_hover ex_env "MAX" 1
    (foldl (macro_reference ex_env "MAX" 1)
       (MacroDefined ex_env (mkMacroDef "MAX" 1 (ex_range 1) (ex_range 1) "MAX 10")
          (FileChanged ex_env true 1 (IndexParam_new true)))
       [(false, ex_range 5)])
  = Some "#define MAX 10"%string.
Proof.
  destruct (macro_defined_then_referenced ex_env
              (mkMacroDef "MAX" 1 (ex_range 1) (ex_range 1) "MAX 10")
              [(false, ex_range 5)]
              (FileChanged ex_env true 1 (IndexParam_new true))
              (IndexFile_new "/src/main.cc" "" true))
    as (d' & Hd & Hv); [by vm_compute | by vm_compute | by vm_compute |].
  unfold macro_hover. cbn [md_fid md_Name] in Hd, Hv. rewrite Hd.
  cbn [mbind option_bind]. unfold var_at. rewrite Hv. by vm_compute.
Defined.

(** ** The entity pointers of the handler *)

Lemma occ_locals_kind env e lid p :
  let o := (occ_locals env e lid p).1 in
  oc_kind o = (getKind (ast env) (ev_D e) SkUnknown).1 /\
  (oc_D o = ev_D e \/
   (Z.land (ev_Roles e) Role.Definition_ = 0 /\ ev_adjusted e = Some (oc_D o))).
Proof.
  cbn zeta. unfold occ_locals. cbv zeta.
  destruct (getKind (ast env) (ev_D e) SkUnknown) as [k sk].
  destruct (Z.land (ev_Roles e) Role.Definition_ =? 0) eqn:Ed.
  - apply Z.eqb_eq in Ed. cbn [negb orb].
    destruct (_ && _).
    + destruct (getUsr env (ev_D e) p). cbn. auto.
    + destruct (ev_adjusted e) as [D1|]; [|destruct (getUsr env (ev_D e) p); cbn; auto].
      case_bool_decide; [destruct (getUsr env (ev_D e) p); cbn; auto|].
      destruct (getUsr env D1 p). cbn. auto.
  - cbn [negb orb]. destruct (getUsr env (ev_D e) p). cbn. auto.
Qed.

Lemma link_by_category_returns env e o st :
  (getKind (ast env) (oc_D o) SkUnknown).1 = oc_kind o ->
  is_Some (link_by_category env e o st).
Proof.
  intros Hk. unfold link_by_category, link_Record, link_Record_bases,
    link_Specialization, link_TypeAlias.
  unfold getKind in Hk. destruct st as [d p].
  destruct (declKind (ast env) (oc_D o)); cbn in Hk; try rewrite <- Hk;
    rewrite ?bool_decide_eq_true_2 by done; cbn [deref mbind option_bind];
    try (by eexists);
    repeat (case_match; cbn [deref mbind option_bind fst snd];
            rewrite ?bool_decide_eq_true_2 by done;
            cbn [deref mbind option_bind fst snd]); by eexists.
Qed.



(** ** Definition records and declaration lists *)

Lemma records_frame_refl d : records_frame d d.
Proof. by intros k u. Qed.

Lemma records_frame_trans d1 d2 d3 :
  records_frame d1 d2 -> records_frame d2 d3 -> records_frame d1 d3.
Proof.
  intros H1 H2 k u. destruct (H1 k u) as [<- <-]. apply H2.
Qed.

Lemma records_frame_toFunc d0 usr g d :
  (forall e, spell (f_core (g e)) = spell (f_core e) /\
             declarations (f_core (g e)) = declarations (f_core e)) ->
  records_frame d0 d -> records_frame d0 (toFunc usr g d).
Proof.
  intros Hg H k u. destruct (H k u) as [<- <-].
  destruct k; cbn [core_at]; try done.
  rewrite func_at_toFunc. case_decide; subst; [apply Hg | done].
Qed.

Lemma records_frame_toType d0 usr g d :
  (forall e, spell (t_core (g e)) = spell (t_core e) /\
             declarations (t_core (g e)) = declarations (t_core e)) ->
  records_frame d0 d -> records_frame d0 (toType usr g d).
Proof.
  intros Hg H k u. destruct (H k u) as [<- <-].
  destruct k; cbn [core_at]; try done.
  rewrite type_at_toType. case_decide; subst; [apply Hg | done].
Qed.

Lemma records_frame_toVar d0 usr g d :
  (forall e, spell (v_core (g e)) = spell (v_core e) /\
             declarations (v_core (g e)) = declarations (v_core e)) ->
  records_frame d0 d -> records_frame d0 (toVar usr g d).
Proof.
  intros Hg H k u. destruct (H k u) as [<- <-].
  destruct k; cbn [core_at]; try done.
  rewrite var_at_toVar. case_decide; subst; [apply Hg | done].
Qed.

Lemma records_frame_set_language d0 z d :
  records_frame d0 d -> records_frame d0 (db_set_language z d).
Proof. done. Qed.

Lemma records_frame_getFileLID env d0 fid d :
  records_frame d0 d -> records_frame d0 (getFileLID env fid d).2.
Proof. intros H. unfold getFileLID. by repeat case_match. Qed.

Lemma records_frame_addMacroUse_if env e d0 usr k d :
  records_frame d0 d -> records_frame d0 (addMacroUse_if env e usr k d).
Proof.
  intros H. unfold addMacroUse_if, addMacroUse.
  destruct (ev_macro_spell e) as [sl|]; [|done].
  pose proof (records_frame_getFileLID env d0 sl.1 d H) as H'.
  destruct (getFileLID env sl.1 d) as [lid d1]. cbn [snd] in H'.
  destruct (lid <? 0); [done|].
  destruct k; try done.
  - apply records_frame_toType; [|done]. by intros [? []].
  - apply records_frame_toFunc; [|done]. by intros [? []].
  - apply records_frame_toVar; [|done]. by intros [? []].
Qed.

Lemma records_frame_setVarName e d0 usr d :
  records_frame d0 d -> records_frame d0 (toVar usr (setVarName e) d).
Proof.
  intros H. apply records_frame_toVar; [|done].
  intros [? [] ? ?]. unfold setVarName. by repeat case_match.
Qed.

Lemma records_frame_name_anon_record env e o d0 d :
  records_frame d0 d -> records_frame d0 (name_anon_record env e o d).
Proof.
  intros H. unfold name_anon_record. case_match; [|done].
  apply records_frame_toType; [|done]. by intros [? []].
Qed.

Ltac records_frame_step :=
  lazymatch goal with
  | |- records_frame _ (db_set_language _ _) => apply records_frame_set_language
  | |- records_frame _ (getFileLID _ _ _).2 => apply records_frame_getFileLID
  | |- records_frame _ (addMacroUse_if _ _ _ _ _) =>
      apply records_frame_addMacroUse_if
  | |- records_frame _ (name_anon_record _ _ _ _) =>
      apply records_frame_name_anon_record
  | |- records_frame _ (toVar _ (setVarName _) _) => apply records_frame_setVarName
  | |- records_frame _ (link_type_base _ _ _) => unfold link_type_base
  | |- records_frame _ (link_func_base _ _ _) => unfold link_func_base
  | |- records_frame _ (instance_of _ _ _ _) => unfold instance_of; try case_match
  | |- records_frame _ (toFunc _ _ _) =>
      apply records_frame_toFunc;
        [by (intros [? []]; cbn; repeat case_match)|]
  | |- records_frame _ (toType _ _ _) =>
      apply records_frame_toType;
        [by (intros [? []]; cbn; repeat case_match)|]
  | |- records_frame _ (toVar _ _ _) =>
      apply records_frame_toVar;
        [by (intros [? []]; cbn; repeat case_match)|]
  | |- records_frame _ _ => first [assumption | apply records_frame_refl]
  end.
Ltac records_frame_solve := cbn [fst snd]; repeat records_frame_step.

Lemma link_each_records {A} env (key : A -> Decl) link ds st :
  (forall a u d0 d, records_frame d0 d -> records_frame d0 (link a u d)) ->
  records_frame st.1 (link_each env key link ds st).1.
Proof.
  intros Hlink.
  enough (forall d0, records_frame d0 st.1 ->
            records_frame d0 (link_each env key link ds st).1) as H
    by apply H, records_frame_refl.
  revert st; induction ds as [|a ds IH]; intros st d0 H0; cbn [link_each];
    [done|].
  destruct (getUsr env (key a) st.2) as [info p]. apply IH. cbn [fst]. auto.
Qed.

Lemma collectRecordMembers_records env usr members st :
  records_frame st.1 (collectRecordMembers env usr members st).1.
Proof.
  apply link_each_records. intros a u d0 d H. records_frame_solve.
Qed.

Lemma link_Record_bases_records env e o st st' :
  link_Record_bases env e o st = Some st' -> records_frame st.1 st'.1.
Proof.
  unfold link_Record_bases. intros H.
  assert (Hall : records_frame st.1
            (link_each env id (fun _ => link_type_base (oc_usr o))
               (ev_bases e) st).1).
  { apply link_each_records. intros; records_frame_solve. }
  destruct (_ && _); [|simplify_eq; apply records_frame_refl].
  destruct (ev_bases e); [simplify_eq; apply records_frame_refl|].
  destruct (deref _); [|done]. cbn [mbind option_bind] in H. by simplify_eq.
Qed.

Lemma link_Record_records env e o st st' :
  link_Record env e o st = Some st' -> records_frame st.1 st'.1.
Proof.
  unfold link_Record. intros H.
  destruct (link_Record_bases env e o st) as [[d1 p1]|] eqn:E1; [|done].
  apply link_Record_bases_records in E1. cbn in H.
  destruct (deref _); [|done]. cbn in H.
  eapply records_frame_trans; [exact E1|]. cbn [fst].
  destruct (_ && _); simplify_eq; [|records_frame_solve].
  eapply records_frame_trans;
    [|apply collectRecordMembers_records]. records_frame_solve.
Qed.

Lemma link_Specialization_records env e o st st' :
  link_Specialization env e o st = Some st' -> records_frame st.1 st'.1.
Proof.
  unfold link_Specialization. destruct st as [d p]. intros H.
  destruct (deref _); cbn in H; [|done].
  destruct (oc_is_def o); simplify_eq; [|records_frame_solve].
  destruct (isa_RecordDecl _).
  - pose proof (collectRecordMembers_records env (oc_usr o) (ev_members e)
                  (toType (oc_usr o) (t_upd_core (set_kind SkClass)) d, p)) as Hc.
    destruct (collectRecordMembers _ _ _ _) as [d1 p1]. cbn [fst] in Hc.
    assert (H1 : records_frame d d1).
    { eapply records_frame_trans; [|exact Hc]. records_frame_solve. }
    repeat case_match; simplify_eq; records_frame_solve.
  - repeat case_match; simplify_eq; records_frame_solve.
Qed.

Lemma link_TypeAlias_records env e o st st' :
  link_TypeAlias env e o st = Some st' -> records_frame st.1 st'.1.
Proof.
  unfold link_TypeAlias. destruct st as [d p]. intros H.
  crunch; records_frame_solve.
Qed.

Lemma link_by_category_records env e o st st' :
  link_by_category env e o st = Some st' -> records_frame st.1 st'.1.
Proof.
  unfold link_by_category. destruct st as [d p]. intros H.
  destruct (declKind (ast env) (oc_D o));
    try (simplify_eq; apply records_frame_refl);
    try (by eapply link_Record_records);
    try (by eapply link_Specialization_records);
    try (by eapply link_TypeAlias_records);
    cbn [fst snd] in H.
  - (* Namespace *) crunch; records_frame_solve.
  - (* NamespaceAlias *) crunch; records_frame_solve.
  - (* CXXMethod *)
    assert (Hall : records_frame d
              (link_each env id (fun _ => link_func_base (oc_usr o))
                 (ev_overridden e) (d, p)).1).
    { apply (link_each_records env id _ _ (d, p)). intros; records_frame_solve. }
    destruct (_ || _); [|simplify_eq; apply records_frame_refl].
    destruct (ev_overridden e); [simplify_eq; apply records_frame_refl|].
    destruct (deref _); [|done]. cbn [mbind option_bind] in H. by simplify_eq.
  - (* EnumConstant *) crunch; records_frame_solve.
Qed.

Lemma do_def_decl_records env e is_def is_decl use c :
  spell (do_def_decl env e is_def is_decl use c)
  = (if is_def then Some (mkDeclRef use (ev_extent e)) else spell c) /\
  declarations (do_def_decl env e is_def is_decl use c)
  = declarations c
    ++ (if negb is_def && is_decl then [mkDeclRef use (ev_extent e)] else []).
Proof.
  unfold do_def_decl. destruct c, is_def, is_decl; cbn;
    repeat case_match; by rewrite ?app_nil_r.
Qed.

Lemma core_at_toFunc k u usr g d :
  core_at k u (toFunc usr g d)
  = if decide (k = KFunc /\ u = usr) then f_core (g (func_at usr d))
    else core_at k u d.
Proof.
  destruct k; cbn [core_at]; try (by rewrite decide_False by (by intros [? ?])).
  rewrite func_at_toFunc.
  destruct (decide (usr = u)) as [->|Hne].
  - by rewrite decide_True.
  - rewrite decide_False; [done|]. intros [_ ?]. congruence.
Qed.

Lemma core_at_toType k u usr g d :
  core_at k u (toType usr g d)
  = if decide (k = KType /\ u = usr) then t_core (g (type_at usr d))
    else core_at k u d.
Proof.
  destruct k; cbn [core_at]; try (by rewrite decide_False by (by intros [? ?])).
  rewrite type_at_toType.
  destruct (decide (usr = u)) as [->|Hne].
  - by rewrite decide_True.
  - rewrite decide_False; [done|]. intros [_ ?]. congruence.
Qed.

Lemma core_at_toVar k u usr g d :
  core_at k u (toVar usr g d)
  = if decide (k = KVar /\ u = usr) then v_core (g (var_at usr d))
    else core_at k u d.
Proof.
  destruct k; cbn [core_at]; try (by rewrite decide_False by (by intros [? ?])).
  rewrite var_at_toVar.
  destruct (decide (usr = u)) as [->|Hne].
  - by rewrite decide_True.
  - rewrite decide_False; [done|]. intros [_ ?]. congruence.
Qed.

Lemma recorded_by_role_other e o k u c :
  ~ (k = oc_kind o /\ u = oc_usr o) ->
  recorded_by_role e o k u c = (spell c, declarations c).
Proof.
  intros H. unfold recorded_by_role.
  rewrite bool_decide_eq_false_2; [done|]. intros (? & ? & _). by apply H.
Qed.

Lemma occ_Func_records env e o d p k u :
  oc_kind o = KFunc ->
  let c' := core_at k u (occ_Func env e o (d, p)).1 in
  (spell c', declarations c') = recorded_by_role e o k u (core_at k u d).
Proof.
  intros Hk. cbn zeta.
  set (role := if negb (oc_is_def o) && negb (oc_is_decl o)
                  && (bool_decide (declKind (ast env) (oc_D o) = DkCXXConstructor)
                      || bool_decide (declKind (ast env) (oc_D o) = DkCXXConversion))
               then Z.lor (oc_role o) Role.Implicit else oc_role o).
  set (d1 := toFunc (oc_usr o) (f_upd_core (set_kind (oc_ls_kind o))) d).
  set (d2 := toFunc (oc_usr o)
               (f_upd_core
                  (do_def_decl env e (oc_is_def o) (oc_is_decl o)
                     (mkUse (oc_loc o) role (oc_lid o)))) d1).
  assert (H3 : records_frame d2 (occ_Func env e o (d, p)).1).
  { unfold occ_Func. fold role. fold d1. fold d2.
    repeat case_match; simplify_eq; records_frame_solve. }
  destruct (H3 k u) as [-> ->]. subst d2.
  rewrite core_at_toFunc. case_decide as Hd.
  - destruct Hd as [-> ->]. unfold recorded_by_role.
    rewrite bool_decide_eq_true_2 by (rewrite Hk; set_solver).
    subst d1. rewrite func_at_toFunc, decide_True by done.
    cbn [core_at]. destruct (func_at (oc_usr o) d) as [? c]. cbn [f_upd_core f_core].
    destruct (do_def_decl_records env e (oc_is_def o) (oc_is_decl o)
                (mkUse (oc_loc o) role (oc_lid o))
                (set_kind (oc_ls_kind o) c)) as [-> ->].
    subst role. destruct c, (oc_is_def o), (oc_is_decl o); cbn; done.
  - subst d1. rewrite core_at_toFunc, decide_False by done.
    rewrite recorded_by_role_other; [done|]. rewrite Hk. done.
Qed.

Lemma occ_Type_records env e o d p k u :
  oc_kind o = KType ->
  let c' := core_at k u (occ_Type env e o (d, p)).1 in
  (spell c', declarations c') = recorded_by_role e o k u (core_at k u d).
Proof.
  intros Hk. cbn zeta.
  set (d1 := toType (oc_usr o) (t_upd_core (set_kind (oc_ls_kind o))) d).
  set (d2 := toType (oc_usr o)
               (t_upd_core
                  (do_def_decl env e (oc_is_def o) (oc_is_decl o)
                     (mkUse (oc_loc o) (oc_role o) (oc_lid o)))) d1).
  assert (H3 : records_frame d2 (occ_Type env e o (d, p)).1).
  { unfold occ_Type. fold d1. fold d2.
    repeat case_match; simplify_eq; records_frame_solve. }
  destruct (H3 k u) as [-> ->]. subst d2.
  rewrite core_at_toType. case_decide as Hd.
  - destruct Hd as [-> ->]. unfold recorded_by_role.
    rewrite bool_decide_eq_true_2 by (rewrite Hk; set_solver).
    subst d1. rewrite type_at_toType, decide_True by done.
    cbn [core_at]. destruct (type_at (oc_usr o) d) as [? c]. cbn [t_upd_core t_core].
    destruct (do_def_decl_records env e (oc_is_def o) (oc_is_decl o)
                (mkUse (oc_loc o) (oc_role o) (oc_lid o))
                (set_kind (oc_ls_kind o) c)) as [-> ->].
    destruct c, (oc_is_def o), (oc_is_decl o); cbn; done.
  - subst d1. rewrite core_at_toType, decide_False by done.
    rewrite recorded_by_role_other; [done|]. rewrite Hk. done.
Qed.

Lemma core_at_type_parm_record o i l1 r1 d k u :
  (spell (core_at k u (type_parm_record o i l1 r1 d)),
   declarations (core_at k u (type_parm_record o i l1 r1 d)))
  = recorded_with_type_parm
      (Some (di_usr i, mkDeclRef (mkUse l1 Role.Definition_ (oc_lid o)) r1))
      k u (spell (core_at k u d), declarations (core_at k u d)).
Proof.
  unfold type_parm_record, recorded_with_type_parm.
  rewrite core_at_toType. case_decide as Hd.
  - destruct Hd as [-> ->]. rewrite bool_decide_eq_true_2 by done.
    change (type_at (di_usr i) (toVar ?a ?g ?x)) with (type_at (di_usr i) x).
    rewrite type_at_toType, decide_True by done.
    cbn [core_at snd]. by destruct (type_at (di_usr i) d) as [? []].
  - rewrite bool_decide_eq_false_2 by done.
    rewrite core_at_toVar. case_decide as Hv.
    + destruct Hv as [-> ->].
      change (var_at (oc_usr o) (toType ?a ?g ?x)) with (var_at (oc_usr o) x).
      cbn [core_at]. by destruct (var_at (oc_usr o) d).
    + by rewrite core_at_toType, decide_False by done.
Qed.

Lemma link_var_type_records env e o d p k u :
  let st' := link_var_type env e o (d, p) in
  (spell (core_at k u st'.1), declarations (core_at k u st'.1))
  = recorded_with_type_parm
      (type_parm_target env st'.2
         (match ev_var_type e with
          | VtDecl D1 =>
              match type_parm_in_file env e D1 with
              | Some (l1, r1) =>
                  Some (D1, mkDeclRef (mkUse l1 Role.Definition_ (oc_lid o)) r1)
              | None => None
              end
          | _ => None
          end))
      k u (spell (core_at k u d), declarations (core_at k u d)) /\
  (forall D1, ev_var_type e = VtDecl D1 ->
     is_Some (Decl2Info st'.2 !! getCanonicalDecl (ast env) D1)).
Proof.
  cbn zeta. unfold link_var_type.
  assert (Hinst : forall usr1,
            records_frame d (instance_of env o usr1 d))
    by (intros; records_frame_solve).
  destruct (ev_var_type e) as [|b|D1|] eqn:Et; cbn [fst snd type_parm_target fmap option_fmap option_map recorded_with_type_parm].
  - done.
  - split; [|done]. by destruct (Hinst b k u) as [-> ->].
  - pose proof (getUsr_lookup env D1 p) as Hlk.
    destruct (getUsr env D1 p) as [i p2] eqn:Eg. cbn [fst snd] in Hlk.
    assert (Hc : getUsr env D1 p2 = (i, p2)) by (by apply getUsr_cached).
    split.
    + destruct (type_parm_in_file env e D1) as [[l1 r1]|];
        cbn [fst snd type_parm_target fmap option_fmap option_map
             recorded_with_type_parm].
      * rewrite Hc. cbn [fst]. apply core_at_type_parm_record.
      * by destruct (Hinst (di_usr i) k u) as [-> ->].
    + intros ? [= <-].
      destruct (type_parm_in_file env e D1) as [[l1 r1]|]; cbn [snd];
        by eexists.
  - done.
Qed.

Lemma occ_Var_records env e o d p k u :
  oc_kind o = KVar ->
  let st' := occ_Var env e o (d, p) in
  (spell (core_at k u st'.1), declarations (core_at k u st'.1))
  = recorded_with_type_parm
      (type_parm_target env st'.2 (type_parm_written env e o)) k u
      (recorded_by_role e o k u (core_at k u d)) /\
  (forall D1 dr, type_parm_written env e o = Some (D1, dr) ->
     is_Some (Decl2Info st'.2 !! getCanonicalDecl (ast env) D1)).
Proof.
  intros Hk. cbn zeta.
  set (d1 := toVar (oc_usr o) (v_upd_core (set_kind (oc_ls_kind o))) d).
  set (d2 := toVar (oc_usr o)
               (v_upd_core
                  (do_def_decl env e (oc_is_def o) (oc_is_decl o)
                     (mkUse (oc_loc o) (oc_role o) (oc_lid o)))) d1).
  assert (Hd2 : forall k u,
            (spell (core_at k u d2), declarations (core_at k u d2))
            = if decide (k = KVar /\ u = oc_usr o) then
                (if oc_is_def o
                 then Some (mkDeclRef (mkUse (oc_loc o) (oc_role o) (oc_lid o))
                              (ev_extent e))
                 else spell (core_at k u d),
                 declarations (core_at k u d)
                 ++ (if negb (oc_is_def o) && oc_is_decl o
                     then [mkDeclRef (mkUse (oc_loc o) (oc_role o) (oc_lid o))
                             (ev_extent e)]
                     else []))
              else (spell (core_at k u d), declarations (core_at k u d))).
  { intros k0 u0. subst d2. rewrite core_at_toVar. case_decide as Hd.
    - destruct Hd as [-> ->]. subst d1.
      rewrite var_at_toVar, decide_True by done.
      cbn [core_at]. destruct (var_at (oc_usr o) d) as [? c].
      cbn [v_upd_core v_core].
      destruct (do_def_decl_records env e (oc_is_def o) (oc_is_decl o)
                  (mkUse (oc_loc o) (oc_role o) (oc_lid o))
                  (set_kind (oc_ls_kind o) c)) as [-> ->].
      by destruct c.
    - subst d1. by rewrite core_at_toVar, decide_False by done. }
  set (d3 := addMacroUse_if env e (oc_usr o) KVar d2).
  set (d4 := if String.eqb (detailed_name (v_core (var_at (oc_usr o) d3))) ""
             then toVar (oc_usr o) (setVarName e) d3 else d3).
  assert (H4 : records_frame d2 d4).
  { subst d4 d3. destruct (String.eqb _ _); records_frame_solve. }
  unfold type_parm_written. rewrite Hk, bool_decide_eq_true_2 by done.
  cbn [andb].
  destruct (oc_is_def o || oc_is_decl o) eqn:Eor.
  - assert (H5 : exists d5 p5,
              occ_Var env e o (d, p) = link_var_type env e o (d5, p5) /\
              records_frame d4 d5).
    { unfold occ_Var. fold d1. fold d2. fold d3. fold d4. rewrite Eor.
      repeat case_match; simplify_eq;
        (eexists _, _; split; [reflexivity|records_frame_solve]). }
    destruct H5 as (d5 & p5 & -> & H5).
    destruct (link_var_type_records env e o d5 p5 k u) as [Hrec Hcached].
    cbn zeta in Hrec, Hcached. split.
    + rewrite Hrec. f_equal.
      destruct (H5 k u) as [-> ->]. destruct (H4 k u) as [-> ->].
      rewrite Hd2. unfold recorded_by_role. rewrite Hk.
      destruct (oc_is_def o) eqn:Edef.
      * case_decide as Hd.
        -- destruct Hd as [-> ->]. rewrite bool_decide_eq_true_2; [done|set_solver].
        -- rewrite bool_decide_eq_false_2; [done|]. intros (? & ? & _). by apply Hd.
      * cbn in Eor. rewrite Eor. cbn [negb andb].
        case_decide as Hd.
        -- destruct Hd as [-> ->]. rewrite bool_decide_eq_true_2; [|set_solver].
           by rewrite andb_false_r.
        -- rewrite bool_decide_eq_false_2; [done|]. intros (? & ? & _). by apply Hd.
    + intros D1 dr Hw. apply Hcached. revert Hw.
      destruct (ev_var_type e) as [|?|D2|]; try done.
      destruct (type_parm_in_file env e D2) as [[? ?]|]; [|done].
      by intros [= -> _].
  - split; [|done].
    cbn [type_parm_target fmap option_fmap option_map recorded_with_type_parm].
    unfold recorded_by_role.
    apply orb_false_iff in Eor as [Edef Edecl].
    assert (Hd4 : forall k u,
              spell (core_at k u d4) = spell (core_at k u d) /\
              declarations (core_at k u d4) = declarations (core_at k u d)).
    { intros k0 u0. destruct (H4 k0 u0) as [-> ->].
      pose proof (Hd2 k0 u0) as H. rewrite Edef, Edecl in H. cbn in H.
      rewrite app_nil_r in H. case_decide; by simplify_eq. }
    assert (Hocc : (occ_Var env e o (d, p)).1
                   = if bool_decide (spell (v_core (var_at (oc_usr o) d4)) = None)
                        && bool_decide (declarations (v_core (var_at (oc_usr o) d4)) = [])
                     then match ev_decl_loc e with
                          | Some (l, r) =>
                              toVar (oc_usr o)
                                (v_upd_core (fun c =>
                                   set_parent_kind SkMethod
                                     (set_spell
                                        (Some (mkDeclRef
                                                 (mkUse l Role.Definition_ (oc_lid o)) r))
                                        c))) d4
                          | None => d4
                          end
                     else d4).
    { unfold occ_Var. fold d1. fold d2. fold d3. fold d4.
      rewrite Edef, Edecl. cbn [orb]. by repeat case_match. }
    rewrite Hocc, Edef, Edecl, Hk. clear Hocc. cbn [negb andb].
    rewrite app_nil_r.
    destruct (Hd4 KVar (oc_usr o)) as [Hs Hdl]. cbn [core_at] in Hs, Hdl.
    rewrite Hs, Hdl.
    destruct (decide (k = KVar /\ u = oc_usr o)) as [[-> ->]|Hne].
    + rewrite (bool_decide_eq_true_2 (KVar = KVar /\ _)) by set_solver.
      rewrite (bool_decide_eq_true_2 (KVar = KVar)) by done. cbn [andb core_at].
      destruct (bool_decide (spell (v_core (var_at (oc_usr o) d)) = None)) eqn:E1,
               (bool_decide (declarations (v_core (var_at (oc_usr o) d)) = []))
                 eqn:E2;
        cbn [andb]; rewrite ?Hs, ?Hdl; try done.
      destruct (ev_decl_loc e) as [[l r]|].
      * rewrite var_at_toVar, decide_True by done.
        destruct (var_at (oc_usr o) d4) as [? c] eqn:Ev. cbn in *.
        rewrite <- Hdl. by destruct c.
      * apply bool_decide_eq_true in E1. by rewrite Hs, Hdl, E1.
    + rewrite (bool_decide_eq_false_2 (k = KVar /\ _))
        by (intros (? & ? & _); by apply Hne).
      destruct (Hd4 k u) as [<- <-].
      destruct (bool_decide (spell _ = None) && _); [|done].
      destruct (ev_decl_loc e) as [[l r]|]; [|done].
      by rewrite core_at_toVar, decide_False by done.
Qed.

Lemma type_parm_written_other env e o :
  oc_kind o <> KVar -> type_parm_written env e o = None.
Proof.
  intros H. unfold type_parm_written. by rewrite bool_decide_eq_false_2.
Qed.

(** X9: how one occurrence changes the definition records and the
    declaration lists of the target index: the entity the occurrence is
    about gets the occurrence as its definition record when it is a
    definition, and as one more declaration (appended) when it is a
    declaration only; a reference leaves both alone, except that a variable
    with neither record gets a definition record from the location of its
    declaration.  In a build against LLVM before 9, a declaration or
    definition of a variable whose type is declared by a template type
    parameter of the same file also gives the type entity of that parameter
    a definition record.  No other entity's definition record changes and
    no other declaration list changes; in a build against LLVM 9 or later
    there is no such type entity. *)
Theorem occurrence_recorded_by_role env e lid d p d' p' k u :
  record_occurrence env e lid (d, p) = Some (d', p') ->
  let o := (occ_locals env e lid p).1 in
  (spell (core_at k u d'), declarations (core_at k u d'))
  = recorded_with_type_parm
      (type_parm_target env p' (type_parm_written env e o)) k u
      (recorded_by_role e o k u (core_at k u d)) /\
  (9 <= LLVM_VERSION_MAJOR env -> type_parm_written env e o = None).
Proof.
  intros H. cbn zeta. split.
  2:{ intros Hv. unfold type_parm_written, type_parm_in_file.
      rewrite (proj2 (Z.ltb_ge _ _) Hv). cbn [andb].
      destruct (_ && _); [|done]. by destruct (ev_var_type e). }
  revert H. unfold record_occurrence.
  destruct (occ_locals env e lid p) as [o p1]. cbn [fst]. intros H.
  set (d0 := db_set_language
               (Z.lor (language d)
                  (LanguageId_to_Z (getDeclLanguage (ast env) (ev_D e)))) d) in *.
  change (core_at k u d) with (core_at k u d0).
  destruct (oc_kind o) eqn:Hk.
  - simplify_eq. rewrite type_parm_written_other by (by rewrite Hk).
    unfold recorded_by_role. cbn.
    rewrite bool_decide_eq_false_2; [done|]. rewrite Hk.
    intros (-> & _ & Hin). set_solver.
  - simplify_eq. rewrite type_parm_written_other by (by rewrite Hk).
    unfold recorded_by_role. cbn.
    rewrite bool_decide_eq_false_2; [done|]. rewrite Hk.
    intros (-> & _ & Hin). set_solver.
  - rewrite type_parm_written_other by (by rewrite Hk). cbn.
    apply link_by_category_records in H. cbn [fst] in H.
    destruct (H k u) as [-> ->].
    by apply occ_Type_records.
  - rewrite type_parm_written_other by (by rewrite Hk). cbn.
    apply link_by_category_records in H. cbn [fst] in H.
    destruct (H k u) as [-> ->].
    by apply occ_Func_records.
  - pose proof (link_by_category_st_ok _ _ _ _ _ H) as [_ Hext].
    cbn [snd] in Hext. destruct Hext as (_ & _ & _ & Hsub & _).
    apply link_by_category_records in H. cbn [fst] in H.
    destruct (H k u) as [-> ->].
    destruct (occ_Var_records env e o d0 p1 k u Hk) as [Hrec Hcached].
    cbn zeta in Hrec, Hcached. rewrite Hrec. f_equal.
    destruct (type_parm_written env e o) as [[D1 dr]|] eqn:Ew; [|done].
    destruct (Hcached D1 dr eq_refl) as [i Hi].
    cbn [type_parm_target fmap option_fmap option_map fst snd].
    rewrite (getUsr_cached env D1 _ i Hi).
    by rewrite (getUsr_cached env D1 p' i (lookup_weaken _ _ _ _ Hi Hsub)).
Qed.

Lemma occurrence_recorded_by_role_witness :
  exists d' p',
    record_occurrence ex_env8 ex_var_of_type_parm (-1)
      (IndexFile_new "/src/main.cc" "" true, IndexParam_new true)
    = Some (d', p') /\
    (spell (core_at KType 5 d'), declarations (core_at KType 5 d'))
    = (Some (mkDeclRef (mkUse (ex_range 2) Role.Definition_ (-1)) (ex_range 3)),
       []) /\
    (spell (core_at KVar 4 d'), declarations (core_at KVar 4 d'))
    = (Some (mkDeclRef (mkUse (ex_range 7) Role.Declaration (-1)) (ex_range 7)),
       []).
Proof.
  destruct (record_occurrence ex_env8 ex_var_of_type_parm (-1)
              (IndexFile_new "/src/main.cc" "" true, IndexParam_new true))
    as [[d' p']|] eqn:E; [|by vm_compute in E].
  exists d', p'. split; [done|].
  pose proof (fun k u => proj1 (occurrence_recorded_by_role ex_env8
                           ex_var_of_type_parm (-1) _ _ d' p' k u E)) as H.
  cbn zeta in H. rewrite (H KType 5), (H KVar 4).
  assert (Hp : Decl2Info p' !! 14%N
               = Some (mkDeclInfo 5 "T" "T")).
  { injection E as _ <-. by vm_compute. }
  unfold type_parm_target.
  assert (Hw : type_parm_written ex_env8 ex_var_of_type_parm
                 (occ_locals ex_env8 ex_var_of_type_parm (-1)
                    (IndexParam_new true)).1
               = Some (14%N, mkDeclRef (mkUse (ex_range 2) Role.Definition_ (-1))
                               (ex_range 3))) by (by vm_compute).
  rewrite Hw. cbn [fmap option_fmap option_map fst snd].
  rewrite (getUsr_cached ex_env8 14 p' _ Hp).
  by vm_compute.
Defined.

(** ** A relation kept by every mutation is kept by the pass *)

Section stage_frame_run.
Context (R : IndexFile -> IndexFile -> Prop).
Hypothesis R_refl : forall d, R d d.
Hypothesis R_trans : forall d1 d2 d3, R d1 d2 -> R d2 d3 -> R d1 d3.
Hypothesis R_toFunc : forall u g d, R d (toFunc u g d).
Hypothesis R_toType : forall u g d, R d (toType u g d).
Hypothesis R_toVar : forall u g d, R d (toVar u g d).
Hypothesis R_language :
  forall z d, R d (db_set_language (Z.lor (language d) z) d).
Hypothesis R_getFileLID : forall env fid d, R d (getFileLID env fid d).2.
Hypothesis R_push_include : forall i d, R d (db_push_include i d).
Hypothesis R_push_skipped : forall r d, R d (db_push_skipped r d).

Lemma step_stage_frame env ev p p' :
  step env ev p = Some p' -> stage_frame R p p'.
Proof.
  destruct ev as [b k | inc l k | m | n k r | n ud | r ok | k | e];
    cbn [step]; intros H; simplify_eq.
  - unfold FileChanged.
    case_match; [by apply consumeFile_stage_frame | by apply stage_frame_refl].
  - unfold InclusionDirective. destruct inc as [pth|];
      [|by apply stage_frame_refl].
    unfold consumeFile.
    pose proof (seenFile_stage_frame R R_refl env k p) as Hs.
    destruct (db_of k (seenFile env k p)) as [d1|] eqn:E1; [|done].
    destruct (String.eqb pth ""); [done|].
    eapply stage_frame_trans; [done | exact Hs |].
    by eapply put_db_stage_frame.
  - by apply MacroDefined_stage_frame.
  - by apply MacroExpands_stage_frame.
  - unfold MacroUndefined. destruct ud as [[? ?]|];
      [by apply MacroExpands_stage_frame | by apply stage_frame_refl].
  - unfold SourceRangeSkipped. destruct ok as [k|];
      [|by apply stage_frame_refl].
    by apply (consume_put_stage_frame R R_refl R_trans env k p
                (db_push_skipped r)).
  - by apply shouldSkipFunctionBody_stage_frame.
  - by eapply handleDeclOccurence_stage_frame.
Qed.

Lemma run_stage_frame env evs p p' :
  run env evs p = Some p' -> stage_frame R p p'.
Proof.
  revert p; induction evs as [|ev evs IH]; intros p; cbn [run].
  - intros [= <-]. by apply stage_frame_refl.
  - destruct (step env ev p) as [p1|] eqn:E; [|done]. cbn. intros H.
    eapply stage_frame_trans; [done | by eapply step_stage_frame | by apply IH].
Qed.

End stage_frame_run.

(** A property of indexes that fresh indexes have and every mutation keeps
    holds of every index during a pass. *)
Lemma run_index_invariant (P : IndexFile -> Prop) env nl evs p fid d :
  (forall pth c nl, P (IndexFile_new pth c nl)) ->
  (forall u g d, P d -> P (toFunc u g d)) ->
  (forall u g d, P d -> P (toType u g d)) ->
  (forall u g d, P d -> P (toVar u g d)) ->
  (forall z d, P d -> P (db_set_language z d)) ->
  (forall env fid d, P d -> P (getFileLID env fid d).2) ->
  (forall i d, P d -> P (db_push_include i d)) ->
  (forall r d, P d -> P (db_push_skipped r d)) ->
  run env evs (IndexParam_new nl) = Some p ->
  db_of fid p = Some d -> P d.
Proof.
  intros Hnew H1 H2 H3 H4 H5 H6 H7 Hrun Hd.
  assert (Hf : stage_frame (fun d d' => P d -> P d') (IndexParam_new nl) p).
  { eapply run_stage_frame; [..|exact Hrun]; cbn; auto. }
  destruct Hf as [_ H].
  specialize (H fid d Hd).
  change (db_of fid (IndexParam_new nl)) with (@None IndexFile) in H.
  destruct H as (_ & pth & c & nl' & H). auto.
Qed.

(** ** Local file indices *)

Lemma lids_ok_getFileLID env fid d : lids_ok d -> lids_ok (getFileLID env fid d).2.
Proof.
  intros H. unfold getFileLID.
  destruct (uid2lid_and_path d !! fid) as [[l0 pth0]|] eqn:E; [done|].
  assert (Hsz : forall v v', size (<[fid := v']> (<[fid := v]> (uid2lid_and_path d)))
                        = S (size (uid2lid_and_path d))).
  { intros v v'. rewrite insert_insert_eq. by apply map_size_insert_None. }
  assert (Hsz1 : forall v, size (<[fid := v]> (uid2lid_and_path d))
                       = S (size (uid2lid_and_path d))).
  { intros v. by apply map_size_insert_None. }
  assert (Hold : forall k l pth, k <> fid ->
            uid2lid_and_path d !! k = Some (l, pth) ->
            0 <= l < Z.of_nat (S (size (uid2lid_and_path d)))).
  { intros k l pth _ Hk. specialize (H k l pth Hk). lia. }
  repeat case_match; intros k l pth; cbn [snd db_set_lids uid2lid_and_path];
    rewrite ?Hsz, ?Hsz1;
    (destruct (decide (k = fid)) as [->|Hne];
     [rewrite ?lookup_insert_eq; intros [= <- <-]; rewrite ?Hsz1; lia
     | rewrite !lookup_insert_ne by done; eauto]).
Qed.

(** X10: the local file index of a handle in an index.  During a pass all
    stored indices lie below the size of the table.  A call for a handle
    that is in the table returns the stored index and changes nothing; a call
    for a new handle whose file entry has an absolute path returns the size
    the table had, which no other handle holds, and stores it with the
    path; a call that returns a non-negative index is repeatable.  The call
    never touches another handle's entry.  A new handle without a file entry
    gets -1 from the first call and the default index 0 from later ones. *)
Theorem getFileLID_spec env nl evs p k d fid :
  run env evs (IndexParam_new nl) = Some p ->
  db_of k p = Some d ->
  let r := getFileLID env fid d in
  lids_ok d /\ lids_ok r.2 /\
  (r.1 = -1 \/ 0 <= r.1) /\
  (forall l pth, uid2lid_and_path d !! fid = Some (l, pth) -> r = (l, d)) /\
  (0 <= r.1 -> getFileLID env fid r.2 = r) /\
  (getFileLID env fid r.2).2 = r.2 /\
  (forall fid', fid' <> fid ->
     uid2lid_and_path r.2 !! fid' = uid2lid_and_path d !! fid') /\
  (uid2lid_and_path d !! fid = None -> 0 <= r.1 ->
     r.1 = Z.of_nat (size (uid2lid_and_path d)) /\
     (forall fid' l' pth', uid2lid_and_path d !! fid' = Some (l', pth') ->
                           l' <> r.1) /\
     exists pth, absolutePath env fid = Some pth /\
                 uid2lid_and_path r.2 !! fid = Some (r.1, pth)) /\
  (uid2lid_and_path d !! fid = None -> getFileEntryForID env fid = None ->
     r.1 = -1 /\ (getFileLID env fid r.2).1 = 0).
Proof.
  intros Hrun Hd. cbn zeta.
  assert (Hok : lids_ok d).
  { apply (run_index_invariant lids_ok env nl evs p k d); try done.
    intros. by apply lids_ok_getFileLID. }
  split; [done|]. split; [by apply lids_ok_getFileLID|].
  assert (Hhit : forall d0 l pth,
            uid2lid_and_path d0 !! fid = Some (l, pth) ->
            getFileLID env fid d0 = (l, d0)).
  { intros d0 l pth H. unfold getFileLID. by rewrite H. }
  destruct (uid2lid_and_path d !! fid) as [[l0 pth0]|] eqn:E.
  - rewrite !(Hhit d l0 pth0 E). cbn [fst snd]. rewrite !(Hhit d l0 pth0 E).
    split_and!; try done.
    + specialize (Hok fid l0 pth0 E). lia.
    + by intros l pth [= <- <-].
  - assert (Hsz1 : forall v, size (<[fid := v]> (uid2lid_and_path d))
                         = S (size (uid2lid_and_path d))).
    { intros v. by apply map_size_insert_None. }
    assert (Hr : exists l pth,
              getFileLID env fid d
              = (if bool_decide (is_Some (getFileEntryForID env fid)
                                 /\ is_Some (absolutePath env fid))
                 then l else -1,
                 db_set_lids (<[fid := (l, pth)]> (uid2lid_and_path d))
                   (lid2path d) d) /\
              l = (if bool_decide (is_Some (getFileEntryForID env fid))
                   then Z.of_nat (size (uid2lid_and_path d)) else 0) /\
              (is_Some (getFileEntryForID env fid) ->
               forall a, absolutePath env fid = Some a -> pth = a)).
    { unfold getFileLID. rewrite E.
      destruct (getFileEntryForID env fid) as [fe|];
        [destruct (absolutePath env fid) as [a|]|].
      - exists (Z.of_nat (size (uid2lid_and_path d))), a.
        rewrite bool_decide_eq_true_2 by (split; by eexists).
        rewrite insert_insert_eq, bool_decide_eq_true_2 by (by eexists).
        rewrite Hsz1.
        replace (Z.of_nat (S (size (uid2lid_and_path d))) - 1)
          with (Z.of_nat (size (uid2lid_and_path d))) by lia.
        split_and!; [done | done | by intros _ ? [= <-]].
      - exists (Z.of_nat (size (uid2lid_and_path d))), "".
        rewrite bool_decide_eq_false_2 by (by intros [_ [? ?]]).
        rewrite insert_insert_eq, bool_decide_eq_true_2 by (by eexists).
        rewrite Hsz1.
        replace (Z.of_nat (S (size (uid2lid_and_path d))) - 1)
          with (Z.of_nat (size (uid2lid_and_path d))) by lia.
        split_and!; [done | done | done].
      - eexists 0, "".
        rewrite bool_decide_eq_false_2 by (by intros [[? ?] _]).
        rewrite bool_decide_eq_false_2 by (by intros [? ?]).
        split_and!; [done | done | by intros [? ?]]. }
    destruct Hr as (l & pth & Hr & Hl & Hp). rewrite !Hr. cbn [fst snd].
    assert (H2 : getFileLID env fid
                   (db_set_lids (<[fid := (l, pth)]> (uid2lid_and_path d))
                      (lid2path d) d)
                 = (l, db_set_lids (<[fid := (l, pth)]> (uid2lid_and_path d))
                         (lid2path d) d)).
    { apply (Hhit _ l pth). cbn. by rewrite lookup_insert_eq. }
    rewrite !H2. cbn [fst snd uid2lid_and_path db_set_lids].
    split_and!; try done.
    + destruct (bool_decide (is_Some _ /\ _)); [|by left]. right. subst l.
      case_bool_decide; lia.
    + intros Hnn. destruct (bool_decide (is_Some _ /\ _)); [done|lia].
    + intros fid' Hne. by rewrite lookup_insert_ne.
    + intros _ Hnn.
      destruct (bool_decide (is_Some _ /\ _)) eqn:Hb; [|lia].
      apply bool_decide_eq_true in Hb. destruct Hb as [Hfe [a Ha]].
      rewrite bool_decide_eq_true_2 in Hl by done. split_and!; [done| |].
      * intros fid' l' pth' H'. specialize (Hok fid' l' pth' H'). lia.
      * exists a. split; [done|]. rewrite lookup_insert_eq.
        by rewrite (Hp Hfe a Ha).
    + intros _ Hfe. rewrite Hfe in *.
      rewrite bool_decide_eq_false_2 by (by intros [[? ?] _]).
      rewrite bool_decide_eq_false_2 in Hl by (by intros [? ?]). done.
Qed.

Lemma getFileLID_spec_witness :
  let d := IndexFile_new "/src/main.cc" "" true in
  let r := getFileLID ex_env_paths 2 d in
  r.1 = 0 /\ getFileLID ex_env_paths 2 r.2 = r.
Proof.
  cbv zeta. split; [by vm_compute|].
  refine (proj1 (proj2 (proj2 (proj2 (proj2
            (getFileLID_spec ex_env_paths true [EvFileChanged true 1]
               (FileChanged ex_env_paths true 1 (IndexParam_new true)) 1
               (IndexFile_new "/src/main.cc" "" true) 2 eq_refl _))))) _).
  - by vm_compute.
  - by vm_compute.
Defined.

(** ** Skipping function bodies *)

(** X11: whether the body of a function is skipped is decided by the
    staging of its file: for a staged file that is not handled as
    multi-version, at any later point of the pass the body is skipped
    exactly when the file has no index, and asking changes nothing; for a
    file handled as multi-version the body is never skipped. *)
Theorem shouldSkipFunctionBody_follows_staging env p fid f evs p' :
  uid2file p !! fid = Some f ->
  run env evs p = Some p' ->
  (cfg_multiVersion (config env) = 0 \/ uid2multi p !! fid = Some false ->
   shouldSkipFunctionBody env fid p'
   = (negb (bool_decide (is_Some (file_db f))), p')) /\
  (cfg_multiVersion (config env) <> 0 -> uid2multi p !! fid = Some true ->
   shouldSkipFunctionBody env fid p' = (false, p')).
Proof.
  intros Hf Hrun.
  pose proof (run_uid2multi _ _ _ _ Hrun) as Hm.
  apply run_step_rel in Hrun as [(_ & Hst & _) _].
  destruct (Hst fid f Hf) as (f' & Hf' & _ & _ & Hiff).
  assert (Hc : consumeFile env fid p' = (file_db f', p')).
  { unfold consumeFile. rewrite (seenFile_staged env fid p' f' Hf').
    unfold db_of. by rewrite Hf'. }
  assert (Hb : bool_decide (is_Some (file_db f'))
               = bool_decide (is_Some (file_db f)))
    by by apply bool_decide_ext.
  assert (Hmv : forall b, uid2multi p !! fid = Some b ->
                  useMultiVersion env fid p' = (b, p')).
  { intros b Hb'. unfold useMultiVersion.
    by rewrite (lookup_weaken _ _ _ _ Hb' Hm). }
  unfold shouldSkipFunctionBody. split.
  - intros [Hz | Hfalse].
    + rewrite Hz. cbn -[consumeFile]. by rewrite Hc, Hb.
    + destruct (cfg_multiVersion (config env) =? 0);
        rewrite ?(Hmv false Hfalse); cbn -[consumeFile]; by rewrite Hc, Hb.
  - intros Hnz Htrue. apply Z.eqb_neq in Hnz. rewrite Hnz.
    by rewrite (Hmv true Htrue).
Qed.

Lemma shouldSkipFunctionBody_follows_staging_witness :
  shouldSkipFunctionBody ex_env 3
    (FileChanged ex_env true 1 (FileChanged ex_env true 3 (IndexParam_new true)))
  = (true,
     FileChanged ex_env true 1 (FileChanged ex_env true 3 (IndexParam_new true))).
Proof.
  exact (proj1 (shouldSkipFunctionBody_follows_staging ex_env
                  (FileChanged ex_env true 3 (IndexParam_new true)) 3
                  (mkFile "/src/b.h" 70 "" None)
                  [EvFileChanged true 1]
                  (FileChanged ex_env true 1
                     (FileChanged ex_env true 3 (IndexParam_new true)))
                  ltac:(by vm_compute) eq_refl)
           (or_introl eq_refl)).
Defined.

(** ** Strings: substrings of concatenations, and [find] *)

Lemma substring_app_skip (a b : string) n m :
  substring (String.length a + n) m (a +:+ b) = substring n m b.
Proof. induction a as [|c a IH]; [done|]. exact IH. Qed.

Lemma substring_app_prefix (a b : string) :
  substring 0 (String.length a) (a +:+ b) = a.
Proof.
  induction a as [|c a IH]; [by destruct b|].
  change (String c (substring 0 (String.length a) (a +:+ b)) = String c a).
  by rewrite IH.
Qed.

(** A non-empty substring of full length splits the string around it. *)
Lemma substring_split (s : string) k n :
  (0 < n)%nat ->
  String.length (substring k n s) = n ->
  s = substring 0 k s +:+ substring k n s
      +:+ substring (k + n) (String.length s - (k + n)) s /\
  String.length (substring 0 k s) = k.
Proof.
  revert k n; induction s as [|c s IH]; intros k n Hpos.
  - destruct k, n; cbn; try done; lia.
  - destruct k as [|k].
    + destruct n as [|n]; [lia|]. cbn [substring String.length].
      intros [= Hn]. split; [|done].
      change (String c s
              = String c (substring 0 n s
                          +:+ substring n (String.length s - n) s)).
      f_equal. clear IH Hpos. revert n Hn.
      induction s as [|c' s IH]; intros n Hn.
      * by destruct n.
      * destruct n as [|n].
        -- rewrite Nat.sub_0_r.
           rewrite (substring_all (String c' s) (String.length (String c' s)))
             by apply Nat.le_refl.
           done.
        -- cbn [substring String.length] in *. injection Hn as Hn.
           change (String c' s
                   = String c' (substring 0 n s
                                +:+ substring n (String.length s - n) s)).
           f_equal. by apply IH.
    + cbn [substring String.length Nat.add Nat.sub]. intros Hn.
      destruct (IH k n Hpos Hn) as [Hs Hk]. split; [|by rewrite Hk].
      change (String c s
              = String c (substring 0 k s +:+ substring k n s
                          +:+ substring (k + n) (String.length s - (k + n)) s)).
      by rewrite <- Hs.
Qed.

Lemma index_ge n s1 s2 m : String.index n s1 s2 = Some m -> (n <= m)%nat.
Proof.
  revert n m; induction s2 as [|c s2 IH]; intros [|n] m; cbn;
    try lia; try done.
  destruct (String.index n s1 s2) as [k|] eqn:E; [|done].
  intros [= <-]. specialize (IH n k E). lia.
Qed.

Lemma index_found n s1 s2 m :
  s1 <> ""%string ->
  String.index n s1 s2 = Some m ->
  (n <= m)%nat /\ substring m (String.length s1) s2 = s1 /\
  (m + String.length s1 <= String.length s2)%nat.
Proof.
  intros Hne H. pose proof (index_ge _ _ _ _ H) as Hge.
  pose proof (index_correct1 _ _ _ _ H) as Hs. split_and!; [done..|].
  assert (Hl : String.length (substring m (String.length s1) s2)
               = String.length s1) by by rewrite Hs.
  assert (Hpos : (0 < String.length s1)%nat) by (destruct s1; [done|cbn; lia]).
  destruct (substring_split s2 m (String.length s1) Hpos Hl) as [Heq Hm].
  rewrite Heq at 1. rewrite !string_length_app, Hm, Hl. lia.
Qed.

Lemma get_app_r (a b : string) n :
  String.get (String.length a + n) (a +:+ b) = String.get n b.
Proof. induction a as [|c a IH]; [done|]. exact IH. Qed.

Lemma get_app_l (a b : string) n :
  (n < String.length a)%nat -> String.get n (a +:+ b) = String.get n a.
Proof. intros H. symmetry. by apply append_correct1. Qed.

(** ** [setName] *)

Section SetName_facts.
Context (isId : ascii -> bool).

Lemma qual_name_start_le name paren i :
  (qual_name_start isId name paren i <= i)%nat.
Proof.
  revert paren; induction i as [|i IH]; intros paren; cbn [qual_name_start];
    [done|].
  repeat case_match; try lia; etrans; try apply IH; lia.
Qed.

(** The search returns an occurrence that is not part of a longer
    identifier. *)
Lemma find_short_name_found fuel short name i k :
  (forall j, i = Some j -> substring j (String.length short) name = short) ->
  find_short_name isId fuel short name i = Some k ->
  substring k (String.length short) name = short /\
  (k = O \/ isId (char_at (k - 1) name) = false) /\
  isId (char_at (k + String.length short) name) = false.
Proof.
  revert i; induction fuel as [|fuel IH]; intros i Hi; cbn [find_short_name];
    [done|].
  destruct i as [j|]; [|done].
  destruct (_ || _) eqn:E.
  - apply IH. intros j' Hj'. by eapply index_correct1.
  - intros [= <-]. apply orb_false_iff in E as [E1 E2].
    split_and!; [by apply Hi | | done].
    destruct j; [by left|right]. by rewrite andb_true_l in E1.
Qed.

(** More rounds than the length of the text change nothing. *)
Lemma find_short_name_fuel fuel short name i :
  short <> ""%string ->
  (forall j, i = Some j -> (String.length name - j < fuel)%nat) ->
  find_short_name isId (S fuel) short name i
  = find_short_name isId fuel short name i.
Proof.
  intros Hne. revert i; induction fuel as [|fuel IH]; intros i Hi.
  - destruct i as [j|]; [|done]. specialize (Hi j eq_refl). lia.
  - cbn [find_short_name]. destruct i as [j|]; [|done].
    destruct (_ || _); [|done].
    change (find_short_name isId (S fuel) short name
              (String.index (j + String.length short) short name)
            = find_short_name isId fuel short name
                (String.index (j + String.length short) short name)).
    apply IH. intros j' Hj'. apply index_found in Hj' as (? & _ & ?); [|done].
    specialize (Hi j eq_refl).
    assert (0 < String.length short)%nat by (destruct short; [done|cbn; lia]).
    lia.
Qed.

Lemma setName_find_found short name k :
  short <> ""%string ->
  setName_find isId short name = Some k ->
  substring k (String.length short) name = short /\
  (k = O \/ isId (char_at (k - 1) name) = false) /\
  isId (char_at (k + String.length short) name) = false.
Proof.
  intros Hne. unfold setName_find.
  assert ((String.length short =? 0)%nat = false) as ->.
  { apply Nat.eqb_neq. by destruct short. }
  apply find_short_name_found. intros j Hj. by eapply index_correct1.
Qed.

Lemma to_int16_small z : - 2 ^ 15 <= z < 2 ^ 15 -> to_int16 z = z.
Proof. intros H. unfold to_int16. rewrite Z.mod_small; lia. Qed.

Lemma find_short_name_enough n short name i :
  short <> ""%string ->
  (String.length name < n)%nat ->
  find_short_name isId n short name i
  = find_short_name isId (S (String.length name)) short name i.
Proof.
  intros Hne. induction n as [|n IH]; intros Hn; [lia|].
  destruct (decide (n = String.length name)) as [->|Hd]; [done|].
  rewrite find_short_name_fuel; [apply IH; lia|done|].
  intros j _. lia.
Qed.

(** X12: the text that [setName] computes for a non-empty short name.  The
    size of the short name and the offsets are stored narrowed to
    [int16_t].  The search examines the first occurrence of the short name
    first, returns it when no identifier character stands before or after
    it, and resumes behind an occurrence it rejects; it reports nothing
    when the short name does not occur; and it ends within as many rounds
    as the text is long.  When the search reports nothing the text is kept
    and the offsets are zero.  When it reports an occurrence
    [pre ++ short ++ post], no identifier character stands before or after
    it, the start of the qualified name is not after it, and the detailed
    name is the text itself exactly when a colon stands two places before
    the occurrence, and the text with the occurrence replaced by the
    qualified name otherwise; and when the qualified name ends with the short
    name and the offset fits 15 bits, the short name stands in the detailed
    name at the recorded offset. *)
Theorem setName_text_spec printed short qualified :
  short <> ""%string ->
  let name := setName_normalized printed in
  let ni := setName_text isId printed short qualified in
  ni_short_name_size ni = to_int16 (Z.of_nat (String.length short)) /\
  (String.index 0 short name = None -> setName_find isId short name = None) /\
  (forall j, String.index 0 short name = Some j ->
     (j = O \/ isId (char_at (j - 1) name) = false) ->
     isId (char_at (j + String.length short) name) = false ->
     setName_find isId short name = Some j) /\
  (forall n, (String.length name < n)%nat ->
     find_short_name isId n short name (String.index 0 short name)
     = setName_find isId short name) /\
  match setName_find isId short name with
  | None => ni = mkNameInfo name 0 (to_int16 (Z.of_nat (String.length short))) 0
  | Some k =>
      exists pre post,
        name = pre +:+ short +:+ post /\ String.length pre = k /\
        (k = O \/ isId (char_at (k - 1) name) = false) /\
        isId (char_at (k + String.length short) name) = false /\
        (exists q, (q <= k)%nat /\
                   ni_qual_name_offset ni = to_int16 (Z.of_nat q)) /\
        (if (2 <=? k)%nat && Ascii.eqb (char_at (k - 2) name) ":"
         then ni_detailed_name ni = name /\
              ni_short_name_offset ni = to_int16 (Z.of_nat k)
         else ni_detailed_name ni = pre +:+ qualified +:+ post /\
              ni_short_name_offset ni
              = to_int16
                  ((Z.of_nat k + Z.of_nat (String.length qualified)
                    - Z.of_nat (String.length short)) mod 2 ^ 64)) /\
        (forall q, qualified = q +:+ short ->
           Z.of_nat k + Z.of_nat (String.length q) < 2 ^ 15 ->
           substring (Z.to_nat (ni_short_name_offset ni)) (String.length short)
             (ni_detailed_name ni) = short)
  end.
Proof.
  intros Hne. cbn zeta.
  set (name := setName_normalized printed).
  assert (Hlen : (String.length short =? 0)%nat = false).
  { apply Nat.eqb_neq. by destruct short. }
  assert (Hpos : (0 < String.length short)%nat) by (destruct short; [done|cbn; lia]).
  split_and!.
  { unfold setName_text. fold name.
    destruct (setName_find isId short name) as [k|]; [|reflexivity].
    rewrite Hlen. cbn [orb]. by destruct (_ && _). }
  { intros Hi. unfold setName_find. by rewrite Hlen, Hi. }
  { intros j Hi Hb Ha. unfold setName_find. rewrite Hlen, Hi.
    cbn [find_short_name]. rewrite Ha, orb_false_r.
    destruct Hb as [-> | ->]; [done|by rewrite andb_false_r]. }
  { intros n Hn. unfold setName_find. rewrite Hlen.
    by apply find_short_name_enough. }
  unfold setName_text. fold name.
  destruct (setName_find isId short name) as [k|] eqn:Ef; [|reflexivity].
  destruct (setName_find_found short name k Hne Ef) as (Hsub & Hbefore & Hafter).
  assert (Hl : String.length (substring k (String.length short) name)
               = String.length short) by by rewrite Hsub.
  destruct (substring_split name k (String.length short) Hpos Hl) as [Hname Hk].
  rewrite Hsub in Hname.
  set (pre := substring 0 k name) in *.
  set (post := substring (k + String.length short)
                 (String.length name - (k + String.length short)) name) in *.
  rewrite Hlen. cbn [orb].
  assert (Hsub_pre : forall mid, substring k (String.length short)
                                   (pre +:+ short +:+ mid) = short).
  { intros mid. rewrite <- Hk at 1.
    rewrite <- (Nat.add_0_r (String.length pre)), substring_app_skip.
    apply substring_app_prefix. }
  exists pre, post.
  destruct ((2 <=? k)%nat && Ascii.eqb (char_at (k - 2) name) ":") eqn:Ec;
    cbn [ni_short_name_size ni_detailed_name ni_short_name_offset
         ni_qual_name_offset];
    (split_and!;
       [exact Hname | exact Hk | exact Hbefore | exact Hafter | | | done | ]).
  - eexists. split; [|reflexivity]. apply qual_name_start_le.
  - done.
  - intros q _ Hq. rewrite to_int16_small by lia.
    rewrite Nat2Z.id. rewrite Hname at 1. apply Hsub_pre.
  - eexists. split; [|reflexivity]. apply qual_name_start_le.
  - unfold string_replace. by fold pre; fold post.
  - intros q -> Hq. rewrite string_length_app.
    rewrite Z.mod_small by lia. rewrite to_int16_small by lia.
    replace (Z.to_nat (Z.of_nat k + Z.of_nat (String.length q + String.length short)
                       - Z.of_nat (String.length short)))
      with (String.length pre + String.length q)%nat by lia.
    unfold string_replace. fold pre. fold post.
    rewrite substring_app_skip, string_app_assoc.
    rewrite <- (Nat.add_0_r (String.length q)), substring_app_skip.
    apply substring_app_prefix.
Qed.

End SetName_facts.

Lemma setName_text_spec_witness :
  ni_short_name_size
    (setName_text ascii_isIdentifierBody "void g()" "g" "a::b::g") = 1 /\
  setName_text ascii_isIdentifierBody "void g()" "g" "a::b::g"
  = mkNameInfo "void a::b::g()" 11 1 5.
Proof.
  split; [|by vm_compute].
  exact (proj1 (setName_text_spec ascii_isIdentifierBody
                  "void g()" "g" "a::b::g" ltac:(done))).
Defined.

(** ** The text of a documentation comment *)

Lemma skip_indent_suffix k p : skip_indent k p `suffix_of` p.
Proof.
  revert k; induction p as [|c p IH]; intros k; cbn; [done|].
  destruct ((0 <? k) && is_space_or_tab c); [|done].
  by apply suffix_cons_r.
Qed.

Lemma skip_while_suffix f p : skip_while f p `suffix_of` p.
Proof.
  induction p as [|c p IH]; cbn; [done|].
  destruct (f c); [by apply suffix_cons_r|done].
Qed.

Lemma skip_one_suffix f p : skip_one f p `suffix_of` p.
Proof.
  destruct p as [|c p]; cbn; [done|].
  destruct (f c); [by apply suffix_cons_r|done].
Qed.

Lemma skip_prefix_suffix k p : skip_prefix k p `suffix_of` p.
Proof.
  revert k; induction p as [|c p IH]; intros k; cbn; [done|].
  destruct ((0 <? k) && is_line_prefix c); [|done].
  by apply suffix_cons_r.
Qed.

Lemma after_line_suffix p : after_line p `suffix_of` p.
Proof.
  induction p as [|c p IH]; cbn; [done|].
  destruct (Ascii.eqb c "010"); by apply suffix_cons_r.
Qed.

Lemma after_line_shorter p :
  p <> [] -> (length (after_line p) < length p)%nat.
Proof.
  intros Hp. destruct p as [|c p]; [done|]. cbn.
  destruct (Ascii.eqb c "010"); [lia|].
  pose proof (suffix_length _ _ (after_line_suffix p)). lia.
Qed.

Lemma after_line_skip_while f p :
  f "010"%char = false -> after_line (skip_while f p) = after_line p.
Proof.
  intros Hf. induction p as [|c p IH]; cbn; [done|].
  destruct (f c) eqn:E; [|done].
  destruct (Ascii.eqb_spec c "010") as [->|]; [congruence|done].
Qed.

Lemma after_line_skip_one f p :
  f "010"%char = false -> after_line (skip_one f p) = after_line p.
Proof.
  intros Hf. destruct p as [|c p]; cbn; [done|].
  destruct (f c) eqn:E; [|done].
  destruct (Ascii.eqb_spec c "010") as [->|]; [congruence|done].
Qed.

Lemma after_line_skip_prefix k p :
  after_line (skip_prefix k p) = after_line p.
Proof.
  revert k; induction p as [|c p IH]; intros k; cbn; [done|].
  destruct ((0 <? k) && is_line_prefix c) eqn:E; [|done].
  destruct (Ascii.eqb_spec c "010") as [->|]; [|done].
  apply andb_true_iff in E as [_ E]. done.
Qed.

Lemma suffix_take_app (q p : list ascii) :
  q `suffix_of` p -> p = take (length p - length q) p ++ q.
Proof.
  intros [k ->]. rewrite length_app.
  replace (length k + length q - length q)%nat with (length k) by lia.
  by rewrite take_app_length.
Qed.

(** One round of [comment_line] copies a piece [t] of the text between
    [p] and the next line start [q], which is where the next round
    begins; the range handed to [ret.insert] is never reversed. *)
Lemma comment_line_spec col pad p ret :
  exists pad' a t,
    comment_line col (pad, p, ret) = (pad', after_line (skip_indent ((col - 1) mod 2 ^ 32) p), ret ++ t)
    /\ p = a ++ t ++ after_line (skip_indent ((col - 1) mod 2 ^ 32) p).
Proof.
  unfold comment_line.
  set (p0 := skip_indent _ p). set (q := after_line p0).
  destruct (skip_indent_suffix ((col - 1) mod 2 ^ 32) p) as [a0 Ha0].
  fold p0 in Ha0.
  destruct (pad <? 0).
  - set (p1 := skip_one _ (skip_one _ (skip_while _ p0))).
    assert (Hq : after_line p1 = q).
    { unfold p1. by rewrite !after_line_skip_one, after_line_skip_while. }
    assert (Hs1 : p1 `suffix_of` p0).
    { unfold p1. etrans; [apply skip_one_suffix|].
      etrans; [apply skip_one_suffix|]. apply skip_while_suffix. }
    assert (Hs2 : q `suffix_of` p1).
    { rewrite <- Hq. apply after_line_suffix. }
    destruct Hs1 as [a1 Ha1].
    destruct (Nat.eqb_spec (length p1) (S (length q))) as [El|El].
    + exists pad, (a0 ++ a1 ++ take 1 p1), [].
      destruct Hs2 as [k Hk].
      assert (length k = 1%nat) by (rewrite Hk, length_app in El; lia).
      destruct k as [|c [|??]]; try done.
      rewrite Hk. cbn. rewrite Nat.sub_diag, take_0. split; [done|].
      rewrite Ha0, Ha1, Hk. cbn. by rewrite <- !app_assoc.
    + eexists _, (a0 ++ a1), (take (length p1 - length q) p1).
      split; [done|].
      rewrite <- !app_assoc, <- (suffix_take_app q p1 Hs2). by rewrite Ha0, Ha1.
  - set (p1 := skip_prefix pad p0).
    assert (Hs2 : q `suffix_of` p1).
    { unfold q. rewrite <- (after_line_skip_prefix pad p0). apply after_line_suffix. }
    destruct (skip_prefix_suffix pad p0) as [a1 Ha1]. fold p1 in Ha1.
    exists pad, (a0 ++ a1), (take (length p1 - length q) p1).
    split; [done|].
    rewrite <- !app_assoc, <- (suffix_take_app q p1 Hs2). by rewrite Ha0, Ha1.
Qed.

Lemma next_line_shorter k p :
  p <> [] -> (length (after_line (skip_indent k p)) < length p)%nat.
Proof.
  intros Hp. pose proof (suffix_length _ _ (skip_indent_suffix k p)).
  destruct (skip_indent k p) as [|c p'] eqn:E.
  - cbn. destruct p; [done|cbn; lia].
  - pose proof (after_line_shorter (c :: p') ltac:(done)). lia.
Qed.

Lemma comment_lines_sublist fuel col pad p ret consumed :
  ret `sublist_of` consumed ->
  comment_lines fuel col (pad, p, ret) `sublist_of` consumed ++ p.
Proof.
  revert pad p ret consumed.
  induction fuel as [|fuel IH]; intros pad p ret consumed Hs; cbn [comment_lines snd fst].
  - by apply sublist_inserts_r.
  - destruct p as [|c p']; [by rewrite app_nil_r|].
    destruct (comment_line_spec col pad (c :: p') ret) as (pad' & a & t & Hc & Hp).
    rewrite Hc. remember (after_line _) as q eqn:Eq in Hp |- *.
    rewrite Hp, !app_assoc. apply IH.
    apply sublist_app; [by apply sublist_inserts_r|done].
Qed.

(** The rounds end: once the fuel reaches the length of the remaining
    text, more fuel changes nothing. *)
Lemma comment_lines_fuel n m col pad p ret :
  (length p <= n)%nat -> (length p <= m)%nat ->
  comment_lines n col (pad, p, ret) = comment_lines m col (pad, p, ret).
Proof.
  revert m pad p ret.
  induction n as [|n IH]; intros m pad p ret Hn Hm.
  - destruct p; [|cbn in Hn; lia]. by destruct m.
  - destruct p as [|c p']; [by destruct m|].
    destruct m as [|m]; [cbn in Hm; lia|].
    cbn [comment_lines snd fst].
    destruct (comment_line_spec col pad (c :: p') ret) as (pad' & a & t & Hc & _).
    rewrite Hc.
    pose proof (next_line_shorter ((col - 1) mod 2 ^ 32) (c :: p') ltac:(done)).
    cbn [length] in *. apply IH; lia.
Qed.

Lemma pop_spaces_prefix ret : pop_spaces ret `prefix_of` ret.
Proof.
  unfold pop_spaces.
  destruct (skip_while_suffix isspace (rev ret)) as [k Hk].
  exists (rev k). rewrite <- rev_app_distr, <- Hk. by rewrite rev_involutive.
Qed.

Lemma pop_spaces_sublist ret : pop_spaces ret `sublist_of` ret.
Proof.
  destruct (pop_spaces_prefix ret) as [k Hk]. rewrite Hk at 2.
  by apply sublist_inserts_r.
Qed.

Lemma skip_while_head f p c : head (skip_while f p) = Some c -> f c = false.
Proof.
  induction p as [|x p IH]; cbn; [done|].
  destruct (f x) eqn:E; [done|]. cbn. congruence.
Qed.

Lemma pop_spaces_last ret c :
  last (pop_spaces ret) = Some c -> isspace c = false.
Proof.
  unfold pop_spaces.
  destruct (skip_while isspace (rev ret)) as [|x l] eqn:E; [done|].
  cbn [rev]. rewrite last_snoc. intros [= ->].
  apply (skip_while_head isspace (rev ret)). by rewrite E.
Qed.

Lemma list_ascii_of_string_of_list l :
  list_ascii_of_string (string_of_list_ascii l) = l.
Proof. apply list_ascii_of_string_of_list_ascii. Qed.

(** X13: the text [getComment] returns never ends in a white-space
    character: whatever the raw comment and the column are, the last
    character of the result, if there is one, is not a space, tab, newline,
    vertical tab, form feed or carriage return. *)
Theorem getComment_no_trailing_space Raw start_column c :
  last (list_ascii_of_string (getComment_text Raw start_column)) = Some c ->
  isspace c = false.
Proof.
  unfold getComment_text. rewrite list_ascii_of_string_of_list.
  apply pop_spaces_last.
Qed.

Lemma getComment_no_trailing_space_witness :
  last (list_ascii_of_string (getComment_text "/// hello world " 1)) = Some "d"%char
  /\ isspace "d" = false.
Proof.
  split; [reflexivity|].
  apply (getComment_no_trailing_space "/// hello world " 1). reflexivity.
Defined.

(** X14: [getComment] only removes characters: the text it returns is a
    subsequence of the raw text of the comment (its characters, in their
    order), so it is never longer than the raw text; and the loop over the
    lines has ended, since any number of rounds not below the length of the
    raw text gives the same text. *)
Theorem getComment_subsequence Raw start_column :
  list_ascii_of_string (getComment_text Raw start_column)
    `sublist_of` list_ascii_of_string Raw
  /\ (String.length (getComment_text Raw start_column) <= String.length Raw)%nat
  /\ forall n pad ret,
       (String.length Raw <= n)%nat ->
       comment_lines n start_column (pad, list_ascii_of_string Raw, ret)
       = comment_lines (String.length Raw) start_column
           (pad, list_ascii_of_string Raw, ret).
Proof.
  assert (Hs : list_ascii_of_string (getComment_text Raw start_column)
                 `sublist_of` list_ascii_of_string Raw).
  { unfold getComment_text. rewrite list_ascii_of_string_of_list.
    set (raw := list_ascii_of_string Raw).
    set (r0 := comment_lines _ _ _).
    assert (H0 : r0 `sublist_of` raw).
    { apply (comment_lines_sublist _ _ _ raw [] []). done. }
    set (r1 := pop_spaces r0).
    assert (H1 : r1 `sublist_of` raw).
    { etrans; [|exact H0]. apply pop_spaces_sublist. }
    etrans; [apply pop_spaces_sublist|].
    destruct (endswith _ r1); [etrans; [apply sublist_take|done]|].
    destruct (endswith _ r1); [etrans; [apply sublist_take|done]|done]. }
  assert (Hl : forall s, String.length s = length (list_ascii_of_string s)).
  { induction s; cbn; congruence. }
  split_and!; [done| |].
  - rewrite !Hl. by apply sublist_length.
  - intros n pad ret Hn. rewrite Hl in *.
    apply comment_lines_fuel; [done|apply Nat.le_refl].
Qed.

Lemma getComment_subsequence_witness :
  comment_lines 40 1 (-1, list_ascii_of_string "/// hello world ", [])
  = comment_lines 16 1 (-1, list_ascii_of_string "/// hello world ", []).
Proof.
  apply (proj2 (proj2 (getComment_subsequence "/// hello world " 1)) 40%nat).
  cbn. lia.
Defined.
(** ** Replacing inside a string *)

Lemma substring_length (s : string) n m :
  String.length (substring n m s) = Nat.min m (String.length s - n).
Proof.
  revert n m; induction s as [|c s IH]; intros [|n] [|m]; cbn; try done;
    rewrite ?IH, ?Nat.sub_0_r; try done; apply IH.
Qed.

Lemma get_beyond (s : string) n :
  (String.length s <= n)%nat -> String.get n s = None.
Proof.
  revert n; induction s as [|c s IH]; intros [|n] H; cbn in *; try done; try lia.
  apply IH. lia.
Qed.

Lemma substring_eq_iff (pat s : string) k :
  substring k (String.length pat) s = pat <->
  forall t, (t < String.length pat)%nat -> String.get (t + k) s = String.get t pat.
Proof.
  split.
  - intros H t Ht. by rewrite <- (substring_correct1 s k _ t Ht), H.
  - intros H. apply get_correct. intros n.
    destruct (Nat.lt_ge_cases n (String.length pat)) as [Hn|Hn].
    + rewrite (substring_correct1 s k _ n Hn). by apply H.
    + rewrite (substring_correct2 s k _ n Hn). symmetry. by apply get_beyond.
Qed.

Lemma string_replace_length pos len str s :
  (pos + len <= String.length s)%nat ->
  (String.length (string_replace pos len str s) + len
   = String.length s + String.length str)%nat.
Proof.
  intros H. unfold string_replace.
  rewrite !string_length_app, !substring_length. lia.
Qed.

Lemma get_replace_l pos len str s n :
  (pos <= String.length s)%nat -> (n < pos)%nat ->
  String.get n (string_replace pos len str s) = String.get n s.
Proof.
  intros Hp Hn. unfold string_replace.
  rewrite get_app_l by (rewrite substring_length; lia).
  rewrite (substring_correct1 s 0 pos n Hn). by rewrite Nat.add_0_r.
Qed.

Lemma get_replace_m pos len str s n :
  (pos <= String.length s)%nat -> (n < String.length str)%nat ->
  String.get (pos + n) (string_replace pos len str s) = String.get n str.
Proof.
  intros Hp Hn. unfold string_replace.
  assert (Hl : String.length (substring 0 pos s) = pos)
    by (rewrite substring_length; lia).
  rewrite <- Hl at 1. rewrite get_app_r. by apply get_app_l.
Qed.

Lemma get_replace_r pos len str s n :
  (pos + len <= String.length s)%nat ->
  String.get (pos + String.length str + n) (string_replace pos len str s)
  = String.get (pos + len + n) s.
Proof.
  intros Hp. unfold string_replace.
  assert (Hl : String.length (substring 0 pos s) = pos)
    by (rewrite substring_length; lia).
  rewrite <- Hl at 1. rewrite <- Nat.add_assoc, get_app_r, get_app_r.
  destruct (Nat.lt_ge_cases n (String.length s - (pos + len))) as [Hn|Hn].
  - rewrite (substring_correct1 s _ _ n Hn). f_equal. lia.
  - rewrite (substring_correct2 s _ _ n Hn). symmetry. apply get_beyond. lia.
Qed.

(** An occurrence of [pat] that ends before the replaced part was there
    before the replacement. *)
Lemma occurrence_before_replace pat pos len str s k :
  (pos <= String.length s)%nat ->
  (k + String.length pat <= pos)%nat ->
  substring k (String.length pat) (string_replace pos len str s) = pat ->
  substring k (String.length pat) s = pat.
Proof.
  intros Hp Hk H. apply substring_eq_iff. intros t Ht.
  rewrite <- (proj1 (substring_eq_iff _ _ _) H t Ht).
  symmetry. apply get_replace_l; [done|lia].
Qed.

(** An occurrence of [pat] that starts after the replacement was there
    before, moved by the change of length. *)
Lemma occurrence_after_replace pat pos len str s k :
  (pos + len <= String.length s)%nat ->
  substring (pos + String.length str + k) (String.length pat)
    (string_replace pos len str s) = pat ->
  substring (pos + len + k) (String.length pat) s = pat.
Proof.
  intros Hp H. apply substring_eq_iff. intros t Ht.
  rewrite <- (proj1 (substring_eq_iff _ _ _) H t Ht).
  replace (t + (pos + len + k))%nat with (pos + len + (t + k))%nat by lia.
  replace (t + (pos + String.length str + k))%nat
    with (pos + String.length str + (t + k))%nat by lia.
  symmetry. by apply get_replace_r.
Qed.

Lemma no_occurrence_index (pat s : string) i :
  pat <> ""%string ->
  (forall k, (k < i)%nat -> substring k (String.length pat) s <> pat) ->
  String.index i pat s = None ->
  String.index 0 pat s = None.
Proof.
  intros Hne Hinv Hi.
  destruct (String.index 0 pat s) as [m|] eqn:E; [|done].
  destruct (index_found _ _ _ _ Hne E) as (_ & Hm & _).
  destruct (Nat.lt_ge_cases m i) as [Hlt|Hge].
  - by destruct (Hinv m Hlt).
  - by destruct (index_correct3 _ _ _ _ Hi Hne Hge).
Qed.

Lemma index_none_no_occurrence (pat s : string) k :
  pat <> ""%string -> String.index 0 pat s = None ->
  substring k (String.length pat) s <> pat.
Proof. intros Hne H. apply (index_correct3 0 k pat s H Hne). lia. Qed.

Lemma first_occurrence (pat s : string) i j :
  pat <> ""%string ->
  (forall k, (k < i)%nat -> substring k (String.length pat) s <> pat) ->
  String.index i pat s = Some j ->
  forall k, (k < j)%nat -> substring k (String.length pat) s <> pat.
Proof.
  intros Hne Hinv Hi k Hk.
  destruct (Nat.lt_ge_cases k i) as [Hlt|Hge]; [by apply Hinv|].
  by apply (index_correct2 _ _ _ _ Hi k).
Qed.
(** ** [simplifyAnonymous] *)

Lemma anonymous_paren_first t :
  (1 <= t < 11)%nat -> String.get t "(anonymous " <> Some "("%char.
Proof.
  intros [H1 H2].
  do 11 (destruct t as [|t]; [first [lia | by cbn] |]). lia.
Qed.

Lemma anonymous_nonempty : "(anonymous "%string <> ""%string.
Proof. done. Qed.

Lemma anonymous_no_brace t : String.get t "(anonymous " <> Some "{"%char.
Proof.
  do 11 (destruct t as [|t]; [by cbn|]). by cbn.
Qed.

(** Shortening the occurrence at [j] leaves no occurrence that starts at
    or before [j]. *)
Lemma simplifyAnonymous_replace_inv s j len str :
  substring j 11 s = "(anonymous "%string ->
  (forall k, (k < j)%nat -> substring k 11 s <> "(anonymous "%string) ->
  (S j + len <= String.length s)%nat ->
  String.get (S j + 4) (string_replace (S j) len str s) = Some " "%char ->
  forall k, (k < S j)%nat ->
    substring k 11 (string_replace (S j) len str s) <> "(anonymous "%string.
Proof.
  intros Hj Hbefore Hlen Hsp k Hk H.
  pose proof (proj1 (substring_eq_iff "(anonymous " _ k) H) as Hget.
  pose proof (proj1 (substring_eq_iff "(anonymous " _ j) Hj) as Hold.
  change (String.length "(anonymous ") with 11%nat in *.
  destruct (decide (k = j)) as [->|Hne].
  - specialize (Hget 5%nat ltac:(lia)).
    replace (5 + j)%nat with (S j + 4)%nat in Hget by lia.
    rewrite Hsp in Hget. by cbn in Hget.
  - destruct (Nat.le_gt_cases (k + 11) (S j)) as [Hfar|Hnear].
    + apply (Hbefore k ltac:(lia)).
      apply (occurrence_before_replace "(anonymous " (S j) len str s k); [lia|done|done].
    + specialize (Hget (j - k)%nat ltac:(lia)).
      replace (j - k + k)%nat with j in Hget by lia.
      rewrite get_replace_l in Hget by lia.
      specialize (Hold 0%nat ltac:(lia)). cbn [Nat.add] in Hold.
      rewrite Hold in Hget. symmetry in Hget.
      exact (anonymous_paren_first (j - k) ltac:(lia) Hget).
Qed.

Lemma simplifyAnonymous_loop_spec fuel i s :
  (String.length s - i < fuel)%nat ->
  (forall k, (k < i)%nat -> substring k 11 s <> "(anonymous "%string) ->
  String.index 0 "(anonymous " (simplifyAnonymous_loop fuel i s) = None
  /\ (String.length (simplifyAnonymous_loop fuel i s) <= String.length s)%nat.
Proof.
  revert i s. induction fuel as [|fuel IH]; intros i s Hf Hinv; [lia|].
  cbn [simplifyAnonymous_loop].
  destruct (String.index i "(anonymous " s) as [j|] eqn:Ei.
  2:{ split; [|apply Nat.le_refl]. exact (no_occurrence_index "(anonymous " s i anonymous_nonempty Hinv Ei). }
  destruct (index_found _ _ _ _ anonymous_nonempty Ei) as (Hij & Hj & Hjl).
  change (String.length "(anonymous ") with 11%nat in *.
  pose proof (first_occurrence "(anonymous " s i j anonymous_nonempty Hinv Ei) as Hbefore.
  pose proof (proj1 (substring_eq_iff "(anonymous " _ j) Hj) as Hold.
  change (String.length "(anonymous ") with 11%nat in *.
  destruct ((19 <? String.length s - S j)%nat
            && String.eqb (substring (S j + 10) 9 s) "namespace") eqn:Eb.
  - apply andb_true_iff in Eb as [Eb _]. apply Nat.ltb_lt in Eb.
    pose proof (string_replace_length (S j) 19 "anon ns" s ltac:(lia)) as Hl.
    change (String.length "anon ns") with 7%nat in Hl.
    destruct (IH (S j) (string_replace (S j) 19 "anon ns" s)) as [H1 H2].
    + lia.
    + apply simplifyAnonymous_replace_inv; [done|done|lia|].
      by rewrite get_replace_m by (cbn; lia).
    + split; [done|lia].
  - pose proof (string_replace_length (S j) 9 "anon" s ltac:(lia)) as Hl.
    change (String.length "anon") with 4%nat in Hl.
    destruct (IH (S j) (string_replace (S j) 9 "anon" s)) as [H1 H2].
    + lia.
    + apply simplifyAnonymous_replace_inv; [done|done|lia|].
      change (S j + 4)%nat with (S j + String.length "anon")%nat.
      rewrite <- (Nat.add_0_r (S j + String.length "anon")).
      rewrite get_replace_r by lia.
      replace (S j + 9 + 0)%nat with (10 + j)%nat by lia.
      by rewrite (Hold 10%nat ltac:(lia)).
    + split; [done|lia].
Qed.

Lemma simplifyAnonymous_loop_fuel n m i s :
  (String.length s - i < n)%nat -> (String.length s - i < m)%nat ->
  simplifyAnonymous_loop n i s = simplifyAnonymous_loop m i s.
Proof.
  revert m i s. induction n as [|n IH]; intros m i s Hn Hm; [lia|].
  destruct m as [|m]; [lia|]. cbn [simplifyAnonymous_loop].
  destruct (String.index i "(anonymous " s) as [j|] eqn:Ei; [|done].
  destruct (index_found _ _ _ _ anonymous_nonempty Ei) as (Hij & Hj & Hjl).
  change (String.length "(anonymous ") with 11%nat in *.
  destruct ((19 <? String.length s - S j)%nat
            && String.eqb (substring (S j + 10) 9 s) "namespace") eqn:Eb.
  - apply andb_true_iff in Eb as [Eb _]. apply Nat.ltb_lt in Eb.
    pose proof (string_replace_length (S j) 19 "anon ns" s ltac:(lia)) as Hl.
    change (String.length "anon ns") with 7%nat in Hl.
    apply IH; lia.
  - pose proof (string_replace_length (S j) 9 "anon" s ltac:(lia)) as Hl.
    change (String.length "anon") with 4%nat in Hl.
    apply IH; lia.
Qed.

(** X15: [simplifyAnonymous] leaves no ["(anonymous "] in the name and never
    makes it longer; a name without ["(anonymous "] is returned as it is;
    and the loop has ended: any number of rounds above the length of the
    name gives the same text. *)
Theorem simplifyAnonymous_normal_form (name : string) :
  String.index 0 "(anonymous " (simplifyAnonymous name) = None
  /\ (String.length (simplifyAnonymous name) <= String.length name)%nat
  /\ (String.index 0 "(anonymous " name = None -> simplifyAnonymous name = name)
  /\ forall n, (String.length name < n)%nat ->
       simplifyAnonymous_loop n 0 name = simplifyAnonymous name.
Proof.
  unfold simplifyAnonymous.
  destruct (simplifyAnonymous_loop_spec (S (String.length name)) 0 name)
    as [H1 H2]; [lia|intros; lia|].
  split_and!; [done|done| |].
  - intros H. cbn [simplifyAnonymous_loop]. by rewrite H.
  - intros n Hn. apply simplifyAnonymous_loop_fuel; lia.
Qed.
Lemma simplifyAnonymous_normal_form_witness :
  simplifyAnonymous "ns::(anon struct)::f" = "ns::(anon struct)::f"%string
  /\ simplifyAnonymous "(anonymous namespace)::(anonymous struct)::f"
     = "(anon ns)::(anon struct)::f"%string.
Proof.
  split; [|reflexivity].
  exact (proj1 (proj2 (proj2 (simplifyAnonymous_normal_form "ns::(anon struct)::f")))
           eq_refl).
Defined.

(** ** The normalised text of [setName] *)

Lemma brace_newline_brace_nonempty : brace_newline_brace <> ""%string.
Proof. done. Qed.

(** Replacing the occurrence at [j] by ["{}"] leaves no occurrence that
    starts before [j]. *)
Lemma remove_brace_newline_replace_inv s j :
  (j + 3 <= String.length s)%nat ->
  (forall k, (k < j)%nat -> substring k 3 s <> brace_newline_brace) ->
  forall k, (k < j)%nat ->
    substring k 3 (string_replace j 3 "{}" s) <> brace_newline_brace.
Proof.
  intros Hl Hbefore k Hk H.
  pose proof (proj1 (substring_eq_iff brace_newline_brace _ k) H) as Hget.
  change (String.length brace_newline_brace) with 3%nat in *.
  destruct (Nat.le_gt_cases (k + 3) j) as [Hfar|Hnear].
  - apply (Hbefore k Hk).
    apply (occurrence_before_replace brace_newline_brace j 3 "{}" s k); [lia|done|done].
  - specialize (Hget (j - k)%nat ltac:(lia)).
    replace (j - k + k)%nat with (j + 0)%nat in Hget by lia.
    rewrite get_replace_m in Hget by (cbn; lia).
    assert (j - k = 1 \/ j - k = 2)%nat as [E|E] by lia; rewrite E in Hget;
      by cbn in Hget.
Qed.

(** The replacement does not bring back an ["(anonymous "]. *)
Lemma remove_brace_newline_replace_anonymous s j :
  (j + 3 <= String.length s)%nat ->
  (forall k, substring k 11 s <> "(anonymous "%string) ->
  forall k, substring k 11 (string_replace j 3 "{}" s) <> "(anonymous "%string.
Proof.
  intros Hl Hold k H.
  pose proof (proj1 (substring_eq_iff "(anonymous " _ k) H) as Hget.
  change (String.length "(anonymous ") with 11%nat in *.
  destruct (Nat.le_gt_cases (k + 11) j) as [Hfar|Hnear].
  { apply (Hold k).
    apply (occurrence_before_replace "(anonymous " j 3 "{}" s k); [lia|done|done]. }
  destruct (Nat.le_gt_cases (j + 2) k) as [Hafter|Hin].
  { apply (Hold (j + 3 + (k - (j + 2)))%nat).
    apply (occurrence_after_replace "(anonymous " j 3 "{}" s); [done|].
    change (String.length "{}") with 2%nat.
    by replace (j + 2 + (k - (j + 2)))%nat with k by lia. }
  destruct (decide (k = S j)) as [->|Hne].
  - specialize (Hget 0%nat ltac:(lia)).
    replace (0 + S j)%nat with (j + 1)%nat in Hget by lia.
    rewrite get_replace_m in Hget by (cbn; lia). by cbn in Hget.
  - specialize (Hget (j - k)%nat ltac:(lia)).
    replace (j - k + k)%nat with (j + 0)%nat in Hget by lia.
    rewrite get_replace_m in Hget by (cbn; lia).
    symmetry in Hget. exact (anonymous_no_brace _ Hget).
Qed.

Lemma remove_brace_newline_spec fuel i s :
  (String.length s - i < fuel)%nat ->
  (forall k, (k < i)%nat -> substring k 3 s <> brace_newline_brace) ->
  String.index 0 brace_newline_brace (remove_brace_newline fuel i s) = None
  /\ (String.length (remove_brace_newline fuel i s) <= String.length s)%nat
  /\ ((forall k, substring k 11 s <> "(anonymous "%string) ->
      forall k, substring k 11 (remove_brace_newline fuel i s)
                <> "(anonymous "%string).
Proof.
  revert i s. induction fuel as [|fuel IH]; intros i s Hf Hinv; [lia|].
  cbn [remove_brace_newline].
  destruct (String.index i brace_newline_brace s) as [j|] eqn:Ei.
  2:{ split_and!; [|apply Nat.le_refl|done].
      exact (no_occurrence_index _ s i brace_newline_brace_nonempty Hinv Ei). }
  destruct (index_found _ _ _ _ brace_newline_brace_nonempty Ei) as (Hij & Hj & Hjl).
  change (String.length brace_newline_brace) with 3%nat in *.
  pose proof (first_occurrence _ s i j brace_newline_brace_nonempty Hinv Ei) as Hbefore.
  pose proof (string_replace_length j 3 "{}" s Hjl) as Hl.
  change (String.length "{}") with 2%nat in Hl.
  destruct (IH j (string_replace j 3 "{}" s)) as (H1 & H2 & H3).
  - lia.
  - by apply remove_brace_newline_replace_inv.
  - split_and!; [done|lia|].
    intros Hold. apply H3. by apply remove_brace_newline_replace_anonymous.
Qed.

Lemma remove_brace_newline_fuel n m i s :
  (String.length s - i < n)%nat -> (String.length s - i < m)%nat ->
  remove_brace_newline n i s = remove_brace_newline m i s.
Proof.
  revert m i s. induction n as [|n IH]; intros m i s Hn Hm; [lia|].
  destruct m as [|m]; [lia|]. cbn [remove_brace_newline].
  destruct (String.index i brace_newline_brace s) as [j|] eqn:Ei; [|done].
  destruct (index_found _ _ _ _ brace_newline_brace_nonempty Ei) as (Hij & Hj & Hjl).
  change (String.length brace_newline_brace) with 3%nat in *.
  pose proof (string_replace_length j 3 "{}" s Hjl) as Hl.
  change (String.length "{}") with 2%nat in Hl.
  apply IH; lia.
Qed.

(** X16: the text [setName] works on, after [simplifyAnonymous] and the
    loop that turns every ["{\n}"] into ["{}"], contains neither
    ["(anonymous "] nor ["{\n}"] and is not longer than the printed text;
    and the second loop has ended: any number of rounds above the length of
    its input gives the same text. *)
Theorem setName_normalized_clean (printed : string) :
  String.index 0 "(anonymous " (setName_normalized printed) = None
  /\ String.index 0 brace_newline_brace (setName_normalized printed) = None
  /\ (String.length (setName_normalized printed) <= String.length printed)%nat
  /\ forall n, (String.length (simplifyAnonymous printed) < n)%nat ->
       remove_brace_newline n 0 (simplifyAnonymous printed)
       = setName_normalized printed.
Proof.
  unfold setName_normalized.
  destruct (simplifyAnonymous_loop_spec (S (String.length printed)) 0 printed)
    as [A1 A2]; [lia|intros; lia|].
  fold (simplifyAnonymous printed) in A1, A2.
  set (name := simplifyAnonymous printed) in *.
  destruct (remove_brace_newline_spec (S (String.length name)) 0 name)
    as (B1 & B2 & B3); [lia|intros; lia|].
  split_and!; [|done|lia|].
  - destruct (String.index 0 "(anonymous " (remove_brace_newline _ 0 name))
      as [m|] eqn:E; [|done].
    destruct (index_found _ _ _ _ anonymous_nonempty E) as (_ & Hm & _).
    destruct (B3 (fun k => index_none_no_occurrence _ name k anonymous_nonempty A1) m Hm).
  - intros n Hn. apply remove_brace_newline_fuel; lia.
Qed.

Lemma setName_normalized_clean_witness :
  remove_brace_newline 60 0
    (simplifyAnonymous ("(anonymous namespace)::S s = " +:+ brace_newline_brace))
  = setName_normalized ("(anonymous namespace)::S s = " +:+ brace_newline_brace).
Proof.
  apply (proj2 (proj2 (proj2 (setName_normalized_clean _))) 60%nat).
  vm_compute. lia.
Defined.
(** ** The language flags of an index *)

Lemma same_language_getFileLID env fid d :
  same_language d (getFileLID env fid d).2.
Proof. unfold getFileLID, same_language. by repeat case_match. Qed.

Lemma language_grows_refl d : language_grows d d.
Proof. exists 0. by rewrite Z.lor_0_r. Qed.

Lemma language_grows_trans d1 d2 d3 :
  language_grows d1 d2 -> language_grows d2 d3 -> language_grows d1 d3.
Proof.
  intros [z1 H1] [z2 H2]. exists (Z.lor z1 z2).
  by rewrite H2, H1, Z.lor_assoc.
Qed.

Lemma same_language_grows d d' : same_language d d' -> language_grows d d'.
Proof. intros H. exists 0. by rewrite Z.lor_0_r. Qed.

(** The handler ORs the language of the declaration into the flags of the
    target index and writes them nowhere else. *)
Lemma record_occurrence_language env e lid db p st' :
  record_occurrence env e lid (db, p) = Some st' ->
  language st'.1
  = Z.lor (language db) (LanguageId_to_Z (getDeclLanguage (ast env) (ev_D e))).
Proof.
  unfold record_occurrence.
  destruct (occ_locals env e lid p) as [o p1].
  set (db0 := db_set_language _ db).
  assert (Hframe : forall st, link_by_category env e o st = Some st' ->
            same_language db0 st.1 -> language st'.1 = language db0).
  { intros st Hl Hs.
    assert (H : st_frame same_language st st').
    { eapply link_by_category_frame; [..|exact Hl];
        try done; unfold same_language; congruence. }
    destruct H as [H _]. unfold same_language in *. congruence. }
  assert (Hocc : forall (f : Env -> DeclEvent -> Occ -> IndexFile * IndexParam
                              -> IndexFile * IndexParam),
            (forall st, st_frame same_language st (f env e o st)) ->
            link_by_category env e o (f env e o (db0, p1)) = Some st' ->
            language st'.1 = language db0).
  { intros f Hf Hl. apply (Hframe _ Hl). apply (Hf (db0, p1)). }
  destruct (oc_kind o); try (by intros [= <-]);
    first [apply (Hocc occ_Func) | apply (Hocc occ_Type) | apply (Hocc occ_Var)];
    intros st;
    first [apply occ_Func_frame | apply occ_Type_frame | apply occ_Var_frame];
    try done; try (unfold same_language; congruence);
    apply same_language_getFileLID.
Qed.

Lemma run_language_grows env evs p p' :
  run env evs p = Some p' -> stage_frame language_grows p p'.
Proof.
  apply run_stage_frame.
  - apply language_grows_refl.
  - apply language_grows_trans.
  - intros. by apply same_language_grows.
  - intros. by apply same_language_grows.
  - intros. by apply same_language_grows.
  - intros z d. by exists z.
  - intros. apply same_language_grows, same_language_getFileLID.
  - intros. by apply same_language_grows.
  - intros. by apply same_language_grows.
Qed.

(** The handler writes the flags before it looks at the kind of the
    declaration: after an occurrence that has a target index, the flags of
    that index are those it had, ORed with the language of the
    declaration. *)
Lemma handleDeclOccurence_language env e p p' fid key lid p1 :
  handleDeclOccurence env e p = Some p' ->
  p_no_linkage p = true \/ hasLinkage (ast env) (ev_D e) = true ->
  ev_fid e = Some fid ->
  stage_event env e fid p = (Some (key, lid), p1) ->
  exists db d',
    db_of key p1 = Some db /\ db_of key p' = Some d' /\
    language d'
    = Z.lor (language db)
        (LanguageId_to_Z (getDeclLanguage (ast env) (ev_D e))).
Proof.
  intros Hh Hl Hfid Hse. unfold handleDeclOccurence in Hh.
  assert (Hg : negb (p_no_linkage p) && negb (hasLinkage (ast env) (ev_D e))
               = false).
  { destruct Hl as [-> | ->]; [done|by rewrite andb_false_r]. }
  rewrite Hg, Hfid, Hse in Hh.
  destruct (stage_event_target env e fid p key lid p1 Hse) as [db Hdb].
  rewrite Hdb in Hh.
  destruct (record_occurrence env e lid (db, p1)) as [[d2 p3]|] eqn:Hr;
    [|done].
  cbn [mbind option_bind fst snd] in Hh. injection Hh as <-.
  pose proof (record_occurrence_language _ _ _ _ _ _ Hr) as Hlang.
  cbn [fst] in Hlang.
  assert (Hc : st_frame (fun _ _ => True) (db, p1) (d2, p3))
    by (eapply record_occurrence_frame; [..|exact Hr]; done).
  destruct Hc as [_ (Hu & _)]. cbn [snd] in Hu.
  exists db, d2. split_and!; [done| |done].
  apply (put_db_db_of key db). by rewrite (db_of_uid2file _ _ _ Hu).
Qed.

(** X17: the language flags of an index accumulate.  Every occurrence that
    the handler takes to a target index ORs the language of its declaration
    into the flags of that index, whether or not an entity is recorded for
    the declaration (the flags are written before the switch on the kind);
    during a pass the flags of an index only gain bits; so from such an
    occurrence on, the flags of the target index contain the language of
    the declaration until the end of the pass. *)
Theorem language_flags_accumulate env :
  (forall e p p' fid key lid p1,
     handleDeclOccurence env e p = Some p' ->
     p_no_linkage p = true \/ hasLinkage (ast env) (ev_D e) = true ->
     ev_fid e = Some fid ->
     stage_event env e fid p = (Some (key, lid), p1) ->
     exists db d',
       db_of key p1 = Some db /\ db_of key p' = Some d' /\
       language d'
       = Z.lor (language db)
           (LanguageId_to_Z (getDeclLanguage (ast env) (ev_D e))))
  /\ (forall evs p p' fid d d',
        run env evs p = Some p' ->
        db_of fid p = Some d -> db_of fid p' = Some d' ->
        exists z, language d' = Z.lor (language d) z)
  /\ (forall e evs p p' fid key lid p1 d',
        run env (EvDeclOccurence e :: evs) p = Some p' ->
        p_no_linkage p = true \/ hasLinkage (ast env) (ev_D e) = true ->
        ev_fid e = Some fid ->
        stage_event env e fid p = (Some (key, lid), p1) ->
        db_of key p' = Some d' ->
        exists z,
          language d'
          = Z.lor (LanguageId_to_Z (getDeclLanguage (ast env) (ev_D e))) z).
Proof.
  split_and!.
  - apply handleDeclOccurence_language.
  - intros evs p p' fid d d' Hrun Hd Hd'.
    destruct (run_language_grows _ _ _ _ Hrun) as [_ H].
    specialize (H fid d' Hd'). by rewrite Hd in H.
  - intros e evs p p' fid key lid p1 d' Hrun Hl Hfid Hse Hd'.
    cbn [run step] in Hrun.
    destruct (handleDeclOccurence env e p) as [p2|] eqn:Hh; [|done].
    cbn [mbind option_bind] in Hrun.
    destruct (handleDeclOccurence_language _ _ _ _ _ _ _ _ Hh Hl Hfid Hse)
      as (db & d2 & _ & Hd2 & Hlang).
    destruct (run_language_grows _ _ _ _ Hrun) as [_ H].
    specialize (H key d' Hd'). rewrite Hd2 in H. destruct H as [z Hz].
    exists (Z.lor (language db) z). rewrite Hz, Hlang.
    rewrite (Z.lor_comm (language db)), <- !Z.lor_assoc. done.
Qed.

(** An occurrence of a using-declaration, for which no entity is
    recorded, turns the language of a fresh index from C into C++. *)
Lemma language_flags_accumulate_witness :
  exists p' d',
    handleDeclOccurence ex_env8 ex_using (IndexParam_new true) = Some p' /\
    db_of 1 p' = Some d' /\
    language d' = LanguageId_to_Z LangCpp /\
    usr2func d' = ∅ /\ usr2type d' = ∅ /\ usr2var d' = ∅.
Proof.
  set (r := handleDeclOccurence ex_env8 ex_using (IndexParam_new true)).
  set (p' := default (IndexParam_new true) r).
  assert (Hr : r = Some p') by (by vm_compute).
  destruct (proj1 (language_flags_accumulate ex_env8) ex_using
              (IndexParam_new true) p' 1 1 (-1)
              (stage_event ex_env8 ex_using 1 (IndexParam_new true)).2
              Hr (or_introl eq_refl) eq_refl ltac:(by vm_compute))
    as (db & d' & Hdb & Hd' & Hlang).
  exists p', d'. split; [exact Hr|]. split; [exact Hd'|].
  assert (Hdb0 : db_of 1 (stage_event ex_env8 ex_using 1 (IndexParam_new true)).2
                 = Some (IndexFile_new "/src/main.cc" "" true))
    by (by vm_compute).
  rewrite Hdb0 in Hdb. injection Hdb as <-.
  split; [by rewrite Hlang|].
  assert (Hd'' : db_of 1 p' = Some (db_set_language 1
                   (IndexFile_new "/src/main.cc" "" true))) by (by vm_compute).
  rewrite Hd'' in Hd'. by injection Hd' as <-.
Defined.

(** ** Entities only grow during a pass *)

Lemma core_grows_refl c : core_grows c c.
Proof. by split_and!. Qed.

Lemma core_grows_trans c1 c2 c3 :
  core_grows c1 c2 -> core_grows c2 c3 -> core_grows c1 c3.
Proof.
  intros (? & ? & ?) (? & ? & ?). split_and!; [by etrans..|auto].
Qed.

Lemma entities_grow_refl d : entities_grow d d.
Proof. intros u. unfold func_grows, type_grows, var_grows, core_grows. by split_and!. Qed.

Lemma entities_grow_trans d1 d2 d3 :
  entities_grow d1 d2 -> entities_grow d2 d3 -> entities_grow d1 d3.
Proof.
  intros H1 H2 u. destruct (H1 u) as (Hf1 & Ht1 & Hv1).
  destruct (H2 u) as (Hf2 & Ht2 & Hv2).
  unfold func_grows, type_grows, var_grows in *.
  destruct Hf1 as (? & ? & ? & ? & ?), Hf2 as (? & ? & ? & ? & ?).
  destruct Ht1 as (? & ? & ? & ? & ? & ? & ?), Ht2 as (? & ? & ? & ? & ? & ? & ?).
  split_and!; first [by eapply core_grows_trans | by etrans].
Qed.

Lemma entities_grow_toFunc d0 usr g d :
  (forall e, func_grows e (g e)) ->
  entities_grow d0 d -> entities_grow d0 (toFunc usr g d).
Proof.
  intros Hg H. eapply entities_grow_trans; [exact H|]. intros u.
  split_and!; [|apply (entities_grow_refl d u)..].
  rewrite func_at_toFunc. case_decide; subst; [apply Hg|].
  apply (entities_grow_refl d u).
Qed.

Lemma entities_grow_toType d0 usr g d :
  (forall e, type_grows e (g e)) ->
  entities_grow d0 d -> entities_grow d0 (toType usr g d).
Proof.
  intros Hg H. eapply entities_grow_trans; [exact H|]. intros u.
  split_and!; [apply (entities_grow_refl d u)| |apply (entities_grow_refl d u)].
  rewrite type_at_toType. case_decide; subst; [apply Hg|].
  apply (entities_grow_refl d u).
Qed.

Lemma entities_grow_toVar d0 usr g d :
  (forall e, var_grows e (g e)) ->
  entities_grow d0 d -> entities_grow d0 (toVar usr g d).
Proof.
  intros Hg H. eapply entities_grow_trans; [exact H|]. intros u.
  split_and!; [apply (entities_grow_refl d u)..|].
  rewrite var_at_toVar. case_decide; subst; [apply Hg|].
  apply (entities_grow_refl d u).
Qed.

Lemma entities_grow_set_language d0 z d :
  entities_grow d0 d -> entities_grow d0 (db_set_language z d).
Proof. done. Qed.

Lemma entities_grow_getFileLID env d0 fid d :
  entities_grow d0 d -> entities_grow d0 (getFileLID env fid d).2.
Proof. intros H. unfold getFileLID. by repeat case_match. Qed.

(** Solves [forall e, func_grows e (g e)] and the like for the changes
    the callbacks make to an entity. *)
Ltac grows_side :=
  intros [];
  unfold func_grows, type_grows, var_grows, core_grows, setVarName,
    MacroDefined_var, do_def_decl;
  cbn; repeat case_match; cbn; split_and!;
  first [ reflexivity | by apply prefix_app_r | done
        | intros _; eexists; reflexivity ].

Ltac entities_grow_step :=
  lazymatch goal with
  | |- entities_grow _ (db_set_language _ _) => apply entities_grow_set_language
  | |- entities_grow _ (getFileLID _ _ _).2 => apply entities_grow_getFileLID
  | |- entities_grow _ (link_type_base _ _ _) => unfold link_type_base
  | |- entities_grow _ (link_func_base _ _ _) => unfold link_func_base
  | |- entities_grow _ (instance_of _ _ _ _) => unfold instance_of; try case_match
  | |- entities_grow _ (type_parm_record _ _ _ _ _) => unfold type_parm_record
  | |- entities_grow _ (name_anon_record _ _ _ _) =>
      unfold name_anon_record; try case_match
  | |- entities_grow _ (toFunc _ _ _) =>
      apply entities_grow_toFunc; [by grows_side|]
  | |- entities_grow _ (toType _ _ _) =>
      apply entities_grow_toType; [by grows_side|]
  | |- entities_grow _ (toVar _ _ _) =>
      apply entities_grow_toVar; [by grows_side|]
  | |- entities_grow _ _ => first [assumption | apply entities_grow_refl]
  end.
Ltac entities_grow_solve := cbn [fst snd]; repeat entities_grow_step.

Lemma entities_grow_addMacroUse_if env e d0 usr k d :
  entities_grow d0 d -> entities_grow d0 (addMacroUse_if env e usr k d).
Proof.
  intros H. unfold addMacroUse_if, addMacroUse.
  destruct (ev_macro_spell e) as [sl|]; [|done].
  pose proof (entities_grow_getFileLID env d0 sl.1 d H) as H'.
  destruct (getFileLID env sl.1 d) as [lid d1]. cbn [snd] in H'.
  destruct (lid <? 0); [done|].
  destruct k; try done; entities_grow_solve.
Qed.

Lemma link_each_grows {A} env (key : A -> Decl) link ds st :
  (forall a u d0 d, entities_grow d0 d -> entities_grow d0 (link a u d)) ->
  entities_grow st.1 (link_each env key link ds st).1.
Proof.
  intros Hlink.
  enough (forall d0, entities_grow d0 st.1 ->
            entities_grow d0 (link_each env key link ds st).1) as H
    by apply H, entities_grow_refl.
  revert st; induction ds as [|a ds IH]; intros st d0 H0; cbn [link_each];
    [done|].
  destruct (getUsr env (key a) st.2) as [info p]. apply IH. cbn [fst]. auto.
Qed.

Lemma collectRecordMembers_grows env usr members st :
  entities_grow st.1 (collectRecordMembers env usr members st).1.
Proof.
  apply link_each_grows. intros a u d0 d H. entities_grow_solve.
Qed.

Lemma link_Record_bases_grows env e o st st' :
  link_Record_bases env e o st = Some st' -> entities_grow st.1 st'.1.
Proof.
  unfold link_Record_bases. intros H.
  assert (Hall : entities_grow st.1
            (link_each env id (fun _ => link_type_base (oc_usr o))
               (ev_bases e) st).1).
  { apply link_each_grows. intros; entities_grow_solve. }
  destruct (_ && _); [|simplify_eq; apply entities_grow_refl].
  destruct (ev_bases e); [simplify_eq; apply entities_grow_refl|].
  destruct (deref _); [|done]. cbn [mbind option_bind] in H. by simplify_eq.
Qed.

Lemma link_Record_grows env e o st st' :
  link_Record env e o st = Some st' -> entities_grow st.1 st'.1.
Proof.
  unfold link_Record. intros H.
  destruct (link_Record_bases env e o st) as [[d1 p1]|] eqn:E1; [|done].
  apply link_Record_bases_grows in E1. cbn in H.
  destruct (deref _); [|done]. cbn in H.
  eapply entities_grow_trans; [exact E1|]. cbn [fst].
  destruct (_ && _); simplify_eq; [|entities_grow_solve].
  eapply entities_grow_trans;
    [|apply collectRecordMembers_grows]. entities_grow_solve.
Qed.

Lemma link_Specialization_grows env e o st st' :
  link_Specialization env e o st = Some st' -> entities_grow st.1 st'.1.
Proof.
  unfold link_Specialization. destruct st as [d p]. intros H.
  destruct (deref _); cbn in H; [|done].
  destruct (oc_is_def o); simplify_eq; [|entities_grow_solve].
  destruct (isa_RecordDecl _).
  - pose proof (collectRecordMembers_grows env (oc_usr o) (ev_members e)
                  (toType (oc_usr o) (t_upd_core (set_kind SkClass)) d, p)) as Hc.
    destruct (collectRecordMembers _ _ _ _) as [d1 p1]. cbn [fst] in Hc.
    assert (H1 : entities_grow d d1).
    { eapply entities_grow_trans; [|exact Hc]. entities_grow_solve. }
    repeat case_match; simplify_eq; entities_grow_solve.
  - repeat case_match; simplify_eq; entities_grow_solve.
Qed.

Lemma link_TypeAlias_grows env e o st st' :
  link_TypeAlias env e o st = Some st' -> entities_grow st.1 st'.1.
Proof.
  unfold link_TypeAlias. destruct st as [d p]. intros H.
  crunch; entities_grow_solve.
Qed.

Lemma link_by_category_grows env e o st st' :
  link_by_category env e o st = Some st' -> entities_grow st.1 st'.1.
Proof.
  unfold link_by_category. destruct st as [d p]. intros H.
  destruct (declKind (ast env) (oc_D o));
    try (simplify_eq; apply entities_grow_refl);
    try (by eapply link_Record_grows);
    try (by eapply link_Specialization_grows);
    try (by eapply link_TypeAlias_grows);
    cbn [fst snd] in H.
  - (* Namespace *) crunch; entities_grow_solve.
  - (* NamespaceAlias *) crunch; entities_grow_solve.
  - (* CXXMethod *)
    assert (Hall : entities_grow d
              (link_each env id (fun _ => link_func_base (oc_usr o))
                 (ev_overridden e) (d, p)).1).
    { apply (link_each_grows env id _ _ (d, p)). intros; entities_grow_solve. }
    destruct (_ || _); [|simplify_eq; apply entities_grow_refl].
    destruct (ev_overridden e); [simplify_eq; apply entities_grow_refl|].
    destruct (deref _); [|done]. cbn [mbind option_bind] in H. by simplify_eq.
  - (* EnumConstant *) crunch; entities_grow_solve.
Qed.

Ltac entities_grow_occ :=
  repeat first
    [ apply entities_grow_addMacroUse_if
    | progress entities_grow_solve
    | case_match ].

Lemma occ_Func_grows env e o st :
  entities_grow st.1 (occ_Func env e o st).1.
Proof.
  unfold occ_Func. destruct st as [d p].
  repeat case_match; simplify_eq; entities_grow_occ.
Qed.

Lemma occ_Type_grows env e o st :
  entities_grow st.1 (occ_Type env e o st).1.
Proof.
  unfold occ_Type. destruct st as [d p].
  repeat case_match; simplify_eq; entities_grow_occ.
Qed.

Lemma occ_Var_grows env e o st :
  entities_grow st.1 (occ_Var env e o st).1.
Proof.
  unfold occ_Var, link_var_type. destruct st as [d p].
  repeat case_match; simplify_eq; entities_grow_occ.
Qed.

Lemma record_occurrence_grows env e lid st st' :
  record_occurrence env e lid st = Some st' -> entities_grow st.1 st'.1.
Proof.
  unfold record_occurrence. destruct st as [d p].
  destruct (occ_locals env e lid p) as [o p1].
  set (d0 := db_set_language _ d).
  assert (H0 : entities_grow d d0) by done.
  intros H. cbn [fst].
  destruct (oc_kind o); simplify_eq; try done;
    (eapply entities_grow_trans; [|eapply link_by_category_grows; eassumption]);
    first [ apply (occ_Func_grows env e o (d0, p1))
          | apply (occ_Type_grows env e o (d0, p1))
          | apply (occ_Var_grows env e o (d0, p1)) ].
Qed.

Lemma entities_grow_getFileLID_0 env fid d :
  entities_grow d (getFileLID env fid d).2.
Proof. apply entities_grow_getFileLID, entities_grow_refl. Qed.

Lemma handleDeclOccurence_grows env e p p' :
  handleDeclOccurence env e p = Some p' -> stage_frame entities_grow p p'.
Proof.
  unfold handleDeclOccurence. intros H.
  destruct (_ && _); [simplify_eq; apply stage_frame_refl, entities_grow_refl|].
  destruct (ev_fid e) as [fid|];
    [|simplify_eq; apply stage_frame_refl, entities_grow_refl].
  assert (Hs : stage_frame entities_grow p (stage_event env e fid p).2).
  { apply (stage_event_stage_frame entities_grow entities_grow_refl
             entities_grow_trans entities_grow_getFileLID_0). }
  destruct (stage_event env e fid p) as [[[key lid]|] p1]; cbn [snd] in Hs;
    [|by simplify_eq].
  destruct (db_of key p1) as [db|] eqn:Hdb; [|by simplify_eq].
  destruct (record_occurrence env e lid (db, p1)) as [[d2 p2]|] eqn:Hr;
    cbn in H; [|done]. simplify_eq.
  pose proof (record_occurrence_grows _ _ _ _ _ Hr) as Hd.
  assert (Hc : st_frame (fun _ _ => True) (db, p1) (d2, p2))
    by (eapply record_occurrence_frame; [..|exact Hr]; done).
  destruct Hc as [_ Hc]. cbn [fst snd] in *.
  eapply stage_frame_trans; [apply entities_grow_trans|exact Hs|].
  eapply stage_frame_trans;
    [apply entities_grow_trans
    |apply (cache_only_stage_frame entities_grow entities_grow_refl _ _ Hc)|].
  eapply (put_db_stage_frame entities_grow entities_grow_refl); [|exact Hd].
  destruct Hc as (Hu & _). unfold db_of in *. by rewrite Hu.
Qed.

Lemma step_grows env ev p p' :
  step env ev p = Some p' -> stage_frame entities_grow p p'.
Proof.
  pose proof entities_grow_refl as Hrefl.
  pose proof entities_grow_trans as Htrans.
  assert (Hput : forall k F, (forall d, entities_grow d (F d)) ->
            stage_frame entities_grow p
              (let '(db, p) := consumeFile env k p in
               match db with
               | None => p
               | Some db => put_db k (F db) p
               end)).
  { intros k F HF. by apply (consume_put_stage_frame entities_grow Hrefl Htrans). }
  destruct ev as [b k | inc l k | m | n k r | n ud | r ok | k | e];
    cbn [step]; intros H; simplify_eq.
  - unfold FileChanged.
    case_match; [by apply (consumeFile_stage_frame entities_grow Hrefl)
                | by apply stage_frame_refl].
  - unfold InclusionDirective. destruct inc as [pth|];
      [|by apply stage_frame_refl].
    destruct (String.eqb pth "") eqn:Ep.
    + unfold consumeFile.
      pose proof (seenFile_stage_frame entities_grow Hrefl env k p) as Hs.
      by destruct (db_of k (seenFile env k p)).
    + by apply (Hput k (db_push_include (l, pth))).
  - apply (Hput (md_fid m)
             (toVar (getMacro env (md_Name m))
                (v_upd_core (MacroDefined_var (config env) m)))).
    intros d. entities_grow_solve.
  - apply (Hput k
             (toVar (getMacro env n)
                (v_upd_core (push_use (Use_default r Role.Dynamic))))).
    intros d. entities_grow_solve.
  - unfold MacroUndefined. destruct ud as [[k r]|];
      [|by apply stage_frame_refl].
    apply (Hput k
             (toVar (getMacro env n)
                (v_upd_core (push_use (Use_default r Role.Dynamic))))).
    intros d. entities_grow_solve.
  - unfold SourceRangeSkipped. destruct ok as [k|];
      [|by apply stage_frame_refl].
    by apply (Hput k (db_push_skipped r)).
  - by apply (shouldSkipFunctionBody_stage_frame entities_grow Hrefl Htrans).
  - by eapply handleDeclOccurence_grows.
Qed.

Lemma run_grows env evs p p' :
  run env evs p = Some p' -> stage_frame entities_grow p p'.
Proof.
  revert p; induction evs as [|ev evs IH]; intros p; cbn [run].
  - intros [= <-]. apply stage_frame_refl, entities_grow_refl.
  - destruct (step env ev p) as [p1|] eqn:E; [|done]. cbn. intros H.
    eapply stage_frame_trans;
      [apply entities_grow_trans | by eapply step_grows | by apply IH].
Qed.

(** X18: during a pass nothing recorded in an index is dropped.  For an
    index present before and after any sequence of callbacks, every entity
    has its earlier declarations, uses, bases, derived, member, callee and
    instance lists as prefixes of the later ones, and a definition record
    ([def.spell]) that was set is still set. *)
Theorem entities_only_grow env evs p p' fid d d' :
  run env evs p = Some p' ->
  db_of fid p = Some d ->
  db_of fid p' = Some d' ->
  forall u,
    func_grows (func_at u d) (func_at u d') /\
    type_grows (type_at u d) (type_at u d') /\
    var_grows (var_at u d) (var_at u d').
Proof.
  intros Hrun Hd Hd'.
  destruct (run_grows _ _ _ _ Hrun) as [_ H].
  specialize (H fid d' Hd'). by rewrite Hd in H.
Qed.

Lemma entities_only_grow_witness :
  exists p' d d',
    run ex_env [EvDeclOccurence ex_binding]
      (FileChanged ex_env true 1 (IndexParam_new true)) = Some p' /\
    db_of 1 (FileChanged ex_env true 1 (IndexParam_new true)) = Some d /\
    db_of 1 p' = Some d' /\
    forall u,
      func_grows (func_at u d) (func_at u d') /\
      type_grows (type_at u d) (type_at u d') /\
      var_grows (var_at u d) (var_at u d').
Proof.
  set (p := FileChanged ex_env true 1 (IndexParam_new true)).
  set (r := run ex_env [EvDeclOccurence ex_binding] p).
  set (p' := default p r).
  set (d := default (IndexFile_new "" "" true) (db_of 1 p)).
  set (d' := default (IndexFile_new "" "" true) (db_of 1 p')).
  assert (Hr : r = Some p') by (by vm_compute).
  assert (Hd : db_of 1 p = Some d) by (by vm_compute).
  assert (Hd' : db_of 1 p' = Some d') by (by vm_compute).
  exists p', d, d'. split; [exact Hr|]. split; [exact Hd|]. split; [exact Hd'|].
  exact (entities_only_grow ex_env [EvDeclOccurence ex_binding] p p' 1 d d'
           Hr Hd Hd').
Defined.
(** ** The field walk of [collectRecordMembers] *)

Section member_walk_facts.
Context (rs : RecordInfo).

(** What one record contributes: its named fields, in order, and the
    records of its unnamed fields that were not seen before, each once. *)
Lemma fold_member_step offset fields Stack Seen vars :
  exists pushed named,
    fold_left (member_step offset) fields (Stack, Seen, vars)
    = (pushed ++ Stack, list_to_set (fst <$> pushed) ∪ Seen, vars ++ named) /\
    (fst <$> named) = fd_decl <$> filter (fun f => fd_named f = true) fields /\
    NoDup (fst <$> pushed) /\
    (forall R, R ∈ (fst <$> pushed) ->
       (R ∉ Seen) /\ exists f, f ∈ fields /\ fd_record f = Some R) /\
    (offset < 0 -> forall x, x ∈ pushed ++ named -> x.2 = -1).
Proof.
  revert Stack Seen vars.
  induction fields as [|f fields IH]; intros Stack Seen vars.
  { exists [], []. split_and!; try done.
    - assert (Hs : list_to_set (fst <$> ([] : list (Decl * Z))) ∪ Seen
                   = Seen :> gset Decl) by set_solver.
      by rewrite Hs, app_nil_r.
    - constructor.
    - intros R HR. by apply elem_of_nil in HR.
    - intros _ x Hx. by apply elem_of_nil in Hx. }
  cbn [fold_left]. unfold member_step at 2.
  set (offset1 := if offset <? 0 then -1
                  else to_int32 ((offset + fd_offset f) mod 2 ^ 64)).
  assert (Ho : offset < 0 -> offset1 = -1).
  { intros H. unfold offset1. by rewrite (proj2 (Z.ltb_lt _ _) H). }
  rewrite filter_cons.
  destruct (fd_named f) eqn:En.
  - destruct (IH Stack Seen (vars ++ [(fd_decl f, offset1)]))
      as (pushed & named & -> & Hn & Hnd & Hp & Hoff).
    exists pushed, ((fd_decl f, offset1) :: named).
    rewrite decide_True by done.
    split_and!; [by rewrite <- app_assoc|by rewrite fmap_cons, Hn|done| |].
    + intros R HR. destruct (Hp R HR) as (? & f' & ? & ?).
      split; [done|]. exists f'. split; [by right|done].
    + intros Hlt x Hx. apply elem_of_app in Hx as [Hx|Hx].
      * apply (Hoff Hlt). apply elem_of_app. by left.
      * apply elem_of_cons in Hx as [->|Hx]; [by apply Ho|].
        apply (Hoff Hlt). apply elem_of_app. by right.
  - rewrite decide_False by done.
    assert (Hskip : forall st,
              st = (Stack, Seen, vars) ->
              exists pushed named,
                fold_left (member_step offset) fields st
                = (pushed ++ Stack, list_to_set (fst <$> pushed) ∪ Seen, vars ++ named) /\
                (fst <$> named) = fd_decl <$> filter (fun f => fd_named f = true) fields /\
                NoDup (fst <$> pushed) /\
                (forall R, R ∈ (fst <$> pushed) ->
                   (R ∉ Seen) /\ exists f', f' ∈ f :: fields /\ fd_record f' = Some R) /\
                (offset < 0 -> forall x, x ∈ pushed ++ named -> x.2 = -1)).
    { intros st ->.
      destruct (IH Stack Seen vars) as (pushed & named & -> & Hn & Hnd & Hp & Hoff).
      exists pushed, named. split_and!; try done.
      intros R HR. destruct (Hp R HR) as (? & f' & ? & ?).
      split; [done|]. exists f'. split; [by right|done]. }
    destruct (fd_record f) as [RD1|] eqn:Er; [|by apply Hskip].
    case_bool_decide as Hin; [by apply Hskip|].
    destruct (IH ((RD1, offset1) :: Stack) ({[RD1]} ∪ Seen) vars)
      as (pushed & named & -> & Hn & Hnd & Hp & Hoff).
    exists (pushed ++ [(RD1, offset1)]), named.
    split_and!.
    + assert (Hs : list_to_set (fst <$> pushed) ∪ ({[RD1]} ∪ Seen)
                   = list_to_set (fst <$> pushed ++ [(RD1, offset1)]) ∪ Seen :> gset Decl)
        by (rewrite fmap_app, list_to_set_app_L; cbn; set_solver).
      by rewrite Hs, <- app_assoc.
    + done.
    + rewrite fmap_app. apply NoDup_app. split_and!; [done| |by apply NoDup_singleton].
      intros R HR. cbn. intros ->%list_elem_of_singleton.
      destruct (Hp RD1 HR) as [Hn' _]. set_solver.
    + intros R. rewrite fmap_app. intros [HR|HR]%elem_of_app.
      * destruct (Hp R HR) as (Hn' & f' & ? & ?).
        split; [set_solver|]. exists f'. split; [by right|done].
      * cbn in HR. apply list_elem_of_singleton in HR as ->.
        split; [done|]. exists f. split; [by left|done].
    + intros Hlt x Hx. rewrite <- app_assoc in Hx.
      apply elem_of_app in Hx as [Hx|Hx].
      * apply (Hoff Hlt). apply elem_of_app. by left.
      * cbn in Hx. apply elem_of_cons in Hx as [->|Hx]; [by apply Ho|].
        apply (Hoff Hlt). apply elem_of_app. by right.
Qed.


Lemma size_unseen (U Seen : gset Decl) (l : list Decl) :
  NoDup l -> (forall R, R ∈ l -> R ∈ U /\ R ∉ Seen) ->
  (size (U ∖ (list_to_set l ∪ Seen)) + length l = size (U ∖ Seen))%nat.
Proof.
  intros Hnd Hl.
  assert (Heq : U ∖ Seen = (U ∖ (list_to_set l ∪ Seen)) ∪ list_to_set l).
  { apply set_eq. intros x. rewrite elem_of_union, !elem_of_difference,
      elem_of_union, elem_of_list_to_set.
    destruct (decide (x ∈ l)) as [Hx|Hx]; [|tauto].
    destruct (Hl x Hx). tauto. }
  rewrite Heq.
  rewrite (size_union (U ∖ (list_to_set l ∪ Seen)) (list_to_set l)) by set_solver.
  by rewrite (size_list_to_set (C := gset Decl)) by done.
Qed.

Lemma validate_fields_mono (rec rec' : Decl -> option bool) fields b :
  (forall R b, rec R = Some b -> rec' R = Some b) ->
  validate_fields rec fields = Some b -> validate_fields rec' fields = Some b.
Proof.
  intros Hrec. induction fields as [|f fields IH]; cbn; [done|].
  destruct (fd_incomplete f); [done|].
  destruct (fd_record f) as [Child|]; [|done].
  destruct (rec Child) as [[]|] eqn:E; [| |done];
    rewrite (Hrec _ _ E); [done|done].
Qed.

(** More fuel does not change an answer of [validateRecord]. *)
Lemma validateRecord_mono n m RD b :
  (n <= m)%nat -> validateRecord rs n RD = Some b ->
  validateRecord rs m RD = Some b.
Proof.
  revert m RD b. induction n as [|n IH]; intros m RD b Hm; [done|].
  destruct m as [|m]; [lia|]. cbn [validateRecord].
  apply validate_fields_mono. intros R b'. apply IH. lia.
Qed.

Lemma validate_fields_returns (rec : Decl -> option bool) fields :
  (forall f R, f ∈ fields -> fd_record f = Some R -> is_Some (rec R)) ->
  is_Some (validate_fields rec fields).
Proof.
  induction fields as [|f fields IH]; intros H; cbn; [by eexists|].
  destruct (fd_incomplete f); [by eexists|].
  assert (IH' : is_Some (validate_fields rec fields)).
  { apply IH. intros f' R Hf'. apply H. by right. }
  destruct (fd_record f) as [Child|] eqn:E; [|done].
  destruct (H f Child ltac:(by left) E) as [[] ->]; [done|by eexists].
Qed.

Context (U : gset Decl).
Hypothesis U_closed :
  forall R f R1, R ∈ U -> f ∈ record_fields rs R -> fd_record f = Some R1 ->
                 R1 ∈ U.

(** On records that do not contain themselves, directly or through
    others, [validateRecord] returns. *)
Lemma validateRecord_returns (rank : Decl -> nat) n RD :
  (forall R f R1, R ∈ U -> f ∈ record_fields rs R -> fd_record f = Some R1 ->
                  (rank R1 < rank R)%nat) ->
  RD ∈ U -> (rank RD < n)%nat -> is_Some (validateRecord rs n RD).
Proof.
  intros Hrank. revert RD. induction n as [|n IH]; intros RD HRD Hn; [lia|].
  cbn [validateRecord]. apply validate_fields_returns.
  intros f R Hf Hr. apply IH; [by eapply U_closed|].
  specialize (Hrank RD f R HRD Hf Hr). lia.
Qed.

Context (vfuel : nat).
Hypothesis validate_returns :
  forall R off, R ∈ U -> is_Some (record_offset rs vfuel R off).

(** The walk takes every record from the stack once and ends within as
    many rounds as there are records on the stack or not yet seen. *)
Lemma member_walk_spec fuel Stack Seen vars done :
  Seen ⊆ U ->
  NoDup (done ++ (fst <$> Stack)) ->
  (forall R, R ∈ done ++ (fst <$> Stack) -> R ∈ Seen) ->
  (fst <$> vars) = concat (named_fields rs <$> done) ->
  (length Stack + size (U ∖ Seen) <= fuel)%nat ->
  exists vars' done',
    member_walk rs fuel vfuel Stack Seen vars = Some vars' /\
    done ++ take 1 (fst <$> Stack) `prefix_of` done' /\
    NoDup done' /\ (forall R, R ∈ done' -> R ∈ U) /\
    (fst <$> vars') = concat (named_fields rs <$> done').
Proof.
  revert Stack Seen vars done.
  induction fuel as [|fuel IH]; intros Stack Seen vars done HU Hnd Hin Hv Hf.
  { destruct Stack as [|[R off] Stack]; [|cbn in Hf; lia].
    exists vars, done. cbn. rewrite !app_nil_r in *.
    split_and!; try done. intros R HR. apply HU. by apply Hin. }
  destruct Stack as [|[R off] Stack].
  { exists vars, done. cbn. rewrite !app_nil_r in *.
    split_and!; try done. intros R HR. apply HU. by apply Hin. }
  cbn [member_walk].
  assert (HR : R ∈ U).
  { apply HU, Hin. apply elem_of_app. right. cbn. by left. }
  destruct (validate_returns R off HR) as [offset ->].
  destruct (fold_member_step offset (record_fields rs R) Stack Seen vars)
    as (pushed & named & -> & Hn & Hpd & Hp & _).
  assert (HpU : forall R1, R1 ∈ fst <$> pushed -> R1 ∈ U /\ R1 ∉ Seen).
  { intros R1 H1. destruct (Hp R1 H1) as (? & f & ? & ?). eauto. }
  cbn [fmap list_fmap fst] in Hnd, Hin.
  destruct (IH (pushed ++ Stack) (list_to_set (fst <$> pushed) ∪ Seen)
              (vars ++ named) (done ++ [R])) as (vars' & done' & -> & Hpre & ? & ? & ?).
  - intros x [Hx|Hx]%elem_of_union; [|by apply HU].
    apply elem_of_list_to_set in Hx. by apply HpU.
  - rewrite fmap_app, <- app_assoc. cbn.
    apply NoDup_app in Hnd as (Hd1 & Hd2 & Hd3).
    apply NoDup_cons in Hd3 as [Hd3 Hd4].
    apply NoDup_app. split_and!; [done| |].
    + intros x Hx [->|[Hx'|Hx']%elem_of_app]%elem_of_cons.
      * apply (Hd2 R Hx). by left.
      * destruct (HpU x Hx') as [_ Hns]. apply Hns, Hin.
        apply elem_of_app. by left.
      * apply (Hd2 x Hx). by right.
    + apply NoDup_cons. split.
      * intros [Hx|Hx]%elem_of_app; [|done].
        destruct (HpU R Hx) as [_ Hns]. apply Hns, Hin.
        apply elem_of_app. right. by left.
      * apply NoDup_app. split_and!; [done| |done].
        intros x Hx Hx'. destruct (HpU x Hx) as [_ Hns]. apply Hns, Hin.
        apply elem_of_app. right. by right.
  - intros x. rewrite fmap_app, <- app_assoc. cbn.
    intros [Hx|[->|[Hx|Hx]%elem_of_app]%elem_of_cons]%elem_of_app.
    + apply elem_of_union. right. apply Hin, elem_of_app. by left.
    + apply elem_of_union. right. apply Hin, elem_of_app. right. by left.
    + apply elem_of_union. left. by apply elem_of_list_to_set.
    + apply elem_of_union. right. apply Hin, elem_of_app. right. by right.
  - rewrite !fmap_app, concat_app, Hv, Hn. cbn. by rewrite app_nil_r.
  - pose proof (size_unseen U Seen (fst <$> pushed) Hpd HpU) as Hsz.
    rewrite length_fmap in Hsz. rewrite length_app. cbn [length] in Hf. lia.
  - exists vars', done'. split_and!; try done.
    cbn [fmap list_fmap fst take]. etrans; [|exact Hpre].
    apply prefix_app_r. done.
Qed.

Lemma record_offset_neg R o :
  record_offset rs vfuel R (-1) = Some o -> o = -1.
Proof.
  unfold record_offset. destruct (_ || _); [by intros [= <-]|].
  destruct (validateRecord rs vfuel R) as [[]|]; by intros [= <-].
Qed.

(** Under a record that is not laid out every recorded offset is -1. *)
Lemma member_walk_no_offset fuel Stack Seen vars vars' :
  (forall x, x ∈ Stack ->
     x.2 = -1 \/ record_offset rs vfuel x.1 x.2 = Some (-1)) ->
  (forall x, x ∈ vars -> x.2 = -1) ->
  member_walk rs fuel vfuel Stack Seen vars = Some vars' ->
  forall x, x ∈ vars' -> x.2 = -1.
Proof.
  revert Stack Seen vars.
  induction fuel as [|fuel IH]; intros Stack Seen vars HS Hv;
    destruct Stack as [|[R off] Stack]; cbn [member_walk];
    try (by intros [= <-]); try done.
  destruct (record_offset rs vfuel R off) as [offset|] eqn:Eo; [|done].
  assert (Ho : offset < 0).
  { destruct (HS (R, off) ltac:(by left)) as [Hx|Hx]; cbn [fst snd] in Hx.
    - subst off. apply record_offset_neg in Eo. lia.
    - rewrite Hx in Eo. injection Eo as <-. lia. }
  destruct (fold_member_step offset (record_fields rs R) Stack Seen vars)
    as (pushed & named & -> & _ & _ & _ & Hoff).
  apply IH.
  - intros x [Hx|Hx]%elem_of_app.
    + left. apply (Hoff Ho). apply elem_of_app. by left.
    + apply HS. by right.
  - intros x [Hx|Hx]%elem_of_app; [by apply Hv|].
    apply (Hoff Ho). apply elem_of_app. by right.
Qed.


End member_walk_facts.

(** Two records that contain each other: [validateRecord] does not
    return. *)
Lemma validateRecord_cycle n :
  validateRecord ex_records n 40%N = None /\
  validateRecord ex_records n 50%N = None.
Proof.
  induction n as [|n [IH1 IH2]]; [done|].
  cbn [validateRecord]. split; cbn; by rewrite ?IH1, ?IH2.
Qed.

